(** * The CHC encoder of the SMTChecker (libsolidity/formal/CHC.cpp)

    A shallow embedding of [CHC.cpp]: the encoder walks contracts, functions
    and statements, allocates symbolic predicates, emits Horn rules into the
    Horn backend and finally issues one query per reachable assertion.

    The encoder state ([CHC], the members [m_...] of the class) is threaded
    through a state-and-failure monad: a failed [solAssert], a [map::at] on a
    missing key or the dereference of a null pointer aborts the pass.

    The expression encoder [SMTEncoder] (the base class), the symbolic
    encoding context, the Horn backend and the front-end AST live in other
    files of the repository.  What [CHC.cpp] needs from them is either taken
    as a parameter ([Environment]) or modelled from the specification and
    marked as such. *)

From Stdlib Require Import String Ascii List.
From stdpp Require Import base option list gmap sets strings pretty sorting relations.

Import ListNotations.
Local Open Scope string_scope.
Local Open Scope list_scope.
Set Warnings "-register-all".

(** ** smt: sorts, terms, symbolic predicates and the encoding context *)

Module smt.

Inductive CheckResult :=
| SATISFIABLE | UNSATISFIABLE | UNKNOWN | CONFLICTING | ERROR.

#[global] Instance CheckResult_eq_dec : EqDecision CheckResult.
Proof. solve_decision. Defined.

(** [SortProvider::intSort], [SortProvider::boolSort], the sort that
    [smtSortAbstractFunction] gives to a front-end type (types are
    identified by a tag) and function sorts. *)
Inductive Sort :=
| intSort
| boolSort
| abstractSort (typeTag : nat)
| FunctionSort (domain : list Sort) (codomain : Sort).

(** The symbolic variables that own an SSA index. *)
Inductive Symbol :=
| VarSym (declaration : nat)   (* the variable of a [VariableDeclaration] *)
| ExprSym (node : nat)         (* the variable of an expression node *)
| ErrorSym.                    (* [m_error] *)

#[global] Instance Symbol_eq_dec : EqDecision Symbol.
Proof. solve_decision. Defined.

(** [smt::Expression].  [SSA x i] is the instance of index [i] of a symbolic
    variable, [Apply p i args] the application of the relation of index [i]
    of the symbolic predicate named [p]. *)
Inductive Expression :=
| BoolLit (b : bool)
| IntLit (n : nat)
| SSA (x : Symbol) (index : nat)
| Apply (predicate : string) (index : nat) (args : list Expression)
| And (a b : Expression)
| Not (a : Expression)
| Eq (a b : Expression)
| Gt (a b : Expression)
| Implies (a b : Expression)
| TypeConstraint (a : Expression).

Definition symbolName (x : Symbol) : string :=
  match x with
  | VarSym d => "var_" +:+ pretty d
  | ExprSym n => "expr_" +:+ pretty n
  | ErrorSym => "error"
  end.

(** The [name] member of an [smt::Expression]. *)
Definition name (e : Expression) : string :=
  match e with
  | BoolLit true => "true"
  | BoolLit false => "false"
  | IntLit n => pretty n
  | SSA x i => symbolName x +:+ "_" +:+ pretty i
  | Apply p i _ => p +:+ "_" +:+ pretty i
  | And _ _ => "and"
  | Not _ => "not"
  | Eq _ _ => "="
  | Gt _ _ => ">"
  | Implies _ _ => "=>"
  | TypeConstraint _ => "constraint"
  end.

(** [SymbolicFunctionVariable]: a named relation with an SSA index. *)
Record SymbolicFunctionVariable := {
  sfv_name : string;
  sfv_sort : Sort;
  sfv_index : nat;
}.

(** [operator()] of a symbolic predicate. *)
Definition apply (p : SymbolicFunctionVariable) (args : list Expression) : Expression :=
  Apply (sfv_name p) (sfv_index p) args.

Definition increaseIndex (p : SymbolicFunctionVariable) : SymbolicFunctionVariable :=
  {| sfv_name := sfv_name p; sfv_sort := sfv_sort p; sfv_index := S (sfv_index p) |}.

End smt.

(** ** The front-end AST, as far as the encoder looks at it *)

Record VariableDeclaration := {
  var_id : nat;
  var_name : string;
  var_type : nat;
  isStateVariable : bool;
  hasReferenceOrMappingType : bool;
}.

(** The declaration of a contract, as a callee's [annotation().contract]
    shows it.  [baseContracts] are the proper bases in linearisation order. *)
Inductive ContractDeclaration := mkContractDeclaration {
  contract_id : nat;
  contract_name : string;
  isLibrary : bool;
  stateVariables : list VariableDeclaration;
  baseContracts : list ContractDeclaration;
}.

Inductive FunctionKind := Constructor | Function | Fallback | Receive.

(** [TokenTraits::toString] on the kind of a function. *)
Definition TokenTraits_toString (k : FunctionKind) : string :=
  match k with
  | Constructor => "constructor"
  | Function => "function"
  | Fallback => "fallback"
  | Receive => "receive"
  end.

(** A function without its body: what a call site sees of its callee. *)
Record FunctionSignature := {
  fun_id : nat;
  fun_name : string;
  fun_kind : FunctionKind;
  isPublic : bool;
  isImplemented : bool;
  parameters : list VariableDeclaration;
  returnParameters : list VariableDeclaration;
  localVariables : list VariableDeclaration;
  fun_contract : ContractDeclaration;   (* [annotation().contract] *)
}.

Definition isConstructor (f : FunctionSignature) : bool :=
  match fun_kind f with Constructor => true | _ => false end.

Inductive FunctionCallKind :=
| Unset | FunctionCallKind_FunctionCall | TypeConversion | StructConstructorCall.

(** [FunctionType::Kind]; the kinds that [CHC::endVisit(FunctionCall)] does
    not name fall under [OtherKind]. *)
Inductive FunctionTypeKind :=
| Assert | Internal
| External | DelegateCall | BareCall | BareCallCode | BareDelegateCall
| BareStaticCall | Creation | KECCAK256 | ECRecover | SHA256 | RIPEMD160
| BlockHash | AddMod | MulMod
| OtherKind.

Inductive Expression :=
| FunctionCall (id : nat) (kind : FunctionCallKind) (funKind : FunctionTypeKind)
    (definition : option FunctionSignature)
    (expression : Expression) (arguments : list Expression)
| OtherExpression (id : nat) (subexpressions : list Expression).

Definition expr_id (e : Expression) : nat :=
  match e with
  | FunctionCall id _ _ _ _ _ => id
  | OtherExpression id _ => id
  end.

Inductive Statement :=
| Block (id : nat) (statements : list Statement)
| ExpressionStatement (id : nat) (e : Expression)
| OtherStatement (id : nat) (subexpressions : list Expression)
| IfStatement (id : nat) (condition : Expression)
    (trueStatement : Statement) (falseStatement : option Statement)
| WhileStatement (id : nat) (isDoWhile : bool) (condition : Expression) (body : Statement)
| ForStatement (id : nat) (initializationExpression : option Statement)
    (condition : option Expression) (loopExpression : option Statement)
    (body : Statement)
| Break (id : nat)
| Continue (id : nat).

Definition stmt_id (s : Statement) : nat :=
  match s with
  | Block id _ | ExpressionStatement id _ | OtherStatement id _
  | IfStatement id _ _ _ | WhileStatement id _ _ _ | ForStatement id _ _ _ _
  | Break id | Continue id => id
  end.

Record FunctionDefinition := {
  signature :> FunctionSignature;
  fun_body : Statement;
}.

(** A contract with its functions.  [bases] are the nodes of the proper bases
    in linearisation order; [initialValues] are the initialisers of the state
    variables that have one. *)
Inductive ContractDefinition := mkContractDefinition {
  declaration : ContractDeclaration;
  definedFunctions : list FunctionDefinition;
  initialValues : list Expression;
  bases : list ContractDefinition;
}.

Definition linearizedBaseContracts (c : ContractDefinition) : list ContractDefinition :=
  c :: bases c.

Definition constructor (c : ContractDefinition) : option FunctionDefinition :=
  find (fun f : FunctionDefinition => isConstructor f) (definedFunctions c).

Record SourceUnit := {
  source_id : nat;
  experimentalSMTChecker : bool;
  nodes : list ContractDefinition;
}.

(** The nodes that [createBlock], [sort] and [predicateName] are called on:
    [dynamic_cast<FunctionDefinition const*>] succeeds on the first only. *)
Inductive ASTNode :=
| FunctionNode (f : FunctionSignature)
| OtherNode (id : nat).

Definition node_id (n : ASTNode) : nat :=
  match n with
  | FunctionNode f => fun_id f
  | OtherNode id => id
  end.

(** The parts of a [FunctionCall] node. *)
Definition functionCallToDefinition (_funCall : Expression) : option FunctionSignature :=
  match _funCall with
  | FunctionCall _ _ _ d _ _ => d
  | OtherExpression _ _ => None
  end.

Definition arguments (_funCall : Expression) : list Expression :=
  match _funCall with
  | FunctionCall _ _ _ _ _ args => args
  | OtherExpression _ _ => []
  end.

Definition annotation_kind (_funCall : Expression) : FunctionCallKind :=
  match _funCall with
  | FunctionCall _ k _ _ _ _ => k
  | OtherExpression _ _ => Unset
  end.

Definition funType_kind (_funCall : Expression) : FunctionTypeKind :=
  match _funCall with
  | FunctionCall _ _ k _ _ _ => k
  | OtherExpression _ _ => OtherKind
  end.

(** ** The symbolic encoding context *)

(** Modelled from the spec: the symbolic-encoding context ([EncodingContext]
    and the path conditions of [SMTEncoder]) is declared outside [CHC.cpp].
    Following section 4.2 and the design notes of the specification, it keeps
    one SSA index per declared variable and per expression node, with the
    operations current value, value at index [k], bump and reset, a havoc
    primitive that bumps every variable satisfying a predicate, a stack of
    accumulated assertions that is pushed and popped per block, and the path
    conditions of the expression encoder. *)
Record EncodingContext := {
  m_variables : gmap nat (VariableDeclaration * nat);
  m_expressions : gmap nat nat;
  m_assertions : list smt.Expression;     (* innermost frame first *)
  m_accumulateAssertions : bool;
  m_pathConditions : list smt.Expression; (* innermost first *)
}.

Module EncodingContext.

Definition with_variables (f : gmap nat (VariableDeclaration * nat) -> gmap nat (VariableDeclaration * nat))
    (c : EncodingContext) : EncodingContext :=
  {| m_variables := f (m_variables c); m_expressions := m_expressions c;
     m_assertions := m_assertions c;
     m_accumulateAssertions := m_accumulateAssertions c;
     m_pathConditions := m_pathConditions c |}.

Definition with_assertions (f : list smt.Expression -> list smt.Expression)
    (c : EncodingContext) : EncodingContext :=
  {| m_variables := m_variables c; m_expressions := m_expressions c;
     m_assertions := f (m_assertions c);
     m_accumulateAssertions := m_accumulateAssertions c;
     m_pathConditions := m_pathConditions c |}.

Definition empty : EncodingContext :=
  {| m_variables := ∅; m_expressions := ∅; m_assertions := [];
     m_accumulateAssertions := true; m_pathConditions := [] |}.

Definition setAssertionAccumulation (b : bool) (c : EncodingContext) : EncodingContext :=
  {| m_variables := m_variables c; m_expressions := m_expressions c;
     m_assertions := m_assertions c;
     m_accumulateAssertions := b;
     m_pathConditions := m_pathConditions c |}.

Definition knownVariable (v : VariableDeclaration) (c : EncodingContext) : bool :=
  bool_decide (is_Some (m_variables c !! var_id v)).

(** The SSA index of [variable(v)]; the lookup of an unknown variable is an
    internal error. *)
Definition index (v : VariableDeclaration) (c : EncodingContext) : option nat :=
  snd <$> m_variables c !! var_id v.

Definition currentValue (v : VariableDeclaration) (c : EncodingContext) : option smt.Expression :=
  smt.SSA (smt.VarSym (var_id v)) <$> index v c.

Definition valueAtIndex (v : VariableDeclaration) (k : nat) (c : EncodingContext) : option smt.Expression :=
  (fun _ => smt.SSA (smt.VarSym (var_id v)) k) <$> index v c.

Definition increaseIndex (v : VariableDeclaration) (c : EncodingContext) : option EncodingContext :=
  (fun _ => with_variables (alter (fun p => (fst p, S (snd p))) (var_id v)) c) <$> index v c.

Definition resetIndex (v : VariableDeclaration) (c : EncodingContext) : option EncodingContext :=
  (fun _ => with_variables (alter (fun p => (fst p, 0)) (var_id v)) c) <$> index v c.

(** The term of an expression node. *)
Definition expression (e : Expression) (c : EncodingContext) : smt.Expression :=
  smt.SSA (smt.ExprSym (expr_id e)) (default 0 (m_expressions c !! expr_id e)).

Definition assertions (c : EncodingContext) : smt.Expression :=
  match m_assertions c with
  | [] => smt.BoolLit true
  | a :: _ => a
  end.

Definition addAssertion (e : smt.Expression) (c : EncodingContext) : EncodingContext :=
  with_assertions (fun st => match st with
                             | [] => [e]
                             | a :: rest => smt.And e a :: rest
                             end) c.

Definition pushSolver (c : EncodingContext) : EncodingContext :=
  with_assertions (fun st =>
    (if m_accumulateAssertions c then assertions c else smt.BoolLit true) :: st) c.

Definition popSolver (c : EncodingContext) : EncodingContext :=
  with_assertions (fun st => tail st) c.

Definition solverStackHeigh (c : EncodingContext) : nat := length (m_assertions c).

(** The declaration of a variable: a new symbolic variable at index 0 with
    the constraints of its type. *)
Definition createVariable (v : VariableDeclaration) (c : EncodingContext) : EncodingContext :=
  addAssertion (smt.TypeConstraint (smt.SSA (smt.VarSym (var_id v)) 0))
    (with_variables (insert (var_id v) (v, 0)) c).

(** The havoc primitive: every known variable that satisfies [filter] gets
    the next SSA index, and the new instance is constrained by its type
    only. *)
Definition resetVariables (filter : VariableDeclaration -> bool) (c : EncodingContext) : EncodingContext :=
  let havocked := List.filter (fun p => filter (fst p)) (snd <$> map_to_list (m_variables c)) in
  foldr (fun p => addAssertion (smt.TypeConstraint (smt.SSA (smt.VarSym (var_id (fst p))) (S (snd p)))))
    (with_variables (fmap (fun p => if filter (fst p) then (fst p, S (snd p)) else p)) c)
    havocked.

Definition currentPathConditions (c : EncodingContext) : smt.Expression :=
  match m_pathConditions c with
  | [] => smt.BoolLit true
  | p :: _ => p
  end.

End EncodingContext.

(** ** The state of the encoder *)

(** [CHCVerificationTarget]: the block at which the property is checked, the
    guard of the failure and the error id there. *)
Record CHCVerificationTarget := {
  value : smt.Expression;
  constraints : smt.Expression;
  errorId : smt.Expression;
}.

(** The Horn backend as the encoder drives it: [registerRelation] and
    [addRule] append to these lists. *)
Record CHCSolverInterface := {
  relations : list smt.SymbolicFunctionVariable;
  rules : list (smt.Expression * string);
}.

(** The members of the class.  Pointers to AST nodes used as keys of maps and
    as members of sets are the ids of the nodes ([IdCompare]); a source
    location is the id of its node. *)
Record CHC := {
  m_context : EncodingContext;   (* the symbolic encoding context *)
  m_currentContract : option ContractDefinition;
  m_currentFunction : option FunctionDefinition;
  m_genesisPredicate : option smt.SymbolicFunctionVariable;
  m_errorPredicate : option smt.SymbolicFunctionVariable;
  m_constructorSummaryPredicate : option smt.SymbolicFunctionVariable;
  m_implicitConstructorPredicate : option smt.SymbolicFunctionVariable;
  m_interfaces : gmap nat smt.SymbolicFunctionVariable;   (* contract id to interface *)
  m_summaries : gmap nat (gmap nat smt.SymbolicFunctionVariable);   (* contract id to function id to summary *)
  m_error : nat;   (* the SSA index of the error variable *)
  m_stateSorts : list smt.Sort;
  m_stateVariables : list VariableDeclaration;
  m_verificationTargets : gmap nat CHCVerificationTarget;   (* scope id to target *)
  m_safeAssertions : gset nat;   (* ids of the assertions proved safe *)
  m_functionAssertions : gmap nat (gset nat);   (* scope id to ids of assert call sites *)
  m_callGraph : gmap nat (gset nat);   (* caller id to callee ids *)
  m_currentBlock : smt.Expression;
  m_unknownFunctionCallSeen : bool;
  m_breakDest : option smt.SymbolicFunctionVariable;
  m_continueDest : option smt.SymbolicFunctionVariable;
  m_blockCounter : nat;
  m_interface : CHCSolverInterface;   (* the Horn backend *)
  m_outerErrorReporter : list (nat * string);   (* warnings: location and message *)
}.

Definition set_m_context (x : EncodingContext) (s : CHC) : CHC :=
  {| m_context := x; m_currentContract := m_currentContract s;
     m_currentFunction := m_currentFunction s;
     m_genesisPredicate := m_genesisPredicate s;
     m_errorPredicate := m_errorPredicate s;
     m_constructorSummaryPredicate := m_constructorSummaryPredicate s;
     m_implicitConstructorPredicate := m_implicitConstructorPredicate s;
     m_interfaces := m_interfaces s; m_summaries := m_summaries s;
     m_error := m_error s; m_stateSorts := m_stateSorts s;
     m_stateVariables := m_stateVariables s;
     m_verificationTargets := m_verificationTargets s;
     m_safeAssertions := m_safeAssertions s;
     m_functionAssertions := m_functionAssertions s;
     m_callGraph := m_callGraph s; m_currentBlock := m_currentBlock s;
     m_unknownFunctionCallSeen := m_unknownFunctionCallSeen s;
     m_breakDest := m_breakDest s; m_continueDest := m_continueDest s;
     m_blockCounter := m_blockCounter s; m_interface := m_interface s;
     m_outerErrorReporter := m_outerErrorReporter s |}.
Definition set_m_currentContract (x : option ContractDefinition) (s : CHC) : CHC :=
  {| m_context := m_context s; m_currentContract := x;
     m_currentFunction := m_currentFunction s;
     m_genesisPredicate := m_genesisPredicate s;
     m_errorPredicate := m_errorPredicate s;
     m_constructorSummaryPredicate := m_constructorSummaryPredicate s;
     m_implicitConstructorPredicate := m_implicitConstructorPredicate s;
     m_interfaces := m_interfaces s; m_summaries := m_summaries s;
     m_error := m_error s; m_stateSorts := m_stateSorts s;
     m_stateVariables := m_stateVariables s;
     m_verificationTargets := m_verificationTargets s;
     m_safeAssertions := m_safeAssertions s;
     m_functionAssertions := m_functionAssertions s;
     m_callGraph := m_callGraph s; m_currentBlock := m_currentBlock s;
     m_unknownFunctionCallSeen := m_unknownFunctionCallSeen s;
     m_breakDest := m_breakDest s; m_continueDest := m_continueDest s;
     m_blockCounter := m_blockCounter s; m_interface := m_interface s;
     m_outerErrorReporter := m_outerErrorReporter s |}.
Definition set_m_currentFunction (x : option FunctionDefinition) (s : CHC) : CHC :=
  {| m_context := m_context s; m_currentContract := m_currentContract s;
     m_currentFunction := x; m_genesisPredicate := m_genesisPredicate s;
     m_errorPredicate := m_errorPredicate s;
     m_constructorSummaryPredicate := m_constructorSummaryPredicate s;
     m_implicitConstructorPredicate := m_implicitConstructorPredicate s;
     m_interfaces := m_interfaces s; m_summaries := m_summaries s;
     m_error := m_error s; m_stateSorts := m_stateSorts s;
     m_stateVariables := m_stateVariables s;
     m_verificationTargets := m_verificationTargets s;
     m_safeAssertions := m_safeAssertions s;
     m_functionAssertions := m_functionAssertions s;
     m_callGraph := m_callGraph s; m_currentBlock := m_currentBlock s;
     m_unknownFunctionCallSeen := m_unknownFunctionCallSeen s;
     m_breakDest := m_breakDest s; m_continueDest := m_continueDest s;
     m_blockCounter := m_blockCounter s; m_interface := m_interface s;
     m_outerErrorReporter := m_outerErrorReporter s |}.
Definition set_m_genesisPredicate (x : option smt.SymbolicFunctionVariable) (s : CHC) : CHC :=
  {| m_context := m_context s; m_currentContract := m_currentContract s;
     m_currentFunction := m_currentFunction s; m_genesisPredicate := x;
     m_errorPredicate := m_errorPredicate s;
     m_constructorSummaryPredicate := m_constructorSummaryPredicate s;
     m_implicitConstructorPredicate := m_implicitConstructorPredicate s;
     m_interfaces := m_interfaces s; m_summaries := m_summaries s;
     m_error := m_error s; m_stateSorts := m_stateSorts s;
     m_stateVariables := m_stateVariables s;
     m_verificationTargets := m_verificationTargets s;
     m_safeAssertions := m_safeAssertions s;
     m_functionAssertions := m_functionAssertions s;
     m_callGraph := m_callGraph s; m_currentBlock := m_currentBlock s;
     m_unknownFunctionCallSeen := m_unknownFunctionCallSeen s;
     m_breakDest := m_breakDest s; m_continueDest := m_continueDest s;
     m_blockCounter := m_blockCounter s; m_interface := m_interface s;
     m_outerErrorReporter := m_outerErrorReporter s |}.
Definition set_m_errorPredicate (x : option smt.SymbolicFunctionVariable) (s : CHC) : CHC :=
  {| m_context := m_context s; m_currentContract := m_currentContract s;
     m_currentFunction := m_currentFunction s;
     m_genesisPredicate := m_genesisPredicate s; m_errorPredicate := x;
     m_constructorSummaryPredicate := m_constructorSummaryPredicate s;
     m_implicitConstructorPredicate := m_implicitConstructorPredicate s;
     m_interfaces := m_interfaces s; m_summaries := m_summaries s;
     m_error := m_error s; m_stateSorts := m_stateSorts s;
     m_stateVariables := m_stateVariables s;
     m_verificationTargets := m_verificationTargets s;
     m_safeAssertions := m_safeAssertions s;
     m_functionAssertions := m_functionAssertions s;
     m_callGraph := m_callGraph s; m_currentBlock := m_currentBlock s;
     m_unknownFunctionCallSeen := m_unknownFunctionCallSeen s;
     m_breakDest := m_breakDest s; m_continueDest := m_continueDest s;
     m_blockCounter := m_blockCounter s; m_interface := m_interface s;
     m_outerErrorReporter := m_outerErrorReporter s |}.
Definition set_m_constructorSummaryPredicate (x : option smt.SymbolicFunctionVariable) (s : CHC) : CHC :=
  {| m_context := m_context s; m_currentContract := m_currentContract s;
     m_currentFunction := m_currentFunction s;
     m_genesisPredicate := m_genesisPredicate s;
     m_errorPredicate := m_errorPredicate s;
     m_constructorSummaryPredicate := x;
     m_implicitConstructorPredicate := m_implicitConstructorPredicate s;
     m_interfaces := m_interfaces s; m_summaries := m_summaries s;
     m_error := m_error s; m_stateSorts := m_stateSorts s;
     m_stateVariables := m_stateVariables s;
     m_verificationTargets := m_verificationTargets s;
     m_safeAssertions := m_safeAssertions s;
     m_functionAssertions := m_functionAssertions s;
     m_callGraph := m_callGraph s; m_currentBlock := m_currentBlock s;
     m_unknownFunctionCallSeen := m_unknownFunctionCallSeen s;
     m_breakDest := m_breakDest s; m_continueDest := m_continueDest s;
     m_blockCounter := m_blockCounter s; m_interface := m_interface s;
     m_outerErrorReporter := m_outerErrorReporter s |}.
Definition set_m_implicitConstructorPredicate (x : option smt.SymbolicFunctionVariable) (s : CHC) : CHC :=
  {| m_context := m_context s; m_currentContract := m_currentContract s;
     m_currentFunction := m_currentFunction s;
     m_genesisPredicate := m_genesisPredicate s;
     m_errorPredicate := m_errorPredicate s;
     m_constructorSummaryPredicate := m_constructorSummaryPredicate s;
     m_implicitConstructorPredicate := x; m_interfaces := m_interfaces s;
     m_summaries := m_summaries s; m_error := m_error s;
     m_stateSorts := m_stateSorts s; m_stateVariables := m_stateVariables s;
     m_verificationTargets := m_verificationTargets s;
     m_safeAssertions := m_safeAssertions s;
     m_functionAssertions := m_functionAssertions s;
     m_callGraph := m_callGraph s; m_currentBlock := m_currentBlock s;
     m_unknownFunctionCallSeen := m_unknownFunctionCallSeen s;
     m_breakDest := m_breakDest s; m_continueDest := m_continueDest s;
     m_blockCounter := m_blockCounter s; m_interface := m_interface s;
     m_outerErrorReporter := m_outerErrorReporter s |}.
Definition set_m_interfaces (x : gmap nat smt.SymbolicFunctionVariable) (s : CHC) : CHC :=
  {| m_context := m_context s; m_currentContract := m_currentContract s;
     m_currentFunction := m_currentFunction s;
     m_genesisPredicate := m_genesisPredicate s;
     m_errorPredicate := m_errorPredicate s;
     m_constructorSummaryPredicate := m_constructorSummaryPredicate s;
     m_implicitConstructorPredicate := m_implicitConstructorPredicate s;
     m_interfaces := x; m_summaries := m_summaries s; m_error := m_error s;
     m_stateSorts := m_stateSorts s; m_stateVariables := m_stateVariables s;
     m_verificationTargets := m_verificationTargets s;
     m_safeAssertions := m_safeAssertions s;
     m_functionAssertions := m_functionAssertions s;
     m_callGraph := m_callGraph s; m_currentBlock := m_currentBlock s;
     m_unknownFunctionCallSeen := m_unknownFunctionCallSeen s;
     m_breakDest := m_breakDest s; m_continueDest := m_continueDest s;
     m_blockCounter := m_blockCounter s; m_interface := m_interface s;
     m_outerErrorReporter := m_outerErrorReporter s |}.
Definition set_m_summaries (x : gmap nat (gmap nat smt.SymbolicFunctionVariable)) (s : CHC) : CHC :=
  {| m_context := m_context s; m_currentContract := m_currentContract s;
     m_currentFunction := m_currentFunction s;
     m_genesisPredicate := m_genesisPredicate s;
     m_errorPredicate := m_errorPredicate s;
     m_constructorSummaryPredicate := m_constructorSummaryPredicate s;
     m_implicitConstructorPredicate := m_implicitConstructorPredicate s;
     m_interfaces := m_interfaces s; m_summaries := x; m_error := m_error s;
     m_stateSorts := m_stateSorts s; m_stateVariables := m_stateVariables s;
     m_verificationTargets := m_verificationTargets s;
     m_safeAssertions := m_safeAssertions s;
     m_functionAssertions := m_functionAssertions s;
     m_callGraph := m_callGraph s; m_currentBlock := m_currentBlock s;
     m_unknownFunctionCallSeen := m_unknownFunctionCallSeen s;
     m_breakDest := m_breakDest s; m_continueDest := m_continueDest s;
     m_blockCounter := m_blockCounter s; m_interface := m_interface s;
     m_outerErrorReporter := m_outerErrorReporter s |}.
Definition set_m_error (x : nat) (s : CHC) : CHC :=
  {| m_context := m_context s; m_currentContract := m_currentContract s;
     m_currentFunction := m_currentFunction s;
     m_genesisPredicate := m_genesisPredicate s;
     m_errorPredicate := m_errorPredicate s;
     m_constructorSummaryPredicate := m_constructorSummaryPredicate s;
     m_implicitConstructorPredicate := m_implicitConstructorPredicate s;
     m_interfaces := m_interfaces s; m_summaries := m_summaries s;
     m_error := x; m_stateSorts := m_stateSorts s;
     m_stateVariables := m_stateVariables s;
     m_verificationTargets := m_verificationTargets s;
     m_safeAssertions := m_safeAssertions s;
     m_functionAssertions := m_functionAssertions s;
     m_callGraph := m_callGraph s; m_currentBlock := m_currentBlock s;
     m_unknownFunctionCallSeen := m_unknownFunctionCallSeen s;
     m_breakDest := m_breakDest s; m_continueDest := m_continueDest s;
     m_blockCounter := m_blockCounter s; m_interface := m_interface s;
     m_outerErrorReporter := m_outerErrorReporter s |}.
Definition set_m_stateSorts (x : list smt.Sort) (s : CHC) : CHC :=
  {| m_context := m_context s; m_currentContract := m_currentContract s;
     m_currentFunction := m_currentFunction s;
     m_genesisPredicate := m_genesisPredicate s;
     m_errorPredicate := m_errorPredicate s;
     m_constructorSummaryPredicate := m_constructorSummaryPredicate s;
     m_implicitConstructorPredicate := m_implicitConstructorPredicate s;
     m_interfaces := m_interfaces s; m_summaries := m_summaries s;
     m_error := m_error s; m_stateSorts := x;
     m_stateVariables := m_stateVariables s;
     m_verificationTargets := m_verificationTargets s;
     m_safeAssertions := m_safeAssertions s;
     m_functionAssertions := m_functionAssertions s;
     m_callGraph := m_callGraph s; m_currentBlock := m_currentBlock s;
     m_unknownFunctionCallSeen := m_unknownFunctionCallSeen s;
     m_breakDest := m_breakDest s; m_continueDest := m_continueDest s;
     m_blockCounter := m_blockCounter s; m_interface := m_interface s;
     m_outerErrorReporter := m_outerErrorReporter s |}.
Definition set_m_stateVariables (x : list VariableDeclaration) (s : CHC) : CHC :=
  {| m_context := m_context s; m_currentContract := m_currentContract s;
     m_currentFunction := m_currentFunction s;
     m_genesisPredicate := m_genesisPredicate s;
     m_errorPredicate := m_errorPredicate s;
     m_constructorSummaryPredicate := m_constructorSummaryPredicate s;
     m_implicitConstructorPredicate := m_implicitConstructorPredicate s;
     m_interfaces := m_interfaces s; m_summaries := m_summaries s;
     m_error := m_error s; m_stateSorts := m_stateSorts s;
     m_stateVariables := x;
     m_verificationTargets := m_verificationTargets s;
     m_safeAssertions := m_safeAssertions s;
     m_functionAssertions := m_functionAssertions s;
     m_callGraph := m_callGraph s; m_currentBlock := m_currentBlock s;
     m_unknownFunctionCallSeen := m_unknownFunctionCallSeen s;
     m_breakDest := m_breakDest s; m_continueDest := m_continueDest s;
     m_blockCounter := m_blockCounter s; m_interface := m_interface s;
     m_outerErrorReporter := m_outerErrorReporter s |}.
Definition set_m_verificationTargets (x : gmap nat CHCVerificationTarget) (s : CHC) : CHC :=
  {| m_context := m_context s; m_currentContract := m_currentContract s;
     m_currentFunction := m_currentFunction s;
     m_genesisPredicate := m_genesisPredicate s;
     m_errorPredicate := m_errorPredicate s;
     m_constructorSummaryPredicate := m_constructorSummaryPredicate s;
     m_implicitConstructorPredicate := m_implicitConstructorPredicate s;
     m_interfaces := m_interfaces s; m_summaries := m_summaries s;
     m_error := m_error s; m_stateSorts := m_stateSorts s;
     m_stateVariables := m_stateVariables s; m_verificationTargets := x;
     m_safeAssertions := m_safeAssertions s;
     m_functionAssertions := m_functionAssertions s;
     m_callGraph := m_callGraph s; m_currentBlock := m_currentBlock s;
     m_unknownFunctionCallSeen := m_unknownFunctionCallSeen s;
     m_breakDest := m_breakDest s; m_continueDest := m_continueDest s;
     m_blockCounter := m_blockCounter s; m_interface := m_interface s;
     m_outerErrorReporter := m_outerErrorReporter s |}.
Definition set_m_safeAssertions (x : gset nat) (s : CHC) : CHC :=
  {| m_context := m_context s; m_currentContract := m_currentContract s;
     m_currentFunction := m_currentFunction s;
     m_genesisPredicate := m_genesisPredicate s;
     m_errorPredicate := m_errorPredicate s;
     m_constructorSummaryPredicate := m_constructorSummaryPredicate s;
     m_implicitConstructorPredicate := m_implicitConstructorPredicate s;
     m_interfaces := m_interfaces s; m_summaries := m_summaries s;
     m_error := m_error s; m_stateSorts := m_stateSorts s;
     m_stateVariables := m_stateVariables s;
     m_verificationTargets := m_verificationTargets s;
     m_safeAssertions := x; m_functionAssertions := m_functionAssertions s;
     m_callGraph := m_callGraph s; m_currentBlock := m_currentBlock s;
     m_unknownFunctionCallSeen := m_unknownFunctionCallSeen s;
     m_breakDest := m_breakDest s; m_continueDest := m_continueDest s;
     m_blockCounter := m_blockCounter s; m_interface := m_interface s;
     m_outerErrorReporter := m_outerErrorReporter s |}.
Definition set_m_functionAssertions (x : gmap nat (gset nat)) (s : CHC) : CHC :=
  {| m_context := m_context s; m_currentContract := m_currentContract s;
     m_currentFunction := m_currentFunction s;
     m_genesisPredicate := m_genesisPredicate s;
     m_errorPredicate := m_errorPredicate s;
     m_constructorSummaryPredicate := m_constructorSummaryPredicate s;
     m_implicitConstructorPredicate := m_implicitConstructorPredicate s;
     m_interfaces := m_interfaces s; m_summaries := m_summaries s;
     m_error := m_error s; m_stateSorts := m_stateSorts s;
     m_stateVariables := m_stateVariables s;
     m_verificationTargets := m_verificationTargets s;
     m_safeAssertions := m_safeAssertions s; m_functionAssertions := x;
     m_callGraph := m_callGraph s; m_currentBlock := m_currentBlock s;
     m_unknownFunctionCallSeen := m_unknownFunctionCallSeen s;
     m_breakDest := m_breakDest s; m_continueDest := m_continueDest s;
     m_blockCounter := m_blockCounter s; m_interface := m_interface s;
     m_outerErrorReporter := m_outerErrorReporter s |}.
Definition set_m_callGraph (x : gmap nat (gset nat)) (s : CHC) : CHC :=
  {| m_context := m_context s; m_currentContract := m_currentContract s;
     m_currentFunction := m_currentFunction s;
     m_genesisPredicate := m_genesisPredicate s;
     m_errorPredicate := m_errorPredicate s;
     m_constructorSummaryPredicate := m_constructorSummaryPredicate s;
     m_implicitConstructorPredicate := m_implicitConstructorPredicate s;
     m_interfaces := m_interfaces s; m_summaries := m_summaries s;
     m_error := m_error s; m_stateSorts := m_stateSorts s;
     m_stateVariables := m_stateVariables s;
     m_verificationTargets := m_verificationTargets s;
     m_safeAssertions := m_safeAssertions s;
     m_functionAssertions := m_functionAssertions s; m_callGraph := x;
     m_currentBlock := m_currentBlock s;
     m_unknownFunctionCallSeen := m_unknownFunctionCallSeen s;
     m_breakDest := m_breakDest s; m_continueDest := m_continueDest s;
     m_blockCounter := m_blockCounter s; m_interface := m_interface s;
     m_outerErrorReporter := m_outerErrorReporter s |}.
Definition set_m_currentBlock (x : smt.Expression) (s : CHC) : CHC :=
  {| m_context := m_context s; m_currentContract := m_currentContract s;
     m_currentFunction := m_currentFunction s;
     m_genesisPredicate := m_genesisPredicate s;
     m_errorPredicate := m_errorPredicate s;
     m_constructorSummaryPredicate := m_constructorSummaryPredicate s;
     m_implicitConstructorPredicate := m_implicitConstructorPredicate s;
     m_interfaces := m_interfaces s; m_summaries := m_summaries s;
     m_error := m_error s; m_stateSorts := m_stateSorts s;
     m_stateVariables := m_stateVariables s;
     m_verificationTargets := m_verificationTargets s;
     m_safeAssertions := m_safeAssertions s;
     m_functionAssertions := m_functionAssertions s;
     m_callGraph := m_callGraph s; m_currentBlock := x;
     m_unknownFunctionCallSeen := m_unknownFunctionCallSeen s;
     m_breakDest := m_breakDest s; m_continueDest := m_continueDest s;
     m_blockCounter := m_blockCounter s; m_interface := m_interface s;
     m_outerErrorReporter := m_outerErrorReporter s |}.
Definition set_m_unknownFunctionCallSeen (x : bool) (s : CHC) : CHC :=
  {| m_context := m_context s; m_currentContract := m_currentContract s;
     m_currentFunction := m_currentFunction s;
     m_genesisPredicate := m_genesisPredicate s;
     m_errorPredicate := m_errorPredicate s;
     m_constructorSummaryPredicate := m_constructorSummaryPredicate s;
     m_implicitConstructorPredicate := m_implicitConstructorPredicate s;
     m_interfaces := m_interfaces s; m_summaries := m_summaries s;
     m_error := m_error s; m_stateSorts := m_stateSorts s;
     m_stateVariables := m_stateVariables s;
     m_verificationTargets := m_verificationTargets s;
     m_safeAssertions := m_safeAssertions s;
     m_functionAssertions := m_functionAssertions s;
     m_callGraph := m_callGraph s; m_currentBlock := m_currentBlock s;
     m_unknownFunctionCallSeen := x; m_breakDest := m_breakDest s;
     m_continueDest := m_continueDest s; m_blockCounter := m_blockCounter s;
     m_interface := m_interface s;
     m_outerErrorReporter := m_outerErrorReporter s |}.
Definition set_m_breakDest (x : option smt.SymbolicFunctionVariable) (s : CHC) : CHC :=
  {| m_context := m_context s; m_currentContract := m_currentContract s;
     m_currentFunction := m_currentFunction s;
     m_genesisPredicate := m_genesisPredicate s;
     m_errorPredicate := m_errorPredicate s;
     m_constructorSummaryPredicate := m_constructorSummaryPredicate s;
     m_implicitConstructorPredicate := m_implicitConstructorPredicate s;
     m_interfaces := m_interfaces s; m_summaries := m_summaries s;
     m_error := m_error s; m_stateSorts := m_stateSorts s;
     m_stateVariables := m_stateVariables s;
     m_verificationTargets := m_verificationTargets s;
     m_safeAssertions := m_safeAssertions s;
     m_functionAssertions := m_functionAssertions s;
     m_callGraph := m_callGraph s; m_currentBlock := m_currentBlock s;
     m_unknownFunctionCallSeen := m_unknownFunctionCallSeen s;
     m_breakDest := x; m_continueDest := m_continueDest s;
     m_blockCounter := m_blockCounter s; m_interface := m_interface s;
     m_outerErrorReporter := m_outerErrorReporter s |}.
Definition set_m_continueDest (x : option smt.SymbolicFunctionVariable) (s : CHC) : CHC :=
  {| m_context := m_context s; m_currentContract := m_currentContract s;
     m_currentFunction := m_currentFunction s;
     m_genesisPredicate := m_genesisPredicate s;
     m_errorPredicate := m_errorPredicate s;
     m_constructorSummaryPredicate := m_constructorSummaryPredicate s;
     m_implicitConstructorPredicate := m_implicitConstructorPredicate s;
     m_interfaces := m_interfaces s; m_summaries := m_summaries s;
     m_error := m_error s; m_stateSorts := m_stateSorts s;
     m_stateVariables := m_stateVariables s;
     m_verificationTargets := m_verificationTargets s;
     m_safeAssertions := m_safeAssertions s;
     m_functionAssertions := m_functionAssertions s;
     m_callGraph := m_callGraph s; m_currentBlock := m_currentBlock s;
     m_unknownFunctionCallSeen := m_unknownFunctionCallSeen s;
     m_breakDest := m_breakDest s; m_continueDest := x;
     m_blockCounter := m_blockCounter s; m_interface := m_interface s;
     m_outerErrorReporter := m_outerErrorReporter s |}.
Definition set_m_blockCounter (x : nat) (s : CHC) : CHC :=
  {| m_context := m_context s; m_currentContract := m_currentContract s;
     m_currentFunction := m_currentFunction s;
     m_genesisPredicate := m_genesisPredicate s;
     m_errorPredicate := m_errorPredicate s;
     m_constructorSummaryPredicate := m_constructorSummaryPredicate s;
     m_implicitConstructorPredicate := m_implicitConstructorPredicate s;
     m_interfaces := m_interfaces s; m_summaries := m_summaries s;
     m_error := m_error s; m_stateSorts := m_stateSorts s;
     m_stateVariables := m_stateVariables s;
     m_verificationTargets := m_verificationTargets s;
     m_safeAssertions := m_safeAssertions s;
     m_functionAssertions := m_functionAssertions s;
     m_callGraph := m_callGraph s; m_currentBlock := m_currentBlock s;
     m_unknownFunctionCallSeen := m_unknownFunctionCallSeen s;
     m_breakDest := m_breakDest s; m_continueDest := m_continueDest s;
     m_blockCounter := x; m_interface := m_interface s;
     m_outerErrorReporter := m_outerErrorReporter s |}.
Definition set_m_interface (x : CHCSolverInterface) (s : CHC) : CHC :=
  {| m_context := m_context s; m_currentContract := m_currentContract s;
     m_currentFunction := m_currentFunction s;
     m_genesisPredicate := m_genesisPredicate s;
     m_errorPredicate := m_errorPredicate s;
     m_constructorSummaryPredicate := m_constructorSummaryPredicate s;
     m_implicitConstructorPredicate := m_implicitConstructorPredicate s;
     m_interfaces := m_interfaces s; m_summaries := m_summaries s;
     m_error := m_error s; m_stateSorts := m_stateSorts s;
     m_stateVariables := m_stateVariables s;
     m_verificationTargets := m_verificationTargets s;
     m_safeAssertions := m_safeAssertions s;
     m_functionAssertions := m_functionAssertions s;
     m_callGraph := m_callGraph s; m_currentBlock := m_currentBlock s;
     m_unknownFunctionCallSeen := m_unknownFunctionCallSeen s;
     m_breakDest := m_breakDest s; m_continueDest := m_continueDest s;
     m_blockCounter := m_blockCounter s; m_interface := x;
     m_outerErrorReporter := m_outerErrorReporter s |}.
Definition set_m_outerErrorReporter (x : list (nat * string)) (s : CHC) : CHC :=
  {| m_context := m_context s; m_currentContract := m_currentContract s;
     m_currentFunction := m_currentFunction s;
     m_genesisPredicate := m_genesisPredicate s;
     m_errorPredicate := m_errorPredicate s;
     m_constructorSummaryPredicate := m_constructorSummaryPredicate s;
     m_implicitConstructorPredicate := m_implicitConstructorPredicate s;
     m_interfaces := m_interfaces s; m_summaries := m_summaries s;
     m_error := m_error s; m_stateSorts := m_stateSorts s;
     m_stateVariables := m_stateVariables s;
     m_verificationTargets := m_verificationTargets s;
     m_safeAssertions := m_safeAssertions s;
     m_functionAssertions := m_functionAssertions s;
     m_callGraph := m_callGraph s; m_currentBlock := m_currentBlock s;
     m_unknownFunctionCallSeen := m_unknownFunctionCallSeen s;
     m_breakDest := m_breakDest s; m_continueDest := m_continueDest s;
     m_blockCounter := m_blockCounter s; m_interface := m_interface s;
     m_outerErrorReporter := x |}.

(** ** What the encoder takes from its collaborators *)

(** The points at which [CHC.cpp] hands control to the expression encoder
    [SMTEncoder], whose code is outside this file. *)
Inductive BaseEvent :=
| InitContract (c : ContractDefinition)
| VisitContract (c : ContractDefinition)
| EndVisitContract (c : ContractDefinition)
| InitFunction (f : FunctionDefinition)
| VisitFunction (f : FunctionDefinition)
| EndVisitFunction (f : FunctionDefinition)
| InitializeStateVariables (c : ContractDefinition)
| AssignInitialValue (e : Expression)
| SetZeroValue (v : VariableDeclaration)
| ClearIndices (c : ContractDefinition) (f : option FunctionDefinition)
| VisitExpression (e : Expression)
| EndVisitExpression (e : Expression)
| EndVisitFunctionCall (e : Expression)
| CreateReturnedExpressions (e : Expression)
| VisitStatement (s : Statement)
| EndVisitStatement (s : Statement).

(** The parameters of the development: the effect of the expression encoder
    on the encoding context at each of these points, the argument terms it
    builds for a call, the functions of a contract that
    [SMTEncoder::visit(ContractDefinition)] dispatches to, and the answers of
    the Horn solver. *)
Class Environment := {
  SMTEncoder_effect : BaseEvent -> EncodingContext -> EncodingContext;
  symbolicArguments : Expression -> EncodingContext -> list smt.Expression;
  resolvedFunctions : ContractDefinition -> list FunctionDefinition;
  solver_query : CHCSolverInterface -> smt.Expression -> smt.CheckResult * list string;
}.

(** ** The monad of the encoder *)

Definition M (A : Type) : Type := CHC -> option (A * CHC).

Definition ret {A} (a : A) : M A := fun s => Some (a, s).

Definition bind {A B} (m : M A) (k : A -> M B) : M B :=
  fun s => match m s with
           | Some (a, s') => k a s'
           | None => None
           end.

Declare Scope chc_scope.
Delimit Scope chc_scope with chc.
Bind Scope chc_scope with M.
Notation "x <- m ;; k" := (bind m (fun x => k))
  (at level 100, m at next level, right associativity) : chc_scope.
Notation "m ;; k" := (bind m (fun _ => k))
  (at level 100, right associativity) : chc_scope.
Local Open Scope chc_scope.

(** An internal error: the pass is aborted. *)
Definition fail {A} : M A := fun _ => None.

Definition get : M CHC := fun s => Some (s, s).
Definition gets {A} (f : CHC -> A) : M A := fun s => Some (f s, s).
Definition modify (f : CHC -> CHC) : M unit := fun s => Some (tt, f s).

Definition solAssert (b : bool) : M unit := if b then ret tt else fail.

(** The dereference of a pointer that may be null, and [map::at]. *)
Definition deref {A} (o : option A) : M A :=
  match o with
  | Some a => ret a
  | None => fail
  end.

Definition forEach {A} (l : list A) (f : A -> M unit) : M unit :=
  (fix go (l : list A) : M unit :=
     match l with
     | [] => ret tt
     | a :: l' => f a ;; go l'
     end) l.

Fixpoint mapM {A B} (f : A -> M B) (l : list A) : M (list B) :=
  match l with
  | [] => ret []
  | a :: l' => b <- f a ;; bs <- mapM f l' ;; ret (b :: bs)
  end.

(** ** util::BreadthFirstSearch *)

(** Modelled from the spec: [util::BreadthFirstSearch] (libsolutil) is not
    part of [CHC.cpp].  Section 4.7 of the specification: a breadth-first
    traversal starting at the root that runs the callback once on every
    vertex it reaches; the callback adds the children of the vertex, and a
    child that was visited already is not added again.  [forEachChild]
    returns the new accumulator and the children it passes to [_addChild].
    A vertex is taken from [verticesToTraverse] in the iteration order of
    the set.  [fuel] bounds the number of iterations. *)
Fixpoint BreadthFirstSearch_run {A} (fuel : nat)
    (forEachChild : nat -> A -> A * gset nat)
    (verticesToTraverse visited : gset nat) (acc : A) : option (A * gset nat) :=
  match fuel with
  | 0 => None
  | S fuel' =>
      match elements verticesToTraverse with
      | [] => Some (acc, visited)
      | v :: _ =>
          let verticesToTraverse := verticesToTraverse ∖ {[v]} in
          let visited := visited ∪ {[v]} in
          let '(acc, children) := forEachChild v acc in
          BreadthFirstSearch_run fuel' forEachChild
            (verticesToTraverse ∪ filter (fun c => c ∉ visited) children) visited acc
      end
  end.

(** [IdCompare]: the order of the maps and sets keyed by AST nodes. *)
Definition IdCompare {V} (x y : nat * V) : Prop := (x.1 <= y.1)%nat.

#[global] Instance IdCompare_dec {V} (x y : nat * V) : Decision (IdCompare x y).
Proof. unfold IdCompare. apply _. Defined.

(** ** CHC *)

Module CHC.
Section Encoder.

Context `{Environment}.

(** *** Access to the encoding context and to the error variable *)

Definition modifyContext (f : EncodingContext -> EncodingContext) : M unit :=
  modify (fun s => set_m_context (f (m_context s)) s).

(** A call into the base class. *)
Definition SMTEncoder (ev : BaseEvent) : M unit :=
  modifyContext (SMTEncoder_effect ev).

Definition addAssertion (e : smt.Expression) : M unit :=
  modifyContext (EncodingContext.addAssertion e).

Definition currentValue (v : VariableDeclaration) : M smt.Expression :=
  c <- gets m_context ;; deref (EncodingContext.currentValue v c).

Definition valueAtIndex (v : VariableDeclaration) (k : nat) : M smt.Expression :=
  c <- gets m_context ;; deref (EncodingContext.valueAtIndex v k c).

Definition increaseIndex (v : VariableDeclaration) : M unit :=
  c <- gets m_context ;;
  c' <- deref (EncodingContext.increaseIndex v c) ;;
  modify (set_m_context c').

Definition resetIndex (v : VariableDeclaration) : M unit :=
  c <- gets m_context ;;
  c' <- deref (EncodingContext.resetIndex v c) ;;
  modify (set_m_context c').

Definition expr (e : Expression) : M smt.Expression :=
  gets (fun s => EncodingContext.expression e (m_context s)).

Definition currentPathConditions : M smt.Expression :=
  gets (fun s => EncodingContext.currentPathConditions (m_context s)).

(** [m_error.currentValue()], [m_error.increaseIndex()] and
    [m_error.resetIndex()]. *)
Definition errorValue (s : CHC) : smt.Expression := smt.SSA smt.ErrorSym (m_error s).
Definition m_error_currentValue : M smt.Expression := gets errorValue.
Definition m_error_increaseIndex : M unit :=
  modify (fun s => set_m_error (S (m_error s)) s).
Definition m_error_resetIndex : M unit := modify (set_m_error 0).

Definition currentContract : M ContractDefinition :=
  c <- gets m_currentContract ;; deref c.

Definition currentFunction : M FunctionDefinition :=
  f <- gets m_currentFunction ;; deref f.

(** *** The Horn backend *)

Definition register (r : smt.SymbolicFunctionVariable) (s : CHC) : CHC :=
  set_m_interface
    {| relations := relations (m_interface s) ++ [r];
       rules := rules (m_interface s) |} s.

Definition emitRule (r : smt.Expression * string) (s : CHC) : CHC :=
  set_m_interface
    {| relations := relations (m_interface s);
       rules := rules (m_interface s) ++ [r] |} s.

Definition registerRelation (r : smt.SymbolicFunctionVariable) : M unit :=
  modify (register r).

Definition addRule (_rule : smt.Expression) (_ruleName : string) : M unit :=
  modify (emitRule (_rule, _ruleName)).

Definition warning (_location : nat) (_message : string) : M unit :=
  modify (fun s => set_m_outerErrorReporter
    (m_outerErrorReporter s ++ [(_location, _message)]) s).

Definition query (_query : smt.Expression) (_location : nat)
    : M (smt.CheckResult * list string) :=
  backend <- gets m_interface ;;
  let '(result, values) := solver_query backend _query in
  match result with
  | smt.SATISFIABLE => ret tt
  | smt.UNSATISFIABLE => ret tt
  | smt.UNKNOWN => ret tt
  | smt.CONFLICTING =>
      warning _location
        "At least two SMT solvers provided conflicting answers. Results might not be sound."
  | smt.ERROR =>
      warning _location "Error trying to invoke SMT solver."
  end ;;
  ret (result, values).

(** *** Predicates and their names *)

Definition createSymbolicBlock (_sort : smt.Sort) (_name : string)
    : M smt.SymbolicFunctionVariable :=
  let block := {| smt.sfv_name := _name; smt.sfv_sort := _sort; smt.sfv_index := 0 |} in
  registerRelation block ;;
  ret block.

Definition uniquePrefix : M string :=
  n <- gets m_blockCounter ;;
  modify (set_m_blockCounter (S n)) ;;
  ret (pretty n).

Definition stateVariablesIncludingInheritedAndPrivate (_contract : ContractDeclaration)
    : list VariableDeclaration :=
  flat_map stateVariables (_contract :: baseContracts _contract).

Definition smtSortAbstractFunction (v : VariableDeclaration) : smt.Sort :=
  smt.abstractSort (var_type v).

Definition stateSorts (_contract : ContractDeclaration) : list smt.Sort :=
  map smtSortAbstractFunction (stateVariablesIncludingInheritedAndPrivate _contract).

Definition constructorSort : M smt.Sort :=
  gets (fun s => smt.FunctionSort (smt.intSort :: m_stateSorts s) smt.boolSort).

Definition interfaceSort : M smt.Sort :=
  gets (fun s => smt.FunctionSort (m_stateSorts s) smt.boolSort).

Definition interfaceSort_of (_contract : ContractDeclaration) : smt.Sort :=
  smt.FunctionSort (stateSorts _contract) smt.boolSort.

Definition sort_function (_function : FunctionSignature) : M smt.Sort :=
  sorts <- gets m_stateSorts ;;
  let inputSorts := map smtSortAbstractFunction (parameters _function) in
  let outputSorts := map smtSortAbstractFunction (returnParameters _function) in
  ret (smt.FunctionSort
         (smt.intSort :: sorts ++ inputSorts ++ sorts ++ inputSorts ++ outputSorts)
         smt.boolSort).

Definition sort (_node : ASTNode) : M smt.Sort :=
  match _node with
  | FunctionNode funDef => sort_function funDef
  | OtherNode _ =>
      f <- currentFunction ;;
      fSort <- sort_function f ;;
      match fSort with
      | smt.FunctionSort domain _ =>
          let varSorts := map smtSortAbstractFunction (localVariables f) in
          ret (smt.FunctionSort (domain ++ varSorts) smt.boolSort)
      | _ => fail
      end
  end.

Definition summarySort (_function : FunctionSignature) (_contract : ContractDeclaration)
    : smt.Sort :=
  let sorts := stateSorts _contract in
  let inputSorts := map smtSortAbstractFunction (parameters _function) in
  let outputSorts := map smtSortAbstractFunction (returnParameters _function) in
  smt.FunctionSort
    (smt.intSort :: sorts ++ inputSorts ++ sorts ++ outputSorts) smt.boolSort.

Definition nonempty (s : string) : bool :=
  match s with EmptyString => false | _ => true end.

Definition predicateName (_node : ASTNode) (_contract : option ContractDeclaration)
    : M string :=
  f <- gets m_currentFunction ;;
  let prefix :=
    match _node with
    | FunctionNode funDef =>
        TokenTraits_toString (fun_kind funDef) +:+
        (if nonempty (fun_name funDef) then "_" +:+ fun_name funDef +:+ "_" else "")
    | OtherNode _ =>
        match f with
        | Some cf => if nonempty (fun_name cf) then fun_name cf else ""
        | None => ""
        end
    end in
  contract <- match _contract with
              | Some c => ret c
              | None => c <- currentContract ;; ret (declaration c)
              end ;;
  ret (prefix +:+ "_" +:+ pretty (node_id _node) +:+ "_" +:+ pretty (contract_id contract)).

Definition createBlock (_node : ASTNode) (_prefix : string)
    : M smt.SymbolicFunctionVariable :=
  so <- sort _node ;;
  u <- uniquePrefix ;;
  n <- predicateName _node None ;;
  createSymbolicBlock so ("block_" +:+ u +:+ "_" +:+ _prefix +:+ n).

Definition createSummaryBlock (_function : FunctionSignature) (_contract : ContractDeclaration)
    : M smt.SymbolicFunctionVariable :=
  u <- uniquePrefix ;;
  n <- predicateName (FunctionNode _function) (Some _contract) ;;
  createSymbolicBlock (summarySort _function _contract) ("summary_" +:+ u +:+ "_" +:+ n).

Definition createErrorBlock : M unit :=
  p <- gets m_errorPredicate ;;
  p <- deref p ;;
  let p := smt.increaseIndex p in
  modify (set_m_errorPredicate (Some p)) ;;
  registerRelation p.

(** The Horn rule [_from ∧ assertions ∧ _constraints ⇒ _to] and its name. *)
Definition edge (_from assertions _constraints _to : smt.Expression) : smt.Expression :=
  smt.Implies (smt.And (smt.And _from assertions) _constraints) _to.

Definition edgeName (_from _to : smt.Expression) : string :=
  smt.name _from +:+ "_to_" +:+ smt.name _to.

Definition connectBlocks (_from _to _constraints : smt.Expression) : M unit :=
  c <- gets m_context ;;
  addRule (edge _from (EncodingContext.assertions c) _constraints _to)
    (edgeName _from _to).

(** *** Tuples of arguments *)

Definition stateVariablesAtIndex (_index : nat) : M (list smt.Expression) :=
  currentContract ;;
  vars <- gets m_stateVariables ;;
  mapM (fun var => valueAtIndex var _index) vars.

Definition initialStateVariables : M (list smt.Expression) :=
  stateVariablesAtIndex 0.

Definition stateVariablesAtIndex_of (_index : nat) (_contract : ContractDeclaration)
    : M (list smt.Expression) :=
  mapM (fun var => valueAtIndex var _index)
    (stateVariablesIncludingInheritedAndPrivate _contract).

Definition currentStateVariables : M (list smt.Expression) :=
  currentContract ;;
  vars <- gets m_stateVariables ;;
  mapM currentValue vars.

Definition currentFunctionVariables : M (list smt.Expression) :=
  f <- currentFunction ;;
  initInputExprs <- mapM (fun var => valueAtIndex var 0) (parameters f) ;;
  mutableInputExprs <- mapM currentValue (parameters f) ;;
  returnExprs <- mapM currentValue (returnParameters f) ;;
  e <- m_error_currentValue ;;
  initState <- initialStateVariables ;;
  state <- currentStateVariables ;;
  ret (e :: initState ++ initInputExprs ++ state ++ mutableInputExprs ++ returnExprs).

Definition currentBlockVariables : M (list smt.Expression) :=
  f <- gets m_currentFunction ;;
  paramExprs <- match f with
                | Some f => mapM currentValue (localVariables f)
                | None => ret []
                end ;;
  vars <- currentFunctionVariables ;;
  ret (vars ++ paramExprs).

Definition predicate (_block : smt.SymbolicFunctionVariable) : M smt.Expression :=
  args <- currentBlockVariables ;;
  ret (smt.apply _block args).

Definition predicate_args (_block : smt.SymbolicFunctionVariable)
    (_arguments : list smt.Expression) : M smt.Expression :=
  ret (smt.apply _block _arguments).

Definition interface : M smt.Expression :=
  vars <- gets m_stateVariables ;;
  paramExprs <- mapM currentValue vars ;;
  c <- currentContract ;;
  ifaces <- gets m_interfaces ;;
  p <- deref (ifaces !! contract_id (declaration c)) ;;
  ret (smt.apply p paramExprs).

Definition interface_of (_contract : ContractDeclaration) : M smt.Expression :=
  ifaces <- gets m_interfaces ;;
  p <- deref (ifaces !! contract_id _contract) ;;
  args <- stateVariablesAtIndex_of 0 _contract ;;
  ret (smt.apply p args).

Definition genesis : M smt.Expression :=
  p <- gets m_genesisPredicate ;;
  p <- deref p ;;
  ret (smt.apply p []).

Definition error : M smt.Expression :=
  p <- gets m_errorPredicate ;;
  p <- deref p ;;
  ret (smt.apply p []).

Definition summary_contract : M smt.Expression :=
  p <- gets m_constructorSummaryPredicate ;;
  p <- deref p ;;
  e <- m_error_currentValue ;;
  state <- currentStateVariables ;;
  ret (smt.apply p (e :: state)).

Definition lookupSummary (_contract : nat) (_function : nat)
    : M smt.SymbolicFunctionVariable :=
  summaries <- gets m_summaries ;;
  ofContract <- deref (summaries !! _contract) ;;
  deref (ofContract !! _function).

Definition summary (_function : FunctionSignature) : M smt.Expression :=
  e <- m_error_currentValue ;;
  let contract := fun_contract _function in
  pre <- (if isLibrary contract then stateVariablesAtIndex_of 0 contract
          else initialStateVariables) ;;
  ins <- mapM (fun var => valueAtIndex var 0) (parameters _function) ;;
  post <- (if isLibrary contract then stateVariablesAtIndex_of 1 contract
           else currentStateVariables) ;;
  outs <- mapM currentValue (returnParameters _function) ;;
  c <- currentContract ;;
  p <- lookupSummary (contract_id (declaration c)) (fun_id _function) ;;
  ret (smt.apply p (e :: pre ++ ins ++ post ++ outs)).

(** *** Havoc *)

(** Modelled from the spec: [SMTEncoder::resetStateVariables] belongs to
    the base class, whose code is outside [CHC.cpp].  Sections 4.5 and 9
    of the specification: an unknown call havocs the reference- and
    mapping-typed state, but not the value-typed state variables.  It is
    the havoc primitive of section 4.2 (bump every variable satisfying a
    predicate) at the state variables of reference or mapping type. *)
Definition resetStateVariables : M unit :=
  modifyContext (EncodingContext.resetVariables
                   (fun v => isStateVariable v && hasReferenceOrMappingType v)).

Definition eraseKnowledge : M unit :=
  resetStateVariables ;;
  modifyContext (EncodingContext.resetVariables hasReferenceOrMappingType).

(** Modelled from the spec: [SMTEncoder::createVariable] declares the
    variable in the encoding context. *)
Definition createVariable (v : VariableDeclaration) : M unit :=
  modifyContext (EncodingContext.createVariable v).

Definition clearIndices (_contract : ContractDefinition)
    (_function : option FunctionDefinition) : M unit :=
  SMTEncoder (ClearIndices _contract _function) ;;
  vars <- gets m_stateVariables ;;
  forEach vars increaseIndex ;;
  match _function with
  | Some f =>
      forEach (parameters f ++ returnParameters f) increaseIndex ;;
      forEach (localVariables f) increaseIndex
  | None => ret tt
  end.

Definition setCurrentBlock (_block : smt.SymbolicFunctionVariable)
    (_arguments : option (list smt.Expression)) : M unit :=
  c <- gets m_context ;;
  (if bool_decide (0 < EncodingContext.solverStackHeigh c)
   then modifyContext EncodingContext.popSolver else ret tt) ;;
  contract <- currentContract ;;
  f <- gets m_currentFunction ;;
  clearIndices contract f ;;
  modifyContext EncodingContext.pushSolver ;;
  p <- match _arguments with
       | Some args => predicate_args _block args
       | None => predicate _block
       end ;;
  modify (set_m_currentBlock p).

(** *** Function calls *)

Definition predicate_FunctionCall (_funCall : Expression) : M smt.Expression :=
  match functionCallToDefinition _funCall with
  | None => ret (smt.BoolLit true)
  | Some function =>
      m_error_increaseIndex ;;
      e <- m_error_currentValue ;;
      let contract := fun_contract function in
      pre <- (if isLibrary contract then stateVariablesAtIndex_of 0 contract
              else currentStateVariables) ;;
      c <- gets m_context ;;
      let ins := symbolicArguments _funCall c in
      vars <- gets m_stateVariables ;;
      forEach vars increaseIndex ;;
      post <- (if isLibrary contract then stateVariablesAtIndex_of 1 contract
               else currentStateVariables) ;;
      forEach (returnParameters function) (fun param =>
        c <- gets m_context ;;
        if EncodingContext.knownVariable param c
        then increaseIndex param
        else createVariable param) ;;
      outs <- mapM currentValue (returnParameters function) ;;
      p <- (if isLibrary contract
            then lookupSummary (contract_id contract) (fun_id function)
            else (cur <- currentContract ;;
                  lookupSummary (contract_id (declaration cur)) (fun_id function))) ;;
      ret (smt.apply p (e :: pre ++ ins ++ post ++ outs))
  end.

Definition insertInto (k x : nat) (m : gmap nat (gset nat)) : gmap nat (gset nat) :=
  <[k := default ∅ (m !! k) ∪ {[x]}]> m.

Definition visitAssert (_funCall : Expression) : M unit :=
  let args := arguments _funCall in
  solAssert (bool_decide (length args = 1)) ;;
  contract <- currentContract ;;
  f <- currentFunction ;;
  modify (fun s => set_m_functionAssertions
    (insertInto (if isConstructor f then contract_id (declaration contract) else fun_id f)
       (expr_id _funCall) (m_functionAssertions s)) s) ;;
  previousError <- m_error_currentValue ;;
  m_error_increaseIndex ;;
  from <- gets m_currentBlock ;;
  to <- (if isConstructor f then summary_contract else summary f) ;;
  pathConditions <- currentPathConditions ;;
  arg <- deref (head args) ;;
  cond <- expr arg ;;
  e <- m_error_currentValue ;;
  connectBlocks from to
    (smt.And (smt.And pathConditions (smt.Not cond))
       (smt.Eq e (smt.IntLit (expr_id _funCall)))) ;;
  e <- m_error_currentValue ;;
  addAssertion (smt.Eq e previousError).

(** [m_currentFunction && !m_currentFunction->isConstructor()] *)
Definition inRegularFunction (s : CHC) : option FunctionDefinition :=
  match m_currentFunction s with
  | Some f => if isConstructor f then None else Some f
  | None => None
  end.

Definition internalFunctionCall (_funCall : Expression) : M unit :=
  contract <- currentContract ;;
  regular <- gets inRegularFunction ;;
  match functionCallToDefinition _funCall with
  | Some function =>
      modify (fun s => set_m_callGraph
        (insertInto (match regular with
                     | Some f => fun_id f
                     | None => contract_id (declaration contract)
                     end)
           (fun_id function) (m_callGraph s)) s) ;;
      (if isLibrary (fun_contract function)
       then (i <- interface_of (fun_contract function) ;; addAssertion i)
       else ret tt)
  | None => ret tt
  end ;;
  previousError <- m_error_currentValue ;;
  p <- predicate_FunctionCall _funCall ;;
  addAssertion p ;;
  from <- gets m_currentBlock ;;
  to <- match regular with
        | Some f => summary f
        | None => summary_contract
        end ;;
  e <- m_error_currentValue ;;
  connectBlocks from to (smt.Gt e (smt.IntLit 0)) ;;
  e <- m_error_currentValue ;;
  addAssertion (smt.Eq e (smt.IntLit 0)) ;;
  m_error_increaseIndex ;;
  e <- m_error_currentValue ;;
  addAssertion (smt.Eq e previousError).

Definition unknownFunctionCall (_funCall : Expression) : M unit :=
  eraseKnowledge ;;
  modify (set_m_unknownFunctionCallSeen true).

Definition endVisit_FunctionCall (_funCall : Expression) : M unit :=
  match annotation_kind _funCall with
  | Unset => fail
  | FunctionCallKind_FunctionCall =>
      match funType_kind _funCall with
      | Assert =>
          visitAssert _funCall ;;
          SMTEncoder (EndVisitFunctionCall _funCall)
      | Internal =>
          internalFunctionCall _funCall
      | External | DelegateCall | BareCall | BareCallCode | BareDelegateCall
      | BareStaticCall | Creation | KECCAK256 | ECRecover | SHA256 | RIPEMD160
      | BlockHash | AddMod | MulMod =>
          SMTEncoder (EndVisitFunctionCall _funCall) ;;
          unknownFunctionCall _funCall
      | OtherKind =>
          SMTEncoder (EndVisitFunctionCall _funCall)
      end ;;
      SMTEncoder (CreateReturnedExpressions _funCall)
  | _ => SMTEncoder (EndVisitFunctionCall _funCall)
  end.

(** *** Statements *)

Definition endVisit_Break (_break : Statement) : M unit :=
  dest <- gets m_breakDest ;;
  dest <- deref dest ;;
  from <- gets m_currentBlock ;;
  to <- predicate dest ;;
  connectBlocks from to (smt.BoolLit true) ;;
  breakGhost <- createBlock (OtherNode (stmt_id _break)) "break_ghost_" ;;
  p <- predicate breakGhost ;;
  modify (set_m_currentBlock p).

Definition endVisit_Continue (_continue : Statement) : M unit :=
  dest <- gets m_continueDest ;;
  dest <- deref dest ;;
  from <- gets m_currentBlock ;;
  to <- predicate dest ;;
  connectBlocks from to (smt.BoolLit true) ;;
  continueGhost <- createBlock (OtherNode (stmt_id _continue)) "continue_ghost_" ;;
  p <- predicate continueGhost ;;
  modify (set_m_currentBlock p).

(** [connectBlocks(m_currentBlock, predicate(_block), _constraints)] *)
Definition connectCurrentTo (_block : smt.SymbolicFunctionVariable)
    (_constraints : smt.Expression) : M unit :=
  from <- gets m_currentBlock ;;
  to <- predicate _block ;;
  connectBlocks from to _constraints.

(** The visitors of the statements that contain statements take the
    traversal of their children ([accept]) as arguments. *)
Section Visit.

Variable acceptExpression : Expression -> M unit.
Variable acceptStatement : Statement -> M unit.

Definition visit_IfStatement (_if : nat) (_condition : Expression)
    (_trueStatement : Statement) (_falseStatement : option Statement) : M bool :=
  currentFunction ;;
  unknownFunctionCallWasSeen <- gets m_unknownFunctionCallSeen ;;
  modify (set_m_unknownFunctionCallSeen false) ;;
  f <- currentFunction ;;
  let functionBody := fun_body f in
  ifHeaderBlock <- createBlock (OtherNode _if) "if_header_" ;;
  trueBlock <- createBlock (OtherNode (stmt_id _trueStatement)) "if_true_" ;;
  falseBlock <- match _falseStatement with
                | Some falseStatement =>
                    b <- createBlock (OtherNode (stmt_id falseStatement)) "if_false_" ;;
                    ret (Some b)
                | None => ret None
                end ;;
  afterIfBlock <- createBlock (OtherNode (stmt_id functionBody)) "" ;;
  connectCurrentTo ifHeaderBlock (smt.BoolLit true) ;;
  setCurrentBlock ifHeaderBlock None ;;
  acceptExpression _condition ;;
  condition <- expr _condition ;;
  connectCurrentTo trueBlock condition ;;
  match falseBlock with
  | Some falseBlock => connectCurrentTo falseBlock (smt.Not condition)
  | None => connectCurrentTo afterIfBlock (smt.Not condition)
  end ;;
  setCurrentBlock trueBlock None ;;
  acceptStatement _trueStatement ;;
  connectCurrentTo afterIfBlock (smt.BoolLit true) ;;
  match _falseStatement, falseBlock with
  | Some falseStatement, Some falseBlock =>
      setCurrentBlock falseBlock None ;;
      acceptStatement falseStatement ;;
      connectCurrentTo afterIfBlock (smt.BoolLit true)
  | _, _ => ret tt
  end ;;
  setCurrentBlock afterIfBlock None ;;
  seen <- gets m_unknownFunctionCallSeen ;;
  (if seen then eraseKnowledge else ret tt) ;;
  modify (set_m_unknownFunctionCallSeen unknownFunctionCallWasSeen) ;;
  ret false.

Definition visit_WhileStatement (_while : nat) (_isDoWhile : bool)
    (_condition : Expression) (_body : Statement) : M bool :=
  unknownFunctionCallWasSeen <- gets m_unknownFunctionCallSeen ;;
  modify (set_m_unknownFunctionCallSeen false) ;;
  f <- currentFunction ;;
  let functionBody := fun_body f in
  let namePrefix := (if _isDoWhile then "do_" else "") +:+ "while" in
  loopHeaderBlock <- createBlock (OtherNode _while) (namePrefix +:+ "_header_") ;;
  loopBodyBlock <- createBlock (OtherNode (stmt_id _body)) (namePrefix +:+ "_body_") ;;
  afterLoopBlock <- createBlock (OtherNode (stmt_id functionBody)) "" ;;
  outerBreakDest <- gets m_breakDest ;;
  outerContinueDest <- gets m_continueDest ;;
  modify (set_m_breakDest (Some afterLoopBlock)) ;;
  modify (set_m_continueDest (Some loopHeaderBlock)) ;;
  (if _isDoWhile then acceptStatement _body else ret tt) ;;
  connectCurrentTo loopHeaderBlock (smt.BoolLit true) ;;
  setCurrentBlock loopHeaderBlock None ;;
  acceptExpression _condition ;;
  condition <- expr _condition ;;
  connectCurrentTo loopBodyBlock condition ;;
  connectCurrentTo afterLoopBlock (smt.Not condition) ;;
  setCurrentBlock loopBodyBlock None ;;
  acceptStatement _body ;;
  modify (set_m_breakDest outerBreakDest) ;;
  modify (set_m_continueDest outerContinueDest) ;;
  connectCurrentTo loopHeaderBlock (smt.BoolLit true) ;;
  setCurrentBlock afterLoopBlock None ;;
  seen <- gets m_unknownFunctionCallSeen ;;
  (if seen then eraseKnowledge else ret tt) ;;
  modify (set_m_unknownFunctionCallSeen unknownFunctionCallWasSeen) ;;
  ret false.

Definition visit_ForStatement (_for : nat)
    (_initializationExpression : option Statement)
    (_condition : option Expression) (_loopExpression : option Statement)
    (_body : Statement) : M bool :=
  unknownFunctionCallWasSeen <- gets m_unknownFunctionCallSeen ;;
  modify (set_m_unknownFunctionCallSeen false) ;;
  f <- currentFunction ;;
  let functionBody := fun_body f in
  loopHeaderBlock <- createBlock (OtherNode _for) "for_header_" ;;
  loopBodyBlock <- createBlock (OtherNode (stmt_id _body)) "for_body_" ;;
  afterLoopBlock <- createBlock (OtherNode (stmt_id functionBody)) "" ;;
  postLoopBlock <- match _loopExpression with
                   | Some postLoop =>
                       b <- createBlock (OtherNode (stmt_id postLoop)) "for_post_" ;;
                       ret (Some b)
                   | None => ret None
                   end ;;
  outerBreakDest <- gets m_breakDest ;;
  outerContinueDest <- gets m_continueDest ;;
  modify (set_m_breakDest (Some afterLoopBlock)) ;;
  modify (set_m_continueDest
            (Some (match postLoopBlock with
                   | Some b => b
                   | None => loopHeaderBlock
                   end))) ;;
  match _initializationExpression with
  | Some init => acceptStatement init
  | None => ret tt
  end ;;
  connectCurrentTo loopHeaderBlock (smt.BoolLit true) ;;
  setCurrentBlock loopHeaderBlock None ;;
  condition <- match _condition with
               | Some forCondition =>
                   acceptExpression forCondition ;;
                   expr forCondition
               | None => ret (smt.BoolLit true)
               end ;;
  connectCurrentTo loopBodyBlock condition ;;
  connectCurrentTo afterLoopBlock (smt.Not condition) ;;
  setCurrentBlock loopBodyBlock None ;;
  acceptStatement _body ;;
  match _loopExpression, postLoopBlock with
  | Some postLoop, Some postLoopBlock =>
      connectCurrentTo postLoopBlock (smt.BoolLit true) ;;
      setCurrentBlock postLoopBlock None ;;
      acceptStatement postLoop
  | _, _ => ret tt
  end ;;
  modify (set_m_breakDest outerBreakDest) ;;
  modify (set_m_continueDest outerContinueDest) ;;
  connectCurrentTo loopHeaderBlock (smt.BoolLit true) ;;
  setCurrentBlock afterLoopBlock None ;;
  seen <- gets m_unknownFunctionCallSeen ;;
  (if seen then eraseKnowledge else ret tt) ;;
  modify (set_m_unknownFunctionCallSeen unknownFunctionCallWasSeen) ;;
  ret false.

End Visit.

(** *** The traversal: [accept] *)

(** [accept] on an expression: the children first, then [endVisit].  For a
    call that is [CHC::endVisit(FunctionCall)]; every other expression
    belongs to the base class. *)
Fixpoint acceptExpression (e : Expression) : M unit :=
  match e with
  | FunctionCall _ _ _ _ callee args =>
      acceptExpression callee ;;
      forEach args acceptExpression ;;
      endVisit_FunctionCall e
  | OtherExpression _ subexpressions =>
      SMTEncoder (VisitExpression e) ;;
      forEach subexpressions acceptExpression ;;
      SMTEncoder (EndVisitExpression e)
  end.

(** [accept] on a statement.  The visitors of [if], [while] and [for]
    return [false], so the generic traversal does not descend into them;
    [break] and [continue] have an [endVisit] only; the other statements
    belong to the base class. *)
Fixpoint acceptStatement (st : Statement) : M unit :=
  match st with
  | Block _ statements =>
      SMTEncoder (VisitStatement st) ;;
      forEach statements acceptStatement ;;
      SMTEncoder (EndVisitStatement st)
  | ExpressionStatement _ e =>
      SMTEncoder (VisitStatement st) ;;
      acceptExpression e ;;
      SMTEncoder (EndVisitStatement st)
  | OtherStatement _ subexpressions =>
      SMTEncoder (VisitStatement st) ;;
      forEach subexpressions acceptExpression ;;
      SMTEncoder (EndVisitStatement st)
  | IfStatement id condition trueStatement falseStatement =>
      visit_IfStatement acceptExpression acceptStatement
        id condition trueStatement falseStatement ;;
      ret tt
  | WhileStatement id isDoWhile condition body =>
      visit_WhileStatement acceptExpression acceptStatement
        id isDoWhile condition body ;;
      ret tt
  | ForStatement id init condition post body =>
      visit_ForStatement acceptExpression acceptStatement
        id init condition post body ;;
      ret tt
  | Break _ => endVisit_Break st
  | Continue _ => endVisit_Continue st
  end.

(** *** Functions *)

Definition shouldVisit (_function : FunctionSignature) : bool :=
  isImplemented _function.

Definition addVerificationTarget (_scope : nat) (_from _constraints _errorId : smt.Expression)
    : M unit :=
  modify (fun s =>
    match m_verificationTargets s !! _scope with
    | Some _ => s
    | None =>
        set_m_verificationTargets
          (<[_scope := {| value := _from; constraints := _constraints;
                          errorId := _errorId |}]> (m_verificationTargets s)) s
    end).

(** [_function.scope() != m_currentContract] *)
Definition scopeIsNotCurrentContract (_function : FunctionSignature) (s : CHC) : bool :=
  match m_currentContract s with
  | Some c => negb (bool_decide (contract_id (fun_contract _function)
                                 = contract_id (declaration c)))
  | None => true
  end.

(** [m_currentFunction != &_function] *)
Definition isNotCurrentFunction (_function : FunctionSignature) (s : CHC) : bool :=
  match m_currentFunction s with
  | Some f => negb (bool_decide (fun_id f = fun_id _function))
  | None => true
  end.

Section VisitFunction.

(** The inlining of the constructors of the bases, which
    [SMTEncoder::visit(FunctionDefinition)] runs for a constructor. *)
Variable inlineBases : M unit.

(** Modelled from the spec: [SMTEncoder::visit(FunctionDefinition)]
    belongs to the base class.  Section 4.5 of the specification: a
    constructor first takes the constructors of its bases in, then the
    body of the function is visited. *)
Definition SMTEncoder_visit_FunctionDefinition (_function : FunctionDefinition) : M unit :=
  SMTEncoder (VisitFunction _function) ;;
  (if isConstructor _function then inlineBases else ret tt) ;;
  acceptStatement (fun_body _function).

Definition visit_FunctionDefinition (_function : FunctionDefinition) : M bool :=
  if negb (shouldVisit _function) then ret false
  else
    cur <- gets m_currentFunction ;;
    match cur with
    | Some currentFunction =>
        (* base constructor inlining *)
        solAssert (isConstructor currentFunction) ;;
        solAssert (isConstructor _function) ;;
        ok <- gets (scopeIsNotCurrentContract _function) ;;
        solAssert ok ;;
        SMTEncoder_visit_FunctionDefinition _function ;;
        ret false
    | None =>
        modify (set_m_currentFunction (Some _function)) ;;
        SMTEncoder (InitFunction _function) ;;
        functionEntryBlock <- createBlock (FunctionNode _function) "" ;;
        bodyBlock <- createBlock (OtherNode (stmt_id (fun_body _function))) "" ;;
        vars <- currentFunctionVariables ;;
        functionPred <- predicate_args functionEntryBlock vars ;;
        bodyPred <- predicate bodyBlock ;;
        (if isConstructor _function
         then (from <- gets m_currentBlock ;;
               connectBlocks from functionPred (smt.BoolLit true))
         else (g <- genesis ;;
               connectBlocks g functionPred (smt.BoolLit true))) ;;
        e <- m_error_currentValue ;;
        addAssertion (smt.Eq e (smt.IntLit 0)) ;;
        stateVars <- gets m_stateVariables ;;
        forEach stateVars (fun var =>
          v0 <- valueAtIndex var 0 ;;
          v <- currentValue var ;;
          addAssertion (smt.Eq v0 v)) ;;
        forEach (parameters _function) (fun var =>
          v0 <- valueAtIndex var 0 ;;
          v <- currentValue var ;;
          addAssertion (smt.Eq v0 v)) ;;
        connectBlocks functionPred bodyPred (smt.BoolLit true) ;;
        setCurrentBlock bodyBlock None ;;
        SMTEncoder_visit_FunctionDefinition _function ;;
        ret false
    end.

Definition endVisit_FunctionDefinition (_function : FunctionDefinition) : M unit :=
  if negb (shouldVisit _function) then ret tt
  else
    notCurrent <- gets (isNotCurrentFunction _function) ;;
    (if notCurrent : bool
     then
       (* base constructor inlining *)
       cur <- currentFunction ;;
       solAssert (isConstructor cur) ;;
       solAssert (isConstructor _function) ;;
       ok <- gets (scopeIsNotCurrentContract _function) ;;
       solAssert ok
     else
       (if isConstructor _function
        then
          contract <- currentContract ;;
          let suffix := contract_name (declaration contract) +:+ "_"
                        +:+ pretty (contract_id (declaration contract)) in
          so <- constructorSort ;;
          constructorExit <- createSymbolicBlock so ("constructor_exit_" +:+ suffix) ;;
          e <- m_error_currentValue ;;
          state <- currentStateVariables ;;
          from <- gets m_currentBlock ;;
          to <- predicate_args constructorExit (e :: state) ;;
          connectBlocks from to (smt.BoolLit true) ;;
          cur <- gets m_currentFunction ;;
          clearIndices contract cur ;;
          e <- m_error_currentValue ;;
          state <- currentStateVariables ;;
          setCurrentBlock constructorExit (Some (e :: state))
        else
          assertionError <- m_error_currentValue ;;
          sum <- summary _function ;;
          from <- gets m_currentBlock ;;
          connectBlocks from sum (smt.BoolLit true) ;;
          iface <- interface ;;
          stateExprs <- initialStateVariables ;;
          contract <- currentContract ;;
          ifaces <- gets m_interfaces ;;
          p <- deref (ifaces !! contract_id (declaration contract)) ;;
          setCurrentBlock p (Some stateExprs) ;;
          (if isPublic _function
           then
             from <- gets m_currentBlock ;;
             addVerificationTarget (fun_id _function) from sum assertionError ;;
             connectBlocks from iface
               (smt.And sum (smt.Eq assertionError (smt.IntLit 0)))
           else ret tt)) ;;
       modify (set_m_currentFunction None)) ;;
    SMTEncoder (EndVisitFunction _function).

(** [accept] on a function: [visit] returns [false]. *)
Definition acceptFunction (_function : FunctionDefinition) : M unit :=
  visit_FunctionDefinition _function ;;
  endVisit_FunctionDefinition _function.

End VisitFunction.

(** *** Contracts *)

(** Modelled from the spec: [SMTEncoder::initializeStateVariables] belongs
    to the base class; the initialisers of the state variables are
    expressions of the contract and are traversed like any other. *)
Definition initializeStateVariables (_contract : ContractDefinition) : M unit :=
  SMTEncoder (InitializeStateVariables _contract) ;;
  forEach (initialValues _contract) (fun e =>
    acceptExpression e ;;
    SMTEncoder (AssignInitialValue e)).

(** Modelled from the spec: [SMTEncoder::inlineConstructorHierarchy]
    belongs to the base class.  Section 4.5 of the specification: the
    constructor hierarchy is taken in following the linearisation.
    [_hierarchy] are the bases that follow [_contract] in the
    linearisation of the current contract: the bases without a constructor
    have their state variables initialised, the first base with a
    constructor is visited, and that visit takes in the bases after it. *)
Fixpoint inlineConstructorHierarchy (_hierarchy : list ContractDefinition)
    (_contract : ContractDefinition) : M unit :=
  match _hierarchy with
  | [] => initializeStateVariables _contract
  | nextBase :: rest =>
      match constructor nextBase with
      | Some baseConstructor =>
          acceptFunction (inlineConstructorHierarchy rest nextBase) baseConstructor ;;
          initializeStateVariables _contract
      | None =>
          initializeStateVariables nextBase ;;
          inlineConstructorHierarchy rest _contract
      end
  end.

Definition resetContractAnalysis : M unit :=
  modify (set_m_stateSorts []) ;;
  modify (set_m_stateVariables []) ;;
  modify (set_m_unknownFunctionCallSeen false) ;;
  modify (set_m_breakDest None) ;;
  modify (set_m_continueDest None) ;;
  m_error_resetIndex.

(** Modelled from the spec: [SMTEncoder::initContract] belongs to the base
    class; it makes the contract the current one. *)
Definition initContract (_contract : ContractDefinition) : M unit :=
  modify (set_m_currentContract (Some _contract)) ;;
  SMTEncoder (InitContract _contract).

(** Modelled from the spec: [SMTEncoder::visit(ContractDefinition)] belongs
    to the base class; it visits the functions of the contract that are
    not constructors (constructors are visited when the contract is left). *)
Definition SMTEncoder_visit_ContractDefinition (_contract : ContractDefinition) : M unit :=
  SMTEncoder (VisitContract _contract) ;;
  forEach (List.filter (fun f : FunctionDefinition => negb (isConstructor f))
             (resolvedFunctions _contract))
    (acceptFunction (ret tt)).

(** Modelled from the spec: [SMTEncoder::endVisit(ContractDefinition)]
    belongs to the base class; no contract is current afterwards. *)
Definition SMTEncoder_endVisit_ContractDefinition (_contract : ContractDefinition) : M unit :=
  SMTEncoder (EndVisitContract _contract) ;;
  modify (set_m_currentContract None).

Definition contractSuffix (_contract : ContractDeclaration) : string :=
  contract_name _contract +:+ "_" +:+ pretty (contract_id _contract).

Definition visit_ContractDefinition (_contract : ContractDefinition) : M bool :=
  resetContractAnalysis ;;
  initContract _contract ;;
  modify (set_m_stateVariables
            (stateVariablesIncludingInheritedAndPrivate (declaration _contract))) ;;
  modify (set_m_stateSorts (stateSorts (declaration _contract))) ;;
  clearIndices _contract None ;;
  let errorFunctionSort := smt.FunctionSort [] smt.boolSort in
  let suffix := contractSuffix (declaration _contract) in
  p <- createSymbolicBlock errorFunctionSort ("error_" +:+ suffix) ;;
  modify (set_m_errorPredicate (Some p)) ;;
  so <- constructorSort ;;
  p <- createSymbolicBlock so ("summary_constructor_" +:+ suffix) ;;
  modify (set_m_constructorSummaryPredicate (Some p)) ;;
  so <- interfaceSort ;;
  p <- createSymbolicBlock so ("implicit_constructor_" +:+ suffix) ;;
  modify (set_m_implicitConstructorPredicate (Some p)) ;;
  stateExprs <- currentStateVariables ;;
  contract <- currentContract ;;
  ifaces <- gets m_interfaces ;;
  p <- deref (ifaces !! contract_id (declaration contract)) ;;
  setCurrentBlock p (Some stateExprs) ;;
  SMTEncoder_visit_ContractDefinition _contract ;;
  ret false.

Definition endVisit_ContractDefinition (_contract : ContractDefinition) : M unit :=
  vars <- gets m_stateVariables ;;
  forEach vars (fun var =>
    c <- gets m_context ;;
    solAssert (EncodingContext.knownVariable var c) ;;
    resetIndex var ;;
    SMTEncoder (SetZeroValue var) ;;
    increaseIndex var) ;;
  p <- gets m_implicitConstructorPredicate ;;
  p <- deref p ;;
  init <- initialStateVariables ;;
  let implicitConstructor := smt.apply p init in
  g <- genesis ;;
  connectBlocks g implicitConstructor (smt.BoolLit true) ;;
  modify (set_m_currentBlock implicitConstructor) ;;
  e <- m_error_currentValue ;;
  addAssertion (smt.Eq e (smt.IntLit 0)) ;;
  match constructor _contract with
  | Some constructor =>
      acceptFunction (inlineConstructorHierarchy (bases _contract) _contract) constructor
  | None => inlineConstructorHierarchy (bases _contract) _contract
  end ;;
  summaryPredicate <- gets m_constructorSummaryPredicate ;;
  summaryPredicate <- deref summaryPredicate ;;
  e <- m_error_currentValue ;;
  state <- currentStateVariables ;;
  summary <- predicate_args summaryPredicate (e :: state) ;;
  from <- gets m_currentBlock ;;
  connectBlocks from summary (smt.BoolLit true) ;;
  contract <- currentContract ;;
  clearIndices contract None ;;
  e <- m_error_currentValue ;;
  state <- currentStateVariables ;;
  setCurrentBlock summaryPredicate (Some (e :: state)) ;;
  from <- gets m_currentBlock ;;
  e <- m_error_currentValue ;;
  addVerificationTarget (contract_id (declaration contract)) from (smt.BoolLit true) e ;;
  iface <- interface ;;
  connectBlocks from iface (smt.Eq e (smt.IntLit 0)) ;;
  SMTEncoder_endVisit_ContractDefinition _contract.

(** [accept] on a contract: [visit] returns [false]. *)
Definition acceptContract (_contract : ContractDefinition) : M unit :=
  visit_ContractDefinition _contract ;;
  endVisit_ContractDefinition _contract.

Definition acceptSourceUnit (_source : SourceUnit) : M unit :=
  forEach (nodes _source) acceptContract.

Definition defineInterfacesAndSummaries (_source : SourceUnit) : M unit :=
  forEach (nodes _source) (fun contract =>
    forEach (linearizedBaseContracts contract) (fun base =>
      let suffix := contractSuffix (declaration base) in
      p <- createSymbolicBlock (interfaceSort_of (declaration base)) ("interface_" +:+ suffix) ;;
      modify (fun s => set_m_interfaces
                (<[contract_id (declaration base) := p]> (m_interfaces s)) s) ;;
      forEach (stateVariablesIncludingInheritedAndPrivate (declaration base)) (fun var =>
        c <- gets m_context ;;
        if EncodingContext.knownVariable var c then ret tt else createVariable var) ;;
      forEach (definedFunctions base) (fun function =>
        p <- createSummaryBlock function (declaration contract) ;;
        modify (fun s =>
          let k := contract_id (declaration contract) in
          let ofContract := default ∅ (m_summaries s !! k) in
          set_m_summaries
            (<[k := match ofContract !! fun_id function with
                    | Some _ => ofContract
                    | None => <[fun_id function := p]> ofContract
                    end]> (m_summaries s)) s)))).

(** *** The verification driver *)

Definition resetSourceAnalysis : M unit :=
  modify (set_m_verificationTargets ∅) ;;
  modify (set_m_safeAssertions ∅) ;;
  modify (set_m_functionAssertions ∅) ;;
  modify (set_m_callGraph ∅) ;;
  modify (set_m_summaries ∅).

(** The vertices of the call graph and the root: a bound on the number of
    vertices that the traversal can reach. *)
Definition vertices (_txRoot : nat) (callGraph : gmap nat (gset nat)) : gset nat :=
  {[_txRoot]} ∪ dom callGraph ∪ ⋃ (snd <$> map_to_list callGraph).

(** The callback of the traversal in [transactionAssertions]. *)
Definition collectAssertions (functionAssertions callGraph : gmap nat (gset nat))
    (function : nat) (assertions : gset nat) : gset nat * gset nat :=
  (assertions ∪ default ∅ (functionAssertions !! function),
   default ∅ (callGraph !! function)).

Definition reachableAssertions (functionAssertions callGraph : gmap nat (gset nat))
    (_txRoot : nat) : option (gset nat * gset nat) :=
  BreadthFirstSearch_run (S (size (vertices _txRoot callGraph)))
    (collectAssertions functionAssertions callGraph) {[_txRoot]} ∅ ∅.

(** [operator[]] creates the empty entry of every vertex it is asked for. *)
Definition touch (visited : gset nat) (m : gmap nat (gset nat)) : gmap nat (gset nat) :=
  m ∪ gset_to_gmap ∅ visited.

Definition transactionAssertions (_txRoot : nat) : M (gset nat) :=
  functionAssertions <- gets m_functionAssertions ;;
  callGraph <- gets m_callGraph ;;
  r <- deref (reachableAssertions functionAssertions callGraph _txRoot) ;;
  let '(assertions, visited) := r in
  modify (fun s => set_m_functionAssertions (touch visited (m_functionAssertions s)) s) ;;
  modify (fun s => set_m_callGraph (touch visited (m_callGraph s)) s) ;;
  ret assertions.

(** Iteration in the order of [IdCompare]. *)
Definition byId {V} (m : gmap nat V) : list (nat * V) :=
  merge_sort IdCompare (map_to_list m).

Definition sortedElements (X : gset nat) : list nat :=
  merge_sort Nat.le (elements X).

(** The body of the inner loop of [analyze] for one assertion of one
    target.  It returns the answer of the backend. *)
Definition checkAssertion (target : CHCVerificationTarget) (assertion : nat)
    : M smt.CheckResult :=
  createErrorBlock ;;
  e <- error ;;
  connectBlocks (value target) e
    (smt.And (constraints target) (smt.Eq (errorId target) (smt.IntLit assertion))) ;;
  e <- error ;;
  r <- query e assertion ;;
  (if bool_decide (r.1 = smt.UNSATISFIABLE)
   then modify (fun s => set_m_safeAssertions (m_safeAssertions s ∪ {[assertion]}) s)
   else ret tt) ;;
  ret r.1.

(** The loop over the verification targets.  It returns, in order, the
    scope, the assertion and the answer of every query. *)
Definition checkTargets (targets : list (nat * CHCVerificationTarget))
    : M (list (nat * nat * smt.CheckResult)) :=
  outcomes <- mapM (fun '(scope, target) =>
    assertions <- transactionAssertions scope ;;
    mapM (fun assertion =>
      r <- checkAssertion target assertion ;;
      ret (scope, assertion, r)) (sortedElements assertions)) targets ;;
  ret (concat outcomes).

(** The set of the source unit and the source units it refers to, in the
    order of their ids. *)
Definition sourceUnits (_source : SourceUnit) (referenced : list SourceUnit)
    : list SourceUnit :=
  snd <$> byId (foldl (fun m u => match m !! source_id u with
                                  | Some _ => m
                                  | None => <[source_id u := u]> m
                                  end) ∅ (_source :: referenced)).

(** [analyze]; [referenced] is [_source.referencedSourceUnits(true)].  The
    model returns the outcomes of the queries next to the final state. *)
Definition analyze (_source : SourceUnit) (referenced : list SourceUnit)
    : M (list (nat * nat * smt.CheckResult)) :=
  solAssert (experimentalSMTChecker _source) ;;
  modifyContext (fun c =>
    EncodingContext.setAssertionAccumulation false
      {| m_variables := ∅; m_expressions := ∅; m_assertions := [];
         m_accumulateAssertions := m_accumulateAssertions c;
         m_pathConditions := m_pathConditions c |}) ;;
  resetSourceAnalysis ;;
  let genesisSort := smt.FunctionSort [] smt.boolSort in
  p <- createSymbolicBlock genesisSort "genesis" ;;
  modify (set_m_genesisPredicate (Some p)) ;;
  g <- genesis ;;
  addRule g "genesis" ;;
  let sources := sourceUnits _source referenced in
  forEach sources defineInterfacesAndSummaries ;;
  forEach sources acceptSourceUnit ;;
  targets <- gets m_verificationTargets ;;
  checkTargets (byId targets).

Definition safeAssertions (s : CHC) : gset nat := m_safeAssertions s.

End Encoder.
End CHC.

(** Computations that only read the state. *)
Definition readonly {A} (m : M A) : Prop :=
  forall s a s', m s = Some (a, s') -> s' = s.

Definition hasSummary (c f : nat) (s : CHC) : Prop :=
  exists p, (m_summaries s !! c) ≫= (fun m => m !! f) = Some p.

(** The context after [increaseIndex] on a known variable. *)
Definition bump (v : VariableDeclaration) (c : EncodingContext) : EncodingContext :=
  EncodingContext.with_variables (alter (fun p => (fst p, S (snd p))) (var_id v)) c.

Definition bumpAll (vars : list VariableDeclaration) (c : EncodingContext) : EncodingContext :=
  foldl (fun c v => bump v c) c vars.

(** The context after the loop of [predicate(FunctionCall)] over the return
    parameters: a known variable gets the next index, an unknown one is
    declared. *)
Definition freshen (v : VariableDeclaration) (c : EncodingContext) : EncodingContext :=
  if EncodingContext.knownVariable v c then bump v c else EncodingContext.createVariable v c.

Definition freshenAll (vars : list VariableDeclaration) (c : EncodingContext) : EncodingContext :=
  foldl (fun c v => freshen v c) c vars.

(** The SSA instance of a variable at a given index, and at its current index. *)
Definition instanceAt (k : nat) (v : VariableDeclaration) : smt.Expression :=
  smt.SSA (smt.VarSym (var_id v)) k.

Definition currentIndex (c : EncodingContext) (v : VariableDeclaration) : nat :=
  default 0 (EncodingContext.index v c).

Definition known (c : EncodingContext) (v : VariableDeclaration) : Prop :=
  EncodingContext.knownVariable v c = true.

(** The havoc of the variables of reference or mapping type, from the
    encoding context [c] to [c']: every known variable of reference or
    mapping type has a higher SSA index in [c'], and every other variable,
    the state variables of value type among them, has the index it had. *)
Definition havocked (c c' : EncodingContext) : Prop :=
  forall (id : nat) (d : VariableDeclaration) (i : nat),
    m_variables c !! id = Some (d, i) ->
    exists j : nat,
      m_variables c' !! id = Some (d, j) /\
      (if hasReferenceOrMappingType d then i < j else j = i).

(** The recorded call graph as a relation, and the entry of a function in
    the function-assertions map. *)
Definition calls (callGraph : gmap nat (gset nat)) (caller callee : nat) : Prop :=
  callee ∈ default ∅ (callGraph !! caller).

Definition assertionsOf (functionAssertions : gmap nat (gset nat)) (function : nat) : gset nat :=
  default ∅ (functionAssertions !! function).

(** Every step of the encoding leaves the set of safe assertions and the
    reporter alone and only appends to the relations and rules of the
    backend. *)
Record frame (s s' : CHC) : Prop := {
  frame_safeAssertions : m_safeAssertions s' = m_safeAssertions s;
  frame_reporter : m_outerErrorReporter s' = m_outerErrorReporter s;
  frame_relations : relations (m_interface s) `prefix_of` relations (m_interface s');
  frame_rules : rules (m_interface s) `prefix_of` rules (m_interface s');
}.

(** A statement, in addition, leaves the current function and the
    destinations of [break] and [continue] as they were. *)
Record frameS (s s' : CHC) : Prop := {
  frameS_frame : frame s s';
  frameS_currentFunction : m_currentFunction s' = m_currentFunction s;
  frameS_currentContract : m_currentContract s' = m_currentContract s;
  frameS_breakDest : m_breakDest s' = m_breakDest s;
  frameS_continueDest : m_continueDest s' = m_continueDest s;
}.

(** An expression, in addition, leaves the current block as it was. *)
Record frameE (s s' : CHC) : Prop := {
  frameE_frameS : frameS s s';
  frameE_currentBlock : m_currentBlock s' = m_currentBlock s;
}.

(** The outcome of a query: the scope of the verification target, the
    assertion and the answer of the backend. *)
Definition Outcome : Type := nat * nat * smt.CheckResult.

(** The warning that [query] reports for an outcome. *)
Definition reportOf (o : Outcome) : list (nat * string) :=
  match o with
  | (_, assertion, smt.CONFLICTING) =>
      [(assertion,
        "At least two SMT solvers provided conflicting answers. Results might not be sound.")]
  | (_, assertion, smt.ERROR) =>
      [(assertion, "Error trying to invoke SMT solver.")]
  | _ => []
  end.

(** An assertion is gathered for a verification target when the scope of the
    target reaches, through the recorded call graph, a function for which
    the assertion is recorded. *)
Definition gathered (s : CHC) (scope assertion : nat) : Prop :=
  is_Some (m_verificationTargets s !! scope) /\
  exists F, rtc (calls (m_callGraph s)) scope F /\
            assertion ∈ assertionsOf (m_functionAssertions s) F.

(** The verification targets, the call graph and the recorded assertions
    are the same in two states. *)
Record sameGraph (s s' : CHC) : Prop := {
  same_targets : m_verificationTargets s' = m_verificationTargets s;
  same_calls : forall u, default ∅ (m_callGraph s' !! u) = default ∅ (m_callGraph s !! u);
  same_assertions : forall u,
    default ∅ (m_functionAssertions s' !! u) = default ∅ (m_functionAssertions s !! u);
}.

(** The effect of a sequence of queries with the outcomes [outs]. *)
Record drives (outs : list Outcome) (s s' : CHC) : Prop := {
  drives_safe : forall a,
    a ∈ m_safeAssertions s' <->
    a ∈ m_safeAssertions s \/ exists scope, (scope, a, smt.UNSATISFIABLE) ∈ outs;
  drives_reports :
    m_outerErrorReporter s' = m_outerErrorReporter s ++ flat_map reportOf outs;
  drives_graph : sameGraph s s';
}.

(** What a run registers and emits: the relations and the rules that the
    backend holds in [s'] are those of [s] followed by the new ones. *)
Record emitted (s s' : CHC) (newRelations : list smt.SymbolicFunctionVariable)
    (newRules : list (smt.Expression * string)) : Prop := {
  emitted_relations :
    relations (m_interface s') = relations (m_interface s) ++ newRelations;
  emitted_rules : rules (m_interface s') = rules (m_interface s) ++ newRules;
}.

(** A block created by [createBlock] when the block counter is [counter]. *)
Definition blockNamed (counter : nat) (prefix : string)
    (b : smt.SymbolicFunctionVariable) : Prop :=
  smt.sfv_index b = 0 /\
  exists rest, smt.sfv_name b = "block_" +:+ pretty counter +:+ "_" +:+ prefix +:+ rest.

(** [b] applied to the variables of the current block. *)
Definition isPredicateOf (b : smt.SymbolicFunctionVariable) (e : smt.Expression) : Prop :=
  exists args, e = smt.apply b args.

(** The invariant of the loop of the breadth-first search. *)
Record bfs_inv (functionAssertions callGraph : gmap nat (gset nat)) (root : nat)
    (toTraverse visited acc : gset nat) : Prop := {
  inv_root : root ∈ toTraverse ∪ visited;
  inv_reach : forall v, v ∈ toTraverse ∪ visited -> rtc (calls callGraph) root v;
  inv_closed : forall v, v ∈ visited -> default ∅ (callGraph !! v) ⊆ toTraverse ∪ visited;
  inv_disjoint : toTraverse ## visited;
  inv_acc : forall a, a ∈ acc <-> exists v, v ∈ visited /\ a ∈ assertionsOf functionAssertions v;
  inv_universe : toTraverse ∪ visited ⊆ CHC.vertices root callGraph;
}.

(** The error index is left alone by the steps that work on the encoding
    context. *)
Record sameError (s s' : CHC) : Prop := { sameError_error : m_error s' = m_error s }.

(** Steps that change nothing but the encoding context: the indices of the
    variables, the assertions and the path conditions. *)
Record onlyContext (s s' : CHC) : Prop := {
  onlyContext_eq : s' = set_m_context (m_context s') s;
}.

(** What the encoding of an expression or of a statement never touches:
    the tables of the summaries and of the interfaces, the predicates of the
    contract, the state variables and their sorts, the current contract and
    the verification targets. *)
Record kept (s s' : CHC) : Prop := {
  kept_summaries : m_summaries s' = m_summaries s;
  kept_interfaces : m_interfaces s' = m_interfaces s;
  kept_genesisPredicate : m_genesisPredicate s' = m_genesisPredicate s;
  kept_errorPredicate : m_errorPredicate s' = m_errorPredicate s;
  kept_constructorSummaryPredicate :
    m_constructorSummaryPredicate s' = m_constructorSummaryPredicate s;
  kept_implicitConstructorPredicate :
    m_implicitConstructorPredicate s' = m_implicitConstructorPredicate s;
  kept_stateVariables : m_stateVariables s' = m_stateVariables s;
  kept_stateSorts : m_stateSorts s' = m_stateSorts s;
  kept_currentContract : m_currentContract s' = m_currentContract s;
  kept_verificationTargets : m_verificationTargets s' = m_verificationTargets s;
}.

(** Steps that create no block: the block counter, the registered relations
    and the current block are as before. *)
Record noBlock (s s' : CHC) : Prop := {
  noBlock_counter : m_blockCounter s' = m_blockCounter s;
  noBlock_relations : relations (m_interface s') = relations (m_interface s);
  noBlock_currentBlock : m_currentBlock s' = m_currentBlock s;
}.

(** Steps that do not clear [m_unknownFunctionCallSeen]: if an unknown call
    was seen before the step, it was seen after it. *)
Record seenStays (s s' : CHC) : Prop := {
  seen_stays : m_unknownFunctionCallSeen s = true -> m_unknownFunctionCallSeen s' = true;
}.

(** [map::emplace] on the verification targets: the first target of a scope
    stays. *)
Definition emplaceTarget (scope : nat) (target : CHCVerificationTarget)
    (targets : gmap nat CHCVerificationTarget) : gmap nat CHCVerificationTarget :=
  match targets !! scope with
  | Some _ => targets
  | None => <[scope := target]> targets
  end.

(** The calls that [endVisit(FunctionCall)] treats as unknown calls. *)
Definition isUnknownCall (e : Expression) : bool :=
  match e with
  | FunctionCall _ FunctionCallKind_FunctionCall kind _ _ _ =>
      match kind with
      | Assert | Internal | OtherKind => false
      | _ => true
      end
  | _ => false
  end.

(** An unknown call occurs in an expression, in a statement. *)
Fixpoint unknownCallIn (e : Expression) : bool :=
  isUnknownCall e ||
  match e with
  | FunctionCall _ _ _ _ callee args => unknownCallIn callee || existsb unknownCallIn args
  | OtherExpression _ subexpressions => existsb unknownCallIn subexpressions
  end.

Fixpoint containsUnknownCall (st : Statement) : bool :=
  match st with
  | Block _ statements => existsb containsUnknownCall statements
  | ExpressionStatement _ e => unknownCallIn e
  | OtherStatement _ subexpressions => existsb unknownCallIn subexpressions
  | IfStatement _ condition trueStatement falseStatement =>
      unknownCallIn condition || containsUnknownCall trueStatement ||
      match falseStatement with
      | Some falseStatement => containsUnknownCall falseStatement
      | None => false
      end
  | WhileStatement _ _ condition body => unknownCallIn condition || containsUnknownCall body
  | ForStatement _ init condition post body =>
      match init with Some init => containsUnknownCall init | None => false end ||
      match condition with Some condition => unknownCallIn condition | None => false end ||
      match post with Some post => containsUnknownCall post | None => false end ||
      containsUnknownCall body
  | Break _ | Continue _ => false
  end.

(** The statements that [CHC] encodes as blocks of their own. *)
Definition isControlStatement (st : Statement) : bool :=
  match st with
  | IfStatement _ _ _ _ | WhileStatement _ _ _ _ | ForStatement _ _ _ _ _ => true
  | _ => false
  end.

(** What the encoding of the contracts and the queries never touch: the
    tables of the summaries and of the interfaces and the genesis
    predicate. *)
Record tables (s s' : CHC) : Prop := {
  tables_summaries : m_summaries s' = m_summaries s;
  tables_interfaces : m_interfaces s' = m_interfaces s;
  tables_genesisPredicate : m_genesisPredicate s' = m_genesisPredicate s;
}.

(** Steps that leave the backend and the block counter alone. *)
Record quiet (s s' : CHC) : Prop := {
  quiet_interface : m_interface s' = m_interface s;
  quiet_counter : m_blockCounter s' = m_blockCounter s;
  quiet_summaries : m_summaries s' = m_summaries s;
  quiet_breakDest : m_breakDest s' = m_breakDest s;
  quiet_continueDest : m_continueDest s' = m_continueDest s;
  quiet_genesisPredicate : m_genesisPredicate s' = m_genesisPredicate s;
  quiet_errorPredicate : m_errorPredicate s' = m_errorPredicate s;
  quiet_constructorSummaryPredicate :
    m_constructorSummaryPredicate s' = m_constructorSummaryPredicate s;
  quiet_implicitConstructorPredicate :
    m_implicitConstructorPredicate s' = m_implicitConstructorPredicate s;
  quiet_interfaces : m_interfaces s' = m_interfaces s;
}.

(** The effect of [createBlock] on the state: the counter moves on and the
    block is registered. *)
Definition declareBlock (b : smt.SymbolicFunctionVariable) (s : CHC) : CHC :=
  CHC.register b (set_m_blockCounter (S (m_blockCounter s)) s).

Definition declareBlocks (bs : list smt.SymbolicFunctionVariable) (s : CHC) : CHC :=
  fold_left (fun s b => declareBlock b s) bs s.

(** ** The sorts of the arguments of the predicates *)

(** The domain of a function sort. *)
Definition domainOf (so : smt.Sort) : list smt.Sort :=
  match so with
  | smt.FunctionSort domain _ => domain
  | _ => []
  end.

(** A position in the domain of a predicate: the error value, or an
    instance of a declared variable. *)
Inductive Slot :=
| ErrorSlot
| VariableSlot (v : VariableDeclaration).

(** The sort of a position: the error value is an integer, and the sort of
    a variable is the one that [smtSortAbstractFunction] gives its type. *)
Definition slotSort (x : Slot) : smt.Sort :=
  match x with
  | ErrorSlot => smt.intSort
  | VariableSlot v => CHC.smtSortAbstractFunction v
  end.

(** The term [e] is an instance of what the position stands for: an
    instance of the error variable, or an instance of the variable. *)
Inductive fills : Slot -> smt.Expression -> Prop :=
| fills_error k : fills ErrorSlot (smt.SSA smt.ErrorSym k)
| fills_variable v k : fills (VariableSlot v) (smt.SSA (smt.VarSym (var_id v)) k).

(** The positions of a list of variables. *)
Definition slotsOf (vars : list VariableDeclaration) : list Slot := VariableSlot <$> vars.

(** [e] is the predicate [b] applied to one argument for each of the
    positions [slots], in this order, and the domain of the sort of [b] is
    the list of the sorts of these positions. *)
Definition appliedTo (b : smt.SymbolicFunctionVariable) (slots : list Slot)
    (e : smt.Expression) : Prop :=
  exists args,
    e = smt.apply b args /\ Forall2 fills slots args /\
    domainOf (smt.sfv_sort b) = slotSort <$> slots.

(** ** The names of the predicates and the shape of the rules *)

(** The names that [defineInterfacesAndSummaries] gives to the interface
    predicates. *)
Definition isInterfaceName (name : string) : bool := String.prefix "interface_" name.

Definition noInterface (p : smt.SymbolicFunctionVariable) : Prop :=
  isInterfaceName (smt.sfv_name p) = false.

(** The names that [createBlock] and [createSummaryBlock] build when the
    block counter is [k]. *)
Definition counterNamed (k : nat) (name : string) : Prop :=
  exists rest,
    name = "block_" +:+ pretty k +:+ "_" +:+ rest \/
    name = "summary_" +:+ pretty k +:+ "_" +:+ rest.

(** A name that is neither that of an interface nor built from the block
    counter. *)
Definition plainName (name : string) : Prop :=
  isInterfaceName name = false /\ forall k, ~ counterNamed k name.

(** The decimal digits. *)
Definition isDigit (c : ascii) : bool :=
  existsb (Ascii.eqb c) ["0"; "1"; "2"; "3"; "4"; "5"; "6"; "7"; "8"; "9"]%char.

Fixpoint allDigits (s : string) : bool :=
  match s with
  | EmptyString => true
  | String c rest => isDigit c && allDigits rest
  end.

Fixpoint hasDigit (s : string) : bool :=
  match s with
  | EmptyString => false
  | String c rest => isDigit c || hasDigit rest
  end.

(** The guard of an edge says that the error value of the edge is 0: the
    edge leaves a predicate applied to that error value and is guarded by
    [error = 0], or it is guarded by a predicate applied to the error value
    conjoined with [error = 0]. *)
Definition errorIsZero (from constraints : smt.Expression) : Prop :=
  (exists p i error state,
     from = smt.Apply p i (error :: state) /\
     constraints = smt.Eq error (smt.IntLit 0)) \/
  (exists p i error rest,
     constraints = smt.And (smt.Apply p i (error :: rest)) (smt.Eq error (smt.IntLit 0))).

(** A rule that, if it is an edge into an interface predicate, says that the
    error value is 0. *)
Definition goodRule (r : smt.Expression * string) : Prop :=
  forall from assertions constraints p i args,
    fst r = CHC.edge from assertions constraints (smt.Apply p i args) ->
    isInterfaceName p = true ->
    errorIsZero from constraints.

(** The conclusion [to] of an edge from [from] guarded by [constraints] is
    no interface predicate, unless the guard says that the error is 0. *)
Definition targetOk (from to constraints : smt.Expression) : Prop :=
  forall p i args,
    to = smt.Apply p i args -> isInterfaceName p = true -> errorIsZero from constraints.

(** The predicates that the encoder keeps for later edges are no interface
    predicates, the name of the error predicate is not built from the block
    counter, and the interface predicates are named as such. *)
Record namesOk (s : CHC) : Prop := {
  ok_genesis : forall p, m_genesisPredicate s = Some p -> noInterface p;
  ok_error : forall p, m_errorPredicate s = Some p -> plainName (smt.sfv_name p);
  ok_constructorSummary :
    forall p, m_constructorSummaryPredicate s = Some p -> noInterface p;
  ok_implicitConstructor :
    forall p, m_implicitConstructorPredicate s = Some p -> noInterface p;
  ok_summaries :
    forall k m f p, m_summaries s !! k = Some m -> m !! f = Some p -> noInterface p;
  ok_breakDest : forall p, m_breakDest s = Some p -> noInterface p;
  ok_continueDest : forall p, m_continueDest s = Some p -> noInterface p;
  ok_interfaces :
    forall k p, m_interfaces s !! k = Some p -> isInterfaceName (smt.sfv_name p) = true;
}.

(** The names among [names] that are built from a block counter carry a
    value of the counter from [lo] up to [hi], and no two of them are equal. *)
Record counterNames (lo hi : nat) (names : list string) : Prop := {
  counterNames_range :
    forall name k, name ∈ names -> counterNamed k name -> lo <= k < hi;
  counterNames_distinct :
    forall i j name k,
      names !! i = Some name -> names !! j = Some name -> counterNamed k name -> i = j;
}.

(** What a run from [s] to [s'] adds to the backend: the block counter does
    not go down, the names of the new relations that are built from the
    counter carry the values it went through and are pairwise distinct, and
    the new rules are good. *)
Record logged (s s' : CHC) : Prop := {
  logged_counter : m_blockCounter s <= m_blockCounter s';
  logged_relations :
    exists P, relations (m_interface s') = relations (m_interface s) ++ P /\
              counterNames (m_blockCounter s) (m_blockCounter s') (smt.sfv_name <$> P);
  logged_rules :
    exists R, rules (m_interface s') = rules (m_interface s) ++ R /\ Forall goodRule R;
}.

(** A step of the encoder keeps the names in order and logs what it adds. *)
Definition step (s s' : CHC) : Prop := namesOk s -> namesOk s' /\ logged s s'.

(** Where a summary of the table comes from: it was there before, or it
    was created for a function of a base of a contract of the source. *)
Definition summaryFrom (src : SourceUnit) (s : CHC) (k f : nat)
    (p : smt.SymbolicFunctionVariable) : Prop :=
  (m_summaries s !! k) ≫= (fun m => m !! f) = Some p \/
  exists contract base (function : FunctionDefinition),
    In contract (nodes src) /\ In base (linearizedBaseContracts contract) /\
    In function (definedFunctions base) /\
    k = contract_id (declaration contract) /\ f = fun_id function /\
    smt.sfv_sort p = CHC.summarySort function (declaration contract) /\
    smt.sfv_index p = 0 /\
    exists n, counterNamed n (smt.sfv_name p).

(** Where an interface predicate of the table comes from: it was there
    before, or it was created for a base of a contract of the source. *)
Definition interfaceFrom (src : SourceUnit) (s : CHC) (k : nat)
    (p : smt.SymbolicFunctionVariable) : Prop :=
  m_interfaces s !! k = Some p \/
  exists contract base,
    In contract (nodes src) /\ In base (linearizedBaseContracts contract) /\
    k = contract_id (declaration base) /\
    p = {| smt.sfv_name := "interface_" +:+ contract_name (declaration base) +:+ "_"
                             +:+ pretty (contract_id (declaration base));
           smt.sfv_sort := CHC.interfaceSort_of (declaration base);
           smt.sfv_index := 0 |}.

Section Vocabulary.
Context `{Environment}.

(** The step of [defineInterfacesAndSummaries] for one function. *)
Definition defineSummary (contract : ContractDefinition) (function : FunctionDefinition) : M unit :=
  p <- CHC.createSummaryBlock function (declaration contract) ;;
  modify (fun s =>
    let k := contract_id (declaration contract) in
    let ofContract := default ∅ (m_summaries s !! k) in
    set_m_summaries
      (<[k := match ofContract !! fun_id function with
              | Some _ => ofContract
              | None => <[fun_id function := p]> ofContract
              end]> (m_summaries s)) s).

(** The step of [defineInterfacesAndSummaries] for one base of a contract. *)
Definition defineBase (contract base : ContractDefinition) : M unit :=
  let suffix := CHC.contractSuffix (declaration base) in
  p <- CHC.createSymbolicBlock (CHC.interfaceSort_of (declaration base)) ("interface_" +:+ suffix) ;;
  modify (fun s => set_m_interfaces
            (<[contract_id (declaration base) := p]> (m_interfaces s)) s) ;;
  forEach (CHC.stateVariablesIncludingInheritedAndPrivate (declaration base)) (fun var =>
    c <- gets m_context ;;
    if EncodingContext.knownVariable var c then ret tt else CHC.createVariable var) ;;
  forEach (definedFunctions base) (defineSummary contract).

(** The pairs of a scope and an assertion that the driver queries. *)
Definition queried (s : CHC) (targets : list (nat * CHCVerificationTarget))
    (scope a : nat) : Prop :=
  (exists t, (scope, t) ∈ targets) /\
  exists F, rtc (calls (m_callGraph s)) scope F /\
            a ∈ assertionsOf (m_functionAssertions s) F.

(** The rule that [connectBlocks(m_currentBlock, predicate(b), c)] emits
    in the state [s]: from the current block to [b], guarded by [c]. *)
Definition edgeTo (s : CHC) (b : smt.SymbolicFunctionVariable) (c : smt.Expression)
    (r : smt.Expression * string) : Prop :=
  exists to,
    CHC.predicate b s = Some (to, s) /\
    r = (CHC.edge (m_currentBlock s) (EncodingContext.assertions (m_context s)) c to,
         CHC.edgeName (m_currentBlock s) to).

(** The [else] branch of an [if], from the state [s] reached at the end of
    the [then] branch to the state [s'] in which the encoder moves to the
    block after the [if]. *)
Definition elseBranch (falseStatement : option Statement)
    (falseBlock : option smt.SymbolicFunctionVariable)
    (afterIfBlock : smt.SymbolicFunctionVariable) (s s' : CHC)
    (P : list smt.SymbolicFunctionVariable) (R R' : list (smt.Expression * string))
    : Prop :=
  match falseStatement, falseBlock with
  | Some st, Some b =>
      exists sf sf' r,
        CHC.setCurrentBlock b None s = Some (tt, sf) /\
        CHC.acceptStatement st sf = Some (tt, sf') /\
        emitted sf sf' P R /\
        edgeTo sf' afterIfBlock (smt.BoolLit true) r /\
        R' = [r] /\ s' = CHC.emitRule r sf'
  | None, None => P = [] /\ R = [] /\ R' = [] /\ s' = s
  | _, _ => False
  end.

(** The queries behind a list of outcomes.  [p] is the error predicate and
    [b] the backend before the first of them; [assertions] are the
    assertions of the encoding context.  For each outcome, in order, the
    error predicate moves to its next index and is registered, the rule from
    the block of the target of the scope to the error predicate is added,
    guarded by the constraints of the target and by the error id being the
    id of the assertion, and the answer is the answer of the solver to the
    error predicate in that backend.  [p'] and [b'] are the error predicate
    and the backend after the last query. *)
Fixpoint asked (targets : gmap nat CHCVerificationTarget) (assertions : smt.Expression)
    (p : option smt.SymbolicFunctionVariable) (b : CHCSolverInterface)
    (outs : list Outcome)
    (p' : option smt.SymbolicFunctionVariable) (b' : CHCSolverInterface) : Prop :=
  match outs with
  | [] => p' = p /\ b' = b
  | (scope, assertion, r) :: rest =>
      exists target previous,
        targets !! scope = Some target /\ p = Some previous /\
        let error := smt.increaseIndex previous in
        let to := smt.apply error [] in
        let rule :=
          (CHC.edge (value target) assertions
             (smt.And (constraints target)
                (smt.Eq (errorId target) (smt.IntLit assertion))) to,
           CHC.edgeName (value target) to) in
        let backend :=
          {| relations := relations b ++ [error]; rules := rules b ++ [rule] |} in
        r = (solver_query backend to).1 /\
        asked targets assertions (Some error) backend rest p' b'
  end.

(** The exit of an [if] or of a loop: the havoc if an unknown call was seen
    inside, and [m_unknownFunctionCallSeen] back at the value it had when
    the statement was entered. *)
Definition exitHavoc (unknownFunctionCallWasSeen : bool) : M bool :=
  seen <- gets m_unknownFunctionCallSeen ;;
  (if seen then CHC.eraseKnowledge else ret tt) ;;
  modify (set_m_unknownFunctionCallSeen unknownFunctionCallWasSeen) ;;
  ret false.

(** [visit(IfStatement)] up to its exit: from the entry to the block after
    the [if].  It returns the value that [m_unknownFunctionCallSeen] had at
    the entry. *)
Definition ifUpToExit (_if : nat) (_condition : Expression)
    (_trueStatement : Statement) (_falseStatement : option Statement) : M bool :=
  CHC.currentFunction ;;
  unknownFunctionCallWasSeen <- gets m_unknownFunctionCallSeen ;;
  modify (set_m_unknownFunctionCallSeen false) ;;
  f <- CHC.currentFunction ;;
  let functionBody := fun_body f in
  ifHeaderBlock <- CHC.createBlock (OtherNode _if) "if_header_" ;;
  trueBlock <- CHC.createBlock (OtherNode (stmt_id _trueStatement)) "if_true_" ;;
  falseBlock <- match _falseStatement with
                | Some falseStatement =>
                    b <- CHC.createBlock (OtherNode (stmt_id falseStatement)) "if_false_" ;;
                    ret (Some b)
                | None => ret None
                end ;;
  afterIfBlock <- CHC.createBlock (OtherNode (stmt_id functionBody)) "" ;;
  CHC.connectCurrentTo ifHeaderBlock (smt.BoolLit true) ;;
  CHC.setCurrentBlock ifHeaderBlock None ;;
  CHC.acceptExpression _condition ;;
  condition <- CHC.expr _condition ;;
  CHC.connectCurrentTo trueBlock condition ;;
  match falseBlock with
  | Some falseBlock => CHC.connectCurrentTo falseBlock (smt.Not condition)
  | None => CHC.connectCurrentTo afterIfBlock (smt.Not condition)
  end ;;
  CHC.setCurrentBlock trueBlock None ;;
  CHC.acceptStatement _trueStatement ;;
  CHC.connectCurrentTo afterIfBlock (smt.BoolLit true) ;;
  match _falseStatement, falseBlock with
  | Some falseStatement, Some falseBlock =>
      CHC.setCurrentBlock falseBlock None ;;
      CHC.acceptStatement falseStatement ;;
      CHC.connectCurrentTo afterIfBlock (smt.BoolLit true)
  | _, _ => ret tt
  end ;;
  CHC.setCurrentBlock afterIfBlock None ;;
  ret unknownFunctionCallWasSeen.

(** [visit(WhileStatement)] up to its exit. *)
Definition whileUpToExit (_while : nat) (_isDoWhile : bool)
    (_condition : Expression) (_body : Statement) : M bool :=
  unknownFunctionCallWasSeen <- gets m_unknownFunctionCallSeen ;;
  modify (set_m_unknownFunctionCallSeen false) ;;
  f <- CHC.currentFunction ;;
  let functionBody := fun_body f in
  let namePrefix := (if _isDoWhile then "do_" else "") +:+ "while" in
  loopHeaderBlock <- CHC.createBlock (OtherNode _while) (namePrefix +:+ "_header_") ;;
  loopBodyBlock <- CHC.createBlock (OtherNode (stmt_id _body)) (namePrefix +:+ "_body_") ;;
  afterLoopBlock <- CHC.createBlock (OtherNode (stmt_id functionBody)) "" ;;
  outerBreakDest <- gets m_breakDest ;;
  outerContinueDest <- gets m_continueDest ;;
  modify (set_m_breakDest (Some afterLoopBlock)) ;;
  modify (set_m_continueDest (Some loopHeaderBlock)) ;;
  (if _isDoWhile then CHC.acceptStatement _body else ret tt) ;;
  CHC.connectCurrentTo loopHeaderBlock (smt.BoolLit true) ;;
  CHC.setCurrentBlock loopHeaderBlock None ;;
  CHC.acceptExpression _condition ;;
  condition <- CHC.expr _condition ;;
  CHC.connectCurrentTo loopBodyBlock condition ;;
  CHC.connectCurrentTo afterLoopBlock (smt.Not condition) ;;
  CHC.setCurrentBlock loopBodyBlock None ;;
  CHC.acceptStatement _body ;;
  modify (set_m_breakDest outerBreakDest) ;;
  modify (set_m_continueDest outerContinueDest) ;;
  CHC.connectCurrentTo loopHeaderBlock (smt.BoolLit true) ;;
  CHC.setCurrentBlock afterLoopBlock None ;;
  ret unknownFunctionCallWasSeen.

(** [visit(ForStatement)] up to its exit. *)
Definition forUpToExit (_for : nat) (_initializationExpression : option Statement)
    (_condition : option Expression) (_loopExpression : option Statement)
    (_body : Statement) : M bool :=
  unknownFunctionCallWasSeen <- gets m_unknownFunctionCallSeen ;;
  modify (set_m_unknownFunctionCallSeen false) ;;
  f <- CHC.currentFunction ;;
  let functionBody := fun_body f in
  loopHeaderBlock <- CHC.createBlock (OtherNode _for) "for_header_" ;;
  loopBodyBlock <- CHC.createBlock (OtherNode (stmt_id _body)) "for_body_" ;;
  afterLoopBlock <- CHC.createBlock (OtherNode (stmt_id functionBody)) "" ;;
  postLoopBlock <- match _loopExpression with
                   | Some postLoop =>
                       b <- CHC.createBlock (OtherNode (stmt_id postLoop)) "for_post_" ;;
                       ret (Some b)
                   | None => ret None
                   end ;;
  outerBreakDest <- gets m_breakDest ;;
  outerContinueDest <- gets m_continueDest ;;
  modify (set_m_breakDest (Some afterLoopBlock)) ;;
  modify (set_m_continueDest
            (Some (match postLoopBlock with
                   | Some b => b
                   | None => loopHeaderBlock
                   end))) ;;
  match _initializationExpression with
  | Some init => CHC.acceptStatement init
  | None => ret tt
  end ;;
  CHC.connectCurrentTo loopHeaderBlock (smt.BoolLit true) ;;
  CHC.setCurrentBlock loopHeaderBlock None ;;
  condition <- match _condition with
               | Some forCondition =>
                   CHC.acceptExpression forCondition ;;
                   CHC.expr forCondition
               | None => ret (smt.BoolLit true)
               end ;;
  CHC.connectCurrentTo loopBodyBlock condition ;;
  CHC.connectCurrentTo afterLoopBlock (smt.Not condition) ;;
  CHC.setCurrentBlock loopBodyBlock None ;;
  CHC.acceptStatement _body ;;
  match _loopExpression, postLoopBlock with
  | Some postLoop, Some postLoopBlock =>
      CHC.connectCurrentTo postLoopBlock (smt.BoolLit true) ;;
      CHC.setCurrentBlock postLoopBlock None ;;
      CHC.acceptStatement postLoop
  | _, _ => ret tt
  end ;;
  modify (set_m_breakDest outerBreakDest) ;;
  modify (set_m_continueDest outerContinueDest) ;;
  CHC.connectCurrentTo loopHeaderBlock (smt.BoolLit true) ;;
  CHC.setCurrentBlock afterLoopBlock None ;;
  ret unknownFunctionCallWasSeen.

(** The encoding of an [if] or of a loop up to its exit. *)
Definition upToExit (st : Statement) : M bool :=
  match st with
  | IfStatement id condition trueStatement falseStatement =>
      ifUpToExit id condition trueStatement falseStatement
  | WhileStatement id isDoWhile condition body =>
      whileUpToExit id isDoWhile condition body
  | ForStatement id init condition post body =>
      forUpToExit id init condition post body
  | _ => fail
  end.

(** The parts of a [for] loop that may be missing.  The initialisation runs
    from [s] to [s']; the condition runs from [s] to [s'] and gives the
    guard [cond] ([true] when there is none); the loop expression, when
    there is one, is reached through the edge [R'] from the block the body
    ends in to its own block, and runs to [s']. *)
Definition forInit (init : option Statement) (s s' : CHC)
    (P : list smt.SymbolicFunctionVariable) (R : list (smt.Expression * string)) : Prop :=
  match init with
  | Some st => CHC.acceptStatement st s = Some (tt, s') /\ emitted s s' P R
  | None => s' = s /\ P = [] /\ R = []
  end.

Definition forCondition (condition : option Expression) (s s' : CHC) (cond : smt.Expression)
    (P : list smt.SymbolicFunctionVariable) (R : list (smt.Expression * string)) : Prop :=
  match condition with
  | Some e =>
      CHC.acceptExpression e s = Some (tt, s') /\ emitted s s' P R /\
      CHC.expr e s' = Some (cond, s')
  | None => s' = s /\ P = [] /\ R = [] /\ cond = smt.BoolLit true
  end.

Definition forPost (post : option Statement)
    (postBlock : option smt.SymbolicFunctionVariable) (s s' : CHC)
    (P : list smt.SymbolicFunctionVariable) (R R' : list (smt.Expression * string)) : Prop :=
  match post, postBlock with
  | Some st, Some b =>
      exists r sp,
        edgeTo s b (smt.BoolLit true) r /\
        CHC.setCurrentBlock b None (CHC.emitRule r s) = Some (tt, sp) /\
        CHC.acceptStatement st sp = Some (tt, s') /\
        emitted sp s' P R /\ R' = [r]
  | None, None => s' = s /\ P = [] /\ R = [] /\ R' = []
  | _, _ => False
  end.

End Vocabulary.

(** * A sample environment and a sample program

    The parameters of the development instantiated by a small expression
    encoder, and a contract that the theorems below are run on. *)
Module Example.

(** The variables that are not yet known are declared. *)
Definition declareAll (vars : list VariableDeclaration) (c : EncodingContext)
    : EncodingContext :=
  foldr (fun v c => if EncodingContext.knownVariable v c then c
                    else EncodingContext.createVariable v c) c vars.

Definition resetAll (vars : list VariableDeclaration) (c : EncodingContext)
    : EncodingContext :=
  EncodingContext.with_variables
    (fun m => foldr (fun v m => alter (fun p => (fst p, 0)) (var_id v) m) m vars) c.

Definition functionVariables (f : FunctionSignature) : list VariableDeclaration :=
  parameters f ++ returnParameters f ++ localVariables f.

(** An expression encoder that declares the variables of a contract and of
    a function when it enters them, and resets their indices on request. *)
Definition simpleEffect (ev : BaseEvent) (c : EncodingContext) : EncodingContext :=
  match ev with
  | InitContract ct =>
      declareAll (CHC.stateVariablesIncludingInheritedAndPrivate (declaration ct)) c
  | InitFunction f => declareAll (functionVariables f) c
  | ClearIndices ct f =>
      resetAll (CHC.stateVariablesIncludingInheritedAndPrivate (declaration ct) ++
                match f with Some f => functionVariables f | None => [] end) c
  | _ => c
  end.

Definition simpleEnvironment (answers : smt.Expression -> smt.CheckResult) : Environment :=
  {| SMTEncoder_effect := simpleEffect;
     symbolicArguments := fun e c => map (fun a => EncodingContext.expression a c) (arguments e);
     resolvedFunctions := definedFunctions;
     solver_query := fun _ q => (answers q, []) |}.

(** The state of a freshly constructed encoder. *)
Definition initial : CHC :=
  {| m_context := EncodingContext.empty; m_currentContract := None;
     m_currentFunction := None; m_genesisPredicate := None; m_errorPredicate := None;
     m_constructorSummaryPredicate := None; m_implicitConstructorPredicate := None;
     m_interfaces := ∅; m_summaries := ∅; m_error := 0; m_stateSorts := [];
     m_stateVariables := []; m_verificationTargets := ∅; m_safeAssertions := ∅;
     m_functionAssertions := ∅; m_callGraph := ∅; m_currentBlock := smt.BoolLit true;
     m_unknownFunctionCallSeen := false; m_breakDest := None; m_continueDest := None;
     m_blockCounter := 0; m_interface := {| relations := []; rules := [] |};
     m_outerErrorReporter := [] |}.

(** The state that a run reaches, the starting state if it fails. *)
Definition stateAfter {A} (m : M A) (s : CHC) : CHC :=
  match m s with
  | Some (_, s') => s'
  | None => s
  end.

(** contract C { uint total; mapping(..) balances;
      function f(uint x) internal returns (uint r) { assert(..); }
      function g() public { f(..); }
      function h() public { f(..); }
      function k() external;
      function w(uint n) public { } } *)
Definition total : VariableDeclaration :=
  {| var_id := 2; var_name := "total"; var_type := 0;
     isStateVariable := true; hasReferenceOrMappingType := false |}.

Definition balances : VariableDeclaration :=
  {| var_id := 3; var_name := "balances"; var_type := 1;
     isStateVariable := true; hasReferenceOrMappingType := true |}.

Definition C_declaration : ContractDeclaration :=
  mkContractDeclaration 1 "C" false [total; balances] [].

Definition x : VariableDeclaration :=
  {| var_id := 11; var_name := "x"; var_type := 0;
     isStateVariable := false; hasReferenceOrMappingType := false |}.

Definition r : VariableDeclaration :=
  {| var_id := 12; var_name := "r"; var_type := 0;
     isStateVariable := false; hasReferenceOrMappingType := false |}.

Definition n : VariableDeclaration :=
  {| var_id := 52; var_name := "n"; var_type := 0;
     isStateVariable := false; hasReferenceOrMappingType := false |}.

Definition function (id : nat) (name : string) (public implemented : bool)
    (params returns : list VariableDeclaration) : FunctionSignature :=
  {| fun_id := id; fun_name := name; fun_kind := Function; isPublic := public;
     isImplemented := implemented; parameters := params; returnParameters := returns;
     localVariables := []; fun_contract := C_declaration |}.

Definition identifier (id : nat) : Expression := OtherExpression id [].

Definition f_signature : FunctionSignature := function 10 "f" false true [x] [r].

Definition assertCall : Expression :=
  FunctionCall 13 FunctionCallKind_FunctionCall Assert None (identifier 15)
    [OtherExpression 16 [identifier 17; identifier 18]].

Definition callOf (id : nat) : Expression :=
  FunctionCall id FunctionCallKind_FunctionCall Internal (Some f_signature)
    (identifier (id + 2)) [identifier (id + 3)].

Definition f : FunctionDefinition :=
  {| signature := f_signature;
     fun_body := Block 19 [ExpressionStatement 14 assertCall] |}.

Definition g : FunctionDefinition :=
  {| signature := function 20 "g" true true [] [];
     fun_body := Block 22 [ExpressionStatement 24 (callOf 23)] |}.

Definition h : FunctionDefinition :=
  {| signature := function 30 "h" true true [] [];
     fun_body := Block 32 [ExpressionStatement 34 (callOf 33)] |}.

Definition k : FunctionDefinition :=
  {| signature := function 40 "k" true false [] []; fun_body := Block 41 [] |}.

Definition w : FunctionDefinition :=
  {| signature := function 50 "w" true true [n] []; fun_body := Block 51 [] |}.

Definition C : ContractDefinition :=
  mkContractDefinition C_declaration [f; g; h; k; w] [] [].

Definition source : SourceUnit :=
  {| source_id := 0; experimentalSMTChecker := true; nodes := [C] |}.

(** A solver that proves the first query and finds the second one
    satisfiable: the queries are told apart by the index of the error
    predicate. *)
Definition answers (q : smt.Expression) : smt.CheckResult :=
  match q with
  | smt.Apply _ 1 _ => smt.UNSATISFIABLE
  | _ => smt.SATISFIABLE
  end.

#[local] Instance environment : Environment := simpleEnvironment answers.

(** The encoder inside the body of [w], before a statement of the body. *)
Definition inBody : CHC :=
  stateAfter
    (CHC.defineInterfacesAndSummaries source ;;
     CHC.visit_ContractDefinition C ;;
     CHC.visit_FunctionDefinition (ret tt) w)
    (stateAfter (p <- CHC.createSymbolicBlock (smt.FunctionSort [] smt.boolSort) "genesis" ;;
                 modify (set_m_genesisPredicate (Some p))) initial).

(** if (c) { } else { }   and   while (c) { },  do { } while (c) *)
Definition condition : Expression := identifier 61.

Definition ifStatement : Statement :=
  IfStatement 60 condition (Block 62 []) (Some (Block 63 [])).

Definition whileStatement (isDoWhile : bool) : Statement :=
  WhileStatement 70 isDoWhile condition (Block 72 [Break 73]).

(** An external call, and statements that contain it:
    if (c) { k(); }   and   if (c) { while (c) { k(); } } *)
Definition externalCall : Expression :=
  FunctionCall 65 FunctionCallKind_FunctionCall External None (identifier 66) [].

Definition ifWithCall : Statement :=
  IfStatement 60 condition (Block 62 [ExpressionStatement 64 externalCall]) None.

Definition nested : Statement :=
  IfStatement 60 condition
    (WhileStatement 70 false condition (Block 72 [ExpressionStatement 64 externalCall]))
    None.

(** for (i; c; p) { continue; } *)
Definition forStatement : Statement :=
  ForStatement 100 (Some (ExpressionStatement 101 (identifier 102))) (Some condition)
    (Some (ExpressionStatement 103 (identifier 104))) (Block 105 [Continue 106]).

(** The encoder after the genesis predicate was created, after the
    interfaces and summaries of the sample source were defined, and after
    the visit of [C], before the end of its visit. *)
Definition started : CHC :=
  stateAfter (p <- CHC.createSymbolicBlock (smt.FunctionSort [] smt.boolSort) "genesis" ;;
              modify (set_m_genesisPredicate (Some p))) initial.

Definition defined : CHC := stateAfter (CHC.defineInterfacesAndSummaries source) started.

Definition inContract : CHC := stateAfter (CHC.visit_ContractDefinition C) defined.

(** The encoder inside a loop of the body of [w]: the destinations of
    [break] and [continue] are two blocks of the loop. *)
Definition inLoop : CHC :=
  stateAfter
    (header <- CHC.createBlock (OtherNode 70) "while_header_" ;;
     afterLoop <- CHC.createBlock (OtherNode 70) "" ;;
     modify (set_m_breakDest (Some afterLoop)) ;;
     modify (set_m_continueDest (Some header))) inBody.

(** The encoder after the analysis of the sample source. *)
Definition analyzed : CHC := stateAfter (CHC.analyze source []) initial.

(** A target at the current block of the body of [w]. *)
Definition target : CHCVerificationTarget :=
  {| value := m_currentBlock inBody; constraints := smt.BoolLit true;
     errorId := CHC.errorValue inBody |}.

(** contract A { }   contract B is A { } *)
Definition A : ContractDefinition :=
  mkContractDefinition (mkContractDeclaration 80 "A" false [] []) [] [] [].

Definition B : ContractDefinition :=
  mkContractDefinition (mkContractDeclaration 81 "B" false [] [declaration A]) [] [] [A].

Definition inheritance : SourceUnit :=
  {| source_id := 1; experimentalSMTChecker := true; nodes := [A; B] |}.

End Example.

(** * Proofs *)

From Stdlib Require Import Lia.

(** * Reasoning about runs of the encoder *)

Lemma bind_Some {A B} (m : M A) (k : A -> M B) s b s2 :
  bind m k s = Some (b, s2) <-> exists a s1, m s = Some (a, s1) /\ k a s1 = Some (b, s2).
Proof.
  unfold bind. split.
  - destruct (m s) as [[a s1]|]; [|discriminate]. eauto.
  - intros (a & s1 & -> & Hk). exact Hk.
Qed.

Lemma ret_Some {A} (a : A) s b s' : ret a s = Some (b, s') <-> b = a /\ s' = s.
Proof. unfold ret. naive_solver. Qed.

Lemma gets_Some {A} (f : CHC -> A) s b s' : gets f s = Some (b, s') <-> b = f s /\ s' = s.
Proof. unfold gets. naive_solver. Qed.

Lemma modify_Some f s b s' : modify f s = Some (b, s') <-> s' = f s.
Proof. unfold modify. destruct b. naive_solver. Qed.

Lemma deref_Some {A} (o : option A) s a s' : deref o s = Some (a, s') <-> o = Some a /\ s' = s.
Proof. destruct o; unfold deref, ret, fail; naive_solver. Qed.

Lemma solAssert_Some b s u s' : solAssert b s = Some (u, s') <-> b = true /\ s' = s.
Proof. destruct b, u; unfold solAssert, ret, fail; naive_solver. Qed.

Lemma fail_Some {A} s (r : A * CHC) : @fail A s = Some r <-> False.
Proof. unfold fail. naive_solver. Qed.

Create HintDb readonly.

(** Forward symbolic execution of a run in a hypothesis. *)
Ltac run_basic :=
  match goal with
  | u : unit |- _ => destruct u
  | H : (fun _ => _) _ _ = Some _ |- _ => cbv beta in H
  | H : bind _ _ _ = Some _ |- _ =>
      let a := fresh "a" in let s := fresh "s" in let H1 := fresh "Hrun" in
      apply bind_Some in H as (a & s & H1 & H)
  | H : ret _ _ = Some _ |- _ => apply ret_Some in H as [? ?]; subst
  | H : gets _ _ = Some _ |- _ => apply gets_Some in H as [? ?]; subst
  | H : modify _ _ = Some _ |- _ => apply modify_Some in H; subst
  | H : deref _ _ = Some _ |- _ => apply deref_Some in H as [? ?]; subst
  | H : solAssert _ _ = Some _ |- _ => apply solAssert_Some in H as [? ?]; subst
  | H : fail _ = Some _ |- _ => apply fail_Some in H; destruct H
  | H : Some _ = Some _ |- _ => injection H as ? ?; subst
  | H : None = Some _ |- _ => discriminate H
  end.

Lemma readonly_ret {A} (a : A) : readonly (ret a).
Proof. intros s b s' Hr. repeat run_basic. reflexivity. Qed.

Lemma readonly_bind {A B} (m : M A) (k : A -> M B) :
  readonly m -> (forall a, readonly (k a)) -> readonly (bind m k).
Proof.
  intros Hm Hk s b s' Hr. repeat run_basic.
  apply Hm in Hrun. subst. eapply Hk, Hr.
Qed.

Lemma readonly_gets {A} (f : CHC -> A) : readonly (gets f).
Proof. intros s b s' Hr. repeat run_basic. reflexivity. Qed.

Lemma readonly_deref {A} (o : option A) : readonly (deref o).
Proof. intros s b s' Hr. repeat run_basic. reflexivity. Qed.

Lemma readonly_solAssert b : readonly (solAssert b).
Proof. intros s u s' Hr. repeat run_basic. reflexivity. Qed.

Lemma readonly_fail {A} : readonly (@fail A).
Proof. intros s u s' Hr. repeat run_basic. Qed.

Lemma readonly_mapM {A B} (f : A -> M B) l :
  (forall a, readonly (f a)) -> readonly (mapM f l).
Proof.
  intros Hf. induction l as [|a l IH]; simpl.
  - apply readonly_ret.
  - apply readonly_bind; [apply Hf|]. intros b.
    apply readonly_bind; [apply IH|]. intros bs. apply readonly_ret.
Qed.

Lemma readonly_if {A} (b : bool) (m1 m2 : M A) :
  readonly m1 -> readonly m2 -> readonly (if b then m1 else m2).
Proof. destruct b; auto. Qed.

#[global] Hint Resolve readonly_ret readonly_gets readonly_deref readonly_solAssert
  readonly_mapM readonly_if : readonly.

Ltac readonly_tac :=
  repeat first
    [ progress intros
    | progress cbv beta
    | apply readonly_bind
    | apply readonly_ret
    | apply readonly_gets
    | apply readonly_deref
    | apply readonly_solAssert
    | apply readonly_fail
    | apply readonly_mapM
    | match goal with
      | |- readonly (match ?x with _ => _ end) => destruct x
      end
    | solve [auto with readonly] ].

(** A step that only reads returns the state it started from; a step that
    branches is split into its cases. *)
Ltac run_step :=
  first
    [ run_basic
    | match goal with
      | H : ?m ?s = Some (_, ?s') |- _ =>
          is_var s'; assert_fails (constr_eq s s');
          let R := fresh in
          assert (R : readonly m) by (solve [auto 3 with readonly]);
          pose proof (R _ _ _ H); clear R; subst s'
      end
    | match goal with
      | H : (if ?b then _ else _) ?s = Some (_, ?s') |- _ =>
          assert_fails (constr_eq s s'); destruct b eqn:?
      | H : (match ?x with _ => _ end) ?s = Some (_, ?s') |- _ =>
          assert_fails (constr_eq s s'); destruct x eqn:?
      end ].
Ltac run_inv := repeat run_step.

(** Loops. *)
Lemma forEach_nil {A} (f : A -> M unit) : forEach [] f = ret tt.
Proof. reflexivity. Qed.

Lemma forEach_cons {A} (f : A -> M unit) a l :
  forEach (a :: l) f = (f a ;; forEach l f).
Proof. reflexivity. Qed.

Lemma forEach_app {A} (f : A -> M unit) l1 l2 s s' :
  forEach (l1 ++ l2) f s = Some (tt, s') <->
  exists s1, forEach l1 f s = Some (tt, s1) /\ forEach l2 f s1 = Some (tt, s').
Proof.
  revert s. induction l1 as [|a l1 IH]; intros s.
  - change ([] ++ l2) with l2. split.
    + intros Hr. exists s. split; [reflexivity|exact Hr].
    + intros (s1 & Hr & Hr2). change (forEach [] f s) with (ret tt s) in Hr.
      run_inv. exact Hr2.
  - rewrite <- app_comm_cons, !forEach_cons. split.
    + intros Hr. run_inv. apply IH in Hr as (s1 & H1 & H2).
      exists s1. split; [|exact H2]. apply bind_Some. eauto.
    + intros (s1 & Hr & H2). run_inv. apply bind_Some.
      eexists _, _. split; [eassumption|]. apply IH. eauto.
Qed.

(** A property of the state that every iteration keeps is kept by the loop. *)
Lemma forEach_preserves {A} (P : CHC -> Prop) (f : A -> M unit) l :
  (forall a s s', In a l -> P s -> f a s = Some (tt, s') -> P s') ->
  forall s s', P s -> forEach l f s = Some (tt, s') -> P s'.
Proof.
  induction l as [|a l IH]; intros Hf s s' HP Hr.
  - rewrite forEach_nil in Hr. run_inv. exact HP.
  - rewrite forEach_cons in Hr. run_inv.
    eapply IH; [| |exact Hr].
    + intros b t t' Hin. apply Hf. right. exact Hin.
    + eapply Hf; [left; reflexivity|exact HP|exact Hrun].
Qed.

(** A property that one iteration establishes and the others keep holds
    after the loop. *)
Lemma forEach_establishes {A} (P : CHC -> Prop) (f : A -> M unit) l x :
  In x l ->
  (forall s s', f x s = Some (tt, s') -> P s') ->
  (forall a s s', In a l -> P s -> f a s = Some (tt, s') -> P s') ->
  forall s s', forEach l f s = Some (tt, s') -> P s'.
Proof.
  intros Hin Hx Hf s s' Hr.
  apply in_split in Hin as (l1 & l2 & ->).
  apply forEach_app in Hr as (s1 & H1 & H2).
  rewrite forEach_cons in H2. run_inv.
  eapply forEach_preserves; [| |exact H2].
  - intros b t t' Hb. apply Hf. apply in_or_app. right. right. exact Hb.
  - eapply Hx, Hrun.
Qed.

Lemma forEach_total {A} (f : A -> M unit) l :
  (forall a s, In a l -> exists s', f a s = Some (tt, s')) ->
  forall s, exists s', forEach l f s = Some (tt, s').
Proof.
  induction l as [|a l IH]; intros Hf s.
  - exists s. reflexivity.
  - destruct (Hf a s) as (s1 & H1); [left; reflexivity|].
    destruct (IH (fun b t Hb => Hf b t (or_intror Hb)) s1) as (s2 & H2).
    exists s2. rewrite forEach_cons. apply bind_Some. eauto.
Qed.

Section Proofs.
Context `{Environment}.

Lemma readonly_currentValue v : readonly (CHC.currentValue v).
Proof. unfold CHC.currentValue. readonly_tac. Qed.
Lemma readonly_valueAtIndex v k : readonly (CHC.valueAtIndex v k).
Proof. unfold CHC.valueAtIndex. readonly_tac. Qed.
Lemma readonly_currentContract : readonly CHC.currentContract.
Proof. unfold CHC.currentContract. readonly_tac. Qed.
Lemma readonly_currentFunction : readonly CHC.currentFunction.
Proof. unfold CHC.currentFunction. readonly_tac. Qed.
Lemma readonly_m_error_currentValue : readonly CHC.m_error_currentValue.
Proof. unfold CHC.m_error_currentValue. readonly_tac. Qed.
Hint Resolve readonly_currentValue readonly_valueAtIndex readonly_currentContract
  readonly_currentFunction readonly_m_error_currentValue : readonly.

Lemma readonly_stateVariablesAtIndex k : readonly (CHC.stateVariablesAtIndex k).
Proof. unfold CHC.stateVariablesAtIndex. readonly_tac. Qed.
Lemma readonly_stateVariablesAtIndex_of k c : readonly (CHC.stateVariablesAtIndex_of k c).
Proof. unfold CHC.stateVariablesAtIndex_of. readonly_tac. Qed.
Lemma readonly_currentStateVariables : readonly CHC.currentStateVariables.
Proof. unfold CHC.currentStateVariables. readonly_tac. Qed.
Hint Resolve readonly_stateVariablesAtIndex readonly_stateVariablesAtIndex_of
  readonly_currentStateVariables : readonly.
Lemma readonly_initialStateVariables : readonly CHC.initialStateVariables.
Proof. unfold CHC.initialStateVariables. readonly_tac. Qed.
Hint Resolve readonly_initialStateVariables : readonly.
Lemma readonly_currentFunctionVariables : readonly CHC.currentFunctionVariables.
Proof. unfold CHC.currentFunctionVariables. readonly_tac. Qed.
Hint Resolve readonly_currentFunctionVariables : readonly.
Lemma readonly_currentBlockVariables : readonly CHC.currentBlockVariables.
Proof. unfold CHC.currentBlockVariables. readonly_tac. Qed.
Hint Resolve readonly_currentBlockVariables : readonly.
Lemma readonly_predicate b : readonly (CHC.predicate b).
Proof. unfold CHC.predicate. readonly_tac. Qed.
Lemma readonly_predicate_args b a : readonly (CHC.predicate_args b a).
Proof. unfold CHC.predicate_args. readonly_tac. Qed.
Lemma readonly_interface : readonly CHC.interface.
Proof. unfold CHC.interface. readonly_tac. Qed.
Lemma readonly_interface_of c : readonly (CHC.interface_of c).
Proof. unfold CHC.interface_of. readonly_tac. Qed.
Lemma readonly_genesis : readonly CHC.genesis.
Proof. unfold CHC.genesis. readonly_tac. Qed.
Lemma readonly_error : readonly CHC.error.
Proof. unfold CHC.error. readonly_tac. Qed.
Lemma readonly_summary_contract : readonly CHC.summary_contract.
Proof. unfold CHC.summary_contract. readonly_tac. Qed.
Lemma readonly_lookupSummary c f : readonly (CHC.lookupSummary c f).
Proof. unfold CHC.lookupSummary. readonly_tac. Qed.
Hint Resolve readonly_predicate readonly_predicate_args readonly_interface
  readonly_interface_of readonly_genesis readonly_error readonly_summary_contract
  readonly_lookupSummary : readonly.
Lemma readonly_summary f : readonly (CHC.summary f).
Proof. unfold CHC.summary. readonly_tac. Qed.
Hint Resolve readonly_summary : readonly.
Lemma readonly_sort_function f : readonly (CHC.sort_function f).
Proof. unfold CHC.sort_function. readonly_tac. Qed.
Hint Resolve readonly_sort_function : readonly.
Lemma readonly_sort n : readonly (CHC.sort n).
Proof. unfold CHC.sort. readonly_tac. Qed.
Lemma readonly_predicateName n c : readonly (CHC.predicateName n c).
Proof. unfold CHC.predicateName. readonly_tac. Qed.
Lemma readonly_constructorSort : readonly CHC.constructorSort.
Proof. unfold CHC.constructorSort. readonly_tac. Qed.
Lemma readonly_interfaceSort : readonly CHC.interfaceSort.
Proof. unfold CHC.interfaceSort. readonly_tac. Qed.
Lemma readonly_expr e : readonly (CHC.expr e).
Proof. unfold CHC.expr. readonly_tac. Qed.
Lemma readonly_currentPathConditions : readonly CHC.currentPathConditions.
Proof. unfold CHC.currentPathConditions. readonly_tac. Qed.
Hint Resolve readonly_sort readonly_predicateName readonly_constructorSort
  readonly_interfaceSort readonly_expr readonly_currentPathConditions : readonly.

End Proofs.

#[global] Hint Resolve readonly_currentValue readonly_valueAtIndex readonly_currentContract readonly_currentFunction readonly_m_error_currentValue readonly_stateVariablesAtIndex readonly_stateVariablesAtIndex_of readonly_currentStateVariables readonly_initialStateVariables readonly_currentFunctionVariables readonly_currentBlockVariables readonly_predicate readonly_predicate_args readonly_interface readonly_interface_of readonly_genesis readonly_error readonly_summary_contract readonly_lookupSummary readonly_summary readonly_sort_function readonly_sort readonly_predicateName readonly_constructorSort readonly_interfaceSort readonly_expr readonly_currentPathConditions : readonly.

Section Proofs.
Context `{Environment}.

Lemma createSymbolicBlock_total so n s :
  exists p s', CHC.createSymbolicBlock so n s = Some (p, s') /\ m_summaries s' = m_summaries s.
Proof. eexists _, _. split; reflexivity. Qed.

Lemma createSummaryBlock_total f c s :
  exists p s', CHC.createSummaryBlock f c s = Some (p, s') /\ m_summaries s' = m_summaries s.
Proof. eexists _, _. split; reflexivity. Qed.

Lemma createSymbolicBlock_summaries so n s p s' :
  CHC.createSymbolicBlock so n s = Some (p, s') -> m_summaries s' = m_summaries s.
Proof. unfold CHC.createSymbolicBlock, CHC.registerRelation. intros Hr. run_inv. reflexivity. Qed.

Lemma createSummaryBlock_summaries f c s p s' :
  CHC.createSummaryBlock f c s = Some (p, s') -> m_summaries s' = m_summaries s.
Proof.
  unfold CHC.createSummaryBlock, CHC.uniquePrefix, CHC.predicateName. intros Hr. run_inv.
  apply createSymbolicBlock_summaries in Hr. exact Hr.
Qed.

Lemma defineSummary_establishes contract function s s' :
  defineSummary contract function s = Some (tt, s') ->
  hasSummary (contract_id (declaration contract)) (fun_id function) s'.
Proof.
  unfold defineSummary. intros Hr. run_inv.
  apply createSummaryBlock_summaries in Hrun.
  unfold hasSummary. cbn. rewrite lookup_insert_eq. cbn.
  destruct (default ∅ (m_summaries s0 !! contract_id (declaration contract)) !! fun_id function) eqn:E.
  - rewrite E. eauto.
  - rewrite lookup_insert_eq. eauto.
Qed.

Lemma defineSummary_preserves contract function c f s s' :
  hasSummary c f s ->
  defineSummary contract function s = Some (tt, s') ->
  hasSummary c f s'.
Proof.
  unfold defineSummary. intros (p & Hp) Hr. run_inv.
  apply createSummaryBlock_summaries in Hrun. rewrite <- Hrun in Hp.
  unfold hasSummary. cbn.
  destruct (decide (contract_id (declaration contract) = c)) as [->|Hne].
  - rewrite lookup_insert_eq. cbn.
    destruct (m_summaries s0 !! c) as [m|] eqn:Em; [|discriminate]. cbn in *.
    destruct (m !! fun_id function) eqn:E; [eauto|].
    destruct (decide (f = fun_id function)) as [->|Hnf].
    + congruence.
    + rewrite lookup_insert_ne by congruence. eauto.
  - rewrite lookup_insert_ne by exact Hne. eauto.
Qed.

Lemma defineSummary_total contract function s :
  exists s', defineSummary contract function s = Some (tt, s').
Proof. eexists. reflexivity. Qed.

Lemma defineInterfacesAndSummaries_unfold src :
  CHC.defineInterfacesAndSummaries src =
  forEach (nodes src) (fun contract =>
    forEach (linearizedBaseContracts contract) (defineBase contract)).
Proof. reflexivity. Qed.

Lemma declareVariables_summaries (vars : list VariableDeclaration) s s' :
  forEach vars (fun var =>
    c <- gets m_context ;;
    if EncodingContext.knownVariable var c then ret tt else CHC.createVariable var) s
  = Some (tt, s') ->
  m_summaries s' = m_summaries s.
Proof.
  intros Hr.
  eapply (forEach_preserves (fun t => m_summaries t = m_summaries s)); [|reflexivity|exact Hr].
  intros v t t' _ Ht Hv. run_inv; [exact Ht|].
  unfold CHC.createVariable, CHC.modifyContext in *. run_inv. exact Ht.
Qed.

Lemma declareVariables_total (vars : list VariableDeclaration) s :
  exists s', forEach vars (fun var =>
    c <- gets m_context ;;
    if EncodingContext.knownVariable var c then ret tt else CHC.createVariable var) s
  = Some (tt, s').
Proof.
  apply forEach_total. intros v t _.
  unfold bind, gets. destruct (EncodingContext.knownVariable v (m_context t)); eexists; reflexivity.
Qed.

Lemma defineBase_preserves contract base c f s s' :
  hasSummary c f s -> defineBase contract base s = Some (tt, s') -> hasSummary c f s'.
Proof.
  unfold defineBase. intros Hs Hr. run_inv.
  apply createSymbolicBlock_summaries in Hrun.
  apply declareVariables_summaries in Hrun1. cbn in Hrun1.
  eapply forEach_preserves; [| |exact Hr].
  - intros g t t' _. apply defineSummary_preserves.
  - destruct Hs as (p & Hp). exists p. rewrite Hrun1, Hrun. exact Hp.
Qed.

Lemma defineBase_establishes contract base (f : FunctionDefinition) s s' :
  In f (definedFunctions base) ->
  defineBase contract base s = Some (tt, s') ->
  hasSummary (contract_id (declaration contract)) (fun_id f) s'.
Proof.
  unfold defineBase. intros Hin Hr. run_inv.
  eapply forEach_establishes; [exact Hin| | |exact Hr].
  - intros t t'. apply defineSummary_establishes.
  - intros g t t' _. apply defineSummary_preserves.
Qed.

Lemma defineBase_total contract base s :
  exists s', defineBase contract base s = Some (tt, s').
Proof.
  unfold defineBase.
  destruct (createSymbolicBlock_total (CHC.interfaceSort_of (declaration base))
              ("interface_" +:+ CHC.contractSuffix (declaration base)) s) as (p & s1 & H1 & _).
  destruct (declareVariables_total
              (CHC.stateVariablesIncludingInheritedAndPrivate (declaration base))
              (set_m_interfaces (<[contract_id (declaration base) := p]> (m_interfaces s1)) s1))
    as (s2 & H2).
  destruct (forEach_total (defineSummary contract) (definedFunctions base)
              (fun g t _ => defineSummary_total contract g t) s2) as (s3 & H3).
  exists s3.
  apply bind_Some. eexists _, _. split; [exact H1|].
  apply bind_Some. eexists _, _. split; [reflexivity|].
  apply bind_Some. eexists _, _. split; [exact H2|]. exact H3.
Qed.

Lemma defineInterfacesAndSummaries_total src s :
  exists s', CHC.defineInterfacesAndSummaries src s = Some (tt, s').
Proof.
  rewrite defineInterfacesAndSummaries_unfold.
  apply forEach_total. intros contract t _.
  apply forEach_total. intros base u _. apply defineBase_total.
Qed.

Lemma defineInterfacesAndSummaries_declares src contract base (f : FunctionDefinition) s s' :
  In contract (nodes src) ->
  In base (linearizedBaseContracts contract) ->
  In f (definedFunctions base) ->
  CHC.defineInterfacesAndSummaries src s = Some (tt, s') ->
  hasSummary (contract_id (declaration contract)) (fun_id f) s'.
Proof.
  intros Hc Hb Hf. rewrite defineInterfacesAndSummaries_unfold. intros Hr.
  eapply forEach_establishes; [exact Hc| | |exact Hr].
  - intros t t' Ht.
    eapply forEach_establishes; [exact Hb| | |exact Ht].
    + intros u u'. apply defineBase_establishes. exact Hf.
    + intros b u u' _. apply defineBase_preserves.
  - intros c t t' _ Hs Ht.
    eapply forEach_preserves; [| |exact Ht].
    + intros b u u' _. apply defineBase_preserves.
    + exact Hs.
Qed.

(** C10.  A function definition without a body is not encoded: both its
    [visit] and its [endVisit] return at once and leave the state of the
    encoder as it is (no block, no rule, no verification target), although
    [defineInterfacesAndSummaries] has declared a summary predicate for it. *)
Theorem unimplemented_function_is_not_encoded
    (inlineBases : M unit) (f : FunctionDefinition) :
  isImplemented f = false ->
  (forall s, CHC.visit_FunctionDefinition inlineBases f s = Some (false, s)) /\
  (forall s, CHC.endVisit_FunctionDefinition f s = Some (tt, s)) /\
  (forall src contract base s,
     In contract (nodes src) ->
     In base (linearizedBaseContracts contract) ->
     In f (definedFunctions base) ->
     exists s', CHC.defineInterfacesAndSummaries src s = Some (tt, s') /\
                hasSummary (contract_id (declaration contract)) (fun_id f) s').
Proof.
  intros Himpl. split; [|split].
  - intros s. unfold CHC.visit_FunctionDefinition, CHC.shouldVisit.
    rewrite Himpl. reflexivity.
  - intros s. unfold CHC.endVisit_FunctionDefinition, CHC.shouldVisit.
    rewrite Himpl. reflexivity.
  - intros src contract base s Hc Hb Hf.
    destruct (defineInterfacesAndSummaries_total src s) as (s' & Hs').
    exists s'. split; [exact Hs'|].
    eapply defineInterfacesAndSummaries_declares; eassumption.
Qed.

End Proofs.

Section Proofs.
Context `{Environment}.

Lemma bind_run {A B} (m : M A) (k : A -> M B) s a s1 :
  m s = Some (a, s1) -> bind m k s = k a s1.
Proof. unfold bind. intros ->. reflexivity. Qed.

Lemma summary_contract_shape s to s' :
  CHC.summary_contract s = Some (to, s') ->
  exists p rest, m_constructorSummaryPredicate s = Some p /\
                 to = smt.apply p (CHC.errorValue s :: rest).
Proof.
  unfold CHC.summary_contract, CHC.m_error_currentValue. intros Hr. run_inv. eauto.
Qed.

Lemma summary_shape f s to s' :
  CHC.summary f s = Some (to, s') ->
  exists contract p rest,
    m_currentContract s = Some contract /\
    (m_summaries s !! contract_id (declaration contract)) ≫= (fun m => m !! fun_id f) = Some p /\
    to = smt.apply p (CHC.errorValue s :: rest).
Proof.
  unfold CHC.summary, CHC.m_error_currentValue, CHC.lookupSummary, CHC.currentContract.
  intros Hr. run_inv.
  destruct (isLibrary (fun_contract f)); run_inv.
  all: eexists _, _, _; split; [eassumption|]; split; [|reflexivity].
  all: match goal with H : m_summaries _ !! _ = Some _ |- _ => rewrite H end; assumption.
Qed.

(** C2.  At an [assert(cond)] call site inside the function [f] of the
    current contract, [visitAssert] records the call site, bumps the error
    variable, emits exactly one rule, from the current block to the summary
    of [f] (to the constructor summary of the contract when [f] is a
    constructor), whose constraint is the current path condition, the
    negation of [cond] and the equality of the new error value with the id
    of the call site, and then adds the assertion that the new error value
    equals the error value from before the bump.  [to] is the summary
    application, which carries the new error value. *)
Theorem visitAssert_encodes_assert s _funCall f contract arg to :
  m_currentFunction s = Some f ->
  m_currentContract s = Some contract ->
  arguments _funCall = [arg] ->
  let scope := if isConstructor f then contract_id (declaration contract) else fun_id f in
  let previousError := smt.SSA smt.ErrorSym (m_error s) in
  let newError := smt.SSA smt.ErrorSym (S (m_error s)) in
  let recorded :=
    set_m_error (S (m_error s))
      (set_m_functionAssertions
         (CHC.insertInto scope (expr_id _funCall) (m_functionAssertions s)) s) in
  (if isConstructor f then CHC.summary_contract else CHC.summary f) recorded
    = Some (to, recorded) ->
  CHC.visitAssert _funCall s =
    Some (tt,
      set_m_context
        (EncodingContext.addAssertion (smt.Eq newError previousError) (m_context s))
        (CHC.emitRule
           (CHC.edge (m_currentBlock s) (EncodingContext.assertions (m_context s))
              (smt.And
                 (smt.And (EncodingContext.currentPathConditions (m_context s))
                    (smt.Not (EncodingContext.expression arg (m_context s))))
                 (smt.Eq newError (smt.IntLit (expr_id _funCall))))
              to,
            CHC.edgeName (m_currentBlock s) to)
           recorded))
  /\ exists p rest, to = smt.apply p (newError :: rest).
Proof.
  intros Hf Hc Hargs scope previousError newError recorded Hto. split.
  - unfold CHC.visitAssert. rewrite Hargs.
    erewrite bind_run by reflexivity.
    erewrite bind_run by (unfold CHC.currentContract, bind, gets; rewrite Hc; reflexivity).
    erewrite bind_run by (unfold CHC.currentFunction, bind, gets; rewrite Hf; reflexivity).
    erewrite bind_run by reflexivity.
    erewrite bind_run by reflexivity.
    erewrite bind_run by reflexivity.
    erewrite bind_run by reflexivity.
    erewrite bind_run by exact Hto.
    reflexivity.
  - destruct (isConstructor f).
    + apply summary_contract_shape in Hto as (p & rest & _ & ->). eauto.
    + apply summary_shape in Hto as (c & p & rest & _ & _ & ->). eauto.
Qed.
End Proofs.

Section Context.

Lemma known_index c v : known c v <-> exists i, EncodingContext.index v c = Some i.
Proof.
  unfold known, EncodingContext.knownVariable, EncodingContext.index.
  rewrite bool_decide_eq_true. split.
  - intros [[d i] Hx]. exists i. rewrite Hx. reflexivity.
  - intros [i Hi]. destruct (m_variables c !! var_id v); [eauto|discriminate].
Qed.

Lemma index_bump c v w :
  EncodingContext.index w (bump v c) =
  if decide (var_id v = var_id w) then S <$> EncodingContext.index w c
  else EncodingContext.index w c.
Proof.
  unfold EncodingContext.index, bump. cbn.
  rewrite lookup_alter. case_decide as E; [|reflexivity].
  rewrite <- E.
  destruct (m_variables c !! var_id v) as [[d i]|]; reflexivity.
Qed.

Lemma known_bump c v w : known (bump v c) w <-> known c w.
Proof.
  rewrite !known_index, index_bump. case_decide; [|reflexivity].
  destruct (EncodingContext.index w c); cbn; naive_solver.
Qed.

Lemma increaseIndex_known c v :
  known c v -> EncodingContext.increaseIndex v c = Some (bump v c).
Proof.
  intros [i Hi]%known_index. unfold EncodingContext.increaseIndex. rewrite Hi. reflexivity.
Qed.

Lemma currentValue_known c v :
  known c v -> EncodingContext.currentValue v c = Some (instanceAt (currentIndex c v) v).
Proof.
  intros [i Hi]%known_index. unfold EncodingContext.currentValue, currentIndex.
  rewrite Hi. reflexivity.
Qed.

Lemma valueAtIndex_known c v k :
  known c v -> EncodingContext.valueAtIndex v k c = Some (instanceAt k v).
Proof.
  intros [i Hi]%known_index. unfold EncodingContext.valueAtIndex. rewrite Hi. reflexivity.
Qed.

Lemma bumpAll_cons v vars c : bumpAll (v :: vars) c = bumpAll vars (bump v c).
Proof. reflexivity. Qed.

Lemma known_bumpAll vars c w : known (bumpAll vars c) w <-> known c w.
Proof.
  revert c. induction vars as [|v vars IH]; intros c; [reflexivity|].
  rewrite bumpAll_cons, IH. apply known_bump.
Qed.

Lemma index_bumpAll_notin vars c w :
  var_id w ∉ var_id <$> vars ->
  EncodingContext.index w (bumpAll vars c) = EncodingContext.index w c.
Proof.
  revert c. induction vars as [|v vars IH]; intros c Hn; [reflexivity|].
  rewrite fmap_cons, not_elem_of_cons in Hn. destruct Hn as [Hne Hn].
  rewrite bumpAll_cons, IH by exact Hn. rewrite index_bump. case_decide; congruence.
Qed.

Lemma index_bumpAll_in vars c w :
  NoDup (var_id <$> vars) -> w ∈ vars ->
  EncodingContext.index w (bumpAll vars c) = S <$> EncodingContext.index w c.
Proof.
  revert c. induction vars as [|v vars IH]; intros c Hnd Hin.
  - inversion Hin.
  - rewrite fmap_cons in Hnd. apply NoDup_cons in Hnd as [Hv Hnd].
    rewrite bumpAll_cons.
    apply elem_of_cons in Hin as [->|Hin].
    + rewrite index_bumpAll_notin by exact Hv. rewrite index_bump.
      case_decide; congruence.
    + rewrite IH by assumption. rewrite index_bump.
      case_decide as E; [|reflexivity].
      exfalso. apply Hv. rewrite E. apply list_elem_of_fmap. eauto.
Qed.

Lemma index_createVariable c v w :
  EncodingContext.index w (EncodingContext.createVariable v c) =
  if decide (var_id v = var_id w) then Some 0 else EncodingContext.index w c.
Proof.
  unfold EncodingContext.index, EncodingContext.createVariable. cbn.
  rewrite lookup_insert. case_decide; reflexivity.
Qed.

Lemma index_freshen c v w :
  EncodingContext.index w (freshen v c) =
  if decide (var_id v = var_id w)
  then Some (match EncodingContext.index w c with Some i => S i | None => 0 end)
  else EncodingContext.index w c.
Proof.
  unfold freshen. destruct (EncodingContext.knownVariable v c) eqn:E.
  - rewrite index_bump. case_decide as Ev; [|reflexivity].
    apply known_index in E as [i Hi].
    assert (EncodingContext.index w c = Some i) as ->; [|reflexivity].
    unfold EncodingContext.index in *. rewrite <- Ev. exact Hi.
  - rewrite index_createVariable. case_decide as Ev; [|reflexivity].
    assert (EncodingContext.index w c = None) as ->; [|reflexivity].
    destruct (EncodingContext.index w c) as [i|] eqn:Hi; [|reflexivity].
    assert (known c v) as Hk.
    { apply known_index. exists i. unfold EncodingContext.index in *. rewrite Ev. exact Hi. }
    unfold known in Hk. congruence.
Qed.

Lemma freshenAll_cons v vars c : freshenAll (v :: vars) c = freshenAll vars (freshen v c).
Proof. reflexivity. Qed.

Lemma index_freshenAll_notin vars c w :
  var_id w ∉ var_id <$> vars ->
  EncodingContext.index w (freshenAll vars c) = EncodingContext.index w c.
Proof.
  revert c. induction vars as [|v vars IH]; intros c Hn; [reflexivity|].
  rewrite fmap_cons, not_elem_of_cons in Hn. destruct Hn as [Hne Hn].
  rewrite freshenAll_cons, IH by exact Hn. rewrite index_freshen. case_decide; congruence.
Qed.

(** After the loop every return parameter is known at an index that it did
    not have before: the successor of its index, or 0 for a variable that
    the loop declares. *)
Lemma index_freshenAll_in vars c w :
  NoDup (var_id <$> vars) -> w ∈ vars ->
  EncodingContext.index w (freshenAll vars c) =
  Some (match EncodingContext.index w c with Some i => S i | None => 0 end).
Proof.
  revert c. induction vars as [|v vars IH]; intros c Hnd Hin.
  - inversion Hin.
  - rewrite fmap_cons in Hnd. apply NoDup_cons in Hnd as [Hv Hnd].
    rewrite freshenAll_cons.
    apply elem_of_cons in Hin as [->|Hin].
    + rewrite index_freshenAll_notin by exact Hv. rewrite index_freshen.
      case_decide; congruence.
    + rewrite IH by assumption. rewrite index_freshen.
      case_decide as E; [|reflexivity].
      exfalso. apply Hv. rewrite E. apply list_elem_of_fmap. eauto.
Qed.

End Context.

Section Proofs.
Context `{Environment}.

Lemma mapM_run {A B} (f : A -> M B) (g : A -> B) l s :
  Forall (fun a => f a s = Some (g a, s)) l ->
  mapM f l s = Some (map g l, s).
Proof.
  induction 1 as [|a l Ha _ IH]; [reflexivity|].
  cbn [mapM map]. rewrite (bind_run _ _ _ _ _ Ha), (bind_run _ _ _ _ _ IH). reflexivity.
Qed.

Lemma mapM_currentValue vars s :
  Forall (known (m_context s)) vars ->
  mapM CHC.currentValue vars s = Some (map (fun v => instanceAt (currentIndex (m_context s) v) v) vars, s).
Proof.
  intros Hk. apply mapM_run. eapply Forall_impl; [exact Hk|].
  intros v Hv. unfold CHC.currentValue, bind, gets.
  rewrite (currentValue_known _ _ Hv). reflexivity.
Qed.

Lemma mapM_valueAtIndex k vars s :
  Forall (known (m_context s)) vars ->
  mapM (fun v => CHC.valueAtIndex v k) vars s = Some (map (instanceAt k) vars, s).
Proof.
  intros Hk. apply mapM_run. eapply Forall_impl; [exact Hk|].
  intros v Hv. unfold CHC.valueAtIndex, bind, gets.
  rewrite (valueAtIndex_known _ _ _ Hv). reflexivity.
Qed.

Lemma set_m_context_twice c1 c2 s :
  set_m_context c2 (set_m_context c1 s) = set_m_context c2 s.
Proof. reflexivity. Qed.

Lemma set_m_context_same s : set_m_context (m_context s) s = s.
Proof. destruct s. reflexivity. Qed.

Lemma forEach_increaseIndex vars s :
  Forall (known (m_context s)) vars ->
  forEach vars CHC.increaseIndex s =
  Some (tt, set_m_context (bumpAll vars (m_context s)) s).
Proof.
  revert s. induction vars as [|v vars IH]; intros s Hk.
  - cbn. rewrite set_m_context_same. reflexivity.
  - apply Forall_cons in Hk as [Hv Hk].
    rewrite forEach_cons.
    assert (CHC.increaseIndex v s = Some (tt, set_m_context (bump v (m_context s)) s)) as Hstep.
    { unfold CHC.increaseIndex, bind, gets. rewrite (increaseIndex_known _ _ Hv). reflexivity. }
    rewrite (bind_run _ _ _ _ _ Hstep), IH.
    + reflexivity.
    + cbn. eapply Forall_impl; [exact Hk|]. intros w. apply known_bump.
Qed.

Lemma forEach_freshen vars s :
  forEach vars (fun param =>
    c <- gets m_context ;;
    if EncodingContext.knownVariable param c
    then CHC.increaseIndex param
    else CHC.createVariable param) s =
  Some (tt, set_m_context (freshenAll vars (m_context s)) s).
Proof.
  revert s. induction vars as [|v vars IH]; intros s.
  - cbn. rewrite set_m_context_same. reflexivity.
  - rewrite forEach_cons.
    rewrite (bind_run _ _ s tt (set_m_context (freshen v (m_context s)) s)).
    + rewrite IH. reflexivity.
    + unfold bind at 1, gets at 1. unfold freshen.
      destruct (EncodingContext.knownVariable v (m_context s)) eqn:E.
      * unfold CHC.increaseIndex, bind, gets. rewrite (increaseIndex_known _ _ E). reflexivity.
      * reflexivity.
Qed.

(** C3.  The summary application that [predicate(FunctionCall)] builds for a
    call to [function]: its first argument is the bumped error value; for a
    callee declared in a library the pre-state is the library's own state
    variables at SSA index 0 and the post-state the same variables at SSA
    index 1; for any other callee the pre-state is the state of the calling
    contract at the current indices and the post-state its state after every
    state variable was bumped once; the return values are instances that did
    not exist before: the successor of the index a return parameter had, or
    index 0 of a parameter that is declared on the spot. *)
Theorem predicate_FunctionCall_summary_application s _funCall function cur p :
  functionCallToDefinition _funCall = Some function ->
  m_currentContract s = Some cur ->
  let contract := fun_contract function in
  let vars := m_stateVariables s in
  let libraryState := CHC.stateVariablesIncludingInheritedAndPrivate contract in
  let c := m_context s in
  (m_summaries s !! (if isLibrary contract then contract_id contract
                     else contract_id (declaration cur)))
    ≫= (fun m => m !! fun_id function) = Some p ->
  Forall (known c) vars ->
  NoDup (var_id <$> vars) ->
  (isLibrary contract = true -> Forall (known c) libraryState) ->
  NoDup (var_id <$> returnParameters function) ->
  let bumped := bumpAll vars c in
  let final := freshenAll (returnParameters function) bumped in
  let preState :=
    if isLibrary contract then map (instanceAt 0) libraryState
    else map (fun v => instanceAt (currentIndex c v) v) vars in
  let postState :=
    if isLibrary contract then map (instanceAt 1) libraryState
    else map (fun v => instanceAt (S (currentIndex c v)) v) vars in
  let returns :=
    map (fun r => instanceAt (match EncodingContext.index r bumped with
                              | Some i => S i
                              | None => 0
                              end) r) (returnParameters function) in
  CHC.predicate_FunctionCall _funCall s =
  Some (smt.apply p
          (smt.SSA smt.ErrorSym (S (m_error s))
             :: preState ++ symbolicArguments _funCall c ++ postState ++ returns),
        set_m_context final (set_m_error (S (m_error s)) s)).
Proof.
  intros Hdef Hcur contract vars libraryState c Hp Hk Hnd Hlib Hndr
    bumped final preState postState returns.
  set (s1 := set_m_error (S (m_error s)) s).
  set (s2 := set_m_context bumped s1).
  set (s3 := set_m_context final s1).
  assert (CHC.currentContract s1 = Some (cur, s1)) as Hcc1.
  { unfold CHC.currentContract, bind, gets. cbn. rewrite Hcur. reflexivity. }
  assert (CHC.currentContract s2 = Some (cur, s2)) as Hcc2.
  { unfold CHC.currentContract, bind, gets. cbn. rewrite Hcur. reflexivity. }
  assert (CHC.currentContract s3 = Some (cur, s3)) as Hcc3.
  { unfold CHC.currentContract, bind, gets. cbn. rewrite Hcur. reflexivity. }
  assert (Forall (known (m_context s2)) vars) as Hk2.
  { eapply Forall_impl; [exact Hk|]. intros v. apply known_bumpAll. }
  (* the pre-state *)
  assert ((if isLibrary contract then CHC.stateVariablesAtIndex_of 0 contract
           else CHC.currentStateVariables) s1 = Some (preState, s1)) as Hpre.
  { subst preState. destruct (isLibrary contract) eqn:El.
    - unfold CHC.stateVariablesAtIndex_of. apply mapM_valueAtIndex. apply Hlib. reflexivity.
    - unfold CHC.currentStateVariables.
      rewrite (bind_run _ _ _ _ _ Hcc1).
      rewrite (bind_run _ _ s1 (m_stateVariables s1) s1) by reflexivity.
      apply (mapM_currentValue vars s1). exact Hk. }
  (* the post-state *)
  assert ((if isLibrary contract then CHC.stateVariablesAtIndex_of 1 contract
           else CHC.currentStateVariables) s2 = Some (postState, s2)) as Hpost.
  { subst postState. destruct (isLibrary contract) eqn:El.
    - unfold CHC.stateVariablesAtIndex_of. apply mapM_valueAtIndex.
      eapply Forall_impl; [apply Hlib; reflexivity|]. intros v. apply known_bumpAll.
    - unfold CHC.currentStateVariables.
      rewrite (bind_run _ _ _ _ _ Hcc2).
      rewrite (bind_run _ _ s2 (m_stateVariables s2) s2) by reflexivity.
      change (m_stateVariables s2) with vars.
      rewrite (mapM_currentValue vars s2 Hk2). f_equal. f_equal.
      apply map_ext_in. intros v Hv. f_equal.
      unfold currentIndex. change (m_context s2) with (bumpAll vars c).
      rewrite (index_bumpAll_in vars c v Hnd) by (apply list_elem_of_In; exact Hv).
      apply Forall_forall with (x := v) in Hk; [|apply list_elem_of_In; exact Hv].
      apply known_index in Hk as [i Hi]. fold c. rewrite Hi. reflexivity. }
  (* the return values *)
  assert (mapM CHC.currentValue (returnParameters function) s3 = Some (returns, s3)) as Hret.
  { assert (forall r, r ∈ returnParameters function ->
              EncodingContext.index r final =
              Some (match EncodingContext.index r bumped with Some i => S i | None => 0 end)) as Hidx.
    { intros r Hr. apply index_freshenAll_in; assumption. }
    rewrite mapM_currentValue.
    - f_equal. f_equal. apply map_ext_in. intros r Hr. f_equal.
      unfold currentIndex. change (m_context s3) with final.
      rewrite Hidx by (apply list_elem_of_In; exact Hr). reflexivity.
    - apply Forall_forall. intros r Hr. apply known_index.
      change (m_context s3) with final. rewrite (Hidx r Hr). eauto. }
  (* the summary predicate *)
  assert ((if isLibrary contract
           then CHC.lookupSummary (contract_id contract) (fun_id function)
           else (cur <- CHC.currentContract ;;
                 CHC.lookupSummary (contract_id (declaration cur)) (fun_id function))) s3
          = Some (p, s3)) as Hsum.
  { destruct (isLibrary contract).
    - unfold CHC.lookupSummary, bind, gets. cbn.
      destruct (m_summaries s !! contract_id contract) as [m|]; [|discriminate]. cbn in *.
      rewrite Hp. reflexivity.
    - rewrite (bind_run _ _ _ _ _ Hcc3).
      unfold CHC.lookupSummary, bind, gets. cbn.
      destruct (m_summaries s !! contract_id (declaration cur)) as [m|]; [|discriminate]. cbn in *.
      rewrite Hp. reflexivity. }
  unfold CHC.predicate_FunctionCall. rewrite Hdef.
  rewrite (bind_run _ _ s tt s1) by reflexivity.
  rewrite (bind_run _ _ s1 (smt.SSA smt.ErrorSym (S (m_error s))) s1) by reflexivity.
  fold contract. rewrite (bind_run _ _ _ _ _ Hpre).
  rewrite (bind_run _ _ s1 (m_context s1) s1) by reflexivity.
  rewrite (bind_run _ _ s1 (m_stateVariables s1) s1) by reflexivity.
  rewrite (bind_run _ _ s1 tt s2) by (apply (forEach_increaseIndex vars s1); exact Hk).
  rewrite (bind_run _ _ _ _ _ Hpost).
  rewrite (bind_run _ _ s2 tt s3) by (apply (forEach_freshen (returnParameters function) s2)).
  rewrite (bind_run _ _ _ _ _ Hret).
  rewrite (bind_run _ _ _ _ _ Hsum).
  reflexivity.
Qed.

End Proofs.

Lemma addAssertion_variables e c :
  m_variables (EncodingContext.addAssertion e c) = m_variables c.
Proof. reflexivity. Qed.

Lemma resetVariables_lookup filter c id :
  m_variables (EncodingContext.resetVariables filter c) !! id =
  (fun p => if filter (fst p) then (fst p, S (snd p)) else p) <$> m_variables c !! id.
Proof.
  unfold EncodingContext.resetVariables.
  induction (List.filter _ _) as [|p l IH].
  - cbn. apply lookup_fmap.
  - cbn [foldr]. rewrite addAssertion_variables. exact IH.
Qed.

(** What the havoc primitive does to the index of a variable. *)
Lemma resetVariables_havocked filter c id d i :
  m_variables c !! id = Some (d, i) ->
  m_variables (EncodingContext.resetVariables filter c) !! id =
    Some (d, if filter d then S i else i).
Proof.
  intros Hx. rewrite resetVariables_lookup, Hx. cbn. destruct (filter d); reflexivity.
Qed.

Lemma havocked_erase c :
  havocked c
    (EncodingContext.resetVariables hasReferenceOrMappingType
       (EncodingContext.resetVariables
          (fun v => isStateVariable v && hasReferenceOrMappingType v) c)).
Proof.
  intros id d i Hx.
  apply (resetVariables_havocked
           (fun v => isStateVariable v && hasReferenceOrMappingType v)) in Hx.
  apply (resetVariables_havocked hasReferenceOrMappingType) in Hx.
  eexists. split; [exact Hx|].
  destruct (hasReferenceOrMappingType d), (isStateVariable d); cbn; lia.
Qed.

Section Proofs.
Context `{Environment}.

Lemma eraseKnowledge_run s :
  CHC.eraseKnowledge s =
  Some (tt, set_m_context
              (EncodingContext.resetVariables hasReferenceOrMappingType
                 (EncodingContext.resetVariables
                    (fun v => isStateVariable v && hasReferenceOrMappingType v)
                    (m_context s))) s).
Proof. reflexivity. Qed.

(** [eraseKnowledge] changes the encoding context only, and there it bumps
    the variables of reference or mapping type and no other variable. *)
Lemma eraseKnowledge_havocked s u s' :
  CHC.eraseKnowledge s = Some (u, s') ->
  s' = set_m_context (m_context s') s /\ havocked (m_context s) (m_context s').
Proof.
  rewrite eraseKnowledge_run. intros E. injection E as _ <-.
  split; [reflexivity|]. apply havocked_erase.
Qed.

End Proofs.

Section BreadthFirstSearch.

Variable functionAssertions callGraph : gmap nat (gset nat).
Variable root : nat.

Local Abbreviation universe := (CHC.vertices root callGraph).
Local Abbreviation step := (CHC.collectAssertions functionAssertions callGraph).
Local Abbreviation bfs_inv := (bfs_inv functionAssertions callGraph root).

Lemma callees_in_universe v : default ∅ (callGraph !! v) ⊆ universe.
Proof.
  unfold CHC.vertices.
  destruct (callGraph !! v) as [X|] eqn:E; cbn; [|set_solver].
  intros x Hx. apply elem_of_union_r. apply elem_of_union_list.
  exists X. split; [|exact Hx].
  apply list_elem_of_fmap. exists (v, X). split; [reflexivity|].
  apply elem_of_map_to_list. exact E.
Qed.

Lemma bfs_inv_step toTraverse visited acc v :
  bfs_inv toTraverse visited acc ->
  v ∈ toTraverse ->
  bfs_inv
    (toTraverse ∖ {[v]} ∪ filter (fun c => c ∉ visited ∪ {[v]}) (default ∅ (callGraph !! v)))
    (visited ∪ {[v]})
    (acc ∪ default ∅ (functionAssertions !! v)).
Proof.
  intros [Hroot Hreach Hclosed Hdisj Hacc Huni] Hv.
  pose proof (callees_in_universe v) as Hcv.
  split.
  - destruct (decide (root = v)); set_solver.
  - intros w Hw.
    apply elem_of_union in Hw as [Hw|Hw]; [apply elem_of_union in Hw as [Hw|Hw]|].
    + apply Hreach. set_solver.
    + apply elem_of_filter in Hw as [_ Hw].
      apply rtc_r with v; [apply Hreach; set_solver|exact Hw].
    + apply Hreach. set_solver.
  - intros w Hw x Hx.
    destruct (decide (x ∈ visited ∪ {[v]})) as [|Hn]; [set_solver|].
    apply elem_of_union in Hw as [Hw|Hw].
    + specialize (Hclosed w Hw x Hx). set_solver.
    + apply elem_of_singleton in Hw as ->.
      apply elem_of_union_l, elem_of_union_r, elem_of_filter. split; assumption.
  - intros x Hx1 Hx2.
    apply elem_of_union in Hx1 as [Hx1|Hx1].
    + set_solver.
    + apply elem_of_filter in Hx1 as [Hx1 _]. contradiction.
  - intros a. rewrite elem_of_union, Hacc. unfold assertionsOf. split.
    + intros [(w & Hw & Ha)|Ha]; [exists w|exists v]; split; set_solver.
    + intros (w & Hw & Ha). apply elem_of_union in Hw as [Hw|Hw].
      * left. eauto.
      * apply elem_of_singleton in Hw as ->. right. exact Ha.
  - intros x Hx.
    apply elem_of_union in Hx as [Hx|Hx]; [apply elem_of_union in Hx as [Hx|Hx]|].
    + set_solver.
    + apply elem_of_filter in Hx as [_ Hx]. apply Hcv. exact Hx.
    + set_solver.
Qed.

(** With enough fuel the traversal returns, and then the visited set is
    closed under the call graph. *)
Lemma BreadthFirstSearch_run_spec fuel toTraverse visited acc :
  bfs_inv toTraverse visited acc ->
  size (universe ∖ visited) < fuel ->
  exists acc' visited',
    BreadthFirstSearch_run fuel step toTraverse visited acc = Some (acc', visited') /\
    bfs_inv ∅ visited' acc'.
Proof.
  revert toTraverse visited acc.
  induction fuel as [|fuel IH]; intros toTraverse visited acc Hinv Hfuel; [lia|].
  cbn [BreadthFirstSearch_run].
  destruct (elements toTraverse) as [|v rest] eqn:E.
  - exists acc, visited. split; [reflexivity|].
    apply elements_empty_inv in E. apply leibniz_equiv in E. subst toTraverse. exact Hinv.
  - assert (v ∈ toTraverse) as Hv.
    { apply elem_of_elements. rewrite E. left. }
    unfold CHC.collectAssertions at 1.
    apply IH.
    + apply bfs_inv_step; assumption.
    + destruct Hinv as [_ _ _ Hdisj _ Huni].
      assert (universe ∖ (visited ∪ {[v]}) ⊂ universe ∖ visited) as Hsub.
      { split; [set_solver|]. intros Hc. specialize (Hc v). set_solver. }
      apply subset_size in Hsub. lia.
Qed.

Lemma bfs_inv_init : bfs_inv {[root]} ∅ ∅.
Proof.
  split.
  - set_solver.
  - intros v Hv. assert (v = root) as -> by set_solver. constructor.
  - set_solver.
  - set_solver.
  - intros a. split; [set_solver|]. intros (v & Hv & _). set_solver.
  - unfold CHC.vertices. set_solver.
Qed.

Lemma bfs_inv_final visited acc :
  bfs_inv ∅ visited acc ->
  forall a, a ∈ acc <->
    exists F, rtc (calls callGraph) root F /\ a ∈ assertionsOf functionAssertions F.
Proof.
  intros [Hroot Hreach Hclosed _ Hacc _] a.
  assert (forall v, rtc (calls callGraph) root v -> v ∈ visited) as Hall.
  { intros v Hv. apply rtc_nsteps in Hv as [n Hv].
    revert v Hv. induction n as [|n IHn]; intros v Hv.
    - inversion Hv; subst. set_solver.
    - apply nsteps_inv_r in Hv as (u & Hu & Huv).
      specialize (Hclosed u (IHn u Hu) v Huv). set_solver. }
  rewrite Hacc. split.
  - intros (v & Hv & Ha). exists v. split; [apply Hreach; set_solver|exact Ha].
  - intros (v & Hv & Ha). exists v. split; [apply Hall; exact Hv|exact Ha].
Qed.

Lemma reachableAssertions_spec :
  exists assertions visited,
    CHC.reachableAssertions functionAssertions callGraph root = Some (assertions, visited) /\
    forall a, a ∈ assertions <->
      exists F, rtc (calls callGraph) root F /\ a ∈ assertionsOf functionAssertions F.
Proof.
  unfold CHC.reachableAssertions.
  destruct (BreadthFirstSearch_run_spec (S (size universe)) {[root]} ∅ ∅ bfs_inv_init)
    as (acc & visited & Hrun & Hinv).
  { apply Nat.lt_succ_r, subseteq_size. set_solver. }
  exists acc, visited. split; [exact Hrun|]. apply bfs_inv_final with visited. exact Hinv.
Qed.

End BreadthFirstSearch.

Section Proofs.
Context `{Environment}.

(** The traversal succeeds in every state of the encoder; this form is the
    one that the proofs about the driver use. *)
Lemma transactionAssertions_run s _txRoot :
  exists assertions s',
    CHC.transactionAssertions _txRoot s = Some (assertions, s') /\
    forall a, a ∈ assertions <->
      exists F, rtc (calls (m_callGraph s)) _txRoot F /\
                a ∈ assertionsOf (m_functionAssertions s) F.
Proof.
  destruct (reachableAssertions_spec (m_functionAssertions s) (m_callGraph s) _txRoot)
    as (assertions & visited & Hrun & Hspec).
  exists assertions. eexists. split; [|exact Hspec].
  unfold CHC.transactionAssertions.
  rewrite (bind_run _ _ s (m_functionAssertions s) s) by reflexivity.
  rewrite (bind_run _ _ s (m_callGraph s) s) by reflexivity.
  rewrite Hrun. reflexivity.
Qed.

(** C7.  [transactionAssertions] returns, and what it returns is the union
    of the entries of the function-assertions map over the functions that
    the scope reaches through zero or more edges of the recorded call graph:
    an assertion is in the result if and only if it is recorded for a
    reachable function.  In particular an assertion recorded for a function
    reachable from the root is in the set of the root. *)
Theorem transactionAssertions_reachable s _txRoot :
  exists assertions s',
    CHC.transactionAssertions _txRoot s = Some (assertions, s') /\
    forall a, a ∈ assertions <->
      exists F, rtc (calls (m_callGraph s)) _txRoot F /\
                a ∈ assertionsOf (m_functionAssertions s) F.
Proof.
  destruct (reachableAssertions_spec (m_functionAssertions s) (m_callGraph s) _txRoot)
    as (assertions & visited & Hrun & Hspec).
  exists assertions. eexists. split; [|exact Hspec].
  unfold CHC.transactionAssertions.
  rewrite (bind_run _ _ s (m_functionAssertions s) s) by reflexivity.
  rewrite (bind_run _ _ s (m_callGraph s) s) by reflexivity.
  rewrite Hrun. reflexivity.
Qed.

End Proofs.

(** * What the traversal leaves alone *)

Lemma frame_refl s : frame s s.
Proof. split; reflexivity. Qed.

Lemma frame_trans s1 s2 s3 : frame s1 s2 -> frame s2 s3 -> frame s1 s3.
Proof. intros [] []. split; try congruence; etrans; eassumption. Qed.

Lemma frameS_refl s : frameS s s.
Proof. split; try reflexivity. apply frame_refl. Qed.

Lemma frameS_trans s1 s2 s3 : frameS s1 s2 -> frameS s2 s3 -> frameS s1 s3.
Proof. intros [] []. split; try congruence. eapply frame_trans; eassumption. Qed.

Lemma frameE_refl s : frameE s s.
Proof. split; try reflexivity. apply frameS_refl. Qed.

Lemma frameE_trans s1 s2 s3 : frameE s1 s2 -> frameE s2 s3 -> frameE s1 s3.
Proof. intros [] []. split; try congruence. eapply frameS_trans; eassumption. Qed.

Lemma frameE_frame s s' : frameE s s' -> frame s s'.
Proof. intros [[]]. assumption. Qed.

Create HintDb frame.
#[global] Hint Resolve frameE_frameS frameS_frame frameE_frame : frame.

(** A state that differs from [s] in other fields only. *)
(** The fields of a state that was built with the setters. *)
Ltac fields :=
  lazy beta iota delta
    [set_m_context set_m_currentContract set_m_currentFunction set_m_genesisPredicate set_m_errorPredicate set_m_constructorSummaryPredicate set_m_implicitConstructorPredicate set_m_interfaces set_m_summaries set_m_error set_m_stateSorts set_m_stateVariables set_m_verificationTargets set_m_safeAssertions set_m_functionAssertions set_m_callGraph set_m_currentBlock set_m_unknownFunctionCallSeen set_m_breakDest set_m_continueDest set_m_blockCounter set_m_interface set_m_outerErrorReporter m_context m_currentContract m_currentFunction m_genesisPredicate m_errorPredicate m_constructorSummaryPredicate m_implicitConstructorPredicate m_interfaces m_summaries m_error m_stateSorts m_stateVariables m_verificationTargets m_safeAssertions m_functionAssertions m_callGraph m_currentBlock m_unknownFunctionCallSeen m_breakDest m_continueDest m_blockCounter m_interface m_outerErrorReporter
     CHC.register CHC.emitRule relations rules].

Ltac frame_pure :=
  solve [ repeat split; fields;
          first [ reflexivity
                | assumption
                | apply prefix_app_r; reflexivity
                | congruence ] ].

(** Chaining the steps of a run. *)
#[global] Hint Resolve frame_refl frameS_refl frameE_refl : frame.

Ltac frame_chain trans :=
  first
    [ frame_pure
    | match reverse goal with
      | H : _ ?s = Some (_, ?sB) |- ?R ?s ?s2 =>
          apply (trans s sB s2); [solve [eauto 3 with frame]|];
          clear H; frame_chain trans
      | H : frame ?s ?sB |- ?R ?s ?s2 =>
          apply (trans s sB s2); [solve [eauto 3 with frame]|];
          clear H; frame_chain trans
      end
    | match reverse goal with
      | H : _ ?sA = Some (_, ?sB) |- ?R ?s ?s2 =>
          apply (trans s sA s2); [frame_pure|];
          apply (trans sA sB s2); [solve [eauto 3 with frame]|];
          clear H; frame_chain trans
      | H : frame ?sA ?sB |- ?R ?s ?s2 =>
          apply (trans s sA s2); [frame_pure|];
          apply (trans sA sB s2); [solve [eauto 3 with frame]|];
          clear H; frame_chain trans
      end ].

(** Induction over the trees of expressions and statements. *)
Lemma Expression_ind' (P : Expression -> Prop) :
  (forall id k fk d callee args,
     P callee -> Forall P args -> P (FunctionCall id k fk d callee args)) ->
  (forall id subexpressions,
     Forall P subexpressions -> P (OtherExpression id subexpressions)) ->
  forall e, P e.
Proof.
  intros Hcall Hother. fix IH 1. intros [id k fk d callee args|id subs].
  - apply Hcall; [apply IH|]. induction args as [|a args IHa]; constructor; [apply IH|exact IHa].
  - apply Hother. induction subs as [|a subs IHa]; constructor; [apply IH|exact IHa].
Qed.

Lemma Statement_ind' (P : Statement -> Prop) :
  (forall id statements, Forall P statements -> P (Block id statements)) ->
  (forall id e, P (ExpressionStatement id e)) ->
  (forall id es, P (OtherStatement id es)) ->
  (forall id c t f, P t -> (forall f', f = Some f' -> P f') -> P (IfStatement id c t f)) ->
  (forall id d c b, P b -> P (WhileStatement id d c b)) ->
  (forall id i c p b,
     (forall i', i = Some i' -> P i') -> (forall p', p = Some p' -> P p') -> P b ->
     P (ForStatement id i c p b)) ->
  (forall id, P (Break id)) ->
  (forall id, P (Continue id)) ->
  forall st, P st.
Proof.
  intros HB HE HO HI HW HF HBr HC. fix IH 1.
  intros [id sts|id e|id es|id c t f|id d c b|id i c p b|id|id].
  - apply HB. induction sts as [|a sts IHa]; constructor; [apply IH|exact IHa].
  - apply HE.
  - apply HO.
  - apply HI; [apply IH|].
    destruct f as [f0|]; [intros f' [= <-]; apply IH|intros f' [=]].
  - apply HW. apply IH.
  - apply HF; [| |apply IH].
    + destruct i as [i0|]; [intros i' [= <-]; apply IH|intros i' [=]].
    + destruct p as [p0|]; [intros p' [= <-]; apply IH|intros p' [=]].
  - apply HBr.
  - apply HC.
Qed.

(** A loop whose iterations are related by a preorder. *)
Lemma forEach_rel {A} (R : CHC -> CHC -> Prop) (f : A -> M unit) l :
  (forall s, R s s) -> (forall s1 s2 s3, R s1 s2 -> R s2 s3 -> R s1 s3) ->
  Forall (fun a => forall s u s', f a s = Some (u, s') -> R s s') l ->
  forall s u s', forEach l f s = Some (u, s') -> R s s'.
Proof.
  intros Hrefl Htrans Hf. induction Hf as [|a l Ha _ IH]; intros s u s' Hr.
  - change (forEach [] f s) with (ret tt s) in Hr. run_inv. apply Hrefl.
  - rewrite forEach_cons in Hr. run_inv.
    eapply Htrans; [eapply Ha; eassumption|eapply IH; eassumption].
Qed.

Lemma mapM_rel {A B} (R : CHC -> CHC -> Prop) (f : A -> M B) l :
  (forall s, R s s) -> (forall s1 s2 s3, R s1 s2 -> R s2 s3 -> R s1 s3) ->
  Forall (fun a => forall s b s', f a s = Some (b, s') -> R s s') l ->
  forall s bs s', mapM f l s = Some (bs, s') -> R s s'.
Proof.
  intros Hrefl Htrans Hf. induction Hf as [|a l Ha _ IH]; intros s bs s' Hr.
  - cbn in Hr. run_inv. apply Hrefl.
  - cbn [mapM] in Hr. run_inv.
    eapply Htrans; [eapply Ha; eassumption|eapply IH; eassumption].
Qed.

Ltac frame_auto trans := intros; run_inv; frame_chain trans.

Lemma connectBlocks_frameE `{Environment} x0 x1 x2 s u s' :
  CHC.connectBlocks x0 x1 x2 s = Some (u, s') -> frameE s s'.
Proof. unfold CHC.connectBlocks, CHC.addRule, CHC.emitRule. frame_auto frameE_trans. Qed.
#[global] Hint Extern 1 (frameE ?s ?s') =>
  match goal with
  | H : CHC.connectBlocks _ _ _ s = Some (_, s') |- _ => eapply connectBlocks_frameE; exact H
  end : frame.

Lemma createSymbolicBlock_frameE `{Environment} x0 x1 s u s' :
  CHC.createSymbolicBlock x0 x1 s = Some (u, s') -> frameE s s'.
Proof. unfold CHC.createSymbolicBlock, CHC.registerRelation, CHC.register. frame_auto frameE_trans. Qed.
#[global] Hint Extern 1 (frameE ?s ?s') =>
  match goal with
  | H : CHC.createSymbolicBlock _ _ s = Some (_, s') |- _ => eapply createSymbolicBlock_frameE; exact H
  end : frame.

Lemma createBlock_frameE `{Environment} x0 x1 s u s' :
  CHC.createBlock x0 x1 s = Some (u, s') -> frameE s s'.
Proof. unfold CHC.createBlock, CHC.uniquePrefix. frame_auto frameE_trans. Qed.
#[global] Hint Extern 1 (frameE ?s ?s') =>
  match goal with
  | H : CHC.createBlock _ _ s = Some (_, s') |- _ => eapply createBlock_frameE; exact H
  end : frame.

Lemma createSummaryBlock_frameE `{Environment} x0 x1 s u s' :
  CHC.createSummaryBlock x0 x1 s = Some (u, s') -> frameE s s'.
Proof. unfold CHC.createSummaryBlock, CHC.uniquePrefix. frame_auto frameE_trans. Qed.
#[global] Hint Extern 1 (frameE ?s ?s') =>
  match goal with
  | H : CHC.createSummaryBlock _ _ s = Some (_, s') |- _ => eapply createSummaryBlock_frameE; exact H
  end : frame.

Lemma modifyContext_frameE `{Environment} x0 s u s' :
  CHC.modifyContext x0 s = Some (u, s') -> frameE s s'.
Proof. unfold CHC.modifyContext. frame_auto frameE_trans. Qed.
#[global] Hint Extern 1 (frameE ?s ?s') =>
  match goal with
  | H : CHC.modifyContext _ s = Some (_, s') |- _ => eapply modifyContext_frameE; exact H
  end : frame.

Lemma SMTEncoder_frameE `{Environment} x0 s u s' :
  CHC.SMTEncoder x0 s = Some (u, s') -> frameE s s'.
Proof. unfold CHC.SMTEncoder. frame_auto frameE_trans. Qed.
#[global] Hint Extern 1 (frameE ?s ?s') =>
  match goal with
  | H : CHC.SMTEncoder _ s = Some (_, s') |- _ => eapply SMTEncoder_frameE; exact H
  end : frame.

Lemma addAssertion_frameE `{Environment} x0 s u s' :
  CHC.addAssertion x0 s = Some (u, s') -> frameE s s'.
Proof. unfold CHC.addAssertion. frame_auto frameE_trans. Qed.
#[global] Hint Extern 1 (frameE ?s ?s') =>
  match goal with
  | H : CHC.addAssertion _ s = Some (_, s') |- _ => eapply addAssertion_frameE; exact H
  end : frame.

Lemma createVariable_frameE `{Environment} x0 s u s' :
  CHC.createVariable x0 s = Some (u, s') -> frameE s s'.
Proof. unfold CHC.createVariable. frame_auto frameE_trans. Qed.
#[global] Hint Extern 1 (frameE ?s ?s') =>
  match goal with
  | H : CHC.createVariable _ s = Some (_, s') |- _ => eapply createVariable_frameE; exact H
  end : frame.

Lemma increaseIndex_frameE `{Environment} x0 s u s' :
  CHC.increaseIndex x0 s = Some (u, s') -> frameE s s'.
Proof. unfold CHC.increaseIndex. frame_auto frameE_trans. Qed.
#[global] Hint Extern 1 (frameE ?s ?s') =>
  match goal with
  | H : CHC.increaseIndex _ s = Some (_, s') |- _ => eapply increaseIndex_frameE; exact H
  end : frame.

Lemma resetIndex_frameE `{Environment} x0 s u s' :
  CHC.resetIndex x0 s = Some (u, s') -> frameE s s'.
Proof. unfold CHC.resetIndex. frame_auto frameE_trans. Qed.
#[global] Hint Extern 1 (frameE ?s ?s') =>
  match goal with
  | H : CHC.resetIndex _ s = Some (_, s') |- _ => eapply resetIndex_frameE; exact H
  end : frame.

Lemma m_error_increaseIndex_frameE `{Environment}  s u s' :
  CHC.m_error_increaseIndex  s = Some (u, s') -> frameE s s'.
Proof. unfold CHC.m_error_increaseIndex. frame_auto frameE_trans. Qed.
#[global] Hint Extern 1 (frameE ?s ?s') =>
  match goal with
  | H : CHC.m_error_increaseIndex  s = Some (_, s') |- _ => eapply m_error_increaseIndex_frameE; exact H
  end : frame.

Lemma eraseKnowledge_frameE `{Environment}  s u s' :
  CHC.eraseKnowledge  s = Some (u, s') -> frameE s s'.
Proof. unfold CHC.eraseKnowledge, CHC.resetStateVariables. frame_auto frameE_trans. Qed.
#[global] Hint Extern 1 (frameE ?s ?s') =>
  match goal with
  | H : CHC.eraseKnowledge  s = Some (_, s') |- _ => eapply eraseKnowledge_frameE; exact H
  end : frame.

Lemma forEach_frameE {A} (f : A -> M unit) l s u s' :
  (forall a t v t', f a t = Some (v, t') -> frameE t t') ->
  forEach l f s = Some (u, s') -> frameE s s'.
Proof.
  intros Hf. apply forEach_rel; [apply frameE_refl|apply frameE_trans|].
  apply Forall_forall. intros a _. apply Hf.
Qed.

Lemma forEach_frameS {A} (f : A -> M unit) l s u s' :
  (forall a t v t', f a t = Some (v, t') -> frameS t t') ->
  forEach l f s = Some (u, s') -> frameS s s'.
Proof.
  intros Hf. apply forEach_rel; [apply frameS_refl|apply frameS_trans|].
  apply Forall_forall. intros a _. apply Hf.
Qed.

Lemma forEach_frame {A} (f : A -> M unit) l s u s' :
  (forall a t v t', f a t = Some (v, t') -> frame t t') ->
  forEach l f s = Some (u, s') -> frame s s'.
Proof.
  intros Hf. apply forEach_rel; [apply frame_refl|apply frame_trans|].
  apply Forall_forall. intros a _. apply Hf.
Qed.

(** A loop over a list: every iteration is framed. *)
#[global] Hint Extern 5 (frameE ?s ?s') =>
  match goal with
  | H : forEach _ _ s = Some (_, s') |- _ =>
      eapply forEach_frameE; [|exact H]; clear H; frame_auto frameE_trans
  end : frame.
#[global] Hint Extern 6 (frame ?s ?s') =>
  match goal with
  | H : forEach _ _ s = Some (_, s') |- _ =>
      eapply forEach_frame; [|exact H]; clear H; frame_auto frame_trans
  end : frame.

Lemma clearIndices_frameE `{Environment} x0 x1 s u s' :
  CHC.clearIndices x0 x1 s = Some (u, s') -> frameE s s'.
Proof. unfold CHC.clearIndices. frame_auto frameE_trans. Qed.
#[global] Hint Extern 1 (frameE ?s ?s') =>
  match goal with
  | H : CHC.clearIndices _ _ s = Some (_, s') |- _ => eapply clearIndices_frameE; exact H
  end : frame.

Lemma setCurrentBlock_frameS `{Environment} x0 x1 s u s' :
  CHC.setCurrentBlock x0 x1 s = Some (u, s') -> frameS s s'.
Proof. unfold CHC.setCurrentBlock. frame_auto frameS_trans. Qed.
#[global] Hint Extern 1 (frameS ?s ?s') =>
  match goal with
  | H : CHC.setCurrentBlock _ _ s = Some (_, s') |- _ => eapply setCurrentBlock_frameS; exact H
  end : frame.

Lemma predicate_FunctionCall_frameE `{Environment} x0 s u s' :
  CHC.predicate_FunctionCall x0 s = Some (u, s') -> frameE s s'.
Proof. unfold CHC.predicate_FunctionCall, CHC.m_error_currentValue. frame_auto frameE_trans. Qed.
#[global] Hint Extern 1 (frameE ?s ?s') =>
  match goal with
  | H : CHC.predicate_FunctionCall _ s = Some (_, s') |- _ => eapply predicate_FunctionCall_frameE; exact H
  end : frame.

Lemma visitAssert_frameE `{Environment} x0 s u s' :
  CHC.visitAssert x0 s = Some (u, s') -> frameE s s'.
Proof. unfold CHC.visitAssert. frame_auto frameE_trans. Qed.
#[global] Hint Extern 1 (frameE ?s ?s') =>
  match goal with
  | H : CHC.visitAssert _ s = Some (_, s') |- _ => eapply visitAssert_frameE; exact H
  end : frame.

Lemma internalFunctionCall_frameE `{Environment} x0 s u s' :
  CHC.internalFunctionCall x0 s = Some (u, s') -> frameE s s'.
Proof. unfold CHC.internalFunctionCall. frame_auto frameE_trans. Qed.
#[global] Hint Extern 1 (frameE ?s ?s') =>
  match goal with
  | H : CHC.internalFunctionCall _ s = Some (_, s') |- _ => eapply internalFunctionCall_frameE; exact H
  end : frame.

Lemma unknownFunctionCall_frameE `{Environment} x0 s u s' :
  CHC.unknownFunctionCall x0 s = Some (u, s') -> frameE s s'.
Proof. unfold CHC.unknownFunctionCall. frame_auto frameE_trans. Qed.
#[global] Hint Extern 1 (frameE ?s ?s') =>
  match goal with
  | H : CHC.unknownFunctionCall _ s = Some (_, s') |- _ => eapply unknownFunctionCall_frameE; exact H
  end : frame.

Lemma endVisit_FunctionCall_frameE `{Environment} x0 s u s' :
  CHC.endVisit_FunctionCall x0 s = Some (u, s') -> frameE s s'.
Proof. unfold CHC.endVisit_FunctionCall. frame_auto frameE_trans. Qed.
#[global] Hint Extern 1 (frameE ?s ?s') =>
  match goal with
  | H : CHC.endVisit_FunctionCall _ s = Some (_, s') |- _ => eapply endVisit_FunctionCall_frameE; exact H
  end : frame.

Lemma connectCurrentTo_frameE `{Environment} x0 x1 s u s' :
  CHC.connectCurrentTo x0 x1 s = Some (u, s') -> frameE s s'.
Proof. unfold CHC.connectCurrentTo. frame_auto frameE_trans. Qed.
#[global] Hint Extern 1 (frameE ?s ?s') =>
  match goal with
  | H : CHC.connectCurrentTo _ _ s = Some (_, s') |- _ => eapply connectCurrentTo_frameE; exact H
  end : frame.

Lemma endVisit_Break_frameS `{Environment} x0 s u s' :
  CHC.endVisit_Break x0 s = Some (u, s') -> frameS s s'.
Proof. unfold CHC.endVisit_Break. frame_auto frameS_trans. Qed.
#[global] Hint Extern 1 (frameS ?s ?s') =>
  match goal with
  | H : CHC.endVisit_Break _ s = Some (_, s') |- _ => eapply endVisit_Break_frameS; exact H
  end : frame.

Lemma endVisit_Continue_frameS `{Environment} x0 s u s' :
  CHC.endVisit_Continue x0 s = Some (u, s') -> frameS s s'.
Proof. unfold CHC.endVisit_Continue. frame_auto frameS_trans. Qed.
#[global] Hint Extern 1 (frameS ?s ?s') =>
  match goal with
  | H : CHC.endVisit_Continue _ s = Some (_, s') |- _ => eapply endVisit_Continue_frameS; exact H
  end : frame.

(** Naming the next step of a run. *)
Ltac run_next a s H :=
  match goal with
  | Hr : bind _ _ _ = Some _ |- _ => apply bind_Some in Hr as (a & s & H & Hr)
  end.

Section Proofs.
Context `{Environment}.

Lemma acceptExpression_frameE e : forall s u s',
  CHC.acceptExpression e s = Some (u, s') -> frameE s s'.
Proof.
  induction e as [id k fk d callee args IHc IHa|id subs IHs] using Expression_ind';
    intros s u s' Hr; cbn [CHC.acceptExpression] in Hr.
  - run_next a1 s1 H1. run_next a2 s2 H2.
    apply frameE_trans with s1; [eapply IHc; eassumption|].
    apply frameE_trans with s2; [|eauto with frame].
    revert H2. apply forEach_rel; [apply frameE_refl|apply frameE_trans|exact IHa].
  - run_next a1 s1 H1. run_next a2 s2 H2.
    apply frameE_trans with s1; [eauto with frame|].
    apply frameE_trans with s2; [|eauto with frame].
    revert H2. apply forEach_rel; [apply frameE_refl|apply frameE_trans|exact IHs].
Qed.

Local Hint Extern 1 (frameE ?s ?s') =>
  match goal with
  | H : CHC.acceptExpression _ s = Some (_, s') |- _ => eapply acceptExpression_frameE; exact H
  end : frame.

Section Visit.
Variable acceptE : Expression -> M unit.
Variable acceptS : Statement -> M unit.
Hypothesis acceptE_frame : forall e s u s', acceptE e s = Some (u, s') -> frameE s s'.

Lemma visit_IfStatement_frameS id c t f s b s' :
  (forall s u s', acceptS t s = Some (u, s') -> frameS s s') ->
  (forall f', f = Some f' -> forall s u s', acceptS f' s = Some (u, s') -> frameS s s') ->
  CHC.visit_IfStatement acceptE acceptS id c t f s = Some (b, s') -> frameS s s'.
Proof.
  intros Ht Hf. unfold CHC.visit_IfStatement. intros Hr. run_inv.
  all: try (pose proof (Hf _ eq_refl) as Hf').
  all: frame_chain frameS_trans.
Qed.

(** The parts of a loop: up to the creation of the blocks, from the moment
    the destinations are set to the end of the body, and from the moment
    they are restored. *)
Lemma loop_frameS s s3 sd s10 sr s' :
  frameS s s3 ->
  frameS sd s10 ->
  frameS sr s' ->
  frame s3 sd -> m_currentFunction sd = m_currentFunction s3 ->
  m_currentContract sd = m_currentContract s3 ->
  frame s10 sr -> m_currentFunction sr = m_currentFunction s10 ->
  m_currentContract sr = m_currentContract s10 ->
  m_breakDest sr = m_breakDest s3 -> m_continueDest sr = m_continueDest s3 ->
  frameS s s'.
Proof.
  intros [F1 ? ? ? ?] [F2 ? ? ? ?] [F3 ? ? ? ?] F4 ? ? F5 ? ? ? ?.
  split; try congruence.
  eapply frame_trans; [exact F1|]. eapply frame_trans; [exact F4|].
  eapply frame_trans; [exact F2|]. eapply frame_trans; [exact F5|]. exact F3.
Qed.

Lemma visit_WhileStatement_frameS id d c body s b s' :
  (forall s u s', acceptS body s = Some (u, s') -> frameS s s') ->
  CHC.visit_WhileStatement acceptE acceptS id d c body s = Some (b, s') -> frameS s s'.
Proof.
  intros Hb. unfold CHC.visit_WhileStatement. intros Hr. run_inv.
  all: match goal with
       | H3 : CHC.createBlock (OtherNode (stmt_id (fun_body _))) "" _ = Some (?after, ?s3),
         H11 : CHC.connectCurrentTo ?hdr _
                 (set_m_continueDest _ (set_m_breakDest _ ?s10)) = Some _ |- frameS ?s ?s' =>
           apply (loop_frameS s s3
                    (set_m_continueDest (Some hdr) (set_m_breakDest (Some after) s3))
                    s10
                    (set_m_continueDest (m_continueDest s3)
                       (set_m_breakDest (m_breakDest s3) s10)) s');
           try reflexivity; try frame_pure
       end.
  all: frame_chain frameS_trans.
Qed.

Lemma visit_ForStatement_frameS id i c p body s b s' :
  (forall i', i = Some i' -> forall s u s', acceptS i' s = Some (u, s') -> frameS s s') ->
  (forall p', p = Some p' -> forall s u s', acceptS p' s = Some (u, s') -> frameS s s') ->
  (forall s u s', acceptS body s = Some (u, s') -> frameS s s') ->
  CHC.visit_ForStatement acceptE acceptS id i c p body s = Some (b, s') -> frameS s s'.
Proof.
  intros Hi Hp Hb. unfold CHC.visit_ForStatement. intros Hr. run_inv.
  all: try (pose proof (Hi _ eq_refl) as Hi').
  all: try (pose proof (Hp _ eq_refl) as Hp').
  all: match goal with
       | H3 : CHC.createBlock (OtherNode (stmt_id (fun_body _))) "" _ = Some (?after, ?s3)
         |- frameS ?s ?s' =>
           match goal with
           | H11 : CHC.connectCurrentTo ?hdr (smt.BoolLit true)
                     (set_m_continueDest _ (set_m_breakDest _ ?s10)) = Some _ |- _ =>
               match goal with
               | Hpost : CHC.createBlock _ "for_post_" s3 = Some (?post, ?s4) |- _ =>
                   apply (loop_frameS s s4
                            (set_m_continueDest (Some post) (set_m_breakDest (Some after) s4))
                            s10
                            (set_m_continueDest (m_continueDest s4)
                               (set_m_breakDest (m_breakDest s4) s10)) s')
               | _ =>
                   apply (loop_frameS s s3
                            (set_m_continueDest (Some hdr) (set_m_breakDest (Some after) s3))
                            s10
                            (set_m_continueDest (m_continueDest s3)
                               (set_m_breakDest (m_breakDest s3) s10)) s')
               end;
               try reflexivity; try frame_pure
           end
       end.
  all: frame_chain frameS_trans.
Qed.

End Visit.

Lemma acceptStatement_frameS st : forall s u s',
  CHC.acceptStatement st s = Some (u, s') -> frameS s s'.
Proof.
  induction st as [id sts IH|id e|id es|id c t f IHt IHf|id d c b IHb|id i c p b IHi IHp IHb|id|id]
    using Statement_ind'; intros s u s' Hr; cbn [CHC.acceptStatement] in Hr.
  - run_next a1 s1 H1. run_next a2 s2 H2.
    apply frameS_trans with s1; [eauto with frame|].
    apply frameS_trans with s2; [|eauto with frame].
    revert H2. apply forEach_rel; [apply frameS_refl|apply frameS_trans|exact IH].
  - frame_auto frameS_trans.
  - run_next a1 s1 H1. run_next a2 s2 H2.
    apply frameS_trans with s1; [eauto with frame|].
    apply frameS_trans with s2; [|eauto with frame].
    apply frameE_frameS.
    revert H2. apply forEach_rel; [apply frameE_refl|apply frameE_trans|].
    apply Forall_forall. intros e _. apply acceptExpression_frameE.
  - run_next a1 s1 H1. repeat run_basic.
    eapply visit_IfStatement_frameS; [| | |exact H1]; eauto using acceptExpression_frameE.
  - run_next a1 s1 H1. repeat run_basic.
    eapply visit_WhileStatement_frameS; [| |exact H1]; eauto using acceptExpression_frameE.
  - run_next a1 s1 H1. repeat run_basic.
    eapply visit_ForStatement_frameS; [| | | |exact H1]; eauto using acceptExpression_frameE.
  - eauto with frame.
  - eauto with frame.
Qed.

End Proofs.

#[global] Hint Extern 1 (frameE ?s ?s') =>
  match goal with
  | H : CHC.acceptExpression _ s = Some (_, s') |- _ => eapply acceptExpression_frameE; exact H
  end : frame.
#[global] Hint Extern 1 (frameS ?s ?s') =>
  match goal with
  | H : CHC.acceptStatement _ s = Some (_, s') |- _ => eapply acceptStatement_frameS; exact H
  end : frame.

Section Proofs.
Context `{Environment}.

Lemma addVerificationTarget_frame sc f c e s u s' :
  CHC.addVerificationTarget sc f c e s = Some (u, s') -> frame s s'.
Proof.
  unfold CHC.addVerificationTarget. intros Hr. run_inv.
  destruct (m_verificationTargets s !! sc); frame_pure.
Qed.
Local Hint Extern 1 (frame ?s ?s') =>
  match goal with
  | H : CHC.addVerificationTarget _ _ _ _ s = Some (_, s') |- _ => eapply addVerificationTarget_frame; exact H
  end : frame.

Lemma visit_FunctionDefinition_frame inl f s b s' :
  (forall s u s', inl s = Some (u, s') -> frame s s') ->
  CHC.visit_FunctionDefinition inl f s = Some (b, s') -> frame s s'.
Proof.
  intros Hinl. unfold CHC.visit_FunctionDefinition, CHC.SMTEncoder_visit_FunctionDefinition,
    CHC.predicate_args.
  frame_auto frame_trans.
Qed.

Lemma endVisit_FunctionDefinition_frame f s b s' :
  CHC.endVisit_FunctionDefinition f s = Some (b, s') -> frame s s'.
Proof.
  unfold CHC.endVisit_FunctionDefinition, CHC.predicate_args.
  frame_auto frame_trans.
Qed.

Lemma acceptFunction_frame inl f s b s' :
  (forall s u s', inl s = Some (u, s') -> frame s s') ->
  CHC.acceptFunction inl f s = Some (b, s') -> frame s s'.
Proof.
  intros Hinl. unfold CHC.acceptFunction. intros Hr. run_inv.
  eapply frame_trans; [eapply visit_FunctionDefinition_frame; eassumption|].
  eapply endVisit_FunctionDefinition_frame; eassumption.
Qed.

Lemma initializeStateVariables_frame c s u s' :
  CHC.initializeStateVariables c s = Some (u, s') -> frame s s'.
Proof. unfold CHC.initializeStateVariables. frame_auto frame_trans. Qed.
Local Hint Extern 1 (frame ?s ?s') =>
  match goal with
  | H : CHC.initializeStateVariables _ s = Some (_, s') |- _ => eapply initializeStateVariables_frame; exact H
  end : frame.

Lemma inlineConstructorHierarchy_frame hierarchy : forall c s u s',
  CHC.inlineConstructorHierarchy hierarchy c s = Some (u, s') -> frame s s'.
Proof.
  induction hierarchy as [|nextBase rest IH]; intros c s u s' Hr;
    cbn [CHC.inlineConstructorHierarchy] in Hr.
  - eauto with frame.
  - destruct (constructor nextBase) as [ctor|]; run_inv.
    + match goal with
      | Hq : CHC.acceptFunction _ _ _ = Some (_, ?s0) |- _ =>
          apply frame_trans with s0; [|eauto with frame];
          exact (acceptFunction_frame _ _ _ _ _ (fun t v t' => IH nextBase t v t') Hq)
      end.
    + match goal with
      | Hq : CHC.inlineConstructorHierarchy _ _ ?s0 = _ |- _ =>
          apply frame_trans with s0; [eauto with frame|eapply IH; exact Hq]
      end.
Qed.
Local Hint Extern 1 (frame ?s ?s') =>
  match goal with
  | H : CHC.inlineConstructorHierarchy _ _ s = Some (_, s') |- _ => eapply inlineConstructorHierarchy_frame; exact H
  end : frame.

Lemma SMTEncoder_visit_ContractDefinition_frame c s u s' :
  CHC.SMTEncoder_visit_ContractDefinition c s = Some (u, s') -> frame s s'.
Proof.
  unfold CHC.SMTEncoder_visit_ContractDefinition. intros Hr. run_inv.
  match goal with
  | Hq : forEach _ _ ?s0 = _ |- _ =>
      apply frame_trans with s0; [eauto with frame|];
      revert Hq; apply forEach_frame
  end.
  intros f t v t'. apply acceptFunction_frame. intros t0 v0 t0' Ht. run_inv. apply frame_refl.
Qed.
Local Hint Extern 1 (frame ?s ?s') =>
  match goal with
  | H : CHC.SMTEncoder_visit_ContractDefinition _ s = Some (_, s') |- _ => eapply SMTEncoder_visit_ContractDefinition_frame; exact H
  end : frame.

Lemma visit_ContractDefinition_frame c s b s' :
  CHC.visit_ContractDefinition c s = Some (b, s') -> frame s s'.
Proof.
  unfold CHC.visit_ContractDefinition, CHC.resetContractAnalysis, CHC.initContract,
    CHC.m_error_resetIndex.
  frame_auto frame_trans.
Qed.

Lemma endVisit_ContractDefinition_frame c s b s' :
  CHC.endVisit_ContractDefinition c s = Some (b, s') -> frame s s'.
Proof.
  unfold CHC.endVisit_ContractDefinition, CHC.SMTEncoder_endVisit_ContractDefinition,
    CHC.predicate_args.
  intros Hr. run_inv.
  all: match goal with
       | Hc : CHC.acceptFunction _ _ _ = Some _ |- _ =>
           apply acceptFunction_frame in Hc; [|apply inlineConstructorHierarchy_frame]
       | _ => idtac
       end.
  all: frame_chain frame_trans.
Qed.

Lemma acceptContract_frame c s b s' :
  CHC.acceptContract c s = Some (b, s') -> frame s s'.
Proof.
  unfold CHC.acceptContract. intros Hr. run_inv.
  match goal with
  | Hq : CHC.endVisit_ContractDefinition _ ?s0 = _ |- _ =>
      apply frame_trans with s0;
      [eapply visit_ContractDefinition_frame; eassumption
      |eapply endVisit_ContractDefinition_frame; exact Hq]
  end.
Qed.

Lemma acceptSourceUnit_frame src s b s' :
  CHC.acceptSourceUnit src s = Some (b, s') -> frame s s'.
Proof.
  unfold CHC.acceptSourceUnit. apply forEach_frame. intros c t v t'. apply acceptContract_frame.
Qed.

Lemma defineInterfacesAndSummaries_frame src s b s' :
  CHC.defineInterfacesAndSummaries src s = Some (b, s') -> frame s s'.
Proof.
  unfold CHC.defineInterfacesAndSummaries.
  apply forEach_frame. intros c t v t'.
  apply forEach_frame. intros base t0 v0 t0'.
  frame_auto frame_trans.
Qed.

End Proofs.

Lemma sameGraph_refl s : sameGraph s s.
Proof. split; reflexivity. Qed.

Lemma sameGraph_trans s1 s2 s3 : sameGraph s1 s2 -> sameGraph s2 s3 -> sameGraph s1 s3.
Proof. intros [] []. split; intros; congruence. Qed.

Lemma sameGraph_rtc s s' u v :
  sameGraph s s' -> rtc (calls (m_callGraph s')) u v <-> rtc (calls (m_callGraph s)) u v.
Proof.
  intros [_ Hc _]. split; apply rtc_subrel; intros x y; unfold calls.
  - rewrite Hc. auto.
  - rewrite Hc. auto.
Qed.

Lemma sameGraph_gathered s s' scope a :
  sameGraph s s' -> gathered s' scope a <-> gathered s scope a.
Proof.
  intros Hg. unfold gathered, assertionsOf.
  rewrite (same_targets _ _ Hg).
  setoid_rewrite (sameGraph_rtc s s' _ _ Hg).
  setoid_rewrite (same_assertions _ _ Hg). reflexivity.
Qed.

Lemma drives_nil s : drives [] s s.
Proof.
  split.
  - intros a. split; [auto|]. intros [?|[sc Hsc]]; [assumption|]. inversion Hsc.
  - cbn. rewrite app_nil_r. reflexivity.
  - apply sameGraph_refl.
Qed.

Lemma drives_app o1 o2 s1 s2 s3 :
  drives o1 s1 s2 -> drives o2 s2 s3 -> drives (o1 ++ o2) s1 s3.
Proof.
  intros [S1 R1 G1] [S2 R2 G2]. split.
  - intros a. rewrite S2, S1. setoid_rewrite elem_of_app. naive_solver.
  - rewrite R2, R1, flat_map_app, app_assoc. reflexivity.
  - eapply sameGraph_trans; eassumption.
Qed.

Lemma touch_lookup visited m u :
  default ∅ (CHC.touch visited m !! u) = default ∅ (m !! u).
Proof.
  unfold CHC.touch. rewrite lookup_union.
  destruct (m !! u) as [X|] eqn:E; cbn.
  - destruct (gset_to_gmap ∅ visited !! u); reflexivity.
  - rewrite lookup_gset_to_gmap. unfold guard. case_decide; reflexivity.
Qed.

Section Proofs.
Context `{Environment}.

Lemma query_spec q loc s r s' :
  CHC.query q loc s = Some (r, s') ->
  s' = set_m_outerErrorReporter
         (m_outerErrorReporter s ++ reportOf (0, loc, r.1)) s.
Proof.
  unfold CHC.query. intros Hr. run_inv.
  all: unfold CHC.warning in *; run_inv; cbn.
  all: rewrite ?app_nil_r; destruct s; reflexivity.
Qed.

Lemma createErrorBlock_exact s u s' :
  CHC.createErrorBlock s = Some (u, s') ->
  exists p, m_errorPredicate s = Some p /\
            s' = CHC.register (smt.increaseIndex p)
                   (set_m_errorPredicate (Some (smt.increaseIndex p)) s).
Proof.
  unfold CHC.createErrorBlock, CHC.registerRelation. intros Hr. run_inv. eauto.
Qed.

Lemma error_exact s e s' :
  CHC.error s = Some (e, s') ->
  exists p, m_errorPredicate s = Some p /\ e = smt.apply p [] /\ s' = s.
Proof. unfold CHC.error. intros Hr. run_inv. eauto. Qed.

Lemma query_result q loc s r s' :
  CHC.query q loc s = Some (r, s') -> r.1 = (solver_query (m_interface s) q).1.
Proof.
  unfold CHC.query. intros Hr.
  run_next backend s1 H1. apply gets_Some in H1 as [-> ->].
  destruct (solver_query (m_interface s) q) as [result values].
  run_next u s2 H2. apply ret_Some in Hr as [-> _]. reflexivity.
Qed.

(** The body of the loop of [analyze] for one assertion, step by step. *)
Lemma checkAssertion_exact target assertion s r s' :
  CHC.checkAssertion target assertion s = Some (r, s') ->
  exists p,
    m_errorPredicate s = Some p /\
    let p' := smt.increaseIndex p in
    let to := smt.apply p' [] in
    let rule :=
      (CHC.edge (value target) (EncodingContext.assertions (m_context s))
         (smt.And (constraints target)
            (smt.Eq (errorId target) (smt.IntLit assertion))) to,
       CHC.edgeName (value target) to) in
    let backend :=
      {| relations := relations (m_interface s) ++ [p'];
         rules := rules (m_interface s) ++ [rule] |} in
    m_errorPredicate s' = Some p' /\
    m_interface s' = backend /\
    r = (solver_query backend to).1 /\
    m_safeAssertions s' =
      (if bool_decide (r = smt.UNSATISFIABLE)
       then m_safeAssertions s ∪ {[assertion]} else m_safeAssertions s) /\
    m_context s' = m_context s.
Proof.
  unfold CHC.checkAssertion. intros Hr.
  run_next u1 s1 H1. apply createErrorBlock_exact in H1 as (p & Hp & ->).
  run_next e s2 H2. apply error_exact in H2 as (q & Hq & -> & ->).
  cbn in Hq. injection Hq as <-.
  run_next u3 s3 H3.
  unfold CHC.connectBlocks, CHC.addRule in H3.
  apply bind_Some in H3 as (c & s4 & H4 & H3). apply gets_Some in H4 as [-> ->].
  apply modify_Some in H3 as ->.
  run_next e s5 H5. apply error_exact in H5 as (q & Hq & -> & ->).
  cbn in Hq. injection Hq as <-.
  run_next res s6 H6. pose proof (query_result _ _ _ _ _ H6) as Hres.
  apply query_spec in H6 as ->.
  run_next u7 s7 H7. apply ret_Some in Hr as [-> ->].
  exists p. split; [exact Hp|]. cbn zeta.
  destruct (bool_decide (res.1 = smt.UNSATISFIABLE)) eqn:Hb.
  - apply modify_Some in H7 as ->.
    split; [reflexivity|]. split; [reflexivity|]. split; [exact Hres|].
    split; reflexivity.
  - apply ret_Some in H7 as [_ ->].
    split; [reflexivity|]. split; [reflexivity|]. split; [exact Hres|].
    split; reflexivity.
Qed.

(** The queries are chained: the error predicate and the backend that one
    query leaves are those that the next one starts from. *)
Lemma asked_app targets assertions o1 : forall p b o2 p1 b1 p2 b2,
  asked targets assertions p b o1 p1 b1 ->
  asked targets assertions p1 b1 o2 p2 b2 ->
  asked targets assertions p b (o1 ++ o2) p2 b2.
Proof.
  induction o1 as [|[[scope a] r] o1 IH]; intros p b o2 p1 b1 p2 b2 H1 H2.
  - destruct H1 as [-> ->]. exact H2.
  - cbn [asked app] in *. destruct H1 as (target & previous & Ht & Hp & Hr & H1).
    exists target, previous. split; [exact Ht|]. split; [exact Hp|].
    split; [exact Hr|]. eapply IH; eassumption.
Qed.

Lemma checkAssertion_asked targets scope target a s r s' :
  targets !! scope = Some target ->
  CHC.checkAssertion target a s = Some (r, s') ->
  asked targets (EncodingContext.assertions (m_context s))
    (m_errorPredicate s) (m_interface s) [(scope, a, r)]
    (m_errorPredicate s') (m_interface s') /\
  m_context s' = m_context s.
Proof.
  intros Ht Hr. apply checkAssertion_exact in Hr as (p & Hp & Hx). cbn zeta in Hx.
  destruct Hx as (Hp' & Hi & Hres & _ & Hc).
  split; [|exact Hc]. cbn [asked].
  exists target, p. split; [exact Ht|]. split; [exact Hp|]. cbn zeta.
  split; [exact Hres|]. split; [exact Hp'|exact Hi].
Qed.

Lemma checkAssertions_asked targets scope target l : forall s outs s',
  targets !! scope = Some target ->
  mapM (fun assertion =>
    r <- CHC.checkAssertion target assertion ;;
    ret (scope, assertion, r)) l s = Some (outs, s') ->
  asked targets (EncodingContext.assertions (m_context s))
    (m_errorPredicate s) (m_interface s) outs
    (m_errorPredicate s') (m_interface s') /\
  m_context s' = m_context s.
Proof.
  induction l as [|a l IH]; intros s outs s' Ht Hr; cbn [mapM] in Hr.
  - apply ret_Some in Hr as [-> ->]. split; [split|]; reflexivity.
  - run_next o s1 H1. run_next os s2 H2. apply ret_Some in Hr as [-> ->].
    run_next r s3 H3. apply ret_Some in H1 as [-> ->].
    apply (checkAssertion_asked targets scope) in H3 as [Ha Hc]; [|exact Ht].
    apply IH in H2 as [Hrest Hc']; [|exact Ht]. rewrite Hc in Hrest.
    split; [|congruence].
    exact (asked_app _ _ [_] _ _ _ _ _ _ _ Ha Hrest).
Qed.

Lemma transactionAssertions_backend scope s A s' :
  CHC.transactionAssertions scope s = Some (A, s') ->
  m_errorPredicate s' = m_errorPredicate s /\ m_interface s' = m_interface s /\
  m_context s' = m_context s.
Proof.
  unfold CHC.transactionAssertions. intros Hr. run_inv. repeat split; reflexivity.
Qed.

Lemma checkTargets_asked targets l : forall s outs s',
  (forall scope target, (scope, target) ∈ l -> targets !! scope = Some target) ->
  CHC.checkTargets l s = Some (outs, s') ->
  asked targets (EncodingContext.assertions (m_context s))
    (m_errorPredicate s) (m_interface s) outs
    (m_errorPredicate s') (m_interface s') /\
  m_context s' = m_context s.
Proof.
  unfold CHC.checkTargets.
  induction l as [|[scope target] l IH]; intros s outs s' Hl Hr; cbn [mapM] in Hr.
  - run_next o s1 H1. apply ret_Some in H1 as [-> ->]. apply ret_Some in Hr as [-> ->].
    split; [split|]; reflexivity.
  - run_next os s1 H1. apply ret_Some in Hr as [-> <-].
    run_next o s2 H2. run_next rest s3 H3. apply ret_Some in H1 as [-> <-].
    run_next A s4 H4. apply transactionAssertions_backend in H4 as (Ep & Ei & Ec).
    apply (checkAssertions_asked targets) in H2 as [Ha Hc];
      [|apply Hl; left].
    destruct (IH s2 (concat rest) s') as [Hrest Hc'].
    { intros sc t Hin. apply Hl. right. exact Hin. }
    { rewrite (bind_run _ _ _ _ _ H3). reflexivity. }
    rewrite Ep, Ei, Ec in Ha. rewrite Hc, Ec in Hrest.
    split; [|congruence].
    cbn [concat]. eapply asked_app; eassumption.
Qed.

Lemma checkAssertion_drives scope target a s r s' :
  CHC.checkAssertion target a s = Some (r, s') -> drives [(scope, a, r)] s s'.
Proof.
  unfold CHC.checkAssertion, CHC.createErrorBlock, CHC.registerRelation, CHC.register,
    CHC.connectBlocks, CHC.addRule, CHC.emitRule.
  intros Hr. run_inv.
  all: match goal with Hq : CHC.query _ _ _ = Some _ |- _ => apply query_spec in Hq; subst end.
  all: apply bool_decide_eq_true in Heqb || apply bool_decide_eq_false in Heqb.
  all: split; [|cbn; rewrite app_nil_r; reflexivity|split; reflexivity].
  - intros x. cbn. rewrite elem_of_union, elem_of_singleton. split.
    + intros [Hx|Hx]; [left; exact Hx|]. subst x.
      right. exists scope. rewrite Heqb. left.
    + intros [Hx|[sc Hsc]]; [left; exact Hx|].
      apply list_elem_of_singleton in Hsc. right. congruence.
  - intros x. cbn. split; [auto|]. intros [Hx|[sc Hsc]]; [exact Hx|].
    apply list_elem_of_singleton in Hsc. congruence.
Qed.

Lemma transactionAssertions_spec scope s A s' :
  CHC.transactionAssertions scope s = Some (A, s') ->
  drives [] s s' /\
  forall a, a ∈ A <->
    exists F, rtc (calls (m_callGraph s)) scope F /\
              a ∈ assertionsOf (m_functionAssertions s) F.
Proof.
  intros Hr.
  destruct (transactionAssertions_run s scope) as (A' & s'' & Hrun & Hspec).
  rewrite Hrun in Hr. injection Hr as -> ->. split; [|exact Hspec].
  unfold CHC.transactionAssertions in Hrun. run_inv.
  split.
  - intros x. cbn. split; [auto|]. intros [?|[sc Hsc]]; [assumption|]. inversion Hsc.
  - cbn. rewrite app_nil_r. reflexivity.
  - split; cbn; [reflexivity| |]; intros u; apply touch_lookup.
Qed.

(** The inner loop of [analyze]: one query for each assertion of the list. *)
Lemma checkAssertions_spec scope target l : forall s outs s',
  mapM (fun assertion =>
    r <- CHC.checkAssertion target assertion ;;
    ret (scope, assertion, r)) l s = Some (outs, s') ->
  drives outs s s' /\ fst <$> outs = (fun a => (scope, a)) <$> l.
Proof.
  induction l as [|a l IH]; intros s outs s' Hr; cbn [mapM] in Hr; run_inv.
  - split; [apply drives_nil|reflexivity].
  - match goal with Hc : CHC.checkAssertion _ _ _ = Some _ |- _ =>
      apply (checkAssertion_drives scope) in Hc end.
    match goal with Hm : mapM _ _ _ = Some _ |- _ => apply IH in Hm as [Hd Hf] end.
    split.
    + eapply (drives_app [_]); eassumption.
    + cbn. rewrite Hf. reflexivity.
Qed.

Lemma sortedElements_elem (X : gset nat) a : a ∈ CHC.sortedElements X <-> a ∈ X.
Proof.
  unfold CHC.sortedElements. rewrite merge_sort_Permutation. apply elem_of_elements.
Qed.

Lemma checkTargets_spec targets : forall s outs s',
  CHC.checkTargets targets s = Some (outs, s') ->
  drives outs s s' /\
  forall scope a, (exists r, (scope, a, r) ∈ outs) <-> queried s targets scope a.
Proof.
  unfold CHC.checkTargets.
  induction targets as [|[scope target] targets IH]; intros s outs s' Hr;
    cbn [mapM] in Hr; run_inv.
  - split; [apply drives_nil|]. intros scope a. split.
    + intros [r Hr]. inversion Hr.
    + intros [[t Ht] _]. inversion Ht.
  - match goal with Ht : CHC.transactionAssertions _ _ = Some _ |- _ =>
      apply transactionAssertions_spec in Ht as [Hd0 HA] end.
    match goal with Hc : mapM _ (CHC.sortedElements _) _ = Some _ |- _ =>
      apply checkAssertions_spec in Hc as [Hd1 Hf1] end.
    match goal with Hm : mapM _ targets ?s2 = Some (?bs, ?s3) |- _ =>
      destruct (IH s2 (concat bs) s3) as [Hd2 Hq2];
        [rewrite (bind_run _ _ _ _ _ Hm); reflexivity|];
      assert (sameGraph s s2) as Hg
        by (eapply sameGraph_trans; [apply Hd0|apply Hd1]);
      rename s2 into sN
    end.
    split.
    + cbn [concat]. eapply drives_app; [|exact Hd2].
      eapply (drives_app []); eassumption.
    + intros sc x. cbn [concat]. setoid_rewrite elem_of_app.
      split.
      * intros [r [Hin|Hin]].
        -- assert ((sc, x) ∈ fst <$> a0) as Hm by (apply list_elem_of_fmap; exists (sc, x, r); auto).
           rewrite Hf1 in Hm. apply list_elem_of_fmap in Hm as (y & [= -> ->] & Hy).
           apply sortedElements_elem, HA in Hy.
           split; [exists target; left|exact Hy].
        -- destruct (proj1 (Hq2 sc x)) as [[t Ht] (F & HF & Hx)]; [eauto|].
           split; [exists t; right; exact Ht|].
           exists F. split.
           ++ apply (sameGraph_rtc s sN _ _ Hg). exact HF.
           ++ unfold assertionsOf in *. rewrite <- (same_assertions _ _ Hg). exact Hx.
      * intros [[t Ht] (F & HF & Hx)].
        apply elem_of_cons in Ht as [[= -> ->]|Ht].
        -- assert ((scope, x) ∈ fst <$> a0) as Hm.
           { rewrite Hf1. apply list_elem_of_fmap. exists x. split; [reflexivity|].
             apply sortedElements_elem, HA. eauto. }
           apply list_elem_of_fmap in Hm as ([[sc' x'] r] & [= -> ->] & Hin). eauto.
        -- destruct (proj2 (Hq2 sc x)) as [r Hr']; [|eauto].
           split; [eauto|]. exists F. split.
           ++ apply (sameGraph_rtc s sN _ _ Hg). exact HF.
           ++ unfold assertionsOf in *. rewrite (same_assertions _ _ Hg). exact Hx.
Qed.

Lemma byId_elem {V} (m : gmap nat V) k v : (k, v) ∈ CHC.byId m <-> m !! k = Some v.
Proof. unfold CHC.byId. rewrite merge_sort_Permutation. apply elem_of_map_to_list. Qed.

Lemma resetSourceAnalysis_spec s u s' :
  CHC.resetSourceAnalysis s = Some (u, s') ->
  m_safeAssertions s' = ∅ /\ m_outerErrorReporter s' = m_outerErrorReporter s.
Proof. unfold CHC.resetSourceAnalysis. intros Hr. run_inv. split; reflexivity. Qed.

(** The encoding phase of [analyze] leaves the safe set and the reporter as
    [resetSourceAnalysis] left them. *)
Lemma encoding_frame (sources : list SourceUnit) s s1 s2 u1 u2 :
  forEach sources CHC.defineInterfacesAndSummaries s = Some (u1, s1) ->
  forEach sources CHC.acceptSourceUnit s1 = Some (u2, s2) ->
  frame s s2.
Proof.
  intros H1 H2. apply frame_trans with s1.
  - revert H1. apply forEach_frame. intros src t v t'. apply defineInterfacesAndSummaries_frame.
  - revert H2. apply forEach_frame. intros src t v t'. apply acceptSourceUnit_frame.
Qed.

(** C1, as the code has it.  [analyze] issues one query for every assertion
    gathered for a verification target.  After [analyze] an assertion is in
    the safe set exactly when at least one of the queries issued for it was
    answered UNSATISFIABLE; a query answered SATISFIABLE or UNKNOWN inserts
    nothing and reports nothing, the reports being one warning for each
    CONFLICTING and each ERROR answer.  The answer of a query is the answer
    of the solver to the error predicate, at a new index, in the backend
    that holds the rule from the block of the target to that predicate. *)
Theorem analyze_safeAssertions _source referenced s outcomes s' :
  CHC.analyze _source referenced s = Some (outcomes, s') ->
  (forall scope a, (exists r, (scope, a, r) ∈ outcomes) <-> gathered s' scope a) /\
  (forall a, a ∈ CHC.safeAssertions s' <->
             exists scope, (scope, a, smt.UNSATISFIABLE) ∈ outcomes) /\
  m_outerErrorReporter s' = m_outerErrorReporter s ++ flat_map reportOf outcomes /\
  exists p b,
    asked (m_verificationTargets s') (EncodingContext.assertions (m_context s')) p b
      outcomes (m_errorPredicate s') (m_interface s').
Proof.
  unfold CHC.analyze, CHC.safeAssertions. intros Hr.
  run_next ua sa Ha. apply solAssert_Some in Ha as [_ ->].
  run_next u0 s0 H0. run_next u1 s1 H1. run_next p s2 H2. run_next u3 s3 H3.
  run_next g s4 H4. run_next u5 s5 H5. run_next u6 s6 H6. run_next u7 s7 H7.
  run_next targets s8 H8.
  apply resetSourceAnalysis_spec in H1 as [Hsafe1 Hrep1].
  assert (frame s1 s7) as [Hsafe Hrep _ _].
  { apply frame_trans with s5; [|eapply encoding_frame; eassumption].
    unfold CHC.addRule, CHC.emitRule in H5. run_inv.
    apply frame_trans with s2; [eapply frameE_frame, createSymbolicBlock_frameE; eassumption|].
    frame_pure. }
  assert (m_outerErrorReporter s1 = m_outerErrorReporter s) as Hrep0.
  { unfold CHC.modifyContext in H0. run_inv. exact Hrep1. }
  run_inv.
  pose proof (checkTargets_asked (m_verificationTargets s7) _ _ _ _
                (fun scope target Hin => proj1 (byId_elem _ _ _) Hin) Hr) as [Hasked Hctx].
  apply checkTargets_spec in Hr as [[Hs Hr' Hg] Hq].
  split; [|split; [|split]].
  - intros scope a. rewrite Hq, (sameGraph_gathered _ _ _ _ Hg).
    unfold queried, gathered. setoid_rewrite byId_elem. reflexivity.
  - intros a. rewrite Hs, Hsafe, Hsafe1. set_solver.
  - rewrite Hr', Hrep, Hrep0. reflexivity.
  - exists (m_errorPredicate s7), (m_interface s7).
    rewrite (same_targets _ _ Hg), Hctx. exact Hasked.
Qed.

End Proofs.

(** * The blocks and edges of a statement *)

Lemma emitted_refl s : emitted s s [] [].
Proof. split; rewrite app_nil_r; reflexivity. Qed.

Lemma emitted_trans s1 s2 s3 P1 R1 P2 R2 :
  emitted s1 s2 P1 R1 -> emitted s2 s3 P2 R2 -> emitted s1 s3 (P1 ++ P2) (R1 ++ R2).
Proof. intros [E1 E2] [E3 E4]. split; rewrite ?E3, ?E4, ?E1, ?E2, app_assoc; reflexivity. Qed.

Lemma emitted_quiet s s' : m_interface s' = m_interface s -> emitted s s' [] [].
Proof. intros E. split; rewrite E, app_nil_r; reflexivity. Qed.

Lemma emitted_eq s s' P R P' R' :
  emitted s s' P R -> P = P' -> R = R' -> emitted s s' P' R'.
Proof. intros E -> ->. exact E. Qed.

Lemma frame_emitted s s' : frame s s' -> exists P R, emitted s s' P R.
Proof. intros [_ _ [P HP] [R HR]]. exists P, R. split; assumption. Qed.

Lemma quiet_refl s : quiet s s.
Proof. split; reflexivity. Qed.

Lemma quiet_trans s1 s2 s3 : quiet s1 s2 -> quiet s2 s3 -> quiet s1 s3.
Proof. intros [] []. split; congruence. Qed.

#[global] Hint Resolve quiet_refl : frame.

Lemma forEach_quiet {A} (f : A -> M unit) l s u s' :
  (forall a t v t', f a t = Some (v, t') -> quiet t t') ->
  forEach l f s = Some (u, s') -> quiet s s'.
Proof.
  intros Hf. apply forEach_rel; [apply quiet_refl|apply quiet_trans|].
  apply Forall_forall. intros a _. apply Hf.
Qed.

#[global] Hint Extern 5 (quiet ?s ?s') =>
  match goal with
  | H : forEach _ _ s = Some (_, s') |- _ =>
      eapply forEach_quiet; [|exact H]; clear H; frame_auto quiet_trans
  end : frame.

Lemma modifyContext_quiet `{Environment} x0 s u s' :
  CHC.modifyContext x0 s = Some (u, s') -> quiet s s'.
Proof. unfold CHC.modifyContext. frame_auto quiet_trans. Qed.
#[global] Hint Extern 1 (quiet ?s ?s') =>
  match goal with
  | H : CHC.modifyContext _ s = Some (_, s') |- _ => eapply modifyContext_quiet; exact H
  end : frame.

Lemma SMTEncoder_quiet `{Environment} x0 s u s' :
  CHC.SMTEncoder x0 s = Some (u, s') -> quiet s s'.
Proof. unfold CHC.SMTEncoder. frame_auto quiet_trans. Qed.
#[global] Hint Extern 1 (quiet ?s ?s') =>
  match goal with
  | H : CHC.SMTEncoder _ s = Some (_, s') |- _ => eapply SMTEncoder_quiet; exact H
  end : frame.

Lemma addAssertion_quiet `{Environment} x0 s u s' :
  CHC.addAssertion x0 s = Some (u, s') -> quiet s s'.
Proof. unfold CHC.addAssertion. frame_auto quiet_trans. Qed.
#[global] Hint Extern 1 (quiet ?s ?s') =>
  match goal with
  | H : CHC.addAssertion _ s = Some (_, s') |- _ => eapply addAssertion_quiet; exact H
  end : frame.

Lemma createVariable_quiet `{Environment} x0 s u s' :
  CHC.createVariable x0 s = Some (u, s') -> quiet s s'.
Proof. unfold CHC.createVariable. frame_auto quiet_trans. Qed.
#[global] Hint Extern 1 (quiet ?s ?s') =>
  match goal with
  | H : CHC.createVariable _ s = Some (_, s') |- _ => eapply createVariable_quiet; exact H
  end : frame.

Lemma increaseIndex_quiet `{Environment} x0 s u s' :
  CHC.increaseIndex x0 s = Some (u, s') -> quiet s s'.
Proof. unfold CHC.increaseIndex. frame_auto quiet_trans. Qed.
#[global] Hint Extern 1 (quiet ?s ?s') =>
  match goal with
  | H : CHC.increaseIndex _ s = Some (_, s') |- _ => eapply increaseIndex_quiet; exact H
  end : frame.

Lemma resetIndex_quiet `{Environment} x0 s u s' :
  CHC.resetIndex x0 s = Some (u, s') -> quiet s s'.
Proof. unfold CHC.resetIndex. frame_auto quiet_trans. Qed.
#[global] Hint Extern 1 (quiet ?s ?s') =>
  match goal with
  | H : CHC.resetIndex _ s = Some (_, s') |- _ => eapply resetIndex_quiet; exact H
  end : frame.

Lemma eraseKnowledge_quiet `{Environment}  s u s' :
  CHC.eraseKnowledge  s = Some (u, s') -> quiet s s'.
Proof. unfold CHC.eraseKnowledge, CHC.resetStateVariables. frame_auto quiet_trans. Qed.
#[global] Hint Extern 1 (quiet ?s ?s') =>
  match goal with
  | H : CHC.eraseKnowledge  s = Some (_, s') |- _ => eapply eraseKnowledge_quiet; exact H
  end : frame.

Lemma clearIndices_quiet `{Environment} x0 x1 s u s' :
  CHC.clearIndices x0 x1 s = Some (u, s') -> quiet s s'.
Proof. unfold CHC.clearIndices. frame_auto quiet_trans. Qed.
#[global] Hint Extern 1 (quiet ?s ?s') =>
  match goal with
  | H : CHC.clearIndices _ _ s = Some (_, s') |- _ => eapply clearIndices_quiet; exact H
  end : frame.

Lemma setCurrentBlock_quiet `{Environment} x0 x1 s u s' :
  CHC.setCurrentBlock x0 x1 s = Some (u, s') -> quiet s s'.
Proof. unfold CHC.setCurrentBlock, CHC.predicate, CHC.predicate_args. frame_auto quiet_trans. Qed.
#[global] Hint Extern 1 (quiet ?s ?s') =>
  match goal with
  | H : CHC.setCurrentBlock _ _ s = Some (_, s') |- _ => eapply setCurrentBlock_quiet; exact H
  end : frame.

Section Proofs.
Context `{Environment}.

Lemma createBlock_exact n p s b s' :
  CHC.createBlock n p s = Some (b, s') ->
  blockNamed (m_blockCounter s) p b /\
  s' = CHC.register b (set_m_blockCounter (S (m_blockCounter s)) s).
Proof.
  unfold CHC.createBlock, CHC.uniquePrefix, CHC.createSymbolicBlock, CHC.registerRelation.
  intros Hr. run_inv. split; [|reflexivity]. split; [reflexivity|]. cbn. eauto.
Qed.

Lemma connectCurrentTo_exact b c s u s' :
  CHC.connectCurrentTo b c s = Some (u, s') ->
  exists r, edgeTo s b c r /\ s' = CHC.emitRule r s.
Proof.
  unfold CHC.connectCurrentTo, CHC.connectBlocks, CHC.addRule. intros Hr. run_inv.
  eexists. split; [|reflexivity]. eexists. split; [eassumption|reflexivity].
Qed.

Lemma setCurrentBlock_current b s u s' :
  CHC.setCurrentBlock b None s = Some (u, s') -> isPredicateOf b (m_currentBlock s').
Proof.
  unfold CHC.setCurrentBlock, CHC.predicate. intros Hr. run_inv.
  all: eexists; reflexivity.
Qed.

End Proofs.

Lemma declareBlocks_nil s : declareBlocks [] s = s.
Proof. reflexivity. Qed.

Lemma declareBlocks_cons b bs s :
  declareBlocks (b :: bs) s = declareBlocks bs (declareBlock b s).
Proof. reflexivity. Qed.

Lemma emitted_declareBlock b s : emitted s (declareBlock b s) [b] [].
Proof. split; cbn; rewrite ?app_nil_r; reflexivity. Qed.

Lemma emitted_emitRule r s : emitted s (CHC.emitRule r s) [] [r].
Proof. split; cbn; rewrite ?app_nil_r; reflexivity. Qed.

Lemma quiet_emitted s s' : quiet s s' -> emitted s s' [] [].
Proof. intros Hq. apply emitted_quiet, (quiet_interface _ _ Hq). Qed.

Lemma createBlock_declares `{Environment} n p s b s' :
  CHC.createBlock n p s = Some (b, s') ->
  blockNamed (m_blockCounter s) p b /\ s' = declareBlock b s.
Proof. apply createBlock_exact. Qed.

Lemma blockNamed_eq n m p b : blockNamed n p b -> n = m -> blockNamed m p b.
Proof. intros Hb <-. exact Hb. Qed.

Lemma acceptExpression_emitted `{Environment} e s u s' :
  CHC.acceptExpression e s = Some (u, s') ->
  m_currentBlock s' = m_currentBlock s /\ exists P R, emitted s s' P R.
Proof.
  intros Hr. apply acceptExpression_frameE in Hr as [[F _ _ _ _] E].
  split; [exact E|]. apply frame_emitted, F.
Qed.

Lemma acceptStatement_emitted `{Environment} st s u s' :
  CHC.acceptStatement st s = Some (u, s') -> exists P R, emitted s s' P R.
Proof. intros Hr. apply acceptStatement_frameS in Hr as [F _ _ _ _]. apply frame_emitted, F. Qed.

(** Turning the steps of a run into what they register and emit. *)
Ltac emitted_steps :=
  repeat match goal with
  | H : CHC.createBlock _ _ ?s = Some (?b, ?s') |- _ =>
      let N := fresh "Hname" in let E := fresh "Hstate" in
      pose proof (createBlock_declares _ _ _ _ _ H) as [N E];
      pose proof (emitted_declareBlock b s) as ?Hemit; rewrite <- E in *; clear H
  | H : CHC.connectCurrentTo _ _ ?s = Some (_, ?s') |- _ =>
      let r := fresh "r" in let D := fresh "Hedge" in let E := fresh "Hstate" in
      pose proof (connectCurrentTo_exact _ _ _ _ _ H) as (r & D & E);
      pose proof (emitted_emitRule r s) as ?Hemit; rewrite <- E in *; clear H
  | H : CHC.setCurrentBlock ?b None ?s = Some (_, ?s') |- _ =>
      lazymatch goal with
      | _ : emitted s s' [] [] |- _ => fail
      | _ => pose proof (quiet_emitted _ _ (setCurrentBlock_quiet _ _ _ _ _ H)) as ?Hemit;
             pose proof (setCurrentBlock_current _ _ _ _ H) as ?Hcur
      end
  | H : CHC.eraseKnowledge ?s = Some (_, ?s') |- _ =>
      lazymatch goal with
      | _ : emitted s s' [] [] |- _ => fail
      | _ => pose proof (quiet_emitted _ _ (eraseKnowledge_quiet _ _ _ H)) as ?Hemit;
             pose proof (frameE_currentBlock _ _ (eraseKnowledge_frameE _ _ _ H)) as ?Hcur
      end
  | H : CHC.acceptExpression _ ?s = Some (_, ?s') |- _ =>
      lazymatch goal with
      | _ : emitted s s' _ _ |- _ => fail
      | _ => let P := fresh "P" in let R := fresh "R" in
             pose proof (acceptExpression_emitted _ _ _ _ H) as [?Hcur (P & R & ?Hemit)]
      end
  | H : CHC.acceptStatement _ ?s = Some (_, ?s') |- _ =>
      lazymatch goal with
      | _ : emitted s s' _ _ |- _ => fail
      | _ => let P := fresh "P" in let R := fresh "R" in
             pose proof (acceptStatement_emitted _ _ _ _ H) as (P & R & ?Hemit)
      end
  end.

(** Composing what the steps from [s] to [s'] register and emit. *)
Ltac emitted_chain :=
  lazymatch goal with
  | |- emitted ?s ?s _ _ => apply emitted_refl
  | H : emitted ?s ?s1 _ _ |- emitted ?s ?s' _ _ =>
      eapply emitted_trans; [exact H|clear H; emitted_chain]
  end.

(** The state under the setters of the flags and destinations. *)
Ltac base_state t :=
  lazymatch t with
  | set_m_unknownFunctionCallSeen _ ?t' => base_state t'
  | set_m_breakDest _ ?t' => base_state t'
  | set_m_continueDest _ ?t' => base_state t'
  | _ => t
  end.

Ltac emitted_setter t :=
  let b := base_state t in
  lazymatch t with
  | b => fail
  | _ =>
      lazymatch goal with
      | _ : emitted b t [] [] |- _ => fail
      | _ => pose proof (emitted_quiet b t eq_refl)
      end
  end.

Ltac emitted_setters :=
  repeat match goal with
  | _ : emitted ?t _ _ _ |- _ => emitted_setter t
  | _ : _ = declareBlock _ ?t |- _ => emitted_setter t
  | |- context [emitted _ ?t _ _] => emitted_setter t
  end.

Ltac emitted_solve :=
  eapply emitted_eq;
    [emitted_chain
    |cbn [app option_list]; rewrite ?app_nil_r, <- ?app_assoc; reflexivity
    |cbn [app option_list]; rewrite ?app_nil_r, <- ?app_assoc; reflexivity].

(** The destinations of [break] and [continue] in a state built from another. *)
Lemma dest_breakDest_set_breakDest x s : m_breakDest (set_m_breakDest x s) = x.
Proof. reflexivity. Qed.
Lemma dest_breakDest_set_continueDest x s : m_breakDest (set_m_continueDest x s) = m_breakDest s.
Proof. reflexivity. Qed.
Lemma dest_continueDest_set_continueDest x s : m_continueDest (set_m_continueDest x s) = x.
Proof. reflexivity. Qed.
Lemma dest_continueDest_set_breakDest x s : m_continueDest (set_m_breakDest x s) = m_continueDest s.
Proof. reflexivity. Qed.
Lemma breakDest_set_seen x s : m_breakDest (set_m_unknownFunctionCallSeen x s) = m_breakDest s.
Proof. reflexivity. Qed.
Lemma continueDest_set_seen x s :
  m_continueDest (set_m_unknownFunctionCallSeen x s) = m_continueDest s.
Proof. reflexivity. Qed.
Lemma breakDest_declareBlock b s : m_breakDest (declareBlock b s) = m_breakDest s.
Proof. reflexivity. Qed.
Lemma continueDest_declareBlock b s : m_continueDest (declareBlock b s) = m_continueDest s.
Proof. reflexivity. Qed.
Lemma dest_breakDest_emitRule r s : m_breakDest (CHC.emitRule r s) = m_breakDest s.
Proof. reflexivity. Qed.
Lemma dest_continueDest_emitRule r s :
  m_continueDest (CHC.emitRule r s) = m_continueDest s.
Proof. reflexivity. Qed.

Create Rewrite HintDb dests.
#[global] Hint Rewrite dest_breakDest_set_breakDest dest_breakDest_set_continueDest
  dest_continueDest_set_continueDest dest_continueDest_set_breakDest breakDest_set_seen
  continueDest_set_seen breakDest_declareBlock continueDest_declareBlock
  dest_breakDest_emitRule dest_continueDest_emitRule : dests.

(** What the steps of a run do to the destinations of [break] and
    [continue]. *)
Lemma blockCounter_set_seen x s :
  m_blockCounter (set_m_unknownFunctionCallSeen x s) = m_blockCounter s.
Proof. reflexivity. Qed.

Lemma frameS_dests s s' :
  frameS s s' -> m_breakDest s' = m_breakDest s /\ m_continueDest s' = m_continueDest s.
Proof. intros [_ _ _ B C]. split; assumption. Qed.

Ltac dest_steps :=
  repeat match goal with
  | H : CHC.setCurrentBlock _ _ ?s = Some (_, ?s') |- _ =>
      lazymatch goal with
      | _ : m_breakDest s' = m_breakDest s |- _ => fail
      | _ => pose proof (frameS_dests _ _ (setCurrentBlock_frameS _ _ _ _ _ H)) as [? ?]
      end
  | H : CHC.eraseKnowledge ?s = Some (_, ?s') |- _ =>
      lazymatch goal with
      | _ : m_breakDest s' = m_breakDest s |- _ => fail
      | _ => pose proof (frameS_dests _ _
               (frameE_frameS _ _ (eraseKnowledge_frameE _ _ _ H))) as [? ?]
      end
  | H : CHC.acceptExpression _ ?s = Some (_, ?s') |- _ =>
      lazymatch goal with
      | _ : m_breakDest s' = m_breakDest s |- _ => fail
      | _ => pose proof (frameS_dests _ _
               (frameE_frameS _ _ (acceptExpression_frameE _ _ _ _ H))) as [? ?]
      end
  | H : CHC.acceptStatement _ ?s = Some (_, ?s') |- _ =>
      lazymatch goal with
      | _ : m_breakDest s' = m_breakDest s |- _ => fail
      | _ => pose proof (frameS_dests _ _ (acceptStatement_frameS _ _ _ _ H)) as [? ?]
      end
  end.

(** The step of the run that a goal asks for, found by its starting state. *)
Ltac exact_step :=
  match goal with
  | H : CHC.acceptStatement ?b ?s = Some _ |- CHC.acceptStatement ?b' ?s' = Some _ =>
      constr_eq s s'; constr_eq b b'; exact H
  | H : CHC.acceptExpression ?b ?s = Some _ |- CHC.acceptExpression ?b' ?s' = Some _ =>
      constr_eq s s'; constr_eq b b'; exact H
  | H : CHC.setCurrentBlock ?b None ?s = Some _ |- CHC.setCurrentBlock ?b' None ?s' = Some _ =>
      constr_eq s s'; constr_eq b b'; exact H
  | H : CHC.expr ?b ?s = Some _ |- CHC.expr ?b' ?s' = Some _ =>
      constr_eq s s'; constr_eq b b'; exact H
  | H : edgeTo ?s ?b ?c _ |- edgeTo ?s' ?b' ?c' _ =>
      constr_eq s s'; constr_eq b b'; constr_eq c c'; exact H
  | H : emitted ?s ?t _ _ |- emitted ?s' ?t' _ _ =>
      constr_eq s s'; constr_eq t t'; exact H
  | H : isPredicateOf ?b ?e |- isPredicateOf ?b' ?e' =>
      constr_eq b b'; constr_eq e e'; exact H
  end.

Section Proofs.
Context `{Environment}.

(** C5.  The blocks and the edges of an [if].  [visit(IfStatement)] creates,
    in this order, a header block, a true block, a false block when there is
    an [else] branch, and an after block, whose names carry the successive
    values of the block counter.  The rules it emits are, in this order: the
    edge [r1] from the current block to the header, unconditional; the rules
    [Rc] of the condition; the edge [r2] from the header to the true block
    guarded by the condition; the edge [r3] from the header guarded by the
    negated condition, to the false block when there is an [else] branch and
    to the after block otherwise; the rules [Rt] of the true branch; the edge
    [r4] from the block the true branch ends in to the after block,
    unconditional; and, when there is an [else] branch, its rules [Rf] and
    the unconditional edge from the block it ends in to the after block.
    Nothing else is registered or emitted, and the encoder ends in the after
    block. *)
Theorem visit_IfStatement_blocks_and_edges _if c t f s res s' :
  CHC.visit_IfStatement CHC.acceptExpression CHC.acceptStatement _if c t f s
    = Some (res, s') ->
  let n := m_blockCounter s in
  exists header trueBlock falseBlock afterIf,
    let blocks := header :: trueBlock :: option_list falseBlock ++ [afterIf] in
    let s0 := declareBlocks blocks (set_m_unknownFunctionCallSeen false s) in
    blockNamed n "if_header_" header /\
    blockNamed (n + 1) "if_true_" trueBlock /\
    match f, falseBlock with
    | Some _, Some b => blockNamed (n + 2) "if_false_" b
    | None, None => True
    | _, _ => False
    end /\
    blockNamed (n + 2 + length (option_list falseBlock)) "" afterIf /\
    exists r1 sh sc cond r2 r3 st st' r4 se sa Pc Rc Pt Rt Pf Rf Re,
      edgeTo s0 header (smt.BoolLit true) r1 /\
      CHC.setCurrentBlock header None (CHC.emitRule r1 s0) = Some (tt, sh) /\
      CHC.acceptExpression c sh = Some (tt, sc) /\ emitted sh sc Pc Rc /\
      isPredicateOf header (m_currentBlock sc) /\
      CHC.expr c sc = Some (cond, sc) /\
      edgeTo sc trueBlock cond r2 /\
      edgeTo (CHC.emitRule r2 sc) (default afterIf falseBlock) (smt.Not cond) r3 /\
      CHC.setCurrentBlock trueBlock None (CHC.emitRule r3 (CHC.emitRule r2 sc))
        = Some (tt, st) /\
      CHC.acceptStatement t st = Some (tt, st') /\ emitted st st' Pt Rt /\
      edgeTo st' afterIf (smt.BoolLit true) r4 /\
      elseBranch f falseBlock afterIf (CHC.emitRule r4 st') se Pf Rf Re /\
      CHC.setCurrentBlock afterIf None se = Some (tt, sa) /\
      isPredicateOf afterIf (m_currentBlock s') /\
      emitted s s' (blocks ++ Pc ++ Pt ++ Pf)
        ([r1] ++ Rc ++ [r2; r3] ++ Rt ++ [r4] ++ Rf ++ Re).
Proof.
  unfold CHC.visit_IfStatement. intros Hr. run_inv.
  all: emitted_steps.
  all: repeat match goal with H : CHC.currentFunction _ = _ |- _ => clear H end.
  all: emitted_setters.
  all: repeat match goal with
       | E : ?t = declareBlock _ ?t0 |- _ =>
           is_var t;
           assert (m_blockCounter t = S (m_blockCounter t0)) by (rewrite E; reflexivity);
           revert E
       end; intros.
  all: repeat match goal with
       | E : m_blockCounter _ = S (m_blockCounter (set_m_unknownFunctionCallSeen _ _)) |- _ =>
           rewrite blockCounter_set_seen in E
       | E : blockNamed (m_blockCounter (set_m_unknownFunctionCallSeen _ _)) _ _ |- _ =>
           rewrite blockCounter_set_seen in E
       end.
  all: match goal with
       | Hh : blockNamed _ "if_header_" ?h, Ht : blockNamed _ "if_true_" ?t,
         Hf : blockNamed _ "if_false_" ?f, Ha : blockNamed _ "" ?a |- _ =>
           exists h, t, (Some f), a
       | Hh : blockNamed _ "if_header_" ?h, Ht : blockNamed _ "if_true_" ?t,
         Ha : blockNamed _ "" ?a |- _ =>
           exists h, t, None, a
       end.
  all: cbn zeta; unfold option_list, from_option, default; cbn [option_rect length app id].
  all: rewrite ?declareBlocks_cons, ?declareBlocks_nil.
  all: (split; [eapply blockNamed_eq; [eassumption|reflexivity]|]).
  all: (split; [eapply blockNamed_eq; [eassumption|simpl; lia]|]).
  all: (split; [first [exact I|eapply blockNamed_eq; [eassumption|simpl; lia]]|]).
  all: (split; [eapply blockNamed_eq; [eassumption|simpl; lia]|]).
  all: subst.
  all: do 18 eexists.
  all: repeat apply conj.
  all: cbn [elseBranch].
  all: try lazymatch goal with
       | |- ex _ => do 3 eexists; repeat apply conj
       end.
  all: first
         [ exact_step
         | reflexivity
         | cbn [m_currentBlock set_m_unknownFunctionCallSeen]; congruence
         | emitted_solve ].
Qed.
(** C6.  The blocks and the edges of a [while] and of a [do]-[while] loop.
    [visit(WhileStatement)] creates a header, a body and an after block, and
    sets the destination of [break] to the after block and that of
    [continue] to the header: they hold when the body is entered and when it
    is left, and the destinations of the enclosing loop are back afterwards.
    A [do]-[while] loop visits its body once ([R0]) before the current block
    is connected to the header ([r1]); a [while] loop does not.  From the
    header, after the rules [Rc] of the condition, the edge [r2] leads to
    the body guarded by the condition and the edge [r3] to the after block
    guarded by its negation; then come the rules [Rb] of the body and the
    back edge [r4] from the block the body ends in to the header.  Nothing
    else is registered or emitted, and the encoder ends in the after block. *)
Theorem visit_WhileStatement_blocks_and_edges _while d c body s res s' :
  CHC.visit_WhileStatement CHC.acceptExpression CHC.acceptStatement _while d c body s
    = Some (res, s') ->
  let n := m_blockCounter s in
  let namePrefix := (if d then "do_" else "") +:+ "while" in
  exists header bodyBlock afterLoop,
    let blocks := [header; bodyBlock; afterLoop] in
    let s0 :=
      set_m_continueDest (Some header)
        (set_m_breakDest (Some afterLoop)
           (declareBlocks blocks (set_m_unknownFunctionCallSeen false s))) in
    let restored (t : CHC) :=
      set_m_continueDest (m_continueDest s) (set_m_breakDest (m_breakDest s) t) in
    blockNamed n (namePrefix +:+ "_header_") header /\
    blockNamed (n + 1) (namePrefix +:+ "_body_") bodyBlock /\
    blockNamed (n + 2) "" afterLoop /\
    exists sd P0 R0 r1 sh sc Pc Rc cond r2 r3 sb sb' Pb Rb r4 sa,
      (if d
       then CHC.acceptStatement body s0 = Some (tt, sd) /\ emitted s0 sd P0 R0
       else sd = s0 /\ P0 = [] /\ R0 = []) /\
      edgeTo sd header (smt.BoolLit true) r1 /\
      CHC.setCurrentBlock header None (CHC.emitRule r1 sd) = Some (tt, sh) /\
      CHC.acceptExpression c sh = Some (tt, sc) /\ emitted sh sc Pc Rc /\
      isPredicateOf header (m_currentBlock sc) /\
      CHC.expr c sc = Some (cond, sc) /\
      edgeTo sc bodyBlock cond r2 /\
      edgeTo (CHC.emitRule r2 sc) afterLoop (smt.Not cond) r3 /\
      CHC.setCurrentBlock bodyBlock None (CHC.emitRule r3 (CHC.emitRule r2 sc))
        = Some (tt, sb) /\
      m_breakDest sb = Some afterLoop /\ m_continueDest sb = Some header /\
      CHC.acceptStatement body sb = Some (tt, sb') /\ emitted sb sb' Pb Rb /\
      m_breakDest sb' = Some afterLoop /\ m_continueDest sb' = Some header /\
      edgeTo (restored sb') header (smt.BoolLit true) r4 /\
      CHC.setCurrentBlock afterLoop None (CHC.emitRule r4 (restored sb')) = Some (tt, sa) /\
      m_breakDest s' = m_breakDest s /\ m_continueDest s' = m_continueDest s /\
      isPredicateOf afterLoop (m_currentBlock s') /\
      emitted s s' (blocks ++ P0 ++ Pc ++ Pb)
        (R0 ++ [r1] ++ Rc ++ [r2; r3] ++ Rb ++ [r4]).
Proof.
  unfold CHC.visit_WhileStatement. intros Hr. run_inv.
  all: emitted_steps; dest_steps.
  all: repeat match goal with H : CHC.currentFunction _ = _ |- _ => clear H end.
  all: emitted_setters.
  all: repeat match goal with
       | E : ?t = declareBlock _ ?t0 |- _ =>
           is_var t;
           assert (m_blockCounter t = S (m_blockCounter t0)) by (rewrite E; reflexivity);
           revert E
       end; intros.
  all: repeat match goal with
       | E : m_blockCounter _ = S (m_blockCounter (set_m_unknownFunctionCallSeen _ _)) |- _ =>
           rewrite blockCounter_set_seen in E
       | E : blockNamed (m_blockCounter (set_m_unknownFunctionCallSeen _ _)) _ _ |- _ =>
           rewrite blockCounter_set_seen in E
       end.
  all: match goal with
       | E1 : ?t1 = declareBlock ?h (set_m_unknownFunctionCallSeen false _),
         E2 : ?t2 = declareBlock ?b ?t1, E3 : _ = declareBlock ?a ?t2 |- _ =>
           exists h, b, a
       end.
  all: cbn zeta.
  all: rewrite ?declareBlocks_cons, ?declareBlocks_nil.
  all: (split; [eapply blockNamed_eq; [eassumption|reflexivity]|]).
  all: (split; [eapply blockNamed_eq; [eassumption|lia]|]).
  all: (split; [eapply blockNamed_eq; [eassumption|lia]|]).
  all: subst.
  all: autorewrite with dests in *.
  all: do 17 eexists.
  all: repeat apply conj.
  all: first
         [ exact_step
         | reflexivity
         | congruence
         | cbn [m_currentBlock set_m_unknownFunctionCallSeen]; congruence
         | emitted_solve ].
Qed.
End Proofs.

(** * The names of the predicates *)

(** ** Decimal numerals *)

Section Names.

#[local] Arguments isDigit : simpl never.
#[local] Arguments String.append !s1 s2 : simpl nomatch.

Lemma isDigit_pretty_N_char x : isDigit (pretty_N_char x) = true.
Proof.
  unfold pretty_N_char.
  repeat match goal with |- context [match ?y with _ => _ end] => destruct y end;
    reflexivity.
Qed.

Lemma pretty_N_go_digits x : forall s,
  allDigits s = true -> allDigits (pretty_N_go x s) = true.
Proof.
  induction (N.lt_wf_0 x) as [x _ IH]. intros s Hs.
  destruct (decide (x = 0)%N) as [->|Hx].
  - rewrite pretty_N_go_0. exact Hs.
  - rewrite pretty_N_go_step by lia. apply IH.
    + apply N.div_lt; lia.
    + cbn [allDigits]. rewrite isDigit_pretty_N_char. exact Hs.
Qed.

Lemma pretty_N_go_nonempty x : forall s, s <> "" -> pretty_N_go x s <> "".
Proof.
  induction (N.lt_wf_0 x) as [x _ IH]. intros s Hs.
  destruct (decide (x = 0)%N) as [->|Hx].
  - rewrite pretty_N_go_0. exact Hs.
  - rewrite pretty_N_go_step by lia. apply IH; [apply N.div_lt; lia|discriminate].
Qed.

Lemma pretty_nat_digits (n : nat) : allDigits (pretty n) = true.
Proof.
  unfold pretty, pretty_nat, pretty, pretty_N.
  destruct (decide (N.of_nat n = 0)%N); [reflexivity|].
  apply pretty_N_go_digits. reflexivity.
Qed.

Lemma pretty_nat_nonempty (n : nat) : pretty n <> "".
Proof.
  unfold pretty, pretty_nat, pretty, pretty_N.
  destruct (decide (N.of_nat n = 0)%N) as [|Hn]; [discriminate|].
  rewrite pretty_N_go_step by lia. apply pretty_N_go_nonempty. discriminate.
Qed.

(** A numeral starts with a digit. *)
Lemma pretty_nat_head (n : nat) :
  exists d rest, pretty n = String d rest /\ isDigit d = true /\ allDigits rest = true.
Proof.
  pose proof (pretty_nat_digits n) as Hd. pose proof (pretty_nat_nonempty n) as Hn.
  destruct (pretty n) as [|d rest]; [contradiction|].
  cbn [allDigits] in Hd. apply andb_prop in Hd as [Hd Hrest]. eauto.
Qed.

Lemma hasDigit_app a b : hasDigit (a +:+ b) = hasDigit a || hasDigit b.
Proof.
  induction a as [|c a IH]; [reflexivity|].
  cbn. rewrite IH. apply orb_assoc.
Qed.

Lemma hasDigit_pretty (n : nat) : hasDigit (pretty n) = true.
Proof.
  destruct (pretty_nat_head n) as (d & rest & -> & Hd & _). cbn [hasDigit]. rewrite Hd. reflexivity.
Qed.

(** The text of a numeral ends where the first character that is no digit
    stands. *)
Lemma numeral_prefix_unique a : forall b r r',
  allDigits a = true -> allDigits b = true ->
  a +:+ "_" +:+ r = b +:+ "_" +:+ r' -> a = b.
Proof.
  induction a as [|c a IH]; intros [|d b] r r' Ha Hb Heq;
    cbn in *.
  - reflexivity.
  - injection Heq as <- _. discriminate Hb.
  - injection Heq as -> _. discriminate Ha.
  - injection Heq as -> Heq.
    apply andb_prop in Ha as [_ Ha]. apply andb_prop in Hb as [_ Hb].
    f_equal. exact (IH b r r' Ha Hb Heq).
Qed.

Lemma append_prefix_inj p a b : p +:+ a = p +:+ b -> a = b.
Proof. induction p as [|c p IH]; cbn; [tauto|]. intros [= H]. auto. Qed.

(** ** Names built from the block counter *)

(** The counter that a name is built from is determined by the name. *)
Lemma counterNamed_inj k k' name : counterNamed k name -> counterNamed k' name -> k = k'.
Proof.
  intros [r [-> | ->]] [r' [H | H]]; try discriminate H.
  - apply append_prefix_inj in H.
    apply (inj pretty). eapply numeral_prefix_unique; [..|exact H]; apply pretty_nat_digits.
  - apply append_prefix_inj in H.
    apply (inj pretty). eapply numeral_prefix_unique; [..|exact H]; apply pretty_nat_digits.
Qed.

(** Such a name has a digit after [block_] or [summary_]. *)
Lemma counterNamed_head k name :
  counterNamed k name ->
  exists d rest, isDigit d = true /\
    (name = "block_" +:+ String d rest \/ name = "summary_" +:+ String d rest).
Proof.
  destruct (pretty_nat_head k) as (d & rest & E & Hd & _).
  intros [r [-> | ->]]; rewrite E; exists d; eexists; (split; [exact Hd|]); cbn; eauto.
Qed.

Lemma counterNamed_hasDigit k name : counterNamed k name -> hasDigit name = true.
Proof.
  intros [r [-> | ->]]; rewrite !hasDigit_app, hasDigit_pretty;
    cbn; rewrite ?orb_true_r; reflexivity.
Qed.

(** A name that does not start like one built from the counter. *)
Ltac plain_name :=
  split;
    [ reflexivity
    | let k := fresh "k" in let Hk := fresh "Hk" in
      let d := fresh "d" in let rest := fresh "rest" in
      let Hd := fresh "Hd" in let H := fresh "H" in
      intros k Hk; apply counterNamed_head in Hk as (d & rest & Hd & [H | H]);
      cbn in H; try discriminate H;
      injection H as H; subst; try discriminate Hd; discriminate ].

Lemma plainName_genesis : plainName "genesis".
Proof. plain_name. Qed.

Lemma plainName_error suffix : plainName ("error_" +:+ suffix).
Proof. plain_name. Qed.

Lemma counterNamed_summary_constructor suffix k :
  ~ counterNamed k ("summary_constructor_" +:+ suffix).
Proof.
  intros Hk. apply counterNamed_head in Hk as (d & rest & Hd & [H | H]);
    cbn in H; try discriminate H. injection H as <- _. discriminate Hd.
Qed.

Lemma counterNamed_implicit_constructor suffix k :
  ~ counterNamed k ("implicit_constructor_" +:+ suffix).
Proof.
  intros Hk. apply counterNamed_head in Hk as (d & rest & Hd & [H | H]);
    cbn in H; discriminate H.
Qed.

Lemma counterNamed_constructor_exit suffix k :
  ~ counterNamed k ("constructor_exit_" +:+ suffix).
Proof.
  intros Hk. apply counterNamed_head in Hk as (d & rest & Hd & [H | H]);
    cbn in H; discriminate H.
Qed.

Lemma counterNamed_interface suffix k : ~ counterNamed k ("interface_" +:+ suffix).
Proof.
  intros Hk. apply counterNamed_head in Hk as (d & rest & Hd & [H | H]);
    cbn in H; discriminate H.
Qed.

Lemma counterNamed_block k rest : counterNamed k ("block_" +:+ pretty k +:+ "_" +:+ rest).
Proof. exists rest. left. reflexivity. Qed.

Lemma counterNamed_summary k rest : counterNamed k ("summary_" +:+ pretty k +:+ "_" +:+ rest).
Proof. exists rest. right. reflexivity. Qed.

End Names.

(** ** The fields of a state built with the setters *)

Create Rewrite HintDb fields.

Lemma interface_set_context v s : m_interface (set_m_context v s) = m_interface s.
Proof. reflexivity. Qed.
Lemma interface_set_currentContract v s : m_interface (set_m_currentContract v s) = m_interface s.
Proof. reflexivity. Qed.
Lemma interface_set_currentFunction v s : m_interface (set_m_currentFunction v s) = m_interface s.
Proof. reflexivity. Qed.
Lemma interface_set_genesisPredicate v s : m_interface (set_m_genesisPredicate v s) = m_interface s.
Proof. reflexivity. Qed.
Lemma interface_set_errorPredicate v s : m_interface (set_m_errorPredicate v s) = m_interface s.
Proof. reflexivity. Qed.
Lemma interface_set_constructorSummaryPredicate v s : m_interface (set_m_constructorSummaryPredicate v s) = m_interface s.
Proof. reflexivity. Qed.
Lemma interface_set_implicitConstructorPredicate v s : m_interface (set_m_implicitConstructorPredicate v s) = m_interface s.
Proof. reflexivity. Qed.
Lemma interface_set_interfaces v s : m_interface (set_m_interfaces v s) = m_interface s.
Proof. reflexivity. Qed.
Lemma interface_set_summaries v s : m_interface (set_m_summaries v s) = m_interface s.
Proof. reflexivity. Qed.
Lemma interface_set_error v s : m_interface (set_m_error v s) = m_interface s.
Proof. reflexivity. Qed.
Lemma interface_set_stateSorts v s : m_interface (set_m_stateSorts v s) = m_interface s.
Proof. reflexivity. Qed.
Lemma interface_set_stateVariables v s : m_interface (set_m_stateVariables v s) = m_interface s.
Proof. reflexivity. Qed.
Lemma interface_set_verificationTargets v s : m_interface (set_m_verificationTargets v s) = m_interface s.
Proof. reflexivity. Qed.
Lemma interface_set_safeAssertions v s : m_interface (set_m_safeAssertions v s) = m_interface s.
Proof. reflexivity. Qed.
Lemma interface_set_functionAssertions v s : m_interface (set_m_functionAssertions v s) = m_interface s.
Proof. reflexivity. Qed.
Lemma interface_set_callGraph v s : m_interface (set_m_callGraph v s) = m_interface s.
Proof. reflexivity. Qed.
Lemma interface_set_currentBlock v s : m_interface (set_m_currentBlock v s) = m_interface s.
Proof. reflexivity. Qed.
Lemma interface_set_unknownFunctionCallSeen v s : m_interface (set_m_unknownFunctionCallSeen v s) = m_interface s.
Proof. reflexivity. Qed.
Lemma interface_set_breakDest v s : m_interface (set_m_breakDest v s) = m_interface s.
Proof. reflexivity. Qed.
Lemma interface_set_continueDest v s : m_interface (set_m_continueDest v s) = m_interface s.
Proof. reflexivity. Qed.
Lemma interface_set_blockCounter v s : m_interface (set_m_blockCounter v s) = m_interface s.
Proof. reflexivity. Qed.
Lemma interface_set_interface v s : m_interface (set_m_interface v s) = v.
Proof. reflexivity. Qed.
Lemma interface_set_outerErrorReporter v s : m_interface (set_m_outerErrorReporter v s) = m_interface s.
Proof. reflexivity. Qed.
Lemma blockCounter_set_context v s : m_blockCounter (set_m_context v s) = m_blockCounter s.
Proof. reflexivity. Qed.
Lemma blockCounter_set_currentContract v s : m_blockCounter (set_m_currentContract v s) = m_blockCounter s.
Proof. reflexivity. Qed.
Lemma blockCounter_set_currentFunction v s : m_blockCounter (set_m_currentFunction v s) = m_blockCounter s.
Proof. reflexivity. Qed.
Lemma blockCounter_set_genesisPredicate v s : m_blockCounter (set_m_genesisPredicate v s) = m_blockCounter s.
Proof. reflexivity. Qed.
Lemma blockCounter_set_errorPredicate v s : m_blockCounter (set_m_errorPredicate v s) = m_blockCounter s.
Proof. reflexivity. Qed.
Lemma blockCounter_set_constructorSummaryPredicate v s : m_blockCounter (set_m_constructorSummaryPredicate v s) = m_blockCounter s.
Proof. reflexivity. Qed.
Lemma blockCounter_set_implicitConstructorPredicate v s : m_blockCounter (set_m_implicitConstructorPredicate v s) = m_blockCounter s.
Proof. reflexivity. Qed.
Lemma blockCounter_set_interfaces v s : m_blockCounter (set_m_interfaces v s) = m_blockCounter s.
Proof. reflexivity. Qed.
Lemma blockCounter_set_summaries v s : m_blockCounter (set_m_summaries v s) = m_blockCounter s.
Proof. reflexivity. Qed.
Lemma blockCounter_set_error v s : m_blockCounter (set_m_error v s) = m_blockCounter s.
Proof. reflexivity. Qed.
Lemma blockCounter_set_stateSorts v s : m_blockCounter (set_m_stateSorts v s) = m_blockCounter s.
Proof. reflexivity. Qed.
Lemma blockCounter_set_stateVariables v s : m_blockCounter (set_m_stateVariables v s) = m_blockCounter s.
Proof. reflexivity. Qed.
Lemma blockCounter_set_verificationTargets v s : m_blockCounter (set_m_verificationTargets v s) = m_blockCounter s.
Proof. reflexivity. Qed.
Lemma blockCounter_set_safeAssertions v s : m_blockCounter (set_m_safeAssertions v s) = m_blockCounter s.
Proof. reflexivity. Qed.
Lemma blockCounter_set_functionAssertions v s : m_blockCounter (set_m_functionAssertions v s) = m_blockCounter s.
Proof. reflexivity. Qed.
Lemma blockCounter_set_callGraph v s : m_blockCounter (set_m_callGraph v s) = m_blockCounter s.
Proof. reflexivity. Qed.
Lemma blockCounter_set_currentBlock v s : m_blockCounter (set_m_currentBlock v s) = m_blockCounter s.
Proof. reflexivity. Qed.
Lemma blockCounter_set_unknownFunctionCallSeen v s : m_blockCounter (set_m_unknownFunctionCallSeen v s) = m_blockCounter s.
Proof. reflexivity. Qed.
Lemma blockCounter_set_breakDest v s : m_blockCounter (set_m_breakDest v s) = m_blockCounter s.
Proof. reflexivity. Qed.
Lemma blockCounter_set_continueDest v s : m_blockCounter (set_m_continueDest v s) = m_blockCounter s.
Proof. reflexivity. Qed.
Lemma blockCounter_set_blockCounter v s : m_blockCounter (set_m_blockCounter v s) = v.
Proof. reflexivity. Qed.
Lemma blockCounter_set_interface v s : m_blockCounter (set_m_interface v s) = m_blockCounter s.
Proof. reflexivity. Qed.
Lemma blockCounter_set_outerErrorReporter v s : m_blockCounter (set_m_outerErrorReporter v s) = m_blockCounter s.
Proof. reflexivity. Qed.
Lemma blockCounter_register r s : m_blockCounter (CHC.register r s) = m_blockCounter s.
Proof. reflexivity. Qed.
Lemma blockCounter_emitRule r s : m_blockCounter (CHC.emitRule r s) = m_blockCounter s.
Proof. reflexivity. Qed.
Lemma summaries_set_context v s : m_summaries (set_m_context v s) = m_summaries s.
Proof. reflexivity. Qed.
Lemma summaries_set_currentContract v s : m_summaries (set_m_currentContract v s) = m_summaries s.
Proof. reflexivity. Qed.
Lemma summaries_set_currentFunction v s : m_summaries (set_m_currentFunction v s) = m_summaries s.
Proof. reflexivity. Qed.
Lemma summaries_set_genesisPredicate v s : m_summaries (set_m_genesisPredicate v s) = m_summaries s.
Proof. reflexivity. Qed.
Lemma summaries_set_errorPredicate v s : m_summaries (set_m_errorPredicate v s) = m_summaries s.
Proof. reflexivity. Qed.
Lemma summaries_set_constructorSummaryPredicate v s : m_summaries (set_m_constructorSummaryPredicate v s) = m_summaries s.
Proof. reflexivity. Qed.
Lemma summaries_set_implicitConstructorPredicate v s : m_summaries (set_m_implicitConstructorPredicate v s) = m_summaries s.
Proof. reflexivity. Qed.
Lemma summaries_set_interfaces v s : m_summaries (set_m_interfaces v s) = m_summaries s.
Proof. reflexivity. Qed.
Lemma summaries_set_summaries v s : m_summaries (set_m_summaries v s) = v.
Proof. reflexivity. Qed.
Lemma summaries_set_error v s : m_summaries (set_m_error v s) = m_summaries s.
Proof. reflexivity. Qed.
Lemma summaries_set_stateSorts v s : m_summaries (set_m_stateSorts v s) = m_summaries s.
Proof. reflexivity. Qed.
Lemma summaries_set_stateVariables v s : m_summaries (set_m_stateVariables v s) = m_summaries s.
Proof. reflexivity. Qed.
Lemma summaries_set_verificationTargets v s : m_summaries (set_m_verificationTargets v s) = m_summaries s.
Proof. reflexivity. Qed.
Lemma summaries_set_safeAssertions v s : m_summaries (set_m_safeAssertions v s) = m_summaries s.
Proof. reflexivity. Qed.
Lemma summaries_set_functionAssertions v s : m_summaries (set_m_functionAssertions v s) = m_summaries s.
Proof. reflexivity. Qed.
Lemma summaries_set_callGraph v s : m_summaries (set_m_callGraph v s) = m_summaries s.
Proof. reflexivity. Qed.
Lemma summaries_set_currentBlock v s : m_summaries (set_m_currentBlock v s) = m_summaries s.
Proof. reflexivity. Qed.
Lemma summaries_set_unknownFunctionCallSeen v s : m_summaries (set_m_unknownFunctionCallSeen v s) = m_summaries s.
Proof. reflexivity. Qed.
Lemma summaries_set_breakDest v s : m_summaries (set_m_breakDest v s) = m_summaries s.
Proof. reflexivity. Qed.
Lemma summaries_set_continueDest v s : m_summaries (set_m_continueDest v s) = m_summaries s.
Proof. reflexivity. Qed.
Lemma summaries_set_blockCounter v s : m_summaries (set_m_blockCounter v s) = m_summaries s.
Proof. reflexivity. Qed.
Lemma summaries_set_interface v s : m_summaries (set_m_interface v s) = m_summaries s.
Proof. reflexivity. Qed.
Lemma summaries_set_outerErrorReporter v s : m_summaries (set_m_outerErrorReporter v s) = m_summaries s.
Proof. reflexivity. Qed.
Lemma summaries_register r s : m_summaries (CHC.register r s) = m_summaries s.
Proof. reflexivity. Qed.
Lemma summaries_emitRule r s : m_summaries (CHC.emitRule r s) = m_summaries s.
Proof. reflexivity. Qed.
Lemma breakDest_set_context v s : m_breakDest (set_m_context v s) = m_breakDest s.
Proof. reflexivity. Qed.
Lemma breakDest_set_currentContract v s : m_breakDest (set_m_currentContract v s) = m_breakDest s.
Proof. reflexivity. Qed.
Lemma breakDest_set_currentFunction v s : m_breakDest (set_m_currentFunction v s) = m_breakDest s.
Proof. reflexivity. Qed.
Lemma breakDest_set_genesisPredicate v s : m_breakDest (set_m_genesisPredicate v s) = m_breakDest s.
Proof. reflexivity. Qed.
Lemma breakDest_set_errorPredicate v s : m_breakDest (set_m_errorPredicate v s) = m_breakDest s.
Proof. reflexivity. Qed.
Lemma breakDest_set_constructorSummaryPredicate v s : m_breakDest (set_m_constructorSummaryPredicate v s) = m_breakDest s.
Proof. reflexivity. Qed.
Lemma breakDest_set_implicitConstructorPredicate v s : m_breakDest (set_m_implicitConstructorPredicate v s) = m_breakDest s.
Proof. reflexivity. Qed.
Lemma breakDest_set_interfaces v s : m_breakDest (set_m_interfaces v s) = m_breakDest s.
Proof. reflexivity. Qed.
Lemma breakDest_set_summaries v s : m_breakDest (set_m_summaries v s) = m_breakDest s.
Proof. reflexivity. Qed.
Lemma breakDest_set_error v s : m_breakDest (set_m_error v s) = m_breakDest s.
Proof. reflexivity. Qed.
Lemma breakDest_set_stateSorts v s : m_breakDest (set_m_stateSorts v s) = m_breakDest s.
Proof. reflexivity. Qed.
Lemma breakDest_set_stateVariables v s : m_breakDest (set_m_stateVariables v s) = m_breakDest s.
Proof. reflexivity. Qed.
Lemma breakDest_set_verificationTargets v s : m_breakDest (set_m_verificationTargets v s) = m_breakDest s.
Proof. reflexivity. Qed.
Lemma breakDest_set_safeAssertions v s : m_breakDest (set_m_safeAssertions v s) = m_breakDest s.
Proof. reflexivity. Qed.
Lemma breakDest_set_functionAssertions v s : m_breakDest (set_m_functionAssertions v s) = m_breakDest s.
Proof. reflexivity. Qed.
Lemma breakDest_set_callGraph v s : m_breakDest (set_m_callGraph v s) = m_breakDest s.
Proof. reflexivity. Qed.
Lemma breakDest_set_currentBlock v s : m_breakDest (set_m_currentBlock v s) = m_breakDest s.
Proof. reflexivity. Qed.
Lemma breakDest_set_unknownFunctionCallSeen v s : m_breakDest (set_m_unknownFunctionCallSeen v s) = m_breakDest s.
Proof. reflexivity. Qed.
Lemma breakDest_set_breakDest v s : m_breakDest (set_m_breakDest v s) = v.
Proof. reflexivity. Qed.
Lemma breakDest_set_continueDest v s : m_breakDest (set_m_continueDest v s) = m_breakDest s.
Proof. reflexivity. Qed.
Lemma breakDest_set_blockCounter v s : m_breakDest (set_m_blockCounter v s) = m_breakDest s.
Proof. reflexivity. Qed.
Lemma breakDest_set_interface v s : m_breakDest (set_m_interface v s) = m_breakDest s.
Proof. reflexivity. Qed.
Lemma breakDest_set_outerErrorReporter v s : m_breakDest (set_m_outerErrorReporter v s) = m_breakDest s.
Proof. reflexivity. Qed.
Lemma breakDest_register r s : m_breakDest (CHC.register r s) = m_breakDest s.
Proof. reflexivity. Qed.
Lemma breakDest_emitRule r s : m_breakDest (CHC.emitRule r s) = m_breakDest s.
Proof. reflexivity. Qed.
Lemma continueDest_set_context v s : m_continueDest (set_m_context v s) = m_continueDest s.
Proof. reflexivity. Qed.
Lemma continueDest_set_currentContract v s : m_continueDest (set_m_currentContract v s) = m_continueDest s.
Proof. reflexivity. Qed.
Lemma continueDest_set_currentFunction v s : m_continueDest (set_m_currentFunction v s) = m_continueDest s.
Proof. reflexivity. Qed.
Lemma continueDest_set_genesisPredicate v s : m_continueDest (set_m_genesisPredicate v s) = m_continueDest s.
Proof. reflexivity. Qed.
Lemma continueDest_set_errorPredicate v s : m_continueDest (set_m_errorPredicate v s) = m_continueDest s.
Proof. reflexivity. Qed.
Lemma continueDest_set_constructorSummaryPredicate v s : m_continueDest (set_m_constructorSummaryPredicate v s) = m_continueDest s.
Proof. reflexivity. Qed.
Lemma continueDest_set_implicitConstructorPredicate v s : m_continueDest (set_m_implicitConstructorPredicate v s) = m_continueDest s.
Proof. reflexivity. Qed.
Lemma continueDest_set_interfaces v s : m_continueDest (set_m_interfaces v s) = m_continueDest s.
Proof. reflexivity. Qed.
Lemma continueDest_set_summaries v s : m_continueDest (set_m_summaries v s) = m_continueDest s.
Proof. reflexivity. Qed.
Lemma continueDest_set_error v s : m_continueDest (set_m_error v s) = m_continueDest s.
Proof. reflexivity. Qed.
Lemma continueDest_set_stateSorts v s : m_continueDest (set_m_stateSorts v s) = m_continueDest s.
Proof. reflexivity. Qed.
Lemma continueDest_set_stateVariables v s : m_continueDest (set_m_stateVariables v s) = m_continueDest s.
Proof. reflexivity. Qed.
Lemma continueDest_set_verificationTargets v s : m_continueDest (set_m_verificationTargets v s) = m_continueDest s.
Proof. reflexivity. Qed.
Lemma continueDest_set_safeAssertions v s : m_continueDest (set_m_safeAssertions v s) = m_continueDest s.
Proof. reflexivity. Qed.
Lemma continueDest_set_functionAssertions v s : m_continueDest (set_m_functionAssertions v s) = m_continueDest s.
Proof. reflexivity. Qed.
Lemma continueDest_set_callGraph v s : m_continueDest (set_m_callGraph v s) = m_continueDest s.
Proof. reflexivity. Qed.
Lemma continueDest_set_currentBlock v s : m_continueDest (set_m_currentBlock v s) = m_continueDest s.
Proof. reflexivity. Qed.
Lemma continueDest_set_unknownFunctionCallSeen v s : m_continueDest (set_m_unknownFunctionCallSeen v s) = m_continueDest s.
Proof. reflexivity. Qed.
Lemma continueDest_set_breakDest v s : m_continueDest (set_m_breakDest v s) = m_continueDest s.
Proof. reflexivity. Qed.
Lemma continueDest_set_continueDest v s : m_continueDest (set_m_continueDest v s) = v.
Proof. reflexivity. Qed.
Lemma continueDest_set_blockCounter v s : m_continueDest (set_m_blockCounter v s) = m_continueDest s.
Proof. reflexivity. Qed.
Lemma continueDest_set_interface v s : m_continueDest (set_m_interface v s) = m_continueDest s.
Proof. reflexivity. Qed.
Lemma continueDest_set_outerErrorReporter v s : m_continueDest (set_m_outerErrorReporter v s) = m_continueDest s.
Proof. reflexivity. Qed.
Lemma continueDest_register r s : m_continueDest (CHC.register r s) = m_continueDest s.
Proof. reflexivity. Qed.
Lemma continueDest_emitRule r s : m_continueDest (CHC.emitRule r s) = m_continueDest s.
Proof. reflexivity. Qed.
Lemma genesisPredicate_set_context v s : m_genesisPredicate (set_m_context v s) = m_genesisPredicate s.
Proof. reflexivity. Qed.
Lemma genesisPredicate_set_currentContract v s : m_genesisPredicate (set_m_currentContract v s) = m_genesisPredicate s.
Proof. reflexivity. Qed.
Lemma genesisPredicate_set_currentFunction v s : m_genesisPredicate (set_m_currentFunction v s) = m_genesisPredicate s.
Proof. reflexivity. Qed.
Lemma genesisPredicate_set_genesisPredicate v s : m_genesisPredicate (set_m_genesisPredicate v s) = v.
Proof. reflexivity. Qed.
Lemma genesisPredicate_set_errorPredicate v s : m_genesisPredicate (set_m_errorPredicate v s) = m_genesisPredicate s.
Proof. reflexivity. Qed.
Lemma genesisPredicate_set_constructorSummaryPredicate v s : m_genesisPredicate (set_m_constructorSummaryPredicate v s) = m_genesisPredicate s.
Proof. reflexivity. Qed.
Lemma genesisPredicate_set_implicitConstructorPredicate v s : m_genesisPredicate (set_m_implicitConstructorPredicate v s) = m_genesisPredicate s.
Proof. reflexivity. Qed.
Lemma genesisPredicate_set_interfaces v s : m_genesisPredicate (set_m_interfaces v s) = m_genesisPredicate s.
Proof. reflexivity. Qed.
Lemma genesisPredicate_set_summaries v s : m_genesisPredicate (set_m_summaries v s) = m_genesisPredicate s.
Proof. reflexivity. Qed.
Lemma genesisPredicate_set_error v s : m_genesisPredicate (set_m_error v s) = m_genesisPredicate s.
Proof. reflexivity. Qed.
Lemma genesisPredicate_set_stateSorts v s : m_genesisPredicate (set_m_stateSorts v s) = m_genesisPredicate s.
Proof. reflexivity. Qed.
Lemma genesisPredicate_set_stateVariables v s : m_genesisPredicate (set_m_stateVariables v s) = m_genesisPredicate s.
Proof. reflexivity. Qed.
Lemma genesisPredicate_set_verificationTargets v s : m_genesisPredicate (set_m_verificationTargets v s) = m_genesisPredicate s.
Proof. reflexivity. Qed.
Lemma genesisPredicate_set_safeAssertions v s : m_genesisPredicate (set_m_safeAssertions v s) = m_genesisPredicate s.
Proof. reflexivity. Qed.
Lemma genesisPredicate_set_functionAssertions v s : m_genesisPredicate (set_m_functionAssertions v s) = m_genesisPredicate s.
Proof. reflexivity. Qed.
Lemma genesisPredicate_set_callGraph v s : m_genesisPredicate (set_m_callGraph v s) = m_genesisPredicate s.
Proof. reflexivity. Qed.
Lemma genesisPredicate_set_currentBlock v s : m_genesisPredicate (set_m_currentBlock v s) = m_genesisPredicate s.
Proof. reflexivity. Qed.
Lemma genesisPredicate_set_unknownFunctionCallSeen v s : m_genesisPredicate (set_m_unknownFunctionCallSeen v s) = m_genesisPredicate s.
Proof. reflexivity. Qed.
Lemma genesisPredicate_set_breakDest v s : m_genesisPredicate (set_m_breakDest v s) = m_genesisPredicate s.
Proof. reflexivity. Qed.
Lemma genesisPredicate_set_continueDest v s : m_genesisPredicate (set_m_continueDest v s) = m_genesisPredicate s.
Proof. reflexivity. Qed.
Lemma genesisPredicate_set_blockCounter v s : m_genesisPredicate (set_m_blockCounter v s) = m_genesisPredicate s.
Proof. reflexivity. Qed.
Lemma genesisPredicate_set_interface v s : m_genesisPredicate (set_m_interface v s) = m_genesisPredicate s.
Proof. reflexivity. Qed.
Lemma genesisPredicate_set_outerErrorReporter v s : m_genesisPredicate (set_m_outerErrorReporter v s) = m_genesisPredicate s.
Proof. reflexivity. Qed.
Lemma genesisPredicate_register r s : m_genesisPredicate (CHC.register r s) = m_genesisPredicate s.
Proof. reflexivity. Qed.
Lemma genesisPredicate_emitRule r s : m_genesisPredicate (CHC.emitRule r s) = m_genesisPredicate s.
Proof. reflexivity. Qed.
Lemma errorPredicate_set_context v s : m_errorPredicate (set_m_context v s) = m_errorPredicate s.
Proof. reflexivity. Qed.
Lemma errorPredicate_set_currentContract v s : m_errorPredicate (set_m_currentContract v s) = m_errorPredicate s.
Proof. reflexivity. Qed.
Lemma errorPredicate_set_currentFunction v s : m_errorPredicate (set_m_currentFunction v s) = m_errorPredicate s.
Proof. reflexivity. Qed.
Lemma errorPredicate_set_genesisPredicate v s : m_errorPredicate (set_m_genesisPredicate v s) = m_errorPredicate s.
Proof. reflexivity. Qed.
Lemma errorPredicate_set_errorPredicate v s : m_errorPredicate (set_m_errorPredicate v s) = v.
Proof. reflexivity. Qed.
Lemma errorPredicate_set_constructorSummaryPredicate v s : m_errorPredicate (set_m_constructorSummaryPredicate v s) = m_errorPredicate s.
Proof. reflexivity. Qed.
Lemma errorPredicate_set_implicitConstructorPredicate v s : m_errorPredicate (set_m_implicitConstructorPredicate v s) = m_errorPredicate s.
Proof. reflexivity. Qed.
Lemma errorPredicate_set_interfaces v s : m_errorPredicate (set_m_interfaces v s) = m_errorPredicate s.
Proof. reflexivity. Qed.
Lemma errorPredicate_set_summaries v s : m_errorPredicate (set_m_summaries v s) = m_errorPredicate s.
Proof. reflexivity. Qed.
Lemma errorPredicate_set_error v s : m_errorPredicate (set_m_error v s) = m_errorPredicate s.
Proof. reflexivity. Qed.
Lemma errorPredicate_set_stateSorts v s : m_errorPredicate (set_m_stateSorts v s) = m_errorPredicate s.
Proof. reflexivity. Qed.
Lemma errorPredicate_set_stateVariables v s : m_errorPredicate (set_m_stateVariables v s) = m_errorPredicate s.
Proof. reflexivity. Qed.
Lemma errorPredicate_set_verificationTargets v s : m_errorPredicate (set_m_verificationTargets v s) = m_errorPredicate s.
Proof. reflexivity. Qed.
Lemma errorPredicate_set_safeAssertions v s : m_errorPredicate (set_m_safeAssertions v s) = m_errorPredicate s.
Proof. reflexivity. Qed.
Lemma errorPredicate_set_functionAssertions v s : m_errorPredicate (set_m_functionAssertions v s) = m_errorPredicate s.
Proof. reflexivity. Qed.
Lemma errorPredicate_set_callGraph v s : m_errorPredicate (set_m_callGraph v s) = m_errorPredicate s.
Proof. reflexivity. Qed.
Lemma errorPredicate_set_currentBlock v s : m_errorPredicate (set_m_currentBlock v s) = m_errorPredicate s.
Proof. reflexivity. Qed.
Lemma errorPredicate_set_unknownFunctionCallSeen v s : m_errorPredicate (set_m_unknownFunctionCallSeen v s) = m_errorPredicate s.
Proof. reflexivity. Qed.
Lemma errorPredicate_set_breakDest v s : m_errorPredicate (set_m_breakDest v s) = m_errorPredicate s.
Proof. reflexivity. Qed.
Lemma errorPredicate_set_continueDest v s : m_errorPredicate (set_m_continueDest v s) = m_errorPredicate s.
Proof. reflexivity. Qed.
Lemma errorPredicate_set_blockCounter v s : m_errorPredicate (set_m_blockCounter v s) = m_errorPredicate s.
Proof. reflexivity. Qed.
Lemma errorPredicate_set_interface v s : m_errorPredicate (set_m_interface v s) = m_errorPredicate s.
Proof. reflexivity. Qed.
Lemma errorPredicate_set_outerErrorReporter v s : m_errorPredicate (set_m_outerErrorReporter v s) = m_errorPredicate s.
Proof. reflexivity. Qed.
Lemma errorPredicate_register r s : m_errorPredicate (CHC.register r s) = m_errorPredicate s.
Proof. reflexivity. Qed.
Lemma errorPredicate_emitRule r s : m_errorPredicate (CHC.emitRule r s) = m_errorPredicate s.
Proof. reflexivity. Qed.
Lemma constructorSummaryPredicate_set_context v s : m_constructorSummaryPredicate (set_m_context v s) = m_constructorSummaryPredicate s.
Proof. reflexivity. Qed.
Lemma constructorSummaryPredicate_set_currentContract v s : m_constructorSummaryPredicate (set_m_currentContract v s) = m_constructorSummaryPredicate s.
Proof. reflexivity. Qed.
Lemma constructorSummaryPredicate_set_currentFunction v s : m_constructorSummaryPredicate (set_m_currentFunction v s) = m_constructorSummaryPredicate s.
Proof. reflexivity. Qed.
Lemma constructorSummaryPredicate_set_genesisPredicate v s : m_constructorSummaryPredicate (set_m_genesisPredicate v s) = m_constructorSummaryPredicate s.
Proof. reflexivity. Qed.
Lemma constructorSummaryPredicate_set_errorPredicate v s : m_constructorSummaryPredicate (set_m_errorPredicate v s) = m_constructorSummaryPredicate s.
Proof. reflexivity. Qed.
Lemma constructorSummaryPredicate_set_constructorSummaryPredicate v s : m_constructorSummaryPredicate (set_m_constructorSummaryPredicate v s) = v.
Proof. reflexivity. Qed.
Lemma constructorSummaryPredicate_set_implicitConstructorPredicate v s : m_constructorSummaryPredicate (set_m_implicitConstructorPredicate v s) = m_constructorSummaryPredicate s.
Proof. reflexivity. Qed.
Lemma constructorSummaryPredicate_set_interfaces v s : m_constructorSummaryPredicate (set_m_interfaces v s) = m_constructorSummaryPredicate s.
Proof. reflexivity. Qed.
Lemma constructorSummaryPredicate_set_summaries v s : m_constructorSummaryPredicate (set_m_summaries v s) = m_constructorSummaryPredicate s.
Proof. reflexivity. Qed.
Lemma constructorSummaryPredicate_set_error v s : m_constructorSummaryPredicate (set_m_error v s) = m_constructorSummaryPredicate s.
Proof. reflexivity. Qed.
Lemma constructorSummaryPredicate_set_stateSorts v s : m_constructorSummaryPredicate (set_m_stateSorts v s) = m_constructorSummaryPredicate s.
Proof. reflexivity. Qed.
Lemma constructorSummaryPredicate_set_stateVariables v s : m_constructorSummaryPredicate (set_m_stateVariables v s) = m_constructorSummaryPredicate s.
Proof. reflexivity. Qed.
Lemma constructorSummaryPredicate_set_verificationTargets v s : m_constructorSummaryPredicate (set_m_verificationTargets v s) = m_constructorSummaryPredicate s.
Proof. reflexivity. Qed.
Lemma constructorSummaryPredicate_set_safeAssertions v s : m_constructorSummaryPredicate (set_m_safeAssertions v s) = m_constructorSummaryPredicate s.
Proof. reflexivity. Qed.
Lemma constructorSummaryPredicate_set_functionAssertions v s : m_constructorSummaryPredicate (set_m_functionAssertions v s) = m_constructorSummaryPredicate s.
Proof. reflexivity. Qed.
Lemma constructorSummaryPredicate_set_callGraph v s : m_constructorSummaryPredicate (set_m_callGraph v s) = m_constructorSummaryPredicate s.
Proof. reflexivity. Qed.
Lemma constructorSummaryPredicate_set_currentBlock v s : m_constructorSummaryPredicate (set_m_currentBlock v s) = m_constructorSummaryPredicate s.
Proof. reflexivity. Qed.
Lemma constructorSummaryPredicate_set_unknownFunctionCallSeen v s : m_constructorSummaryPredicate (set_m_unknownFunctionCallSeen v s) = m_constructorSummaryPredicate s.
Proof. reflexivity. Qed.
Lemma constructorSummaryPredicate_set_breakDest v s : m_constructorSummaryPredicate (set_m_breakDest v s) = m_constructorSummaryPredicate s.
Proof. reflexivity. Qed.
Lemma constructorSummaryPredicate_set_continueDest v s : m_constructorSummaryPredicate (set_m_continueDest v s) = m_constructorSummaryPredicate s.
Proof. reflexivity. Qed.
Lemma constructorSummaryPredicate_set_blockCounter v s : m_constructorSummaryPredicate (set_m_blockCounter v s) = m_constructorSummaryPredicate s.
Proof. reflexivity. Qed.
Lemma constructorSummaryPredicate_set_interface v s : m_constructorSummaryPredicate (set_m_interface v s) = m_constructorSummaryPredicate s.
Proof. reflexivity. Qed.
Lemma constructorSummaryPredicate_set_outerErrorReporter v s : m_constructorSummaryPredicate (set_m_outerErrorReporter v s) = m_constructorSummaryPredicate s.
Proof. reflexivity. Qed.
Lemma constructorSummaryPredicate_register r s : m_constructorSummaryPredicate (CHC.register r s) = m_constructorSummaryPredicate s.
Proof. reflexivity. Qed.
Lemma constructorSummaryPredicate_emitRule r s : m_constructorSummaryPredicate (CHC.emitRule r s) = m_constructorSummaryPredicate s.
Proof. reflexivity. Qed.
Lemma implicitConstructorPredicate_set_context v s : m_implicitConstructorPredicate (set_m_context v s) = m_implicitConstructorPredicate s.
Proof. reflexivity. Qed.
Lemma implicitConstructorPredicate_set_currentContract v s : m_implicitConstructorPredicate (set_m_currentContract v s) = m_implicitConstructorPredicate s.
Proof. reflexivity. Qed.
Lemma implicitConstructorPredicate_set_currentFunction v s : m_implicitConstructorPredicate (set_m_currentFunction v s) = m_implicitConstructorPredicate s.
Proof. reflexivity. Qed.
Lemma implicitConstructorPredicate_set_genesisPredicate v s : m_implicitConstructorPredicate (set_m_genesisPredicate v s) = m_implicitConstructorPredicate s.
Proof. reflexivity. Qed.
Lemma implicitConstructorPredicate_set_errorPredicate v s : m_implicitConstructorPredicate (set_m_errorPredicate v s) = m_implicitConstructorPredicate s.
Proof. reflexivity. Qed.
Lemma implicitConstructorPredicate_set_constructorSummaryPredicate v s : m_implicitConstructorPredicate (set_m_constructorSummaryPredicate v s) = m_implicitConstructorPredicate s.
Proof. reflexivity. Qed.
Lemma implicitConstructorPredicate_set_implicitConstructorPredicate v s : m_implicitConstructorPredicate (set_m_implicitConstructorPredicate v s) = v.
Proof. reflexivity. Qed.
Lemma implicitConstructorPredicate_set_interfaces v s : m_implicitConstructorPredicate (set_m_interfaces v s) = m_implicitConstructorPredicate s.
Proof. reflexivity. Qed.
Lemma implicitConstructorPredicate_set_summaries v s : m_implicitConstructorPredicate (set_m_summaries v s) = m_implicitConstructorPredicate s.
Proof. reflexivity. Qed.
Lemma implicitConstructorPredicate_set_error v s : m_implicitConstructorPredicate (set_m_error v s) = m_implicitConstructorPredicate s.
Proof. reflexivity. Qed.
Lemma implicitConstructorPredicate_set_stateSorts v s : m_implicitConstructorPredicate (set_m_stateSorts v s) = m_implicitConstructorPredicate s.
Proof. reflexivity. Qed.
Lemma implicitConstructorPredicate_set_stateVariables v s : m_implicitConstructorPredicate (set_m_stateVariables v s) = m_implicitConstructorPredicate s.
Proof. reflexivity. Qed.
Lemma implicitConstructorPredicate_set_verificationTargets v s : m_implicitConstructorPredicate (set_m_verificationTargets v s) = m_implicitConstructorPredicate s.
Proof. reflexivity. Qed.
Lemma implicitConstructorPredicate_set_safeAssertions v s : m_implicitConstructorPredicate (set_m_safeAssertions v s) = m_implicitConstructorPredicate s.
Proof. reflexivity. Qed.
Lemma implicitConstructorPredicate_set_functionAssertions v s : m_implicitConstructorPredicate (set_m_functionAssertions v s) = m_implicitConstructorPredicate s.
Proof. reflexivity. Qed.
Lemma implicitConstructorPredicate_set_callGraph v s : m_implicitConstructorPredicate (set_m_callGraph v s) = m_implicitConstructorPredicate s.
Proof. reflexivity. Qed.
Lemma implicitConstructorPredicate_set_currentBlock v s : m_implicitConstructorPredicate (set_m_currentBlock v s) = m_implicitConstructorPredicate s.
Proof. reflexivity. Qed.
Lemma implicitConstructorPredicate_set_unknownFunctionCallSeen v s : m_implicitConstructorPredicate (set_m_unknownFunctionCallSeen v s) = m_implicitConstructorPredicate s.
Proof. reflexivity. Qed.
Lemma implicitConstructorPredicate_set_breakDest v s : m_implicitConstructorPredicate (set_m_breakDest v s) = m_implicitConstructorPredicate s.
Proof. reflexivity. Qed.
Lemma implicitConstructorPredicate_set_continueDest v s : m_implicitConstructorPredicate (set_m_continueDest v s) = m_implicitConstructorPredicate s.
Proof. reflexivity. Qed.
Lemma implicitConstructorPredicate_set_blockCounter v s : m_implicitConstructorPredicate (set_m_blockCounter v s) = m_implicitConstructorPredicate s.
Proof. reflexivity. Qed.
Lemma implicitConstructorPredicate_set_interface v s : m_implicitConstructorPredicate (set_m_interface v s) = m_implicitConstructorPredicate s.
Proof. reflexivity. Qed.
Lemma implicitConstructorPredicate_set_outerErrorReporter v s : m_implicitConstructorPredicate (set_m_outerErrorReporter v s) = m_implicitConstructorPredicate s.
Proof. reflexivity. Qed.
Lemma implicitConstructorPredicate_register r s : m_implicitConstructorPredicate (CHC.register r s) = m_implicitConstructorPredicate s.
Proof. reflexivity. Qed.
Lemma implicitConstructorPredicate_emitRule r s : m_implicitConstructorPredicate (CHC.emitRule r s) = m_implicitConstructorPredicate s.
Proof. reflexivity. Qed.
Lemma interfaces_set_context v s : m_interfaces (set_m_context v s) = m_interfaces s.
Proof. reflexivity. Qed.
Lemma interfaces_set_currentContract v s : m_interfaces (set_m_currentContract v s) = m_interfaces s.
Proof. reflexivity. Qed.
Lemma interfaces_set_currentFunction v s : m_interfaces (set_m_currentFunction v s) = m_interfaces s.
Proof. reflexivity. Qed.
Lemma interfaces_set_genesisPredicate v s : m_interfaces (set_m_genesisPredicate v s) = m_interfaces s.
Proof. reflexivity. Qed.
Lemma interfaces_set_errorPredicate v s : m_interfaces (set_m_errorPredicate v s) = m_interfaces s.
Proof. reflexivity. Qed.
Lemma interfaces_set_constructorSummaryPredicate v s : m_interfaces (set_m_constructorSummaryPredicate v s) = m_interfaces s.
Proof. reflexivity. Qed.
Lemma interfaces_set_implicitConstructorPredicate v s : m_interfaces (set_m_implicitConstructorPredicate v s) = m_interfaces s.
Proof. reflexivity. Qed.
Lemma interfaces_set_interfaces v s : m_interfaces (set_m_interfaces v s) = v.
Proof. reflexivity. Qed.
Lemma interfaces_set_summaries v s : m_interfaces (set_m_summaries v s) = m_interfaces s.
Proof. reflexivity. Qed.
Lemma interfaces_set_error v s : m_interfaces (set_m_error v s) = m_interfaces s.
Proof. reflexivity. Qed.
Lemma interfaces_set_stateSorts v s : m_interfaces (set_m_stateSorts v s) = m_interfaces s.
Proof. reflexivity. Qed.
Lemma interfaces_set_stateVariables v s : m_interfaces (set_m_stateVariables v s) = m_interfaces s.
Proof. reflexivity. Qed.
Lemma interfaces_set_verificationTargets v s : m_interfaces (set_m_verificationTargets v s) = m_interfaces s.
Proof. reflexivity. Qed.
Lemma interfaces_set_safeAssertions v s : m_interfaces (set_m_safeAssertions v s) = m_interfaces s.
Proof. reflexivity. Qed.
Lemma interfaces_set_functionAssertions v s : m_interfaces (set_m_functionAssertions v s) = m_interfaces s.
Proof. reflexivity. Qed.
Lemma interfaces_set_callGraph v s : m_interfaces (set_m_callGraph v s) = m_interfaces s.
Proof. reflexivity. Qed.
Lemma interfaces_set_currentBlock v s : m_interfaces (set_m_currentBlock v s) = m_interfaces s.
Proof. reflexivity. Qed.
Lemma interfaces_set_unknownFunctionCallSeen v s : m_interfaces (set_m_unknownFunctionCallSeen v s) = m_interfaces s.
Proof. reflexivity. Qed.
Lemma interfaces_set_breakDest v s : m_interfaces (set_m_breakDest v s) = m_interfaces s.
Proof. reflexivity. Qed.
Lemma interfaces_set_continueDest v s : m_interfaces (set_m_continueDest v s) = m_interfaces s.
Proof. reflexivity. Qed.
Lemma interfaces_set_blockCounter v s : m_interfaces (set_m_blockCounter v s) = m_interfaces s.
Proof. reflexivity. Qed.
Lemma interfaces_set_interface v s : m_interfaces (set_m_interface v s) = m_interfaces s.
Proof. reflexivity. Qed.
Lemma interfaces_set_outerErrorReporter v s : m_interfaces (set_m_outerErrorReporter v s) = m_interfaces s.
Proof. reflexivity. Qed.
Lemma interfaces_register r s : m_interfaces (CHC.register r s) = m_interfaces s.
Proof. reflexivity. Qed.
Lemma interfaces_emitRule r s : m_interfaces (CHC.emitRule r s) = m_interfaces s.
Proof. reflexivity. Qed.
Lemma error_set_context v s : m_error (set_m_context v s) = m_error s.
Proof. reflexivity. Qed.
Lemma error_set_currentContract v s : m_error (set_m_currentContract v s) = m_error s.
Proof. reflexivity. Qed.
Lemma error_set_currentFunction v s : m_error (set_m_currentFunction v s) = m_error s.
Proof. reflexivity. Qed.
Lemma error_set_genesisPredicate v s : m_error (set_m_genesisPredicate v s) = m_error s.
Proof. reflexivity. Qed.
Lemma error_set_errorPredicate v s : m_error (set_m_errorPredicate v s) = m_error s.
Proof. reflexivity. Qed.
Lemma error_set_constructorSummaryPredicate v s : m_error (set_m_constructorSummaryPredicate v s) = m_error s.
Proof. reflexivity. Qed.
Lemma error_set_implicitConstructorPredicate v s : m_error (set_m_implicitConstructorPredicate v s) = m_error s.
Proof. reflexivity. Qed.
Lemma error_set_interfaces v s : m_error (set_m_interfaces v s) = m_error s.
Proof. reflexivity. Qed.
Lemma error_set_summaries v s : m_error (set_m_summaries v s) = m_error s.
Proof. reflexivity. Qed.
Lemma error_set_error v s : m_error (set_m_error v s) = v.
Proof. reflexivity. Qed.
Lemma error_set_stateSorts v s : m_error (set_m_stateSorts v s) = m_error s.
Proof. reflexivity. Qed.
Lemma error_set_stateVariables v s : m_error (set_m_stateVariables v s) = m_error s.
Proof. reflexivity. Qed.
Lemma error_set_verificationTargets v s : m_error (set_m_verificationTargets v s) = m_error s.
Proof. reflexivity. Qed.
Lemma error_set_safeAssertions v s : m_error (set_m_safeAssertions v s) = m_error s.
Proof. reflexivity. Qed.
Lemma error_set_functionAssertions v s : m_error (set_m_functionAssertions v s) = m_error s.
Proof. reflexivity. Qed.
Lemma error_set_callGraph v s : m_error (set_m_callGraph v s) = m_error s.
Proof. reflexivity. Qed.
Lemma error_set_currentBlock v s : m_error (set_m_currentBlock v s) = m_error s.
Proof. reflexivity. Qed.
Lemma error_set_unknownFunctionCallSeen v s : m_error (set_m_unknownFunctionCallSeen v s) = m_error s.
Proof. reflexivity. Qed.
Lemma error_set_breakDest v s : m_error (set_m_breakDest v s) = m_error s.
Proof. reflexivity. Qed.
Lemma error_set_continueDest v s : m_error (set_m_continueDest v s) = m_error s.
Proof. reflexivity. Qed.
Lemma error_set_blockCounter v s : m_error (set_m_blockCounter v s) = m_error s.
Proof. reflexivity. Qed.
Lemma error_set_interface v s : m_error (set_m_interface v s) = m_error s.
Proof. reflexivity. Qed.
Lemma error_set_outerErrorReporter v s : m_error (set_m_outerErrorReporter v s) = m_error s.
Proof. reflexivity. Qed.
Lemma error_register r s : m_error (CHC.register r s) = m_error s.
Proof. reflexivity. Qed.
Lemma error_emitRule r s : m_error (CHC.emitRule r s) = m_error s.
Proof. reflexivity. Qed.
Lemma currentBlock_set_context v s : m_currentBlock (set_m_context v s) = m_currentBlock s.
Proof. reflexivity. Qed.
Lemma currentBlock_set_currentContract v s : m_currentBlock (set_m_currentContract v s) = m_currentBlock s.
Proof. reflexivity. Qed.
Lemma currentBlock_set_currentFunction v s : m_currentBlock (set_m_currentFunction v s) = m_currentBlock s.
Proof. reflexivity. Qed.
Lemma currentBlock_set_genesisPredicate v s : m_currentBlock (set_m_genesisPredicate v s) = m_currentBlock s.
Proof. reflexivity. Qed.
Lemma currentBlock_set_errorPredicate v s : m_currentBlock (set_m_errorPredicate v s) = m_currentBlock s.
Proof. reflexivity. Qed.
Lemma currentBlock_set_constructorSummaryPredicate v s : m_currentBlock (set_m_constructorSummaryPredicate v s) = m_currentBlock s.
Proof. reflexivity. Qed.
Lemma currentBlock_set_implicitConstructorPredicate v s : m_currentBlock (set_m_implicitConstructorPredicate v s) = m_currentBlock s.
Proof. reflexivity. Qed.
Lemma currentBlock_set_interfaces v s : m_currentBlock (set_m_interfaces v s) = m_currentBlock s.
Proof. reflexivity. Qed.
Lemma currentBlock_set_summaries v s : m_currentBlock (set_m_summaries v s) = m_currentBlock s.
Proof. reflexivity. Qed.
Lemma currentBlock_set_error v s : m_currentBlock (set_m_error v s) = m_currentBlock s.
Proof. reflexivity. Qed.
Lemma currentBlock_set_stateSorts v s : m_currentBlock (set_m_stateSorts v s) = m_currentBlock s.
Proof. reflexivity. Qed.
Lemma currentBlock_set_stateVariables v s : m_currentBlock (set_m_stateVariables v s) = m_currentBlock s.
Proof. reflexivity. Qed.
Lemma currentBlock_set_verificationTargets v s : m_currentBlock (set_m_verificationTargets v s) = m_currentBlock s.
Proof. reflexivity. Qed.
Lemma currentBlock_set_safeAssertions v s : m_currentBlock (set_m_safeAssertions v s) = m_currentBlock s.
Proof. reflexivity. Qed.
Lemma currentBlock_set_functionAssertions v s : m_currentBlock (set_m_functionAssertions v s) = m_currentBlock s.
Proof. reflexivity. Qed.
Lemma currentBlock_set_callGraph v s : m_currentBlock (set_m_callGraph v s) = m_currentBlock s.
Proof. reflexivity. Qed.
Lemma currentBlock_set_currentBlock v s : m_currentBlock (set_m_currentBlock v s) = v.
Proof. reflexivity. Qed.
Lemma currentBlock_set_unknownFunctionCallSeen v s : m_currentBlock (set_m_unknownFunctionCallSeen v s) = m_currentBlock s.
Proof. reflexivity. Qed.
Lemma currentBlock_set_breakDest v s : m_currentBlock (set_m_breakDest v s) = m_currentBlock s.
Proof. reflexivity. Qed.
Lemma currentBlock_set_continueDest v s : m_currentBlock (set_m_continueDest v s) = m_currentBlock s.
Proof. reflexivity. Qed.
Lemma currentBlock_set_blockCounter v s : m_currentBlock (set_m_blockCounter v s) = m_currentBlock s.
Proof. reflexivity. Qed.
Lemma currentBlock_set_interface v s : m_currentBlock (set_m_interface v s) = m_currentBlock s.
Proof. reflexivity. Qed.
Lemma currentBlock_set_outerErrorReporter v s : m_currentBlock (set_m_outerErrorReporter v s) = m_currentBlock s.
Proof. reflexivity. Qed.
Lemma currentBlock_register r s : m_currentBlock (CHC.register r s) = m_currentBlock s.
Proof. reflexivity. Qed.
Lemma currentBlock_emitRule r s : m_currentBlock (CHC.emitRule r s) = m_currentBlock s.
Proof. reflexivity. Qed.
Lemma relations_register r s :
  relations (m_interface (CHC.register r s)) = relations (m_interface s) ++ [r].
Proof. reflexivity. Qed.
Lemma rules_register r s : rules (m_interface (CHC.register r s)) = rules (m_interface s).
Proof. reflexivity. Qed.
Lemma relations_emitRule r s :
  relations (m_interface (CHC.emitRule r s)) = relations (m_interface s).
Proof. reflexivity. Qed.
Lemma rules_emitRule r s :
  rules (m_interface (CHC.emitRule r s)) = rules (m_interface s) ++ [r].
Proof. reflexivity. Qed.
#[global] Hint Rewrite interface_set_context interface_set_currentContract interface_set_currentFunction interface_set_genesisPredicate interface_set_errorPredicate interface_set_constructorSummaryPredicate : fields.
#[global] Hint Rewrite interface_set_implicitConstructorPredicate interface_set_interfaces interface_set_summaries interface_set_error interface_set_stateSorts interface_set_stateVariables : fields.
#[global] Hint Rewrite interface_set_verificationTargets interface_set_safeAssertions interface_set_functionAssertions interface_set_callGraph interface_set_currentBlock interface_set_unknownFunctionCallSeen : fields.
#[global] Hint Rewrite interface_set_breakDest interface_set_continueDest interface_set_blockCounter interface_set_interface interface_set_outerErrorReporter blockCounter_set_context : fields.
#[global] Hint Rewrite blockCounter_set_currentContract blockCounter_set_currentFunction blockCounter_set_genesisPredicate blockCounter_set_errorPredicate blockCounter_set_constructorSummaryPredicate blockCounter_set_implicitConstructorPredicate : fields.
#[global] Hint Rewrite blockCounter_set_interfaces blockCounter_set_summaries blockCounter_set_error blockCounter_set_stateSorts blockCounter_set_stateVariables blockCounter_set_verificationTargets : fields.
#[global] Hint Rewrite blockCounter_set_safeAssertions blockCounter_set_functionAssertions blockCounter_set_callGraph blockCounter_set_currentBlock blockCounter_set_unknownFunctionCallSeen blockCounter_set_breakDest : fields.
#[global] Hint Rewrite blockCounter_set_continueDest blockCounter_set_blockCounter blockCounter_set_interface blockCounter_set_outerErrorReporter blockCounter_register blockCounter_emitRule : fields.
#[global] Hint Rewrite summaries_set_context summaries_set_currentContract summaries_set_currentFunction summaries_set_genesisPredicate summaries_set_errorPredicate summaries_set_constructorSummaryPredicate : fields.
#[global] Hint Rewrite summaries_set_implicitConstructorPredicate summaries_set_interfaces summaries_set_summaries summaries_set_error summaries_set_stateSorts summaries_set_stateVariables : fields.
#[global] Hint Rewrite summaries_set_verificationTargets summaries_set_safeAssertions summaries_set_functionAssertions summaries_set_callGraph summaries_set_currentBlock summaries_set_unknownFunctionCallSeen : fields.
#[global] Hint Rewrite summaries_set_breakDest summaries_set_continueDest summaries_set_blockCounter summaries_set_interface summaries_set_outerErrorReporter summaries_register : fields.
#[global] Hint Rewrite summaries_emitRule breakDest_set_context breakDest_set_currentContract breakDest_set_currentFunction breakDest_set_genesisPredicate breakDest_set_errorPredicate : fields.
#[global] Hint Rewrite breakDest_set_constructorSummaryPredicate breakDest_set_implicitConstructorPredicate breakDest_set_interfaces breakDest_set_summaries breakDest_set_error breakDest_set_stateSorts : fields.
#[global] Hint Rewrite breakDest_set_stateVariables breakDest_set_verificationTargets breakDest_set_safeAssertions breakDest_set_functionAssertions breakDest_set_callGraph breakDest_set_currentBlock : fields.
#[global] Hint Rewrite breakDest_set_unknownFunctionCallSeen breakDest_set_breakDest breakDest_set_continueDest breakDest_set_blockCounter breakDest_set_interface breakDest_set_outerErrorReporter : fields.
#[global] Hint Rewrite breakDest_register breakDest_emitRule continueDest_set_context continueDest_set_currentContract continueDest_set_currentFunction continueDest_set_genesisPredicate : fields.
#[global] Hint Rewrite continueDest_set_errorPredicate continueDest_set_constructorSummaryPredicate continueDest_set_implicitConstructorPredicate continueDest_set_interfaces continueDest_set_summaries continueDest_set_error : fields.
#[global] Hint Rewrite continueDest_set_stateSorts continueDest_set_stateVariables continueDest_set_verificationTargets continueDest_set_safeAssertions continueDest_set_functionAssertions continueDest_set_callGraph : fields.
#[global] Hint Rewrite continueDest_set_currentBlock continueDest_set_unknownFunctionCallSeen continueDest_set_breakDest continueDest_set_continueDest continueDest_set_blockCounter continueDest_set_interface : fields.
#[global] Hint Rewrite continueDest_set_outerErrorReporter continueDest_register continueDest_emitRule genesisPredicate_set_context genesisPredicate_set_currentContract genesisPredicate_set_currentFunction : fields.
#[global] Hint Rewrite genesisPredicate_set_genesisPredicate genesisPredicate_set_errorPredicate genesisPredicate_set_constructorSummaryPredicate genesisPredicate_set_implicitConstructorPredicate genesisPredicate_set_interfaces genesisPredicate_set_summaries : fields.
#[global] Hint Rewrite genesisPredicate_set_error genesisPredicate_set_stateSorts genesisPredicate_set_stateVariables genesisPredicate_set_verificationTargets genesisPredicate_set_safeAssertions genesisPredicate_set_functionAssertions : fields.
#[global] Hint Rewrite genesisPredicate_set_callGraph genesisPredicate_set_currentBlock genesisPredicate_set_unknownFunctionCallSeen genesisPredicate_set_breakDest genesisPredicate_set_continueDest genesisPredicate_set_blockCounter : fields.
#[global] Hint Rewrite genesisPredicate_set_interface genesisPredicate_set_outerErrorReporter genesisPredicate_register genesisPredicate_emitRule errorPredicate_set_context errorPredicate_set_currentContract : fields.
#[global] Hint Rewrite errorPredicate_set_currentFunction errorPredicate_set_genesisPredicate errorPredicate_set_errorPredicate errorPredicate_set_constructorSummaryPredicate errorPredicate_set_implicitConstructorPredicate errorPredicate_set_interfaces : fields.
#[global] Hint Rewrite errorPredicate_set_summaries errorPredicate_set_error errorPredicate_set_stateSorts errorPredicate_set_stateVariables errorPredicate_set_verificationTargets errorPredicate_set_safeAssertions : fields.
#[global] Hint Rewrite errorPredicate_set_functionAssertions errorPredicate_set_callGraph errorPredicate_set_currentBlock errorPredicate_set_unknownFunctionCallSeen errorPredicate_set_breakDest errorPredicate_set_continueDest : fields.
#[global] Hint Rewrite errorPredicate_set_blockCounter errorPredicate_set_interface errorPredicate_set_outerErrorReporter errorPredicate_register errorPredicate_emitRule constructorSummaryPredicate_set_context : fields.
#[global] Hint Rewrite constructorSummaryPredicate_set_currentContract constructorSummaryPredicate_set_currentFunction constructorSummaryPredicate_set_genesisPredicate constructorSummaryPredicate_set_errorPredicate constructorSummaryPredicate_set_constructorSummaryPredicate constructorSummaryPredicate_set_implicitConstructorPredicate : fields.
#[global] Hint Rewrite constructorSummaryPredicate_set_interfaces constructorSummaryPredicate_set_summaries constructorSummaryPredicate_set_error constructorSummaryPredicate_set_stateSorts constructorSummaryPredicate_set_stateVariables constructorSummaryPredicate_set_verificationTargets : fields.
#[global] Hint Rewrite constructorSummaryPredicate_set_safeAssertions constructorSummaryPredicate_set_functionAssertions constructorSummaryPredicate_set_callGraph constructorSummaryPredicate_set_currentBlock constructorSummaryPredicate_set_unknownFunctionCallSeen constructorSummaryPredicate_set_breakDest : fields.
#[global] Hint Rewrite constructorSummaryPredicate_set_continueDest constructorSummaryPredicate_set_blockCounter constructorSummaryPredicate_set_interface constructorSummaryPredicate_set_outerErrorReporter constructorSummaryPredicate_register constructorSummaryPredicate_emitRule : fields.
#[global] Hint Rewrite implicitConstructorPredicate_set_context implicitConstructorPredicate_set_currentContract implicitConstructorPredicate_set_currentFunction implicitConstructorPredicate_set_genesisPredicate implicitConstructorPredicate_set_errorPredicate implicitConstructorPredicate_set_constructorSummaryPredicate : fields.
#[global] Hint Rewrite implicitConstructorPredicate_set_implicitConstructorPredicate implicitConstructorPredicate_set_interfaces implicitConstructorPredicate_set_summaries implicitConstructorPredicate_set_error implicitConstructorPredicate_set_stateSorts implicitConstructorPredicate_set_stateVariables : fields.
#[global] Hint Rewrite implicitConstructorPredicate_set_verificationTargets implicitConstructorPredicate_set_safeAssertions implicitConstructorPredicate_set_functionAssertions implicitConstructorPredicate_set_callGraph implicitConstructorPredicate_set_currentBlock implicitConstructorPredicate_set_unknownFunctionCallSeen : fields.
#[global] Hint Rewrite implicitConstructorPredicate_set_breakDest implicitConstructorPredicate_set_continueDest implicitConstructorPredicate_set_blockCounter implicitConstructorPredicate_set_interface implicitConstructorPredicate_set_outerErrorReporter implicitConstructorPredicate_register : fields.
#[global] Hint Rewrite implicitConstructorPredicate_emitRule interfaces_set_context interfaces_set_currentContract interfaces_set_currentFunction interfaces_set_genesisPredicate interfaces_set_errorPredicate : fields.
#[global] Hint Rewrite interfaces_set_constructorSummaryPredicate interfaces_set_implicitConstructorPredicate interfaces_set_interfaces interfaces_set_summaries interfaces_set_error interfaces_set_stateSorts : fields.
#[global] Hint Rewrite interfaces_set_stateVariables interfaces_set_verificationTargets interfaces_set_safeAssertions interfaces_set_functionAssertions interfaces_set_callGraph interfaces_set_currentBlock : fields.
#[global] Hint Rewrite interfaces_set_unknownFunctionCallSeen interfaces_set_breakDest interfaces_set_continueDest interfaces_set_blockCounter interfaces_set_interface interfaces_set_outerErrorReporter : fields.
#[global] Hint Rewrite interfaces_register interfaces_emitRule error_set_context error_set_currentContract error_set_currentFunction error_set_genesisPredicate : fields.
#[global] Hint Rewrite error_set_errorPredicate error_set_constructorSummaryPredicate error_set_implicitConstructorPredicate error_set_interfaces error_set_summaries error_set_error : fields.
#[global] Hint Rewrite error_set_stateSorts error_set_stateVariables error_set_verificationTargets error_set_safeAssertions error_set_functionAssertions error_set_callGraph : fields.
#[global] Hint Rewrite error_set_currentBlock error_set_unknownFunctionCallSeen error_set_breakDest error_set_continueDest error_set_blockCounter error_set_interface : fields.
#[global] Hint Rewrite error_set_outerErrorReporter error_register error_emitRule currentBlock_set_context currentBlock_set_currentContract currentBlock_set_currentFunction : fields.
#[global] Hint Rewrite currentBlock_set_genesisPredicate currentBlock_set_errorPredicate currentBlock_set_constructorSummaryPredicate currentBlock_set_implicitConstructorPredicate currentBlock_set_interfaces currentBlock_set_summaries : fields.
#[global] Hint Rewrite currentBlock_set_error currentBlock_set_stateSorts currentBlock_set_stateVariables currentBlock_set_verificationTargets currentBlock_set_safeAssertions currentBlock_set_functionAssertions : fields.
#[global] Hint Rewrite currentBlock_set_callGraph currentBlock_set_currentBlock currentBlock_set_unknownFunctionCallSeen currentBlock_set_breakDest currentBlock_set_continueDest currentBlock_set_blockCounter : fields.
#[global] Hint Rewrite currentBlock_set_interface currentBlock_set_outerErrorReporter currentBlock_register currentBlock_emitRule relations_register rules_register : fields.
#[global] Hint Rewrite relations_emitRule rules_emitRule : fields.

(** * The names and the rules that a run adds *)

Lemma counterNames_nil lo hi : counterNames lo hi [].
Proof.
  split.
  - intros name k Hin. apply elem_of_nil in Hin. destruct Hin.
  - intros i j name k Hi. rewrite lookup_nil in Hi. discriminate Hi.
Qed.

Lemma counterNames_plain lo hi name :
  (forall k, ~ counterNamed k name) -> counterNames lo hi [name].
Proof.
  intros Hplain. split.
  - intros n k Hin Hk. apply list_elem_of_singleton in Hin as ->. destruct (Hplain k Hk).
  - intros i j n k Hi _ Hk. apply list_lookup_singleton_Some in Hi as [_ <-].
    destruct (Hplain k Hk).
Qed.

Lemma counterNames_counter k name : counterNamed k name -> counterNames k (S k) [name].
Proof.
  intros Hname. split.
  - intros n k' Hin Hk. apply list_elem_of_singleton in Hin as ->.
    rewrite (counterNamed_inj _ _ _ Hk Hname). lia.
  - intros i j n k' Hi Hj _. apply list_lookup_singleton_Some in Hi as [-> _].
    apply list_lookup_singleton_Some in Hj as [-> _]. reflexivity.
Qed.

Lemma counterNames_app a b c l1 l2 :
  a <= b -> b <= c -> counterNames a b l1 -> counterNames b c l2 ->
  counterNames a c (l1 ++ l2).
Proof.
  intros Hab Hbc [R1 D1] [R2 D2]. split.
  - intros name k Hin Hk. apply elem_of_app in Hin as [Hin|Hin].
    + specialize (R1 _ _ Hin Hk). lia.
    + specialize (R2 _ _ Hin Hk). lia.
  - intros i j name k Hi Hj Hk.
    apply lookup_app_Some in Hi as [Hi|[Hli Hi]];
      apply lookup_app_Some in Hj as [Hj|[Hlj Hj]].
    + exact (D1 _ _ _ _ Hi Hj Hk).
    + pose proof (R1 _ _ (list_elem_of_lookup_2 _ _ _ Hi) Hk).
      pose proof (R2 _ _ (list_elem_of_lookup_2 _ _ _ Hj) Hk). lia.
    + pose proof (R2 _ _ (list_elem_of_lookup_2 _ _ _ Hi) Hk).
      pose proof (R1 _ _ (list_elem_of_lookup_2 _ _ _ Hj) Hk). lia.
    + pose proof (D2 _ _ _ _ Hi Hj Hk). lia.
Qed.

Lemma logged_same s s' :
  m_blockCounter s' = m_blockCounter s -> m_interface s' = m_interface s -> logged s s'.
Proof.
  intros Hc Hi. split.
  - rewrite Hc. reflexivity.
  - exists []. rewrite Hi, app_nil_r. split; [reflexivity|apply counterNames_nil].
  - exists []. rewrite Hi, app_nil_r. split; [reflexivity|constructor].
Qed.

Lemma logged_refl s : logged s s.
Proof. apply logged_same; reflexivity. Qed.

Lemma logged_trans s1 s2 s3 : logged s1 s2 -> logged s2 s3 -> logged s1 s3.
Proof.
  intros [C1 (P1 & E1 & N1) (R1 & F1 & G1)] [C2 (P2 & E2 & N2) (R2 & F2 & G2)]. split.
  - lia.
  - exists (P1 ++ P2). rewrite E2, E1, app_assoc, fmap_app. split; [reflexivity|].
    eapply counterNames_app; eassumption.
  - exists (R1 ++ R2). rewrite F2, F1, app_assoc. split; [reflexivity|].
    apply Forall_app. split; assumption.
Qed.

Lemma quiet_namesOk s s' : quiet s s' -> namesOk s -> namesOk s'.
Proof.
  intros [_ _ E1 E2 E3 E4 E5 E6 E7 E8] [].
  split; rewrite ?E1, ?E2, ?E3, ?E4, ?E5, ?E6, ?E7, ?E8; assumption.
Qed.

Lemma step_refl s : step s s.
Proof. intros Hok. split; [exact Hok|apply logged_refl]. Qed.

Lemma step_trans s1 s2 s3 : step s1 s2 -> step s2 s3 -> step s1 s3.
Proof.
  intros H1 H2 Hok. destruct (H1 Hok) as [Hok2 L1]. destruct (H2 Hok2) as [Hok3 L2].
  split; [exact Hok3|]. eapply logged_trans; eassumption.
Qed.

Lemma quiet_step s s' : quiet s s' -> step s s'.
Proof.
  intros Hq Hok. split; [eapply quiet_namesOk; eassumption|].
  apply logged_same; [apply (quiet_counter _ _ Hq)|apply (quiet_interface _ _ Hq)].
Qed.

(** From the state [cur] that a run has reached, over a change of fields to
    the state [t], and from there by a step of the encoder. *)
Lemma step_from s0 cur t s' :
  logged s0 cur -> namesOk cur -> step cur t -> step t s' ->
  namesOk s' /\ logged s0 s'.
Proof.
  intros HL Hok H1 H2. destruct (step_trans _ _ _ H1 H2 Hok) as [Hok' HL'].
  split; [exact Hok'|]. eapply logged_trans; eassumption.
Qed.

Create HintDb steps.

#[global] Hint Extern 9 (step ?s ?s') =>
  apply quiet_step; solve [eauto 3 with frame] : steps.

(** The state under the setters. *)
Ltac state_base t :=
  lazymatch t with
  | ?f ?v ?t' =>
      lazymatch type of t' with
      | CHC => state_base t'
      | _ => t
      end
  | _ => t
  end.

(** A field of the invariant in a state that was built with the setters
    from states whose names are in order. *)
Ltac ok_field :=
  autorewrite with fields;
  first
    [ match goal with
      | H : namesOk ?x |- forall p, m_genesisPredicate ?x = Some p -> _ =>
          exact (ok_genesis x H)
      | H : namesOk ?x |- forall p, m_errorPredicate ?x = Some p -> _ =>
          exact (ok_error x H)
      | H : namesOk ?x |- forall p, m_constructorSummaryPredicate ?x = Some p -> _ =>
          exact (ok_constructorSummary x H)
      | H : namesOk ?x |- forall p, m_implicitConstructorPredicate ?x = Some p -> _ =>
          exact (ok_implicitConstructor x H)
      | H : namesOk ?x |- forall k m f p, m_summaries ?x !! k = Some m -> _ =>
          exact (ok_summaries x H)
      | H : namesOk ?x |- forall p, m_breakDest ?x = Some p -> _ =>
          exact (ok_breakDest x H)
      | H : namesOk ?x |- forall p, m_continueDest ?x = Some p -> _ =>
          exact (ok_continueDest x H)
      | H : namesOk ?x |- forall k p, m_interfaces ?x !! k = Some p -> _ =>
          exact (ok_interfaces x H)
      end
    | let p := fresh "p" in let E := fresh "E" in
      intros p E; injection E as <-; assumption
    | let p := fresh "p" in let E := fresh "E" in
      intros p E; discriminate E ].

Ltac ok_pure := split; ok_field.

(** The same, by computing the field. *)
Ltac ok_computed field :=
  fields;
  first
    [ match goal with
      | H : namesOk ?x |- _ => exact (field x H)
      end
    | let p := fresh "p" in let E := fresh "E" in
      intros p E; injection E as <-; assumption
    | let p := fresh "p" in let E := fresh "E" in
      intros p E; discriminate E ].

Ltac ok_fast :=
  split;
    [ ok_computed ok_genesis | ok_computed ok_error | ok_computed ok_constructorSummary
    | ok_computed ok_implicitConstructor | ok_computed ok_summaries
    | ok_computed ok_breakDest | ok_computed ok_continueDest | ok_computed ok_interfaces ].

Ltac step_pure :=
  first
    [ apply step_refl
    | apply quiet_step; frame_pure
    | let Hcur := fresh "Hcur" in
      intros Hcur; split; [ ok_fast | apply logged_same; fields; reflexivity ]
    | let Hcur := fresh "Hcur" in
      intros Hcur; split;
        [ ok_pure | apply logged_same; autorewrite with fields; reflexivity ] ].

(** One step of a run, and the run to its end. *)
Ltac step_next :=
  match goal with
  | HL : logged ?s0 ?cur, H : ?m ?t = Some (_, ?s') |- _ =>
      let b := state_base t in
      constr_eq b cur; assert_fails (constr_eq s' t);
      let Hok := fresh "Hok" in let Hlog := fresh "Hlog" in
      assert (namesOk s' /\ logged s0 s') as [Hok Hlog]
        by (eapply (step_from s0 cur t s');
              [ exact HL | assumption | step_pure | solve [eauto 3 with steps] ]);
      clear HL H
  end.

Ltac step_end :=
  match goal with
  | HL : logged ?s0 ?cur |- namesOk ?t /\ logged ?s0 ?t =>
      eapply (step_from s0 cur t t); [ exact HL | assumption | step_pure | apply step_refl ]
  end.

Ltac step_run :=
  let Hok := fresh "Hok" in
  intros Hok;
  match goal with
  | |- namesOk _ /\ logged ?s _ => pose proof (logged_refl s) as ?Hlog
  end;
  repeat step_next; step_end.

Ltac step_auto := intros; run_inv; step_run.

Lemma m_error_increaseIndex_quiet `{Environment}  s u s' :
  CHC.m_error_increaseIndex  s = Some (u, s') -> quiet s s'.
Proof. unfold CHC.m_error_increaseIndex. frame_auto quiet_trans. Qed.
#[global] Hint Extern 1 (quiet ?s ?s') =>
  match goal with
  | H : CHC.m_error_increaseIndex  s = Some (_, s') |- _ => eapply m_error_increaseIndex_quiet; exact H
  end : frame.

Lemma predicate_FunctionCall_quiet `{Environment} x0 s u s' :
  CHC.predicate_FunctionCall x0 s = Some (u, s') -> quiet s s'.
Proof. unfold CHC.predicate_FunctionCall. frame_auto quiet_trans. Qed.
#[global] Hint Extern 1 (quiet ?s ?s') =>
  match goal with
  | H : CHC.predicate_FunctionCall _ s = Some (_, s') |- _ => eapply predicate_FunctionCall_quiet; exact H
  end : frame.

Lemma unknownFunctionCall_quiet `{Environment} x0 s u s' :
  CHC.unknownFunctionCall x0 s = Some (u, s') -> quiet s s'.
Proof. unfold CHC.unknownFunctionCall. frame_auto quiet_trans. Qed.
#[global] Hint Extern 1 (quiet ?s ?s') =>
  match goal with
  | H : CHC.unknownFunctionCall _ s = Some (_, s') |- _ => eapply unknownFunctionCall_quiet; exact H
  end : frame.

Lemma addVerificationTarget_quiet `{Environment} x0 x1 x2 x3 s u s' :
  CHC.addVerificationTarget x0 x1 x2 x3 s = Some (u, s') -> quiet s s'.
Proof.
  unfold CHC.addVerificationTarget. intros Hr. run_inv.
  destruct (m_verificationTargets s !! x0); frame_pure.
Qed.
#[global] Hint Extern 1 (quiet ?s ?s') =>
  match goal with
  | H : CHC.addVerificationTarget _ _ _ _ s = Some (_, s') |- _ => eapply addVerificationTarget_quiet; exact H
  end : frame.

Lemma initContract_quiet `{Environment} x0 s u s' :
  CHC.initContract x0 s = Some (u, s') -> quiet s s'.
Proof. unfold CHC.initContract. frame_auto quiet_trans. Qed.
#[global] Hint Extern 1 (quiet ?s ?s') =>
  match goal with
  | H : CHC.initContract _ s = Some (_, s') |- _ => eapply initContract_quiet; exact H
  end : frame.

Lemma SMTEncoder_endVisit_ContractDefinition_quiet `{Environment} x0 s u s' :
  CHC.SMTEncoder_endVisit_ContractDefinition x0 s = Some (u, s') -> quiet s s'.
Proof. unfold CHC.SMTEncoder_endVisit_ContractDefinition. frame_auto quiet_trans. Qed.
#[global] Hint Extern 1 (quiet ?s ?s') =>
  match goal with
  | H : CHC.SMTEncoder_endVisit_ContractDefinition _ s = Some (_, s') |- _ => eapply SMTEncoder_endVisit_ContractDefinition_quiet; exact H
  end : frame.

Section Proofs.
Context `{Environment}.

(** ** The operations that register and emit *)

Lemma createSymbolicBlock_step so name s p s' :
  CHC.createSymbolicBlock so name s = Some (p, s') ->
  (forall k, ~ counterNamed k name) ->
  step s s' /\ smt.sfv_name p = name.
Proof.
  unfold CHC.createSymbolicBlock, CHC.registerRelation. intros Hr Hplain. run_inv.
  split; [|reflexivity]. intros Hok. split; [ok_pure|].
  split; autorewrite with fields.
  - reflexivity.
  - eexists. split; [reflexivity|]. apply counterNames_plain. exact Hplain.
  - exists []. rewrite app_nil_r. split; [reflexivity|constructor].
Qed.

Lemma createBlock_step node prefix s b s' :
  CHC.createBlock node prefix s = Some (b, s') -> step s s' /\ noInterface b.
Proof.
  unfold CHC.createBlock, CHC.uniquePrefix, CHC.createSymbolicBlock, CHC.registerRelation.
  intros Hr. run_inv.
  split; [|reflexivity]. intros Hok. split; [ok_pure|].
  split; autorewrite with fields.
  - lia.
  - eexists. split; [reflexivity|]. cbn [fmap list_fmap smt.sfv_name].
    apply counterNames_counter. apply counterNamed_block.
  - exists []. rewrite app_nil_r. split; [reflexivity|constructor].
Qed.

Lemma createSummaryBlock_step function contract s b s' :
  CHC.createSummaryBlock function contract s = Some (b, s') -> step s s' /\ noInterface b.
Proof.
  unfold CHC.createSummaryBlock, CHC.uniquePrefix, CHC.createSymbolicBlock,
    CHC.registerRelation.
  intros Hr. run_inv.
  split; [|reflexivity]. intros Hok. split; [ok_pure|].
  split; autorewrite with fields.
  - lia.
  - eexists. split; [reflexivity|]. cbn [fmap list_fmap smt.sfv_name].
    apply counterNames_counter. apply counterNamed_summary.
  - exists []. rewrite app_nil_r. split; [reflexivity|constructor].
Qed.

Lemma connectBlocks_step from to c s u s' :
  CHC.connectBlocks from to c s = Some (u, s') -> targetOk from to c -> step s s'.
Proof.
  unfold CHC.connectBlocks, CHC.addRule. intros Hr Hto. run_inv.
  intros Hok. split; [ok_pure|].
  split; autorewrite with fields.
  - reflexivity.
  - exists []. rewrite app_nil_r. split; [reflexivity|apply counterNames_nil].
  - eexists. split; [reflexivity|]. constructor; [|constructor].
    intros from' assertions c' p i args E Hp. cbn in E.
    injection E as E1 _ E3 E4. rewrite <- E1, <- E3. exact (Hto p i args E4 Hp).
Qed.

(** A rule that is no edge, such as the fact of the genesis predicate. *)
Lemma addRule_step p i args name s u s' :
  CHC.addRule (smt.Apply p i args) name s = Some (u, s') -> step s s'.
Proof.
  unfold CHC.addRule. intros Hr. run_inv.
  intros Hok. split; [ok_pure|].
  split; autorewrite with fields.
  - reflexivity.
  - exists []. rewrite app_nil_r. split; [reflexivity|apply counterNames_nil].
  - eexists. split; [reflexivity|]. constructor; [|constructor].
    intros from' assertions c' q j args' E _. discriminate E.
Qed.

Lemma createErrorBlock_step s u s' : CHC.createErrorBlock s = Some (u, s') -> step s s'.
Proof.
  unfold CHC.createErrorBlock, CHC.registerRelation. intros Hr. run_inv.
  intros Hok.
  match goal with
  | E : m_errorPredicate s = Some ?p |- _ => pose proof (ok_error _ Hok _ E) as [Hi Hplain]
  end.
  split.
  - split; autorewrite with fields; try ok_field.
    intros p [= <-]. split; assumption.
  - split; autorewrite with fields.
    + reflexivity.
    + eexists. split; [reflexivity|]. apply counterNames_plain. exact Hplain.
    + exists []. rewrite app_nil_r. split; [reflexivity|constructor].
Qed.

(** ** The conclusions of the edges *)

Lemma targetOk_apply from b args c : noInterface b -> targetOk from (smt.apply b args) c.
Proof. intros Hb p i args' [= <- _ _] Hp. unfold noInterface in Hb. congruence. Qed.

Lemma targetOk_zero from to c : errorIsZero from c -> targetOk from to c.
Proof. intros Hz p i args _ _. exact Hz. Qed.

Lemma targetOk_predicate from b c s to s' :
  CHC.predicate b s = Some (to, s') -> noInterface b -> targetOk from to c.
Proof.
  unfold CHC.predicate. intros Hr Hb. run_inv. apply targetOk_apply. exact Hb.
Qed.

Lemma targetOk_summary_contract from c s to s' :
  CHC.summary_contract s = Some (to, s') -> namesOk s -> targetOk from to c.
Proof.
  unfold CHC.summary_contract. intros Hr Hok. run_inv. apply targetOk_apply.
  eapply ok_constructorSummary; eassumption.
Qed.

Lemma targetOk_summary from c f s to s' :
  CHC.summary f s = Some (to, s') -> namesOk s -> targetOk from to c.
Proof.
  unfold CHC.summary, CHC.lookupSummary. intros Hr Hok. run_inv.
  all: apply targetOk_apply; eapply ok_summaries; eassumption.
Qed.

Lemma targetOk_error from c s to s' :
  CHC.error s = Some (to, s') -> namesOk s -> targetOk from to c.
Proof.
  unfold CHC.error. intros Hr Hok. run_inv. apply targetOk_apply.
  eapply ok_error; eassumption.
Qed.

Lemma createBlock_step_1 node prefix s b s' :
  CHC.createBlock node prefix s = Some (b, s') -> step s s'.
Proof. intros Hr. apply (createBlock_step _ _ _ _ _ Hr). Qed.

Lemma createBlock_noInterface node prefix s b s' :
  CHC.createBlock node prefix s = Some (b, s') -> noInterface b.
Proof. intros Hr. apply (createBlock_step _ _ _ _ _ Hr). Qed.

Lemma connectCurrentTo_step b c s u s' :
  CHC.connectCurrentTo b c s = Some (u, s') -> noInterface b -> step s s'.
Proof.
  unfold CHC.connectCurrentTo. intros Hr Hb. run_inv.
  eapply connectBlocks_step; [eassumption|].
  eapply targetOk_predicate; eassumption.
Qed.

End Proofs.

(** The conclusion of an edge, from what is known of it. *)
Ltac target_solver :=
  first
    [ apply targetOk_apply; assumption
    | match goal with
      | Hp : CHC.predicate ?b _ = Some (?to, _) |- targetOk _ ?to _ =>
          apply (targetOk_predicate _ _ _ _ _ _ Hp); assumption
      | Hp : CHC.summary ?f _ = Some (?to, _) |- targetOk _ ?to _ =>
          apply (targetOk_summary _ _ _ _ _ _ Hp); assumption
      | Hp : CHC.summary_contract _ = Some (?to, _) |- targetOk _ ?to _ =>
          apply (targetOk_summary_contract _ _ _ _ _ Hp); assumption
      | Hp : CHC.error _ = Some (?to, _) |- targetOk _ ?to _ =>
          apply (targetOk_error _ _ _ _ _ Hp); assumption
      end ].

#[global] Hint Extern 1 (step ?s ?s') =>
  match goal with
  | H : CHC.createBlock _ _ s = Some (_, s') |- _ => eapply createBlock_step_1; exact H
  | H : CHC.connectBlocks _ _ _ s = Some (_, s') |- _ =>
      eapply connectBlocks_step; [exact H|target_solver]
  | H : CHC.connectCurrentTo _ _ s = Some (_, s') |- _ =>
      eapply connectCurrentTo_step; [exact H|assumption]
  | H : CHC.createErrorBlock s = Some (_, s') |- _ => eapply createErrorBlock_step; exact H
  end : steps.

(** What is known of the blocks that a run creates. *)
Ltac note_blocks :=
  repeat match goal with
  | H : CHC.createBlock _ _ _ = Some (?b, _) |- _ =>
      lazymatch goal with
      | _ : noInterface b |- _ => fail
      | _ => pose proof (createBlock_noInterface _ _ _ _ _ H)
      end
  end.

(** The readers that a run chose between. *)
Ltac split_readers :=
  repeat match goal with
  | H : (if ?b then _ else _) _ = Some _ |- _ => destruct b eqn:?
  | H : (match ?x with _ => _ end) _ = Some _ |- _ => destruct x eqn:?
  end.

Ltac step_auto ::= intros; run_inv; split_readers; note_blocks; step_run.

Section Proofs.
Context `{Environment}.

Lemma forEach_step {A} (f : A -> M unit) l s u s' :
  Forall (fun a => forall t v t', f a t = Some (v, t') -> step t t') l ->
  forEach l f s = Some (u, s') -> step s s'.
Proof. intros Hf. apply forEach_rel; [apply step_refl|apply step_trans|exact Hf]. Qed.

Lemma visitAssert_step e s u s' : CHC.visitAssert e s = Some (u, s') -> step s s'.
Proof. unfold CHC.visitAssert. step_auto. Qed.

End Proofs.

#[global] Hint Extern 1 (step ?s ?s') =>
  match goal with
  | H : CHC.visitAssert _ s = Some (_, s') |- _ => eapply visitAssert_step; exact H
  end : steps.

Lemma internalFunctionCall_step `{Environment} e s u s' :
  CHC.internalFunctionCall e s = Some (u, s') -> step s s'.
Proof. unfold CHC.internalFunctionCall. step_auto. Qed.
#[global] Hint Extern 1 (step ?s ?s') =>
  match goal with
  | H : CHC.internalFunctionCall _ s = Some (_, s') |- _ => eapply internalFunctionCall_step; exact H
  end : steps.

Lemma endVisit_FunctionCall_step `{Environment} e s u s' :
  CHC.endVisit_FunctionCall e s = Some (u, s') -> step s s'.
Proof. unfold CHC.endVisit_FunctionCall. step_auto. Qed.
#[global] Hint Extern 1 (step ?s ?s') =>
  match goal with
  | H : CHC.endVisit_FunctionCall _ s = Some (_, s') |- _ => eapply endVisit_FunctionCall_step; exact H
  end : steps.

Lemma acceptExpression_step `{Environment} e : forall s u s',
  CHC.acceptExpression e s = Some (u, s') -> step s s'.
Proof.
  induction e as [id k fk d callee args IHc IHa|id subs IHs] using Expression_ind';
    intros s u s' Hr; cbn [CHC.acceptExpression] in Hr.
  - run_next a1 s1 H1. run_next a2 s2 H2.
    apply step_trans with s1; [eapply IHc; eassumption|].
    apply step_trans with s2; [|eauto with steps].
    revert H2. apply forEach_step. exact IHa.
  - run_next a1 s1 H1. run_next a2 s2 H2.
    apply step_trans with s1; [eauto with steps|].
    apply step_trans with s2; [|eauto with steps].
    revert H2. apply forEach_step. exact IHs.
Qed.
#[global] Hint Extern 1 (step ?s ?s') =>
  match goal with
  | H : CHC.acceptExpression _ s = Some (_, s') |- _ => eapply acceptExpression_step; exact H
  end : steps.

Lemma endVisit_Break_step `{Environment} st s u s' :
  CHC.endVisit_Break st s = Some (u, s') -> step s s'.
Proof.
  unfold CHC.endVisit_Break. intros Hr. run_inv. note_blocks. intros Hok.
  match goal with
  | E : m_breakDest s = Some ?d |- _ => pose proof (ok_breakDest _ Hok _ E)
  end.
  revert Hok. step_run.
Qed.
#[global] Hint Extern 1 (step ?s ?s') =>
  match goal with
  | H : CHC.endVisit_Break _ s = Some (_, s') |- _ => eapply endVisit_Break_step; exact H
  end : steps.

Lemma endVisit_Continue_step `{Environment} st s u s' :
  CHC.endVisit_Continue st s = Some (u, s') -> step s s'.
Proof.
  unfold CHC.endVisit_Continue. intros Hr. run_inv. note_blocks. intros Hok.
  match goal with
  | E : m_continueDest s = Some ?d |- _ => pose proof (ok_continueDest _ Hok _ E)
  end.
  revert Hok. step_run.
Qed.
#[global] Hint Extern 1 (step ?s ?s') =>
  match goal with
  | H : CHC.endVisit_Continue _ s = Some (_, s') |- _ => eapply endVisit_Continue_step; exact H
  end : steps.

Section Visit.
Context `{Environment}.
Variable acceptE : Expression -> M unit.
Variable acceptS : Statement -> M unit.
Hypothesis acceptE_step : forall e s u s', acceptE e s = Some (u, s') -> step s s'.

Local Hint Extern 1 (step ?s ?s') =>
  match goal with
  | H : acceptE _ s = Some (_, s') |- _ => eapply acceptE_step; exact H
  end : steps.

Lemma visit_IfStatement_step id c t f s b s' :
  (forall s u s', acceptS t s = Some (u, s') -> step s s') ->
  (forall f', f = Some f' -> forall s u s', acceptS f' s = Some (u, s') -> step s s') ->
  CHC.visit_IfStatement acceptE acceptS id c t f s = Some (b, s') -> step s s'.
Proof.
  intros Ht Hf. unfold CHC.visit_IfStatement. intros Hr. run_inv.
  all: try (pose proof (Hf _ eq_refl) as Hf').
  all: note_blocks; step_run.
Qed.

Lemma visit_WhileStatement_step id d c body s b s' :
  (forall s u s', acceptS body s = Some (u, s') -> step s s') ->
  CHC.visit_WhileStatement acceptE acceptS id d c body s = Some (b, s') -> step s s'.
Proof.
  intros Hb. unfold CHC.visit_WhileStatement. intros Hr. run_inv.
  all: note_blocks; step_run.
Qed.

Lemma visit_ForStatement_step id i c p body s b s' :
  (forall i', i = Some i' -> forall s u s', acceptS i' s = Some (u, s') -> step s s') ->
  (forall p', p = Some p' -> forall s u s', acceptS p' s = Some (u, s') -> step s s') ->
  (forall s u s', acceptS body s = Some (u, s') -> step s s') ->
  CHC.visit_ForStatement acceptE acceptS id i c p body s = Some (b, s') -> step s s'.
Proof.
  intros Hi Hp Hb. unfold CHC.visit_ForStatement. intros Hr. run_inv.
  all: try (pose proof (Hi _ eq_refl) as Hi').
  all: try (pose proof (Hp _ eq_refl) as Hp').
  all: note_blocks; step_run.
Qed.

End Visit.

Lemma acceptStatement_step `{Environment} st : forall s u s',
  CHC.acceptStatement st s = Some (u, s') -> step s s'.
Proof.
  induction st as [id sts IH|id e|id es|id c t f IHt IHf|id d c b IHb|id i c p b IHi IHp IHb|id|id]
    using Statement_ind'; intros s u s' Hr; cbn [CHC.acceptStatement] in Hr.
  - run_next a1 s1 H1. run_next a2 s2 H2.
    apply step_trans with s1; [eauto with steps|].
    apply step_trans with s2; [|eauto with steps].
    revert H2. apply forEach_step. exact IH.
  - step_auto.
  - run_next a1 s1 H1. run_next a2 s2 H2.
    apply step_trans with s1; [eauto with steps|].
    apply step_trans with s2; [|eauto with steps].
    revert H2. apply forEach_step.
    apply Forall_forall. intros e _. apply acceptExpression_step.
  - run_next a1 s1 H1. repeat run_basic.
    eapply visit_IfStatement_step; [| | |exact H1]; eauto using acceptExpression_step.
  - run_next a1 s1 H1. repeat run_basic.
    eapply visit_WhileStatement_step; [| |exact H1]; eauto using acceptExpression_step.
  - run_next a1 s1 H1. repeat run_basic.
    eapply visit_ForStatement_step; [| | | |exact H1]; eauto using acceptExpression_step.
  - eauto with steps.
  - eauto with steps.
Qed.
#[global] Hint Extern 1 (step ?s ?s') =>
  match goal with
  | H : CHC.acceptStatement _ s = Some (_, s') |- _ => eapply acceptStatement_step; exact H
  end : steps.

(** * Functions, contracts and the driver *)

Lemma createSymbolicBlock_step_1 `{Environment} so name s p s' :
  CHC.createSymbolicBlock so name s = Some (p, s') ->
  (forall k, ~ counterNamed k name) -> step s s'.
Proof. intros Hr Hn. apply (createSymbolicBlock_step _ _ _ _ _ Hr Hn). Qed.

Lemma createSymbolicBlock_name `{Environment} so name s p s' :
  CHC.createSymbolicBlock so name s = Some (p, s') -> smt.sfv_name p = name.
Proof. unfold CHC.createSymbolicBlock. intros Hr. run_inv. reflexivity. Qed.

Lemma isInterfaceName_interface suffix : isInterfaceName ("interface_" +:+ suffix) = true.
Proof. destruct suffix; reflexivity. Qed.

Lemma counterNamed_genesis k : ~ counterNamed k "genesis".
Proof. apply plainName_genesis. Qed.

Lemma counterNamed_error suffix k : ~ counterNamed k ("error_" +:+ suffix).
Proof. apply plainName_error. Qed.

(** The names that the encoder gives without the block counter. *)
Ltac name_solver :=
  let k := fresh "k" in
  intros k;
  first
    [ apply counterNamed_genesis | apply counterNamed_error
    | apply counterNamed_summary_constructor | apply counterNamed_implicit_constructor
    | apply counterNamed_constructor_exit | apply counterNamed_interface ].

#[global] Hint Extern 1 (step ?s ?s') =>
  match goal with
  | H : CHC.createSymbolicBlock _ _ s = Some (_, s') |- _ =>
      eapply createSymbolicBlock_step_1; [exact H|name_solver]
  end : steps.

(** What is known of the predicates that a run creates under such a name. *)
Ltac note_names :=
  repeat match goal with
  | H : CHC.createSymbolicBlock _ ?name _ = Some (?p, _) |- _ =>
      lazymatch goal with
      | _ : smt.sfv_name p = name |- _ => fail
      | _ =>
          let E := fresh "Ename" in
          pose proof (createSymbolicBlock_name _ _ _ _ _ H) as E;
          try (assert (noInterface p) by (unfold noInterface; rewrite E; reflexivity));
          try (assert (plainName (smt.sfv_name p)) by (rewrite E; apply plainName_error));
          try (assert (isInterfaceName (smt.sfv_name p) = true)
                 by (rewrite E; apply isInterfaceName_interface))
      end
  end.

Ltac step_auto ::= intros; run_inv; split_readers; note_blocks; note_names; step_run.

Section Proofs.
Context `{Environment}.

Lemma mapM_step {A B} (f : A -> M B) l s bs s' :
  (forall a t b t', f a t = Some (b, t') -> step t t') ->
  mapM f l s = Some (bs, s') -> step s s'.
Proof.
  intros Hf. apply mapM_rel; [apply step_refl|apply step_trans|].
  apply Forall_forall. intros a _. apply Hf.
Qed.

Lemma forEach_step_all {A} (f : A -> M unit) l s u s' :
  (forall a t v t', f a t = Some (v, t') -> step t t') ->
  forEach l f s = Some (u, s') -> step s s'.
Proof. intros Hf. apply forEach_step. apply Forall_forall. intros a _. apply Hf. Qed.

End Proofs.

#[global] Hint Extern 5 (step ?s ?s') =>
  match goal with
  | H : forEach _ _ s = Some (_, s') |- _ =>
      eapply forEach_step_all; [|exact H]; clear H; step_auto
  end : steps.

Lemma sameError_refl s : sameError s s.
Proof. split. reflexivity. Qed.

Lemma sameError_trans s1 s2 s3 : sameError s1 s2 -> sameError s2 s3 -> sameError s1 s3.
Proof. intros [] []. split. congruence. Qed.

#[global] Hint Resolve sameError_refl : frame.

Lemma modifyContext_sameError `{Environment} f s u s' :
  CHC.modifyContext f s = Some (u, s') -> sameError s s'.
Proof. unfold CHC.modifyContext. frame_auto sameError_trans. Qed.
#[global] Hint Extern 1 (sameError ?s ?s') =>
  match goal with
  | H : CHC.modifyContext _ s = Some (_, s') |- _ => eapply modifyContext_sameError; exact H
  end : frame.

Lemma SMTEncoder_sameError `{Environment} ev s u s' :
  CHC.SMTEncoder ev s = Some (u, s') -> sameError s s'.
Proof. unfold CHC.SMTEncoder. frame_auto sameError_trans. Qed.
#[global] Hint Extern 1 (sameError ?s ?s') =>
  match goal with
  | H : CHC.SMTEncoder _ s = Some (_, s') |- _ => eapply SMTEncoder_sameError; exact H
  end : frame.

Lemma increaseIndex_sameError `{Environment} v s u s' :
  CHC.increaseIndex v s = Some (u, s') -> sameError s s'.
Proof. unfold CHC.increaseIndex. frame_auto sameError_trans. Qed.
#[global] Hint Extern 1 (sameError ?s ?s') =>
  match goal with
  | H : CHC.increaseIndex _ s = Some (_, s') |- _ => eapply increaseIndex_sameError; exact H
  end : frame.

Lemma forEach_sameError {A} (f : A -> M unit) l s u s' :
  (forall a t v t', f a t = Some (v, t') -> sameError t t') ->
  forEach l f s = Some (u, s') -> sameError s s'.
Proof.
  intros Hf. apply forEach_rel; [apply sameError_refl|apply sameError_trans|].
  apply Forall_forall. intros a _. apply Hf.
Qed.
#[global] Hint Extern 5 (sameError ?s ?s') =>
  match goal with
  | H : forEach _ _ s = Some (_, s') |- _ =>
      eapply forEach_sameError; [|exact H]; clear H; frame_auto sameError_trans
  end : frame.

Lemma clearIndices_sameError `{Environment} c f s u s' :
  CHC.clearIndices c f s = Some (u, s') -> sameError s s'.
Proof. unfold CHC.clearIndices. frame_auto sameError_trans. Qed.
#[global] Hint Extern 1 (sameError ?s ?s') =>
  match goal with
  | H : CHC.clearIndices _ _ s = Some (_, s') |- _ => eapply clearIndices_sameError; exact H
  end : frame.

(** [setCurrentBlock] with arguments: the current block is the predicate
    applied to them. *)
Lemma setCurrentBlock_arguments `{Environment} b args s u s' :
  CHC.setCurrentBlock b (Some args) s = Some (u, s') ->
  m_currentBlock s' = smt.apply b args /\ m_error s' = m_error s.
Proof.
  intros Hr. split.
  - unfold CHC.setCurrentBlock, CHC.predicate_args in Hr. run_inv; reflexivity.
  - assert (sameError s s') as [E]; [|exact E].
    revert Hr. unfold CHC.setCurrentBlock, CHC.predicate_args. frame_auto sameError_trans.
Qed.

(** The edge from the summary of the constructor to the interface: it
    leaves the summary applied to the error value and is guarded by
    [error = 0]. *)
Lemma targetOk_constructor_summary `{Environment} to b e state x x1 y y1 e' :
  m_currentBlock y = smt.apply b (e :: state) ->
  m_error y = m_error x ->
  CHC.m_error_currentValue x = Some (e, x1) ->
  CHC.m_error_currentValue y = Some (e', y1) ->
  targetOk (m_currentBlock y) to (smt.Eq e' (smt.IntLit 0)).
Proof.
  intros Ecur Eerr He He'. apply targetOk_zero. left.
  unfold CHC.m_error_currentValue in He, He'. run_inv.
  rewrite Ecur. unfold CHC.errorValue. rewrite Eerr.
  eexists _, _, _, _. split; reflexivity.
Qed.

(** The edge from the summary of a public function to the interface: the
    guard is the summary, applied to the error value, and [error = 0]. *)
Lemma targetOk_function_summary `{Environment} from to f s sum s1 e s2 :
  CHC.summary f s = Some (sum, s1) ->
  CHC.m_error_currentValue s = Some (e, s2) ->
  targetOk from to (smt.And sum (smt.Eq e (smt.IntLit 0))).
Proof.
  intros Hs He. apply targetOk_zero. right.
  apply summary_shape in Hs as (contract & p & rest & _ & _ & ->).
  unfold CHC.m_error_currentValue in He. run_inv.
  eexists _, _, _, _. reflexivity.
Qed.

(** What is known of the blocks that a run moves to. *)
Ltac note_moves :=
  repeat match goal with
  | H : CHC.setCurrentBlock ?b (Some ?args) _ = Some (_, ?y) |- _ =>
      lazymatch goal with
      | _ : m_currentBlock y = smt.apply b args |- _ => fail
      | _ => pose proof (setCurrentBlock_arguments _ _ _ _ _ H) as [? ?]
      end
  end.

Ltac step_auto ::=
  intros; run_inv; split_readers; note_blocks; note_names; note_moves; step_run.

Ltac target_solver ::=
  first
    [ apply targetOk_apply; assumption
    | match goal with
      | E : m_implicitConstructorPredicate ?x = Some ?p, Hx : namesOk ?x
        |- targetOk _ (smt.apply ?p _) _ =>
          apply targetOk_apply; exact (ok_implicitConstructor x Hx p E)
      | E : m_constructorSummaryPredicate ?x = Some ?p, Hx : namesOk ?x
        |- targetOk _ (smt.apply ?p _) _ =>
          apply targetOk_apply; exact (ok_constructorSummary x Hx p E)
      | Ecur : m_currentBlock ?y = smt.apply _ (?e :: _), Eerr : m_error ?y = m_error ?x,
        He : CHC.m_error_currentValue ?x = Some (?e, _),
        He' : CHC.m_error_currentValue ?y = Some (?e', _)
        |- targetOk (m_currentBlock ?y) _ (smt.Eq ?e' (smt.IntLit 0)) =>
          apply (targetOk_constructor_summary _ _ _ _ _ _ _ _ _ Ecur Eerr He He')
      end
    | match goal with
      | Hp : CHC.predicate ?b _ = Some (?to, _) |- targetOk _ ?to _ =>
          apply (targetOk_predicate _ _ _ _ _ _ Hp); assumption
      | Hp : CHC.summary ?f _ = Some (?to, _) |- targetOk _ ?to _ =>
          apply (targetOk_summary _ _ _ _ _ _ Hp); assumption
      | Hp : CHC.summary_contract _ = Some (?to, _) |- targetOk _ ?to _ =>
          apply (targetOk_summary_contract _ _ _ _ _ Hp); assumption
      | Hp : CHC.error _ = Some (?to, _) |- targetOk _ ?to _ =>
          apply (targetOk_error _ _ _ _ _ Hp); assumption
      | Hs : CHC.summary _ ?x = Some (?sum, _), He : CHC.m_error_currentValue ?x = Some (?e, _)
        |- targetOk _ _ (smt.And ?sum (smt.Eq ?e (smt.IntLit 0))) =>
          apply (targetOk_function_summary _ _ _ _ _ _ _ _ Hs He)
      end ].

Section Proofs.
Context `{Environment}.

Lemma visit_FunctionDefinition_step inl f s b s' :
  (forall s u s', inl s = Some (u, s') -> step s s') ->
  CHC.visit_FunctionDefinition inl f s = Some (b, s') -> step s s'.
Proof.
  intros Hinl. unfold CHC.visit_FunctionDefinition, CHC.SMTEncoder_visit_FunctionDefinition,
    CHC.predicate_args.
  step_auto.
Qed.

Lemma endVisit_FunctionDefinition_step f s b s' :
  CHC.endVisit_FunctionDefinition f s = Some (b, s') -> step s s'.
Proof. unfold CHC.endVisit_FunctionDefinition, CHC.predicate_args. step_auto. Qed.

Lemma acceptFunction_step inl f s b s' :
  (forall s u s', inl s = Some (u, s') -> step s s') ->
  CHC.acceptFunction inl f s = Some (b, s') -> step s s'.
Proof.
  intros Hinl. unfold CHC.acceptFunction. intros Hr. run_inv.
  eapply step_trans; [eapply visit_FunctionDefinition_step; eassumption|].
  eapply endVisit_FunctionDefinition_step; eassumption.
Qed.

Lemma initializeStateVariables_step c s u s' :
  CHC.initializeStateVariables c s = Some (u, s') -> step s s'.
Proof. unfold CHC.initializeStateVariables. step_auto. Qed.

Lemma inlineConstructorHierarchy_step hierarchy : forall c s u s',
  CHC.inlineConstructorHierarchy hierarchy c s = Some (u, s') -> step s s'.
Proof.
  induction hierarchy as [|nextBase rest IH]; intros c s u s' Hr;
    cbn [CHC.inlineConstructorHierarchy] in Hr.
  - eapply initializeStateVariables_step; eassumption.
  - destruct (constructor nextBase) as [ctor|]; run_inv.
    + match goal with
      | Hq : CHC.acceptFunction _ _ _ = Some (_, ?s0) |- _ =>
          apply step_trans with s0;
            [|eapply initializeStateVariables_step; eassumption];
          exact (acceptFunction_step _ _ _ _ _ (fun t v t' => IH nextBase t v t') Hq)
      end.
    + match goal with
      | Hq : CHC.inlineConstructorHierarchy _ _ ?s0 = _ |- _ =>
          apply step_trans with s0;
            [eapply initializeStateVariables_step; eassumption|eapply IH; exact Hq]
      end.
Qed.

Lemma SMTEncoder_visit_ContractDefinition_step c s u s' :
  CHC.SMTEncoder_visit_ContractDefinition c s = Some (u, s') -> step s s'.
Proof.
  unfold CHC.SMTEncoder_visit_ContractDefinition. intros Hr. run_inv.
  match goal with
  | Hq : forEach _ _ ?s0 = _ |- _ =>
      apply step_trans with s0; [eauto with steps|];
      revert Hq; apply forEach_step_all
  end.
  intros f t v t'. apply acceptFunction_step. intros t0 v0 t0' Ht. run_inv. apply step_refl.
Qed.

End Proofs.

#[global] Hint Extern 1 (step ?s ?s') =>
  match goal with
  | H : CHC.initializeStateVariables _ s = Some (_, s') |- _ =>
      eapply initializeStateVariables_step; exact H
  | H : CHC.inlineConstructorHierarchy _ _ s = Some (_, s') |- _ =>
      eapply inlineConstructorHierarchy_step; exact H
  | H : CHC.SMTEncoder_visit_ContractDefinition _ s = Some (_, s') |- _ =>
      eapply SMTEncoder_visit_ContractDefinition_step; exact H
  | H : CHC.acceptFunction _ _ s = Some (_, s') |- _ =>
      eapply acceptFunction_step; [|exact H]; apply inlineConstructorHierarchy_step
  end : steps.

Section Proofs.
Context `{Environment}.

Lemma visit_ContractDefinition_step c s b s' :
  CHC.visit_ContractDefinition c s = Some (b, s') -> step s s'.
Proof.
  unfold CHC.visit_ContractDefinition, CHC.resetContractAnalysis, CHC.initContract,
    CHC.m_error_resetIndex.
  step_auto.
Qed.

Lemma endVisit_ContractDefinition_step c s b s' :
  CHC.endVisit_ContractDefinition c s = Some (b, s') -> step s s'.
Proof. unfold CHC.endVisit_ContractDefinition, CHC.predicate_args. step_auto. Qed.

Lemma acceptContract_step c s b s' :
  CHC.acceptContract c s = Some (b, s') -> step s s'.
Proof.
  unfold CHC.acceptContract. intros Hr. run_inv.
  eapply step_trans;
    [eapply visit_ContractDefinition_step; eassumption
    |eapply endVisit_ContractDefinition_step; eassumption].
Qed.

Lemma acceptSourceUnit_step src s b s' :
  CHC.acceptSourceUnit src s = Some (b, s') -> step s s'.
Proof.
  unfold CHC.acceptSourceUnit. apply forEach_step_all. intros c t v t'.
  apply acceptContract_step.
Qed.

Lemma step_set_interfaces k p s :
  isInterfaceName (smt.sfv_name p) = true ->
  step s (set_m_interfaces (<[k := p]> (m_interfaces s)) s).
Proof.
  intros Hp Hok. split; [|apply logged_same; reflexivity].
  destruct Hok. split; autorewrite with fields; try assumption.
  intros k' p' E. destruct (decide (k = k')) as [->|Hk].
  - rewrite lookup_insert_eq in E. injection E as <-. exact Hp.
  - rewrite lookup_insert_ne in E by exact Hk. eauto.
Qed.

Lemma step_set_summaries k f p s :
  noInterface p ->
  step s (set_m_summaries
            (<[k := match default ∅ (m_summaries s !! k) !! f with
                    | Some _ => default ∅ (m_summaries s !! k)
                    | None => <[f := p]> (default ∅ (m_summaries s !! k))
                    end]> (m_summaries s)) s).
Proof.
  intros Hp Hok. split; [|apply logged_same; reflexivity].
  pose proof (ok_summaries _ Hok) as Hs.
  destruct Hok. split; autorewrite with fields; try assumption.
  intros k' m f' p' Em Ep. destruct (decide (k = k')) as [->|Hk].
  - rewrite lookup_insert_eq in Em. injection Em as <-.
    assert (forall q, default ∅ (m_summaries s !! k') !! f' = Some q -> noInterface q) as Hold.
    { intros q Eq. destruct (m_summaries s !! k') as [m0|] eqn:E0; cbn in Eq.
      - eapply Hs; eassumption.
      - rewrite lookup_empty in Eq. discriminate Eq. }
    destruct (default ∅ (m_summaries s !! k') !! f) eqn:Ef.
    + apply Hold. exact Ep.
    + destruct (decide (f = f')) as [->|Hf].
      * rewrite lookup_insert_eq in Ep. injection Ep as <-. exact Hp.
      * rewrite lookup_insert_ne in Ep by exact Hf. apply Hold. exact Ep.
  - rewrite lookup_insert_ne in Em by exact Hk. eapply Hs; eassumption.
Qed.

Lemma defineInterfacesAndSummaries_step src s b s' :
  CHC.defineInterfacesAndSummaries src s = Some (b, s') -> step s s'.
Proof.
  unfold CHC.defineInterfacesAndSummaries.
  apply forEach_step_all. intros c t v t'.
  apply forEach_step_all. intros base t0 v0 t0'.
  intros Hr. run_inv. note_names.
  match goal with
  | H1 : CHC.createSymbolicBlock _ _ t0 = Some (?a, ?s0),
    H2 : forEach _ _ (set_m_interfaces ?m ?s0) = Some (_, ?s2) |- _ =>
      apply step_trans with s0; [eauto with steps|];
      apply step_trans with (set_m_interfaces m s0);
        [apply step_set_interfaces; assumption|];
      apply step_trans with s2; [eauto with steps|]
  end.
  revert Hr. apply forEach_step_all. intros function t1 v1 t1' Hr. run_inv.
  match goal with
  | H1 : CHC.createSummaryBlock _ _ t1 = Some (?p, ?s3) |- _ =>
      destruct (createSummaryBlock_step _ _ _ _ _ H1) as [Hstep Hp];
      apply step_trans with s3; [exact Hstep|]
  end.
  apply step_set_summaries. assumption.
Qed.

Lemma query_quiet q location s r s' : CHC.query q location s = Some (r, s') -> quiet s s'.
Proof.
  intros Hr. apply query_spec in Hr. subst s'. frame_pure.
Qed.

Lemma transactionAssertions_quiet root s r s' :
  CHC.transactionAssertions root s = Some (r, s') -> quiet s s'.
Proof.
  unfold CHC.transactionAssertions. intros Hr. run_inv. frame_pure.
Qed.

End Proofs.

#[global] Hint Extern 1 (quiet ?s ?s') =>
  match goal with
  | H : CHC.query _ _ s = Some (_, s') |- _ => eapply query_quiet; exact H
  | H : CHC.transactionAssertions _ s = Some (_, s') |- _ =>
      eapply transactionAssertions_quiet; exact H
  end : frame.

Section Proofs.
Context `{Environment}.

Lemma checkAssertion_step target assertion s r s' :
  CHC.checkAssertion target assertion s = Some (r, s') -> step s s'.
Proof. unfold CHC.checkAssertion. step_auto. Qed.

Lemma checkTargets_step targets s outcomes s' :
  CHC.checkTargets targets s = Some (outcomes, s') -> step s s'.
Proof.
  unfold CHC.checkTargets. intros Hr. run_inv.
  match goal with Hm : mapM _ _ _ = Some _ |- _ => revert Hm end.
  apply mapM_step. intros [scope target] t b t' Hr. run_inv.
  match goal with
  | Ht : CHC.transactionAssertions _ t = Some (_, ?t1) |- _ =>
      apply step_trans with t1; [apply quiet_step; eauto with frame|]
  end.
  match goal with Hm : mapM _ _ _ = Some _ |- _ => revert Hm end.
  apply mapM_step. intros assertion t2 b2 t2' Hr. run_inv.
  eapply checkAssertion_step; eassumption.
Qed.

End Proofs.

(** * The whole analysis *)

Section Proofs.
Context `{Environment}.

Lemma resetSourceAnalysis_step s u s' :
  CHC.resetSourceAnalysis s = Some (u, s') -> step s s'.
Proof.
  unfold CHC.resetSourceAnalysis. intros Hr. run_inv.
  intros Hok. split; [|apply logged_same; reflexivity].
  destruct Hok. split; autorewrite with fields; try assumption.
  intros k m f p E. rewrite lookup_empty in E. discriminate E.
Qed.

Lemma genesis_shape s g s' :
  CHC.genesis s = Some (g, s') ->
  exists p, m_genesisPredicate s = Some p /\ g = smt.Apply (smt.sfv_name p) (smt.sfv_index p) [].
Proof. unfold CHC.genesis. intros Hr. run_inv. eauto. Qed.

(** The analysis keeps the names in order and logs what it adds to the
    backend. *)
Lemma analyze_step _source referenced s outcomes s' :
  CHC.analyze _source referenced s = Some (outcomes, s') -> step s s'.
Proof.
  unfold CHC.analyze. intros Hr.
  run_next ua sa Ha. apply solAssert_Some in Ha as [_ ->].
  run_next u0 s0 H0. run_next u1 s1 H1. run_next p s2 H2. run_next u3 s3 H3.
  run_next g s4 H4. run_next u5 s5 H5. run_next u6 s6 H6. run_next u7 s7 H7.
  run_next targets s8 H8.
  note_names. apply modify_Some in H3 as ->.
  apply genesis_shape in H4 as Hg. destruct Hg as (q & _ & ->).
  assert (s4 = set_m_genesisPredicate (Some p) s2) as ->.
  { unfold CHC.genesis in H4. run_inv. reflexivity. }
  apply gets_Some in H8 as [-> ->].
  apply step_trans with s0; [apply quiet_step; eauto with frame|].
  apply step_trans with s1; [eapply resetSourceAnalysis_step; eassumption|].
  apply step_trans with s2; [eauto with steps|].
  apply step_trans with (set_m_genesisPredicate (Some p) s2).
  { intros Hok. split; [ok_fast|apply logged_same; reflexivity]. }
  apply step_trans with s5; [eapply addRule_step; eassumption|].
  apply step_trans with s6.
  { revert H6. apply forEach_step_all. intros src t v t'.
    apply defineInterfacesAndSummaries_step. }
  apply step_trans with s7.
  { revert H7. apply forEach_step_all. intros src t v t'. apply acceptSourceUnit_step. }
  eapply checkTargets_step; eassumption.
Qed.

(** The state of a freshly constructed encoder. *)
Lemma namesOk_fresh s :
  m_genesisPredicate s = None -> m_errorPredicate s = None ->
  m_constructorSummaryPredicate s = None -> m_implicitConstructorPredicate s = None ->
  m_summaries s = ∅ -> m_breakDest s = None -> m_continueDest s = None ->
  m_interfaces s = ∅ -> namesOk s.
Proof.
  intros E1 E2 E3 E4 E5 E6 E7 E8.
  split; rewrite ?E1, ?E2, ?E3, ?E4, ?E5, ?E6, ?E7, ?E8; discriminate.
Qed.

(** C4.  Every rule that [analyze] emits and whose conclusion is the
    application of an interface predicate says that the error value of the
    edge is 0: the edge leaves the summary of the constructor applied to
    the error value and is guarded by [error = 0], or it is guarded by the
    summary of a public function, applied to the error value, conjoined with
    [error = 0].  The interface predicates are the predicates whose name
    starts with [interface_]. *)
Theorem interface_edges_say_error_is_zero _source referenced s outcomes s' :
  namesOk s ->
  CHC.analyze _source referenced s = Some (outcomes, s') ->
  (forall k p, m_interfaces s' !! k = Some p -> isInterfaceName (smt.sfv_name p) = true) /\
  exists R,
    rules (m_interface s') = rules (m_interface s) ++ R /\
    forall from assertions constraints p args name,
      (CHC.edge from assertions constraints (smt.apply p args), name) ∈ R ->
      isInterfaceName (smt.sfv_name p) = true ->
      errorIsZero from constraints.
Proof.
  intros Hok Hr. destruct (analyze_step _ _ _ _ _ Hr Hok) as [Hok' [_ _ (R & HR & Hgood)]].
  split; [exact (ok_interfaces _ Hok')|].
  exists R. split; [exact HR|].
  intros from assertions constraints p args name Hin Hp.
  rewrite Forall_forall in Hgood.
  exact (Hgood _ Hin from assertions constraints _ _ args eq_refl Hp).
Qed.

(** C8, as the code has it.  A name that [createBlock] or
    [createSummaryBlock] generates contains the value that the block counter
    has at that moment, and the counter is incremented.  During [analyze]
    the counter does not go down, and among the predicates that [analyze]
    registers the names that are built from the counter carry a value the
    counter went through and are pairwise distinct. *)
Theorem counter_names_are_distinct _source referenced s outcomes s' :
  namesOk s ->
  CHC.analyze _source referenced s = Some (outcomes, s') ->
  (forall node prefix t b t',
     CHC.createBlock node prefix t = Some (b, t') ->
     (exists rest, smt.sfv_name b = "block_" +:+ pretty (m_blockCounter t) +:+ "_" +:+ rest) /\
     m_blockCounter t' = S (m_blockCounter t)) /\
  (forall function contract t b t',
     CHC.createSummaryBlock function contract t = Some (b, t') ->
     (exists rest, smt.sfv_name b = "summary_" +:+ pretty (m_blockCounter t) +:+ "_" +:+ rest) /\
     m_blockCounter t' = S (m_blockCounter t)) /\
  m_blockCounter s <= m_blockCounter s' /\
  exists P,
    relations (m_interface s') = relations (m_interface s) ++ P /\
    forall i j name k,
      (smt.sfv_name <$> P) !! i = Some name ->
      (smt.sfv_name <$> P) !! j = Some name ->
      counterNamed k name ->
      m_blockCounter s <= k < m_blockCounter s' /\ i = j.
Proof.
  intros Hok Hr. split; [|split].
  - intros node prefix t b t'.
    unfold CHC.createBlock, CHC.uniquePrefix, CHC.createSymbolicBlock, CHC.registerRelation.
    intros Hb. run_inv. split; [eexists; reflexivity|reflexivity].
  - intros function contract t b t'.
    unfold CHC.createSummaryBlock, CHC.uniquePrefix, CHC.createSymbolicBlock,
      CHC.registerRelation.
    intros Hb. run_inv. split; [eexists; reflexivity|reflexivity].
  - destruct (analyze_step _ _ _ _ _ Hr Hok) as [_ [Hc (P & HP & [Hrange Hdistinct]) _]].
    split; [exact Hc|]. exists P. split; [exact HP|].
    intros i j name k Hi Hj Hk. split.
    + eapply Hrange; [|exact Hk]. eapply list_elem_of_lookup_2. exact Hi.
    + eapply Hdistinct; eassumption.
Qed.

End Proofs.

(** * The havoc at an unknown call and at the exit of a statement *)

Lemma bind_assoc {A B C} (m : M A) (k : A -> M B) (k' : B -> M C) s :
  bind (bind m k) k' s = bind m (fun a => bind (k a) k') s.
Proof. unfold bind. destruct (m s) as [[a s1]|]; reflexivity. Qed.

Lemma bind_ext {A B} (m : M A) (k k' : A -> M B) s :
  (forall a s1, k a s1 = k' a s1) -> bind m k s = bind m k' s.
Proof. intros Hk. unfold bind. destruct (m s) as [[a s1]|]; [apply Hk|reflexivity]. Qed.

Lemma bind_ext_l {A B} (m m' : M A) (k : A -> M B) s :
  (forall s0, m s0 = m' s0) -> bind m k s = bind m' k s.
Proof. intros Hm. unfold bind. rewrite Hm. reflexivity. Qed.

(** A visitor is its part up to the exit followed by the exit: one step of
    the comparison of the two programs. *)
Ltac split_exit :=
  repeat (cbv zeta;
          match goal with
          | |- bind ?m ?k ?s = bind (bind ?m ?k1) ?k2 ?s =>
              transitivity (bind m (fun a => bind (k1 a) k2) s);
              [apply bind_ext; intros ? ?; cbv beta|symmetry; apply bind_assoc]
          end);
  reflexivity.

(** ** An unknown call that was seen stays seen *)

Lemma seenStays_refl s : seenStays s s.
Proof. split. auto. Qed.

Lemma seenStays_trans s1 s2 s3 : seenStays s1 s2 -> seenStays s2 s3 -> seenStays s1 s3.
Proof. intros [H1] [H2]. split. auto. Qed.

#[global] Hint Resolve seenStays_refl : frame.

Lemma forEach_seenStays {A} (f : A -> M unit) l s u s' :
  (forall a t v t', f a t = Some (v, t') -> seenStays t t') ->
  forEach l f s = Some (u, s') -> seenStays s s'.
Proof.
  intros Hf. apply forEach_rel; [apply seenStays_refl|apply seenStays_trans|].
  apply Forall_forall. intros a _. apply Hf.
Qed.

#[global] Hint Extern 5 (seenStays ?s ?s') =>
  match goal with
  | H : forEach _ _ s = Some (_, s') |- _ =>
      eapply forEach_seenStays; [|exact H]; clear H; frame_auto seenStays_trans
  end : frame.

Lemma modifyContext_seenStays `{Environment} x0 s u s' :
  CHC.modifyContext x0 s = Some (u, s') -> seenStays s s'.
Proof. unfold CHC.modifyContext. frame_auto seenStays_trans. Qed.
#[global] Hint Extern 1 (seenStays ?s ?s') =>
  match goal with
  | H : CHC.modifyContext _ s = Some (_, s') |- _ => eapply modifyContext_seenStays; exact H
  end : frame.

Lemma SMTEncoder_seenStays `{Environment} x0 s u s' :
  CHC.SMTEncoder x0 s = Some (u, s') -> seenStays s s'.
Proof. unfold CHC.SMTEncoder. frame_auto seenStays_trans. Qed.
#[global] Hint Extern 1 (seenStays ?s ?s') =>
  match goal with
  | H : CHC.SMTEncoder _ s = Some (_, s') |- _ => eapply SMTEncoder_seenStays; exact H
  end : frame.

Lemma addAssertion_seenStays `{Environment} x0 s u s' :
  CHC.addAssertion x0 s = Some (u, s') -> seenStays s s'.
Proof. unfold CHC.addAssertion. frame_auto seenStays_trans. Qed.
#[global] Hint Extern 1 (seenStays ?s ?s') =>
  match goal with
  | H : CHC.addAssertion _ s = Some (_, s') |- _ => eapply addAssertion_seenStays; exact H
  end : frame.

Lemma createVariable_seenStays `{Environment} x0 s u s' :
  CHC.createVariable x0 s = Some (u, s') -> seenStays s s'.
Proof. unfold CHC.createVariable. frame_auto seenStays_trans. Qed.
#[global] Hint Extern 1 (seenStays ?s ?s') =>
  match goal with
  | H : CHC.createVariable _ s = Some (_, s') |- _ => eapply createVariable_seenStays; exact H
  end : frame.

Lemma increaseIndex_seenStays `{Environment} x0 s u s' :
  CHC.increaseIndex x0 s = Some (u, s') -> seenStays s s'.
Proof. unfold CHC.increaseIndex. frame_auto seenStays_trans. Qed.
#[global] Hint Extern 1 (seenStays ?s ?s') =>
  match goal with
  | H : CHC.increaseIndex _ s = Some (_, s') |- _ => eapply increaseIndex_seenStays; exact H
  end : frame.

Lemma resetIndex_seenStays `{Environment} x0 s u s' :
  CHC.resetIndex x0 s = Some (u, s') -> seenStays s s'.
Proof. unfold CHC.resetIndex. frame_auto seenStays_trans. Qed.
#[global] Hint Extern 1 (seenStays ?s ?s') =>
  match goal with
  | H : CHC.resetIndex _ s = Some (_, s') |- _ => eapply resetIndex_seenStays; exact H
  end : frame.

Lemma m_error_increaseIndex_seenStays `{Environment}  s u s' :
  CHC.m_error_increaseIndex  s = Some (u, s') -> seenStays s s'.
Proof. unfold CHC.m_error_increaseIndex. frame_auto seenStays_trans. Qed.
#[global] Hint Extern 1 (seenStays ?s ?s') =>
  match goal with
  | H : CHC.m_error_increaseIndex  s = Some (_, s') |- _ => eapply m_error_increaseIndex_seenStays; exact H
  end : frame.

Lemma eraseKnowledge_seenStays `{Environment}  s u s' :
  CHC.eraseKnowledge  s = Some (u, s') -> seenStays s s'.
Proof. unfold CHC.eraseKnowledge, CHC.resetStateVariables. frame_auto seenStays_trans. Qed.
#[global] Hint Extern 1 (seenStays ?s ?s') =>
  match goal with
  | H : CHC.eraseKnowledge  s = Some (_, s') |- _ => eapply eraseKnowledge_seenStays; exact H
  end : frame.

Lemma createSymbolicBlock_seenStays `{Environment} x0 x1 s u s' :
  CHC.createSymbolicBlock x0 x1 s = Some (u, s') -> seenStays s s'.
Proof. unfold CHC.createSymbolicBlock, CHC.registerRelation. frame_auto seenStays_trans. Qed.
#[global] Hint Extern 1 (seenStays ?s ?s') =>
  match goal with
  | H : CHC.createSymbolicBlock _ _ s = Some (_, s') |- _ => eapply createSymbolicBlock_seenStays; exact H
  end : frame.

Lemma createBlock_seenStays `{Environment} x0 x1 s u s' :
  CHC.createBlock x0 x1 s = Some (u, s') -> seenStays s s'.
Proof. unfold CHC.createBlock, CHC.uniquePrefix. frame_auto seenStays_trans. Qed.
#[global] Hint Extern 1 (seenStays ?s ?s') =>
  match goal with
  | H : CHC.createBlock _ _ s = Some (_, s') |- _ => eapply createBlock_seenStays; exact H
  end : frame.

Lemma connectBlocks_seenStays `{Environment} x0 x1 x2 s u s' :
  CHC.connectBlocks x0 x1 x2 s = Some (u, s') -> seenStays s s'.
Proof. unfold CHC.connectBlocks, CHC.addRule. frame_auto seenStays_trans. Qed.
#[global] Hint Extern 1 (seenStays ?s ?s') =>
  match goal with
  | H : CHC.connectBlocks _ _ _ s = Some (_, s') |- _ => eapply connectBlocks_seenStays; exact H
  end : frame.

Lemma connectCurrentTo_seenStays `{Environment} x0 x1 s u s' :
  CHC.connectCurrentTo x0 x1 s = Some (u, s') -> seenStays s s'.
Proof. unfold CHC.connectCurrentTo. frame_auto seenStays_trans. Qed.
#[global] Hint Extern 1 (seenStays ?s ?s') =>
  match goal with
  | H : CHC.connectCurrentTo _ _ s = Some (_, s') |- _ => eapply connectCurrentTo_seenStays; exact H
  end : frame.

Lemma clearIndices_seenStays `{Environment} x0 x1 s u s' :
  CHC.clearIndices x0 x1 s = Some (u, s') -> seenStays s s'.
Proof. unfold CHC.clearIndices. frame_auto seenStays_trans. Qed.
#[global] Hint Extern 1 (seenStays ?s ?s') =>
  match goal with
  | H : CHC.clearIndices _ _ s = Some (_, s') |- _ => eapply clearIndices_seenStays; exact H
  end : frame.

Lemma setCurrentBlock_seenStays `{Environment} x0 x1 s u s' :
  CHC.setCurrentBlock x0 x1 s = Some (u, s') -> seenStays s s'.
Proof. unfold CHC.setCurrentBlock. frame_auto seenStays_trans. Qed.
#[global] Hint Extern 1 (seenStays ?s ?s') =>
  match goal with
  | H : CHC.setCurrentBlock _ _ s = Some (_, s') |- _ => eapply setCurrentBlock_seenStays; exact H
  end : frame.

Lemma predicate_FunctionCall_seenStays `{Environment} x0 s u s' :
  CHC.predicate_FunctionCall x0 s = Some (u, s') -> seenStays s s'.
Proof. unfold CHC.predicate_FunctionCall. frame_auto seenStays_trans. Qed.
#[global] Hint Extern 1 (seenStays ?s ?s') =>
  match goal with
  | H : CHC.predicate_FunctionCall _ s = Some (_, s') |- _ => eapply predicate_FunctionCall_seenStays; exact H
  end : frame.

Lemma visitAssert_seenStays `{Environment} x0 s u s' :
  CHC.visitAssert x0 s = Some (u, s') -> seenStays s s'.
Proof. unfold CHC.visitAssert. frame_auto seenStays_trans. Qed.
#[global] Hint Extern 1 (seenStays ?s ?s') =>
  match goal with
  | H : CHC.visitAssert _ s = Some (_, s') |- _ => eapply visitAssert_seenStays; exact H
  end : frame.

Lemma internalFunctionCall_seenStays `{Environment} x0 s u s' :
  CHC.internalFunctionCall x0 s = Some (u, s') -> seenStays s s'.
Proof. unfold CHC.internalFunctionCall. frame_auto seenStays_trans. Qed.
#[global] Hint Extern 1 (seenStays ?s ?s') =>
  match goal with
  | H : CHC.internalFunctionCall _ s = Some (_, s') |- _ => eapply internalFunctionCall_seenStays; exact H
  end : frame.

Lemma unknownFunctionCall_seenStays `{Environment} x0 s u s' :
  CHC.unknownFunctionCall x0 s = Some (u, s') -> seenStays s s'.
Proof. unfold CHC.unknownFunctionCall. frame_auto seenStays_trans. Qed.
#[global] Hint Extern 1 (seenStays ?s ?s') =>
  match goal with
  | H : CHC.unknownFunctionCall _ s = Some (_, s') |- _ => eapply unknownFunctionCall_seenStays; exact H
  end : frame.

Lemma endVisit_FunctionCall_seenStays `{Environment} x0 s u s' :
  CHC.endVisit_FunctionCall x0 s = Some (u, s') -> seenStays s s'.
Proof. unfold CHC.endVisit_FunctionCall. frame_auto seenStays_trans. Qed.
#[global] Hint Extern 1 (seenStays ?s ?s') =>
  match goal with
  | H : CHC.endVisit_FunctionCall _ s = Some (_, s') |- _ => eapply endVisit_FunctionCall_seenStays; exact H
  end : frame.

Lemma endVisit_Break_seenStays `{Environment} x0 s u s' :
  CHC.endVisit_Break x0 s = Some (u, s') -> seenStays s s'.
Proof. unfold CHC.endVisit_Break. frame_auto seenStays_trans. Qed.
#[global] Hint Extern 1 (seenStays ?s ?s') =>
  match goal with
  | H : CHC.endVisit_Break _ s = Some (_, s') |- _ => eapply endVisit_Break_seenStays; exact H
  end : frame.

Lemma endVisit_Continue_seenStays `{Environment} x0 s u s' :
  CHC.endVisit_Continue x0 s = Some (u, s') -> seenStays s s'.
Proof. unfold CHC.endVisit_Continue. frame_auto seenStays_trans. Qed.
#[global] Hint Extern 1 (seenStays ?s ?s') =>
  match goal with
  | H : CHC.endVisit_Continue _ s = Some (_, s') |- _ => eapply endVisit_Continue_seenStays; exact H
  end : frame.

Lemma acceptExpression_seenStays `{Environment} e : forall s u s',
  CHC.acceptExpression e s = Some (u, s') -> seenStays s s'.
Proof.
  induction e as [id k fk d callee args IHc IHa|id subs IHs] using Expression_ind';
    intros s u s' Hr; cbn [CHC.acceptExpression] in Hr.
  - run_next a1 s1 H1. run_next a2 s2 H2.
    apply seenStays_trans with s1; [eapply IHc; eassumption|].
    apply seenStays_trans with s2; [|eauto with frame].
    revert H2. apply forEach_rel; [apply seenStays_refl|apply seenStays_trans|exact IHa].
  - run_next a1 s1 H1. run_next a2 s2 H2.
    apply seenStays_trans with s1; [eauto with frame|].
    apply seenStays_trans with s2; [|eauto with frame].
    revert H2. apply forEach_rel; [apply seenStays_refl|apply seenStays_trans|exact IHs].
Qed.
#[global] Hint Extern 1 (seenStays ?s ?s') =>
  match goal with
  | H : CHC.acceptExpression _ s = Some (_, s') |- _ => eapply acceptExpression_seenStays; exact H
  end : frame.

Section Proofs.
Context `{Environment}.

Lemma visit_IfStatement_exit _if c t f s :
  CHC.visit_IfStatement CHC.acceptExpression CHC.acceptStatement _if c t f s =
  bind (ifUpToExit _if c t f) exitHavoc s.
Proof. unfold CHC.visit_IfStatement, ifUpToExit, exitHavoc. split_exit. Qed.

Lemma visit_WhileStatement_exit _while isDoWhile c body s :
  CHC.visit_WhileStatement CHC.acceptExpression CHC.acceptStatement _while isDoWhile c body s =
  bind (whileUpToExit _while isDoWhile c body) exitHavoc s.
Proof. unfold CHC.visit_WhileStatement, whileUpToExit, exitHavoc. split_exit. Qed.

Lemma visit_ForStatement_exit _for init c post body s :
  CHC.visit_ForStatement CHC.acceptExpression CHC.acceptStatement _for init c post body s =
  bind (forUpToExit _for init c post body) exitHavoc s.
Proof. unfold CHC.visit_ForStatement, forUpToExit, exitHavoc. split_exit. Qed.

(** The encoding of an [if] or of a loop is its encoding up to the exit
    followed by the exit. *)
Lemma acceptStatement_exit st s :
  isControlStatement st = true ->
  CHC.acceptStatement st s = bind (bind (upToExit st) exitHavoc) (fun _ => ret tt) s.
Proof.
  intros Hst. destruct st; try discriminate Hst; cbn [CHC.acceptStatement upToExit].
  - apply bind_ext_l. intros s0. apply visit_IfStatement_exit.
  - apply bind_ext_l. intros s0. apply visit_WhileStatement_exit.
  - apply bind_ext_l. intros s0. apply visit_ForStatement_exit.
Qed.

(** The part of a visitor up to its exit returns the value that
    [m_unknownFunctionCallSeen] had at the entry. *)
Lemma upToExit_wasSeen st s wasSeen sa :
  upToExit st s = Some (wasSeen, sa) -> wasSeen = m_unknownFunctionCallSeen s.
Proof.
  destruct st; cbn [upToExit]; try (intros Hr; apply fail_Some in Hr; destruct Hr).
  - unfold ifUpToExit. intros Hr. run_inv; reflexivity.
  - unfold whileUpToExit. intros Hr. run_inv; reflexivity.
  - unfold forUpToExit. intros Hr. run_inv; reflexivity.
Qed.

Lemma exitHavoc_exact wasSeen sa r s' :
  exitHavoc wasSeen sa = Some (r, s') ->
  if m_unknownFunctionCallSeen sa
  then exists se, CHC.eraseKnowledge sa = Some (tt, se) /\
                  s' = set_m_unknownFunctionCallSeen wasSeen se /\
                  havocked (m_context sa) (m_context s')
  else s' = set_m_unknownFunctionCallSeen wasSeen sa.
Proof.
  unfold exitHavoc. intros Hr.
  run_next seen s1 H1. apply gets_Some in H1 as [-> ->].
  run_next u2 s2 H2. run_next u3 s3 H3. apply modify_Some in H3 as ->.
  apply ret_Some in Hr as [-> ->].
  destruct (m_unknownFunctionCallSeen sa).
  - destruct u2. exists s2. split; [exact H2|]. split; [reflexivity|].
    apply eraseKnowledge_havocked in H2 as [_ Hh]. exact Hh.
  - apply ret_Some in H2 as [_ ->]. reflexivity.
Qed.

(** The exit of an [if] or of a loop.  The encoding of the statement is its
    encoding up to the exit, which ends in a state [sa]; the havoc runs
    there if and only if [m_unknownFunctionCallSeen] is set in [sa]; and
    the flag is back at the value it had at the entry. *)
Lemma controlStatement_exit st s u s' :
  isControlStatement st = true ->
  CHC.acceptStatement st s = Some (u, s') ->
  exists sa,
    upToExit st s = Some (m_unknownFunctionCallSeen s, sa) /\
    m_unknownFunctionCallSeen s' = m_unknownFunctionCallSeen s /\
    if m_unknownFunctionCallSeen sa
    then exists se, CHC.eraseKnowledge sa = Some (tt, se) /\
                    s' = set_m_unknownFunctionCallSeen (m_unknownFunctionCallSeen s) se /\
                    havocked (m_context sa) (m_context s')
    else s' = set_m_unknownFunctionCallSeen (m_unknownFunctionCallSeen s) sa.
Proof.
  intros Hst Hr. rewrite (acceptStatement_exit _ _ Hst) in Hr.
  apply bind_Some in Hr as (r & s1 & Hr & Hret). apply ret_Some in Hret as [-> ->].
  apply bind_Some in Hr as (wasSeen & sa & Hup & Hexit).
  pose proof (upToExit_wasSeen _ _ _ _ Hup) as ->.
  apply exitHavoc_exact in Hexit.
  exists sa. split; [exact Hup|]. split; [|exact Hexit].
  destruct (m_unknownFunctionCallSeen sa).
  - destruct Hexit as (se & _ & -> & _). reflexivity.
  - rewrite Hexit. reflexivity.
Qed.

Lemma acceptStatement_seenStays st : forall s u s',
  CHC.acceptStatement st s = Some (u, s') -> seenStays s s'.
Proof.
  induction st as [id sts IH|id e|id es|id c t f IHt IHf|id d c b IHb|id i c p b IHi IHp IHb|id|id]
    using Statement_ind'; intros s u s' Hr.
  4-6: apply controlStatement_exit in Hr as (sa & _ & E & _); [|reflexivity];
       split; intros Hs; rewrite E; exact Hs.
  all: cbn [CHC.acceptStatement] in Hr.
  - run_next a1 s1 H1. run_next a2 s2 H2.
    apply seenStays_trans with s1; [eauto with frame|].
    apply seenStays_trans with s2; [|eauto with frame].
    revert H2. apply forEach_rel; [apply seenStays_refl|apply seenStays_trans|exact IH].
  - revert Hr. frame_auto seenStays_trans.
  - run_next a1 s1 H1. run_next a2 s2 H2.
    apply seenStays_trans with s1; [eauto with frame|].
    apply seenStays_trans with s2; [|eauto with frame].
    revert H2. apply forEach_rel; [apply seenStays_refl|apply seenStays_trans|].
    apply Forall_forall. intros e _. apply acceptExpression_seenStays.
  - eauto with frame.
  - eauto with frame.
Qed.


End Proofs.

(** * Further properties of the encoder *)

(** ** Steps on the encoding context *)

Lemma onlyContext_refl s : onlyContext s s.
Proof. split. destruct s. reflexivity. Qed.

Lemma onlyContext_trans s1 s2 s3 : onlyContext s1 s2 -> onlyContext s2 s3 -> onlyContext s1 s3.
Proof. intros [E1] [E2]. split. rewrite E2 at 1. rewrite E1 at 1. reflexivity. Qed.

Lemma onlyContext_set c s : onlyContext s (set_m_context c s).
Proof. split. reflexivity. Qed.

#[global] Hint Resolve onlyContext_refl onlyContext_set : frame.

Ltac context_chain :=
  first
    [ apply onlyContext_refl
    | split; reflexivity
    | match reverse goal with
      | H : _ ?s = Some (_, ?sB) |- onlyContext ?s ?s2 =>
          apply (onlyContext_trans s sB s2); [solve [eauto 3 with frame]|];
          clear H; context_chain
      end
    | match reverse goal with
      | H : _ ?sA = Some (_, ?sB) |- onlyContext ?s ?s2 =>
          apply (onlyContext_trans s sA s2); [split; reflexivity|];
          apply (onlyContext_trans sA sB s2); [solve [eauto 3 with frame]|];
          clear H; context_chain
      end ].
Ltac context_auto := intros; run_inv; context_chain.

Lemma modifyContext_onlyContext `{Environment} f s u s' :
  CHC.modifyContext f s = Some (u, s') -> onlyContext s s'.
Proof. unfold CHC.modifyContext. intros Hr. apply modify_Some in Hr as ->. split. reflexivity. Qed.
#[global] Hint Extern 1 (onlyContext ?s ?s') =>
  match goal with
  | H : CHC.modifyContext _ s = Some (_, s') |- _ => eapply modifyContext_onlyContext; exact H
  | H : CHC.SMTEncoder _ s = Some (_, s') |- _ => eapply modifyContext_onlyContext; exact H
  | H : CHC.addAssertion _ s = Some (_, s') |- _ => eapply modifyContext_onlyContext; exact H
  | H : CHC.createVariable _ s = Some (_, s') |- _ => eapply modifyContext_onlyContext; exact H
  | H : CHC.resetStateVariables s = Some (_, s') |- _ => eapply modifyContext_onlyContext; exact H
  end : frame.

Lemma increaseIndex_onlyContext `{Environment} v s u s' :
  CHC.increaseIndex v s = Some (u, s') -> onlyContext s s'.
Proof. unfold CHC.increaseIndex. intros Hr. run_inv. split. reflexivity. Qed.

Lemma resetIndex_onlyContext `{Environment} v s u s' :
  CHC.resetIndex v s = Some (u, s') -> onlyContext s s'.
Proof. unfold CHC.resetIndex. intros Hr. run_inv. split. reflexivity. Qed.

Lemma eraseKnowledge_onlyContext `{Environment} s u s' :
  CHC.eraseKnowledge s = Some (u, s') -> onlyContext s s'.
Proof. rewrite eraseKnowledge_run. intros E. injection E as _ <-. split. reflexivity. Qed.

#[global] Hint Extern 1 (onlyContext ?s ?s') =>
  match goal with
  | H : CHC.increaseIndex _ s = Some (_, s') |- _ => eapply increaseIndex_onlyContext; exact H
  | H : CHC.resetIndex _ s = Some (_, s') |- _ => eapply resetIndex_onlyContext; exact H
  | H : CHC.eraseKnowledge s = Some (_, s') |- _ => eapply eraseKnowledge_onlyContext; exact H
  end : frame.

Lemma forEach_onlyContext {A} (f : A -> M unit) l s u s' :
  (forall a t v t', f a t = Some (v, t') -> onlyContext t t') ->
  forEach l f s = Some (u, s') -> onlyContext s s'.
Proof.
  intros Hf. apply forEach_rel; [apply onlyContext_refl|apply onlyContext_trans|].
  apply Forall_forall. intros a _ t v t'. apply Hf.
Qed.
#[global] Hint Extern 5 (onlyContext ?s ?s') =>
  match goal with
  | H : forEach _ _ s = Some (_, s') |- _ =>
      eapply forEach_onlyContext; [|exact H]; clear H; context_auto
  end : frame.

Lemma clearIndices_onlyContext `{Environment} c f s u s' :
  CHC.clearIndices c f s = Some (u, s') -> onlyContext s s'.
Proof. unfold CHC.clearIndices. context_auto. Qed.
#[global] Hint Extern 1 (onlyContext ?s ?s') =>
  match goal with
  | H : CHC.clearIndices _ _ s = Some (_, s') |- _ => eapply clearIndices_onlyContext; exact H
  end : frame.

(** Making the state after a step on the context explicit. *)
Ltac explicit E :=
  match type of E with
  | ?x = set_m_context (m_context ?x) _ =>
      let c := fresh "c" in let Ec := fresh "Ec" in
      remember (m_context x) as c eqn:Ec in E; clear Ec; subst x
  end.

Ltac context_steps :=
  repeat match goal with
  | H : CHC.SMTEncoder _ _ = Some (_, ?x) |- _ =>
      is_var x; apply modifyContext_onlyContext in H as [H]; explicit H
  | H : CHC.addAssertion _ _ = Some (_, ?x) |- _ =>
      is_var x; apply modifyContext_onlyContext in H as [H]; explicit H
  | H : CHC.eraseKnowledge _ = Some (_, ?x) |- _ =>
      is_var x; apply eraseKnowledge_onlyContext in H as [H]; explicit H
  | H : CHC.clearIndices _ _ _ = Some (_, ?x) |- _ =>
      is_var x; apply clearIndices_onlyContext in H as [H]; explicit H
  end.

Ltac ro_state H :=
  match type of H with
  | ?m ?s = Some (_, ?s') =>
      let R := fresh in
      assert (R : readonly m) by (solve [auto 3 with readonly | readonly_tac]);
      pose proof (R _ _ _ H); clear R; subst s'
  end.

Section Proofs.
Context `{Environment}.

Lemma currentContract_inv s c s' :
  CHC.currentContract s = Some (c, s') -> m_currentContract s = Some c /\ s' = s.
Proof.
  unfold CHC.currentContract, bind, gets, deref, ret, fail.
  destruct (m_currentContract s); naive_solver.
Qed.

Lemma currentFunction_inv s f s' :
  CHC.currentFunction s = Some (f, s') -> m_currentFunction s = Some f /\ s' = s.
Proof.
  unfold CHC.currentFunction, bind, gets, deref, ret, fail.
  destruct (m_currentFunction s); naive_solver.
Qed.

(** The values that the encoder reads depend on the members they are read
    from only. *)
Lemma mapM_transfer {A B} (f : A -> M B) (s t : CHC) :
  (forall a b s', f a s = Some (b, s') -> s' = s /\ f a t = Some (b, t)) ->
  forall l r s', mapM f l s = Some (r, s') -> s' = s /\ mapM f l t = Some (r, t).
Proof.
  intros Hf. induction l as [|a l IH]; intros r s' Hr; cbn [mapM] in *.
  - apply ret_Some in Hr as [-> ->]. split; reflexivity.
  - apply bind_Some in Hr as (b & s1 & H1 & Hr).
    apply Hf in H1 as [-> H1].
    apply bind_Some in Hr as (bs & s2 & H2 & Hr).
    apply IH in H2 as [-> H2]. apply ret_Some in Hr as [-> ->].
    split; [reflexivity|].
    apply bind_Some. exists b, t. split; [exact H1|].
    apply bind_Some. exists bs, t. split; [exact H2|reflexivity].
Qed.

Lemma currentValue_transfer v s t e s' :
  m_context t = m_context s ->
  CHC.currentValue v s = Some (e, s') -> s' = s /\ CHC.currentValue v t = Some (e, t).
Proof.
  unfold CHC.currentValue, bind, gets. intros ->.
  destruct (EncodingContext.currentValue v (m_context s)); cbn; [|discriminate].
  intros E. injection E as -> ->. split; reflexivity.
Qed.

Lemma valueAtIndex_transfer v k s t e s' :
  m_context t = m_context s ->
  CHC.valueAtIndex v k s = Some (e, s') -> s' = s /\ CHC.valueAtIndex v k t = Some (e, t).
Proof.
  unfold CHC.valueAtIndex, bind, gets. intros ->.
  destruct (EncodingContext.valueAtIndex v k (m_context s)); cbn; [|discriminate].
  intros E. injection E as -> ->. split; reflexivity.
Qed.

Lemma currentStateVariables_transfer s t l s' :
  m_currentContract t = m_currentContract s ->
  m_stateVariables t = m_stateVariables s ->
  m_context t = m_context s ->
  CHC.currentStateVariables s = Some (l, s') ->
  CHC.currentStateVariables t = Some (l, t).
Proof.
  unfold CHC.currentStateVariables. intros Ec Ev Ex Hr.
  apply bind_Some in Hr as (c & s1 & H1 & Hr). apply currentContract_inv in H1 as [Hc ->].
  apply bind_Some in Hr as (vars & s2 & H2 & Hr). apply gets_Some in H2 as [-> ->].
  apply (mapM_transfer _ s t) in Hr as [_ Hr];
    [|intros a b s0; apply currentValue_transfer; exact Ex].
  apply bind_Some. exists c, t. split.
  { unfold CHC.currentContract, bind, gets, deref. rewrite Ec, Hc. reflexivity. }
  apply bind_Some. exists (m_stateVariables t), t. split; [reflexivity|].
  rewrite Ev. exact Hr.
Qed.

Lemma stateVariablesAtIndex_transfer k s t l s' :
  m_currentContract t = m_currentContract s ->
  m_stateVariables t = m_stateVariables s ->
  m_context t = m_context s ->
  CHC.stateVariablesAtIndex k s = Some (l, s') ->
  CHC.stateVariablesAtIndex k t = Some (l, t).
Proof.
  unfold CHC.stateVariablesAtIndex. intros Ec Ev Ex Hr.
  apply bind_Some in Hr as (c & s1 & H1 & Hr). apply currentContract_inv in H1 as [Hc ->].
  apply bind_Some in Hr as (vars & s2 & H2 & Hr). apply gets_Some in H2 as [-> ->].
  apply (mapM_transfer _ s t) in Hr as [_ Hr];
    [|intros a b s0; apply valueAtIndex_transfer; exact Ex].
  apply bind_Some. exists c, t. split.
  { unfold CHC.currentContract, bind, gets, deref. rewrite Ec, Hc. reflexivity. }
  apply bind_Some. exists (m_stateVariables t), t. split; [reflexivity|].
  rewrite Ev. exact Hr.
Qed.

Lemma interface_transfer s t e s' :
  m_currentContract t = m_currentContract s ->
  m_stateVariables t = m_stateVariables s ->
  m_context t = m_context s ->
  m_interfaces t = m_interfaces s ->
  CHC.interface s = Some (e, s') ->
  CHC.interface t = Some (e, t).
Proof.
  unfold CHC.interface. intros Ec Ev Ex Ei Hr.
  apply bind_Some in Hr as (vars & s2 & H2 & Hr). apply gets_Some in H2 as [-> ->].
  apply bind_Some in Hr as (l & s3 & H3 & Hr).
  apply (mapM_transfer _ s t) in H3 as [-> H3];
    [|intros a b s0; apply currentValue_transfer; exact Ex].
  apply bind_Some in Hr as (c & s1 & H1 & Hr). apply currentContract_inv in H1 as [Hc ->].
  apply bind_Some in Hr as (ifaces & s4 & H4 & Hr). apply gets_Some in H4 as [-> ->].
  apply bind_Some in Hr as (p & s5 & H5 & Hr). apply deref_Some in H5 as [Hp ->].
  apply ret_Some in Hr as [-> _].
  apply bind_Some. exists (m_stateVariables t), t. split; [reflexivity|].
  apply bind_Some. exists l, t. split; [rewrite Ev; exact H3|].
  apply bind_Some. exists c, t. split.
  { unfold CHC.currentContract, bind, gets, deref. rewrite Ec, Hc. reflexivity. }
  apply bind_Some. exists (m_interfaces t), t. split; [reflexivity|].
  apply bind_Some. exists p, t. split; [rewrite Ei, Hp; reflexivity|reflexivity].
Qed.

End Proofs.

(** ** [break] and [continue] *)

Section Proofs.
Context `{Environment}.

(** The two visitors have the same shape: an edge to the destination, then
    a new block that becomes the current one. *)
Lemma jump_exact (dest : smt.SymbolicFunctionVariable) node prefix s u s' :
  (from <- gets m_currentBlock ;;
   to <- CHC.predicate dest ;;
   CHC.connectBlocks from to (smt.BoolLit true) ;;
   ghost <- CHC.createBlock node prefix ;;
   p <- CHC.predicate ghost ;;
   modify (set_m_currentBlock p)) s = Some (u, s') ->
  exists ghost r p,
    edgeTo s dest (smt.BoolLit true) r /\
    blockNamed (m_blockCounter s) prefix ghost /\
    CHC.predicate ghost (declareBlock ghost (CHC.emitRule r s))
      = Some (p, declareBlock ghost (CHC.emitRule r s)) /\
    s' = set_m_currentBlock p (declareBlock ghost (CHC.emitRule r s)).
Proof.
  intros Hr.
  run_next from s1 H1. apply gets_Some in H1 as [-> ->].
  run_next to s2 H2.
  assert (s2 = s) as -> by (eapply readonly_predicate; eassumption).
  run_next u3 s3 H3.
  unfold CHC.connectBlocks, CHC.addRule in H3. run_inv.
  match goal with
  | Hb : CHC.createBlock _ _ _ = Some (?b, _) |- _ =>
      apply createBlock_declares in Hb as [Hname ->]; exists b
  end.
  eexists _, _. split; [eexists; split; [eassumption|reflexivity]|].
  split; [exact Hname|]. split; [eassumption|reflexivity].
Qed.

(** X1.  [endVisit(Break)] needs a destination.  It emits the edge from the
    current block to the destination of [break], without a guard, and
    creates the block [break_ghost_], named with the current value of the
    block counter, which becomes the current block; the destinations of
    [break] and [continue] stay as they are. *)
Theorem endVisit_Break_edge_and_ghost _break s u s' :
  CHC.endVisit_Break _break s = Some (u, s') ->
  exists dest ghost r p,
    m_breakDest s = Some dest /\
    edgeTo s dest (smt.BoolLit true) r /\
    blockNamed (m_blockCounter s) "break_ghost_" ghost /\
    CHC.predicate ghost (declareBlock ghost (CHC.emitRule r s))
      = Some (p, declareBlock ghost (CHC.emitRule r s)) /\
    isPredicateOf ghost p /\
    s' = set_m_currentBlock p (declareBlock ghost (CHC.emitRule r s)) /\
    emitted s s' [ghost] [r] /\
    m_breakDest s' = m_breakDest s /\ m_continueDest s' = m_continueDest s.
Proof.
  unfold CHC.endVisit_Break. intros Hr.
  run_next d s1 H1. apply gets_Some in H1 as [-> ->].
  run_next dest s2 H2. apply deref_Some in H2 as [Hd ->].
  apply jump_exact in Hr as (ghost & r & p & Hedge & Hname & Hp & ->).
  exists dest, ghost, r, p.
  split; [exact Hd|]. split; [exact Hedge|]. split; [exact Hname|]. split; [exact Hp|].
  split. { unfold CHC.predicate in Hp. run_inv. eexists; reflexivity. }
  split; [reflexivity|]. split; [split; reflexivity|]. split; reflexivity.
Qed.

(** X2.  [endVisit(Continue)] needs a destination.  It emits the edge from
    the current block to the destination of [continue], without a guard,
    and creates the block [continue_ghost_], named with the current value of
    the block counter, which becomes the current block. *)
Theorem endVisit_Continue_edge_and_ghost _continue s u s' :
  CHC.endVisit_Continue _continue s = Some (u, s') ->
  exists dest ghost r p,
    m_continueDest s = Some dest /\
    edgeTo s dest (smt.BoolLit true) r /\
    blockNamed (m_blockCounter s) "continue_ghost_" ghost /\
    CHC.predicate ghost (declareBlock ghost (CHC.emitRule r s))
      = Some (p, declareBlock ghost (CHC.emitRule r s)) /\
    isPredicateOf ghost p /\
    s' = set_m_currentBlock p (declareBlock ghost (CHC.emitRule r s)) /\
    emitted s s' [ghost] [r] /\
    m_breakDest s' = m_breakDest s /\ m_continueDest s' = m_continueDest s.
Proof.
  unfold CHC.endVisit_Continue. intros Hr.
  run_next d s1 H1. apply gets_Some in H1 as [-> ->].
  run_next dest s2 H2. apply deref_Some in H2 as [Hd ->].
  apply jump_exact in Hr as (ghost & r & p & Hedge & Hname & Hp & ->).
  exists dest, ghost, r, p.
  split; [exact Hd|]. split; [exact Hedge|]. split; [exact Hname|]. split; [exact Hp|].
  split. { unfold CHC.predicate in Hp. run_inv. eexists; reflexivity. }
  split; [reflexivity|]. split; [split; reflexivity|]. split; reflexivity.
Qed.

End Proofs.

(** ** The arguments of the predicates and the sorts of their domains *)

Section Proofs.
Context `{Environment}.

Lemma currentFunction_Some s f s' :
  CHC.currentFunction s = Some (f, s') <-> m_currentFunction s = Some f /\ s' = s.
Proof.
  unfold CHC.currentFunction, bind, gets, deref, ret, fail.
  destruct (m_currentFunction s); naive_solver.
Qed.

Lemma currentContract_Some s c s' :
  CHC.currentContract s = Some (c, s') <-> m_currentContract s = Some c /\ s' = s.
Proof.
  unfold CHC.currentContract, bind, gets, deref, ret, fail.
  destruct (m_currentContract s); naive_solver.
Qed.

Ltac ro H :=
  match type of H with
  | ?m ?s = Some (_, ?s') =>
      let R := fresh in
      assert (R : readonly m) by (solve [auto 3 with readonly | readonly_tac]);
      pose proof (R _ _ _ H); clear R; subst s'
  end.

Lemma mapM_values {A B} (f : A -> M B) (R : B -> A -> Prop) :
  (forall a s b s', f a s = Some (b, s') -> R b a) ->
  forall l s r s', mapM f l s = Some (r, s') -> Forall2 R r l.
Proof.
  intros Hf. induction l as [|a l IH]; intros s r s' Hr; cbn [mapM] in Hr.
  - apply ret_Some in Hr as [-> _]. constructor.
  - run_next b s1 H1. run_next bs s2 H2. apply ret_Some in Hr as [-> _].
    constructor; [eapply Hf; exact H1|eapply IH; exact H2].
Qed.

Lemma currentValue_fills v s e s' :
  CHC.currentValue v s = Some (e, s') -> fills (VariableSlot v) e.
Proof.
  unfold CHC.currentValue, EncodingContext.currentValue. intros Hr. run_inv.
  destruct (EncodingContext.index v (m_context s)); [|discriminate].
  match goal with E : _ <$> Some _ = Some _ |- _ => injection E as <- end. constructor.
Qed.

Lemma valueAtIndex_fills v k s e s' :
  CHC.valueAtIndex v k s = Some (e, s') -> fills (VariableSlot v) e.
Proof.
  unfold CHC.valueAtIndex, EncodingContext.valueAtIndex. intros Hr. run_inv.
  destruct (EncodingContext.index v (m_context s)); [|discriminate].
  match goal with E : _ <$> Some _ = Some _ |- _ => injection E as <- end. constructor.
Qed.

Lemma fills_slotsOf (l : list smt.Expression) (vars : list VariableDeclaration) :
  Forall2 (fun e v => fills (VariableSlot v) e) l vars ->
  Forall2 fills (slotsOf vars) l.
Proof. induction 1; constructor; assumption. Qed.

Lemma slotsOf_app vars1 vars2 : slotsOf (vars1 ++ vars2) = slotsOf vars1 ++ slotsOf vars2.
Proof. apply fmap_app. Qed.

Lemma slotSort_slotsOf vars :
  slotSort <$> slotsOf vars = map CHC.smtSortAbstractFunction vars.
Proof. unfold slotsOf. rewrite <- list_fmap_compose. reflexivity. Qed.

Lemma mapM_currentValue_fills vars s l s' :
  mapM CHC.currentValue vars s = Some (l, s') -> Forall2 fills (slotsOf vars) l.
Proof.
  intros Hr. apply fills_slotsOf. revert Hr. apply mapM_values.
  intros a t b t'. apply currentValue_fills.
Qed.

Lemma mapM_valueAtIndex_fills k vars s l s' :
  mapM (fun var => CHC.valueAtIndex var k) vars s = Some (l, s') ->
  Forall2 fills (slotsOf vars) l.
Proof.
  intros Hr. apply fills_slotsOf. revert Hr. apply mapM_values.
  intros a t b t'. apply valueAtIndex_fills.
Qed.

Lemma currentStateVariables_fills s l s' :
  CHC.currentStateVariables s = Some (l, s') ->
  Forall2 fills (slotsOf (m_stateVariables s)) l.
Proof.
  unfold CHC.currentStateVariables. intros Hr.
  run_next c s1 H1. apply currentContract_Some in H1 as [_ ->].
  run_next vars s2 H2. apply gets_Some in H2 as [-> ->].
  eapply mapM_currentValue_fills; exact Hr.
Qed.

Lemma stateVariablesAtIndex_fills k s l s' :
  CHC.stateVariablesAtIndex k s = Some (l, s') ->
  Forall2 fills (slotsOf (m_stateVariables s)) l.
Proof.
  unfold CHC.stateVariablesAtIndex. intros Hr.
  run_next c s1 H1. apply currentContract_Some in H1 as [_ ->].
  run_next vars s2 H2. apply gets_Some in H2 as [-> ->].
  eapply mapM_valueAtIndex_fills; exact Hr.
Qed.

Lemma errorValue_fills s : fills ErrorSlot (CHC.errorValue s).
Proof. constructor. Qed.

(** The positions of the variables of a function: the error value, the
    state variables and the parameters at the entry, the current state
    variables and parameters, and the return parameters. *)
Lemma currentFunctionVariables_fills (f : FunctionDefinition) s args s' :
  m_currentFunction s = Some f ->
  CHC.currentFunctionVariables s = Some (args, s') ->
  Forall2 fills
    (ErrorSlot ::
     slotsOf (m_stateVariables s ++ parameters f ++ m_stateVariables s ++ parameters f
                ++ returnParameters f)) args.
Proof.
  unfold CHC.currentFunctionVariables, CHC.initialStateVariables.
  intros Hf Hr.
  run_next g s0 H0. apply currentFunction_Some in H0 as [E ->].
  rewrite Hf in E. injection E as <-.
  run_next l1 s1 H1. ro H1.
  run_next l2 s2 H2. ro H2.
  run_next l3 s3 H3. ro H3.
  run_next e s4 H4. apply gets_Some in H4 as [-> ->].
  run_next l5 s5 H5. ro H5.
  run_next l6 s6 H6. ro H6.
  apply ret_Some in Hr as [-> _].
  constructor; [apply errorValue_fills|].
  rewrite !slotsOf_app. repeat apply Forall2_app.
  - eapply stateVariablesAtIndex_fills; exact H5.
  - eapply mapM_valueAtIndex_fills; exact H1.
  - eapply currentStateVariables_fills; exact H6.
  - eapply mapM_currentValue_fills; exact H2.
  - eapply mapM_currentValue_fills; exact H3.
Qed.

(** X3.  The entry block of a function and the variables of the function,
    position by position.  [currentFunctionVariables] returns one term for
    each of: the error value, the state variables, the parameters, the state
    variables and the parameters again, and the return parameters; each term
    is an instance of the variable at its position; and the domain of the
    sort of the block that [createBlock] makes for the function is the list
    of the sorts of these positions, as long as the sorts of the state are
    those of the state variables. *)
Theorem function_block_well_sorted (f : FunctionDefinition) prefix s b s' t args t' :
  CHC.createBlock (FunctionNode f) prefix s = Some (b, s') ->
  m_currentFunction t = Some f ->
  m_stateSorts s = map CHC.smtSortAbstractFunction (m_stateVariables t) ->
  CHC.currentFunctionVariables t = Some (args, t') ->
  let slots :=
    ErrorSlot ::
    slotsOf (m_stateVariables t ++ parameters f ++ m_stateVariables t ++ parameters f
               ++ returnParameters f) in
  Forall2 fills slots args /\
  domainOf (smt.sfv_sort b) = slotSort <$> slots.
Proof.
  intros Hb Hf Hs Ha.
  assert (smt.sfv_sort b =
          smt.FunctionSort
            (smt.intSort :: m_stateSorts s ++ map CHC.smtSortAbstractFunction (parameters f)
               ++ m_stateSorts s ++ map CHC.smtSortAbstractFunction (parameters f)
               ++ map CHC.smtSortAbstractFunction (returnParameters f)) smt.boolSort) as ->.
  { revert Hb.
    unfold CHC.createBlock, CHC.sort, CHC.sort_function, CHC.uniquePrefix,
      CHC.createSymbolicBlock, CHC.registerRelation.
    intros Hb. run_inv. reflexivity. }
  cbn zeta. split; [exact (currentFunctionVariables_fills f t args t' Hf Ha)|].
  cbn [domainOf fmap list_fmap slotSort]. rewrite slotSort_slotsOf, Hs, !map_app.
  reflexivity.
Qed.

(** X4.  A block created for a statement or an expression inside a function
    is applied, by [predicate], to the variables of the current block: one
    instance for each of the positions of the function followed by its local
    variables, and the domain of the sort of the block is the list of the
    sorts of these positions, as long as the current function is the one
    the block was created in and the sorts of the state are those of the
    state variables. *)
Theorem block_predicate_well_sorted node prefix (f : FunctionDefinition) s b s' t p t' :
  CHC.createBlock (OtherNode node) prefix s = Some (b, s') ->
  m_currentFunction s = Some f ->
  m_currentFunction t = Some f ->
  m_stateSorts s = map CHC.smtSortAbstractFunction (m_stateVariables t) ->
  CHC.predicate b t = Some (p, t') ->
  appliedTo b
    (ErrorSlot ::
     slotsOf (m_stateVariables t ++ parameters f ++ m_stateVariables t ++ parameters f
                ++ returnParameters f ++ localVariables f)) p.
Proof.
  intros Hb Ef Hf Hs Hp.
  assert (smt.sfv_sort b =
          smt.FunctionSort
            ((smt.intSort :: m_stateSorts s ++ map CHC.smtSortAbstractFunction (parameters f)
                ++ m_stateSorts s ++ map CHC.smtSortAbstractFunction (parameters f)
                ++ map CHC.smtSortAbstractFunction (returnParameters f))
             ++ map CHC.smtSortAbstractFunction (localVariables f)) smt.boolSort) as Hsort.
  { unfold CHC.createBlock, CHC.sort in Hb.
    apply bind_Some in Hb as (so & s1 & H1 & Hb).
    apply bind_Some in H1 as (g & s2 & H2 & H1).
    apply currentFunction_Some in H2 as [E ->].
    rewrite Ef in E. injection E as <-.
    revert H1 Hb.
    unfold CHC.sort_function, CHC.uniquePrefix, CHC.createSymbolicBlock, CHC.registerRelation.
    intros H1 Hb. run_inv. reflexivity. }
  unfold CHC.predicate, CHC.currentBlockVariables in Hp.
  run_next args s1 H1. apply ret_Some in Hp as [-> _].
  run_next o s2 H2. apply gets_Some in H2 as [-> ->]. rewrite Hf in H1.
  run_next locals s3 H3. ro H3.
  run_next vars s4 H4. apply ret_Some in H1 as [-> _].
  exists (vars ++ locals). split; [reflexivity|]. split.
  - pose proof (currentFunctionVariables_fills f t vars s4 Hf H4) as Hv.
    pose proof (mapM_currentValue_fills _ _ _ _ H3) as Hl.
    assert (slotsOf (m_stateVariables t ++ parameters f ++ m_stateVariables t
                       ++ parameters f ++ returnParameters f ++ localVariables f) =
            slotsOf (m_stateVariables t ++ parameters f ++ m_stateVariables t
                       ++ parameters f ++ returnParameters f)
              ++ slotsOf (localVariables f)) as ->
      by (rewrite !slotsOf_app, <- !app_assoc; reflexivity).
    rewrite app_comm_cons. apply Forall2_app; [exact Hv|exact Hl].
  - rewrite Hsort. cbn [domainOf fmap list_fmap slotSort app].
    rewrite slotSort_slotsOf, Hs, !map_app, <- !app_assoc. reflexivity.
Qed.

(** X5.  The summary predicate that [defineInterfacesAndSummaries] creates
    for a function and a contract is applied, by [summary], to one instance
    for each of: the error value, the state variables of the contract, the
    parameters, the state variables again and the return parameters; and the
    domain of [summarySort] is the list of the sorts of these positions.
    The contract is the current one and the state variables are those of the
    contract (for a function of a library: those of the library). *)
Theorem summary_well_sorted (f : FunctionSignature) c s0 b s0' t p t' :
  CHC.createSummaryBlock f (declaration c) s0 = Some (b, s0') ->
  m_currentContract t = Some c ->
  (m_summaries t !! contract_id (declaration c)) ≫= (fun m => m !! fun_id f) = Some b ->
  (if isLibrary (fun_contract f)
   then CHC.stateVariablesIncludingInheritedAndPrivate (fun_contract f)
   else m_stateVariables t)
  = CHC.stateVariablesIncludingInheritedAndPrivate (declaration c) ->
  CHC.summary f t = Some (p, t') ->
  let state := CHC.stateVariablesIncludingInheritedAndPrivate (declaration c) in
  appliedTo b
    (ErrorSlot :: slotsOf (state ++ parameters f ++ state ++ returnParameters f)) p.
Proof.
  intros Hb Hc Hlook Hvars Hp.
  assert (smt.sfv_sort b = CHC.summarySort f (declaration c)) as Hsort.
  { revert Hb.
    unfold CHC.createSummaryBlock, CHC.uniquePrefix, CHC.predicateName,
      CHC.createSymbolicBlock, CHC.registerRelation.
    intros Hb. run_inv. reflexivity. }
  unfold CHC.summary in Hp.
  run_next e s1 H1. apply gets_Some in H1 as [-> ->].
  run_next pre s2 H2. run_next ins s3 H3. run_next post s4 H4. run_next outs s5 H5.
  run_next cur s6 H6. run_next q s7 H7. apply ret_Some in Hp as [-> _].
  assert (s2 = t) as -> by (destruct (isLibrary (fun_contract f)); ro H2; reflexivity).
  ro H3.
  assert (s4 = t) as -> by (destruct (isLibrary (fun_contract f)); ro H4; reflexivity).
  ro H5.
  apply currentContract_Some in H6 as [E ->].
  assert (cur = c) as -> by congruence.
  assert (q = b) as ->.
  { unfold CHC.lookupSummary in H7. run_inv.
    match goal with
    | E1 : m_summaries t !! _ = Some _, E2 : _ !! fun_id f = Some _ |- _ =>
        rewrite E1 in Hlook; cbn in Hlook; rewrite E2 in Hlook
    end.
    congruence. }
  cbn zeta.
  exists (CHC.errorValue t :: pre ++ ins ++ post ++ outs). split; [reflexivity|]. split.
  - constructor; [apply errorValue_fills|].
    rewrite !slotsOf_app, <- Hvars. repeat apply Forall2_app.
    + destruct (isLibrary (fun_contract f)).
      * eapply mapM_valueAtIndex_fills; exact H2.
      * eapply stateVariablesAtIndex_fills; exact H2.
    + eapply mapM_valueAtIndex_fills; exact H3.
    + destruct (isLibrary (fun_contract f)).
      * eapply mapM_valueAtIndex_fills; exact H4.
      * eapply currentStateVariables_fills; exact H4.
    + eapply mapM_currentValue_fills; exact H5.
  - rewrite Hsort. unfold CHC.summarySort, CHC.stateSorts.
    cbn [domainOf fmap list_fmap slotSort].
    rewrite slotSort_slotsOf, !map_app. reflexivity.
Qed.

(** X6.  The predicates of a contract, position by position.  While the
    sorts of the state are those of the state variables of the current
    contract, the summary of the constructor is applied to an instance of
    the error value and of each state variable, and the implicit
    constructor and the interface to an instance of each state variable;
    the domains that [constructorSort], [interfaceSort] and
    [interfaceSort(contract)] give them are the sorts of these positions. *)
Theorem contract_predicates_well_sorted c b t p t' :
  m_currentContract t = Some c ->
  m_stateSorts t = map CHC.smtSortAbstractFunction (m_stateVariables t) ->
  m_stateVariables t = CHC.stateVariablesIncludingInheritedAndPrivate (declaration c) ->
  (forall so,
     CHC.constructorSort t = Some (so, t) ->
     m_constructorSummaryPredicate t = Some b -> smt.sfv_sort b = so ->
     CHC.summary_contract t = Some (p, t') ->
     appliedTo b (ErrorSlot :: slotsOf (m_stateVariables t)) p) /\
  (forall so init,
     CHC.interfaceSort t = Some (so, t) ->
     m_implicitConstructorPredicate t = Some b -> smt.sfv_sort b = so ->
     CHC.initialStateVariables t = Some (init, t') ->
     appliedTo b (slotsOf (m_stateVariables t)) (smt.apply b init)) /\
  (m_interfaces t !! contract_id (declaration c) = Some b ->
   smt.sfv_sort b = CHC.interfaceSort_of (declaration c) ->
   CHC.interface t = Some (p, t') ->
   appliedTo b (slotsOf (m_stateVariables t)) p).
Proof.
  intros Hc Hs Hv. split; [|split].
  - intros so Hso Hb Eso Hp.
    unfold CHC.constructorSort in Hso. apply gets_Some in Hso as [-> _].
    unfold CHC.summary_contract in Hp.
    run_next o s1 H1. apply gets_Some in H1 as [-> ->]. rewrite Hb in Hp.
    run_next q s2 H2. apply deref_Some in H2 as [E ->]. injection E as <-.
    run_next e s3 H3. apply gets_Some in H3 as [-> ->].
    run_next state s4 H4. apply ret_Some in Hp as [-> _].
    eexists. split; [reflexivity|]. split.
    + constructor; [apply errorValue_fills|].
      eapply currentStateVariables_fills; exact H4.
    + rewrite Eso. cbn [domainOf fmap list_fmap slotSort].
      rewrite slotSort_slotsOf, Hs. reflexivity.
  - intros so init Hso Hb Eso Hp.
    unfold CHC.interfaceSort in Hso. apply gets_Some in Hso as [-> _].
    eexists. split; [reflexivity|]. split.
    + eapply stateVariablesAtIndex_fills; exact Hp.
    + rewrite Eso. cbn [domainOf]. rewrite slotSort_slotsOf, Hs. reflexivity.
  - intros Hb Eso Hp.
    unfold CHC.interface in Hp.
    run_next vars s1 H1. apply gets_Some in H1 as [-> ->].
    run_next l s2 H2. ro H2.
    run_next cur s3 H3. apply currentContract_Some in H3 as [E ->].
    assert (cur = c) as -> by congruence. clear E.
    run_next ifaces s4 H4. apply gets_Some in H4 as [-> ->].
    run_next q s5 H5. apply deref_Some in H5 as [E ->]. rewrite Hb in E. injection E as <-.
    apply ret_Some in Hp as [-> _].
    eexists. split; [reflexivity|]. split.
    + eapply mapM_currentValue_fills; exact H2.
    + rewrite Eso. unfold CHC.interfaceSort_of, CHC.stateSorts.
      cbn [domainOf]. rewrite slotSort_slotsOf, Hv. reflexivity.
Qed.

End Proofs.

(** ** The queries of the driver *)

Section Proofs.
Context `{Environment}.

(** X7.  The body of the loop of [analyze] for one assertion of a target:
    the error predicate moves to its next index and that relation is
    registered; one rule is added, from the block of the target to the new
    error relation, guarded by the constraints of the target and by the
    error id of the target being the id of the assertion; the backend is
    asked for the new error relation; the assertion joins the safe
    assertions exactly when the answer is UNSATISFIABLE. *)
Theorem checkAssertion_queries_fresh_error target assertion s r s' :
  CHC.checkAssertion target assertion s = Some (r, s') ->
  exists p,
    m_errorPredicate s = Some p /\
    let p' := smt.increaseIndex p in
    let to := smt.apply p' [] in
    let rule :=
      (CHC.edge (value target) (EncodingContext.assertions (m_context s))
         (smt.And (constraints target)
            (smt.Eq (errorId target) (smt.IntLit assertion))) to,
       CHC.edgeName (value target) to) in
    let backend :=
      {| relations := relations (m_interface s) ++ [p'];
         rules := rules (m_interface s) ++ [rule] |} in
    m_errorPredicate s' = Some p' /\
    m_interface s' = backend /\
    r = (solver_query backend to).1 /\
    m_safeAssertions s' =
      (if bool_decide (r = smt.UNSATISFIABLE)
       then m_safeAssertions s ∪ {[assertion]} else m_safeAssertions s).
Proof.
  intros Hr. destruct (checkAssertion_exact _ _ _ _ _ Hr) as (p & Hp & Hx).
  exists p. split; [exact Hp|]. cbn zeta in *.
  destruct Hx as (Hp' & Hi & Hres & Hsafe & _).
  split; [exact Hp'|]. split; [exact Hi|]. split; [exact Hres|exact Hsafe].
Qed.

(** X8.  [transactionAssertions] changes the encoder only by creating the
    empty entries of the functions it went through: the calls and the
    assertions recorded for every function are as before, so that a second
    traversal from the same root returns the same set. *)
Theorem transactionAssertions_twice _txRoot s assertions s' :
  CHC.transactionAssertions _txRoot s = Some (assertions, s') ->
  sameGraph s s' /\
  m_interface s' = m_interface s /\
  m_safeAssertions s' = m_safeAssertions s /\
  exists assertions' s'',
    CHC.transactionAssertions _txRoot s' = Some (assertions', s'') /\
    assertions' = assertions.
Proof.
  intros Hr.
  pose proof (transactionAssertions_spec _ _ _ _ Hr) as [[_ _ Hg] Hspec].
  split; [exact Hg|].
  split. { unfold CHC.transactionAssertions in Hr. run_inv. reflexivity. }
  split. { unfold CHC.transactionAssertions in Hr. run_inv. reflexivity. }
  destruct (transactionAssertions_run s' _txRoot) as (A' & s'' & Hrun & Hspec').
  exists A', s''. split; [exact Hrun|].
  apply set_eq. intros a. rewrite Hspec, Hspec'.
  destruct Hg as [_ Hc Ha].
  assert (forall F, rtc (calls (m_callGraph s')) _txRoot F <->
                    rtc (calls (m_callGraph s)) _txRoot F) as Hrtc.
  { intros F. split; apply rtc_subrel; intros x y; unfold calls; rewrite Hc; auto. }
  unfold assertionsOf. split; intros (F & HF & HaF); exists F.
  - rewrite <- Hrtc, <- Ha. auto.
  - rewrite Hrtc, Ha. auto.
Qed.

End Proofs.

(** ** The interfaces and the summaries *)

Section Proofs.
Context `{Environment}.

Lemma createSummaryBlock_exact (f : FunctionSignature) c s p s' :
  CHC.createSummaryBlock f c s = Some (p, s') ->
  smt.sfv_sort p = CHC.summarySort f c /\ smt.sfv_index p = 0 /\
  counterNamed (m_blockCounter s) (smt.sfv_name p) /\
  m_summaries s' = m_summaries s /\ m_interfaces s' = m_interfaces s /\
  m_context s' = m_context s.
Proof.
  unfold CHC.createSummaryBlock, CHC.uniquePrefix, CHC.predicateName,
    CHC.createSymbolicBlock, CHC.registerRelation.
  intros Hr. run_inv.
  all: repeat split; try reflexivity; eexists; right; reflexivity.
Qed.

Lemma defineSummary_from src s contract base (function : FunctionDefinition) t t' :
  In contract (nodes src) -> In base (linearizedBaseContracts contract) ->
  In function (definedFunctions base) ->
  (forall k f p, (m_summaries t !! k) ≫= (fun m => m !! f) = Some p -> summaryFrom src s k f p) ->
  defineSummary contract function t = Some (tt, t') ->
  forall k f p, (m_summaries t' !! k) ≫= (fun m => m !! f) = Some p -> summaryFrom src s k f p.
Proof.
  intros Hc Hb Hf Hinv Hr k f p.
  unfold defineSummary in Hr. run_next q t1 H1.
  apply createSummaryBlock_exact in H1 as (Hsort & Hindex & Hname & Hsum & _ & _).
  apply modify_Some in Hr as ->. rewrite Hsum. cbn.
  destruct (decide (k = contract_id (declaration contract))) as [->|Hk].
  2:{ rewrite lookup_insert_ne by congruence. apply Hinv. }
  rewrite lookup_insert_eq. cbn.
  destruct (default ∅ (m_summaries t !! contract_id (declaration contract)) !! fun_id function)
    as [old|] eqn:Eold.
  - intros Hp. apply Hinv.
    destruct (m_summaries t !! contract_id (declaration contract)); [exact Hp|].
    cbn in Hp. rewrite lookup_empty in Hp. discriminate Hp.
  - destruct (decide (f = fun_id function)) as [->|Hne].
    + rewrite lookup_insert_eq. intros E. injection E as <-.
      right. exists contract, base, function. eauto 12.
    + rewrite lookup_insert_ne by congruence. intros Hp. apply Hinv.
      destruct (m_summaries t !! contract_id (declaration contract)); [exact Hp|].
      cbn in Hp. rewrite lookup_empty in Hp. discriminate Hp.
Qed.

Lemma declareVariables_exact (vars : list VariableDeclaration) s s' :
  forEach vars (fun var =>
    c <- gets m_context ;;
    if EncodingContext.knownVariable var c then ret tt else CHC.createVariable var) s
  = Some (tt, s') ->
  m_summaries s' = m_summaries s /\ m_interfaces s' = m_interfaces s.
Proof.
  intros Hr.
  eapply (forEach_preserves
            (fun t => m_summaries t = m_summaries s /\ m_interfaces t = m_interfaces s));
    [|split; reflexivity|exact Hr].
  intros v t t' _ Ht Hv. run_inv; [exact Ht|].
  unfold CHC.createVariable, CHC.modifyContext in *. run_inv. exact Ht.
Qed.

Lemma defineBase_from src s contract base t t' :
  In contract (nodes src) -> In base (linearizedBaseContracts contract) ->
  (forall k f p, (m_summaries t !! k) ≫= (fun m => m !! f) = Some p -> summaryFrom src s k f p) ->
  defineBase contract base t = Some (tt, t') ->
  forall k f p, (m_summaries t' !! k) ≫= (fun m => m !! f) = Some p -> summaryFrom src s k f p.
Proof.
  intros Hc Hb Hinv Hr. unfold defineBase in Hr.
  run_next q t1 H1. apply createSymbolicBlock_summaries in H1.
  run_next u2 t2 H2. apply modify_Some in H2 as ->.
  run_next u3 t3 H3. destruct u3. apply declareVariables_exact in H3 as [H3 _]. cbn in H3.
  eapply (forEach_preserves
    (fun t => forall k f p, (m_summaries t !! k) ≫= (fun m => m !! f) = Some p ->
                            summaryFrom src s k f p)); [| |exact Hr].
  - intros function u u' Hf Hu. apply (defineSummary_from src s contract base); assumption.
  - rewrite H3, H1. exact Hinv.
Qed.

(** X9.  After [defineInterfacesAndSummaries], a summary that the table
    holds for a contract and a function and that was not there before was
    created for a function of a base of a contract of the source, under the
    id of that contract: it has the sort that [summarySort] gives for the
    function and the contract, index 0 and a name built from the block
    counter.  The first summary registered for a contract and a function is
    the one that stays. *)
Theorem defineInterfacesAndSummaries_summaries src s u s' :
  CHC.defineInterfacesAndSummaries src s = Some (u, s') ->
  (forall k f p,
     (m_summaries s !! k) ≫= (fun m => m !! f) = Some p ->
     (m_summaries s' !! k) ≫= (fun m => m !! f) = Some p) /\
  (forall k f p,
     (m_summaries s' !! k) ≫= (fun m => m !! f) = Some p -> summaryFrom src s k f p).
Proof.
  rewrite defineInterfacesAndSummaries_unfold. intros Hr. destruct u. split.
  - intros k f p Hp.
    eapply (forEach_preserves
      (fun t => (m_summaries t !! k) ≫= (fun m => m !! f) = Some p)); [|exact Hp|exact Hr].
    intros contract t t' _ Ht Hrun.
    eapply (forEach_preserves
      (fun t => (m_summaries t !! k) ≫= (fun m => m !! f) = Some p)); [|exact Ht|exact Hrun].
    clear. intros base v v' _ Hv Hrun.
    unfold defineBase in Hrun.
    run_next q t1 H1. apply createSymbolicBlock_summaries in H1.
    run_next u2 t2 H2. apply modify_Some in H2 as ->.
    run_next u3 t3 H3. destruct u3. apply declareVariables_exact in H3 as [H3 _]. cbn in H3.
    eapply (forEach_preserves
      (fun t => (m_summaries t !! k) ≫= (fun m => m !! f) = Some p)); [| |exact Hrun].
    + intros function w w' _ Hw Hd. unfold defineSummary in Hd.
      run_next q' w1 Hq. apply createSummaryBlock_summaries in Hq.
      apply modify_Some in Hd as ->. cbn. rewrite Hq.
      destruct (decide (k = contract_id (declaration contract))) as [->|Hk].
      2:{ rewrite lookup_insert_ne by congruence. exact Hw. }
      rewrite lookup_insert_eq. cbn.
      destruct (m_summaries w !! contract_id (declaration contract)) as [m|] eqn:Em;
        [|discriminate Hw].
      cbn in *. destruct (m !! fun_id function) eqn:Ef; [exact Hw|].
      rewrite lookup_insert_ne by congruence. exact Hw.
    + rewrite H3, H1. exact Hv.
  - eapply (forEach_preserves
      (fun t => forall k f p, (m_summaries t !! k) ≫= (fun m => m !! f) = Some p ->
                              summaryFrom src s k f p)); [| |exact Hr].
    + intros contract t t' Hc Ht Hrun.
      eapply (forEach_preserves
        (fun t => forall k f p, (m_summaries t !! k) ≫= (fun m => m !! f) = Some p ->
                                summaryFrom src s k f p)); [|exact Ht|exact Hrun].
      intros base v v' Hb Hv. apply (defineBase_from src s contract base); assumption.
    + intros k f p Hp. left. exact Hp.
Qed.

Lemma defineSummary_interfaces contract function s u s' :
  defineSummary contract function s = Some (u, s') -> m_interfaces s' = m_interfaces s.
Proof.
  unfold defineSummary. intros Hr. run_next q t1 H1.
  apply createSummaryBlock_exact in H1 as (_ & _ & _ & _ & Hi & _).
  apply modify_Some in Hr as ->. exact Hi.
Qed.

Lemma defineBase_interfaces contract base s u s' :
  defineBase contract base s = Some (u, s') ->
  m_interfaces s' =
    <[contract_id (declaration base) :=
        {| smt.sfv_name := "interface_" +:+ contract_name (declaration base) +:+ "_"
                             +:+ pretty (contract_id (declaration base));
           smt.sfv_sort := CHC.interfaceSort_of (declaration base);
           smt.sfv_index := 0 |}]> (m_interfaces s).
Proof.
  unfold defineBase. intros Hr.
  run_next q t1 H1.
  unfold CHC.createSymbolicBlock, CHC.registerRelation in H1.
  apply bind_Some in H1 as (u1 & t0 & H0 & H1). apply modify_Some in H0 as ->.
  apply ret_Some in H1 as [-> ->].
  run_next u2 t2 H2. apply modify_Some in H2 as ->.
  run_next u3 t3 H3. destruct u3. apply declareVariables_exact in H3 as [_ H3]. cbn in H3.
  destruct u.
  transitivity (m_interfaces t3); [|exact H3].
  eapply (forEach_preserves (fun t => m_interfaces t = m_interfaces t3)); [|reflexivity|exact Hr].
  intros function w w' _ Hw Hd. apply defineSummary_interfaces in Hd. congruence.
Qed.

(** X10.  After [defineInterfacesAndSummaries], every base of every
    contract of the source has an interface predicate, and an interface
    predicate that was not in the table before is the predicate
    [interface_<name>_<id>] of a base of a contract of the source, at index
    0 and with the sort that [interfaceSort] gives for that base. *)
Theorem defineInterfacesAndSummaries_interfaces src s u s' :
  CHC.defineInterfacesAndSummaries src s = Some (u, s') ->
  (forall contract base,
     In contract (nodes src) -> In base (linearizedBaseContracts contract) ->
     exists p, m_interfaces s' !! contract_id (declaration base) = Some p /\
               interfaceFrom src s (contract_id (declaration base)) p) /\
  (forall k p, m_interfaces s' !! k = Some p -> interfaceFrom src s k p).
Proof.
  rewrite defineInterfacesAndSummaries_unfold. intros Hr. destruct u.
  assert (forall k p, m_interfaces s' !! k = Some p -> interfaceFrom src s k p) as Hfrom.
  { eapply (forEach_preserves
      (fun t => forall k p, m_interfaces t !! k = Some p -> interfaceFrom src s k p));
      [| |exact Hr].
    - intros contract t t' Hc Ht Hrun.
      eapply (forEach_preserves
        (fun t => forall k p, m_interfaces t !! k = Some p -> interfaceFrom src s k p));
        [|exact Ht|exact Hrun].
      intros base v v' Hb Hv Hd k p. rewrite (defineBase_interfaces _ _ _ _ _ Hd).
      destruct (decide (k = contract_id (declaration base))) as [->|Hk].
      + rewrite lookup_insert_eq. intros E. injection E as <-.
        right. exists contract, base. auto.
      + rewrite lookup_insert_ne by congruence. apply Hv.
    - intros k p Hp. left. exact Hp. }
  split; [|exact Hfrom].
  intros contract base Hc Hb.
  assert (is_Some (m_interfaces s' !! contract_id (declaration base))) as [p Hp].
  { eapply (forEach_establishes
      (fun t => is_Some (m_interfaces t !! contract_id (declaration base))));
      [exact Hc| | |exact Hr].
    - intros t t' Ht.
      eapply (forEach_establishes
        (fun t => is_Some (m_interfaces t !! contract_id (declaration base))));
        [exact Hb| | |exact Ht].
      + intros v v' Hd. rewrite (defineBase_interfaces _ _ _ _ _ Hd).
        rewrite lookup_insert_eq. eauto.
      + intros b v v' _ Hv Hd. rewrite (defineBase_interfaces _ _ _ _ _ Hd).
        apply lookup_insert_is_Some. destruct Hv as [q Hq].
        destruct (decide (contract_id (declaration b) = contract_id (declaration base)));
          [left; assumption|right; split; [assumption|eauto]].
    - intros c t t' _ Ht Hrun.
      eapply (forEach_preserves
        (fun t => is_Some (m_interfaces t !! contract_id (declaration base))));
        [|exact Ht|exact Hrun].
      intros b v v' _ Hv Hd. rewrite (defineBase_interfaces _ _ _ _ _ Hd).
      apply lookup_insert_is_Some. destruct Hv as [q Hq].
      destruct (decide (contract_id (declaration b) = contract_id (declaration base)));
        [left; assumption|right; split; [assumption|eauto]]. }
  exists p. split; [exact Hp|apply Hfrom; exact Hp].
Qed.

End Proofs.

(** ** Internal calls *)

Section Proofs.
Context `{Environment}.

Lemma onlyContext_tables s s' :
  onlyContext s s' ->
  m_summaries s' = m_summaries s /\ m_currentContract s' = m_currentContract s.
Proof. intros [E]. rewrite E. split; reflexivity. Qed.

(** [predicate(FunctionCall)] on a call with a definition: the error
    variable moves to its next index, the encoding context changes, and the
    result is the summary of the callee applied to the new error value.
    The summary is the one that the table holds for the callee, under its
    own contract if that is a library and under the current contract
    otherwise. *)
Lemma predicate_FunctionCall_exact _funCall function s e s' :
  functionCallToDefinition _funCall = Some function ->
  CHC.predicate_FunctionCall _funCall s = Some (e, s') ->
  onlyContext (set_m_error (S (m_error s)) s) s' /\
  exists q args,
    e = smt.apply q (smt.SSA smt.ErrorSym (S (m_error s)) :: args) /\
    if isLibrary (fun_contract function)
    then (m_summaries s !! contract_id (fun_contract function))
           ≫= (fun m => m !! fun_id function) = Some q
    else exists cur,
           m_currentContract s = Some cur /\
           (m_summaries s !! contract_id (declaration cur))
             ≫= (fun m => m !! fun_id function) = Some q.
Proof.
  unfold CHC.predicate_FunctionCall. intros -> Hr.
  run_next u1 s1 H1. apply modify_Some in H1 as ->.
  run_next e1 s2 H2. apply gets_Some in H2 as [-> ->].
  assert (onlyContext (set_m_error (S (m_error s)) s) s') as Hctx.
  { revert Hr. context_auto. }
  split; [exact Hctx|].
  destruct (onlyContext_tables _ _ Hctx) as [Es Ec].
  change (m_summaries (set_m_error (S (m_error s)) s)) with (m_summaries s) in Es.
  change (m_currentContract (set_m_error (S (m_error s)) s)) with (m_currentContract s) in Ec.
  clear Hctx.
  unfold CHC.lookupSummary, CHC.currentContract in Hr.
  destruct (isLibrary (fun_contract function)); run_inv.
  - eexists _, _. split; [reflexivity|].
    rewrite <- Es.
    match goal with
    | E1 : m_summaries _ !! _ = Some _, E2 : _ !! fun_id function = Some _ |- _ =>
        rewrite E1; cbn; exact E2
    end.
  - eexists _, _. split; [reflexivity|].
    match goal with E0 : m_currentContract _ = Some ?c |- _ => exists c end.
    split; [congruence|]. rewrite <- Es.
    match goal with
    | E1 : m_summaries _ !! _ = Some _, E2 : _ !! fun_id function = Some _ |- _ =>
        rewrite E1; cbn; exact E2
    end.
Qed.

Lemma addAssertion_exact e s u s' :
  CHC.addAssertion e s = Some (u, s') ->
  s' = set_m_context (EncodingContext.addAssertion e (m_context s)) s.
Proof.
  unfold CHC.addAssertion, CHC.modifyContext. intros Hr. apply modify_Some in Hr. exact Hr.
Qed.

Lemma insertInto_calls caller callee m :
  calls (CHC.insertInto caller callee m) caller callee /\
  forall a b, calls m a b -> calls (CHC.insertInto caller callee m) a b.
Proof.
  unfold calls, CHC.insertInto. split.
  - rewrite lookup_insert_eq. cbn. set_solver.
  - intros a b Hab. destruct (decide (a = caller)) as [->|Hne].
    + rewrite lookup_insert_eq. cbn. set_solver.
    + rewrite lookup_insert_ne by congruence. exact Hab.
Qed.

(** X11.  An internal call of a function with a definition.  The call is
    recorded in the call graph, from the current function (from the current
    contract inside a constructor) to the callee, and the calls recorded
    before stay.  For a function of a library the interface of the library
    is asserted first.  Then [predicate(FunctionCall)] builds the
    application [callPred] of the summary of the callee, which the table of
    summaries holds under the contract of the callee if that is a library
    and under the current contract otherwise, to the next error value, and
    [callPred] is asserted.  One rule is emitted: from the current block,
    under the assertions that now contain [callPred], guarded by that error
    value being positive, to the summary of the caller applied to the same
    error value: a failure in the callee is a failure of the caller.  The
    error variable moves on by two indices. *)
Theorem internalFunctionCall_propagates_error _funCall function s u s' :
  functionCallToDefinition _funCall = Some function ->
  CHC.internalFunctionCall _funCall s = Some (u, s') ->
  exists contract p rest s1 callPred s2 q args,
    m_currentContract s = Some contract /\
    let caller := match CHC.inRegularFunction s with
                  | Some f => fun_id f
                  | None => contract_id (declaration contract)
                  end in
    let recorded :=
      set_m_callGraph (CHC.insertInto caller (fun_id function) (m_callGraph s)) s in
    let error := smt.SSA smt.ErrorSym (S (m_error s)) in
    let to := smt.apply p (error :: rest) in
    let assertions :=
      EncodingContext.assertions
        (EncodingContext.addAssertion callPred (m_context s2)) in
    (if isLibrary (fun_contract function)
     then (i <- CHC.interface_of (fun_contract function) ;; CHC.addAssertion i)
     else ret tt) recorded = Some (tt, s1) /\
    CHC.predicate_FunctionCall _funCall s1 = Some (callPred, s2) /\
    callPred = smt.apply q (error :: args) /\
    (if isLibrary (fun_contract function)
     then (m_summaries s !! contract_id (fun_contract function))
            ≫= (fun m => m !! fun_id function) = Some q
     else (m_summaries s !! contract_id (declaration contract))
            ≫= (fun m => m !! fun_id function) = Some q) /\
    match CHC.inRegularFunction s with
    | Some f =>
        (m_summaries s !! contract_id (declaration contract))
          ≫= (fun m => m !! fun_id f) = Some p
    | None => m_constructorSummaryPredicate s = Some p
    end /\
    s' = set_m_context (m_context s')
           (set_m_error (S (S (m_error s)))
              (CHC.emitRule
                 (CHC.edge (m_currentBlock s) assertions
                    (smt.Gt error (smt.IntLit 0)) to,
                  CHC.edgeName (m_currentBlock s) to) recorded)) /\
    calls (m_callGraph s') caller (fun_id function) /\
    (forall a b, calls (m_callGraph s) a b -> calls (m_callGraph s') a b).
Proof.
  unfold CHC.internalFunctionCall. intros Hdef Hr. rewrite Hdef in Hr.
  run_next contract s0 H0. apply currentContract_inv in H0 as [Hc ->].
  run_next regular s1 H1. apply gets_Some in H1 as [-> ->].
  run_next u2 s2 H2.
  apply bind_Some in H2 as (u3 & s3 & H3 & H2). apply modify_Some in H3 as ->.
  set (caller := match CHC.inRegularFunction s with
                 | Some f => fun_id f
                 | None => contract_id (declaration contract)
                 end) in *.
  set (t := set_m_callGraph (CHC.insertInto caller (fun_id function) (m_callGraph s)) s) in *.
  destruct u2. pose proof H2 as Hlib.
  assert (onlyContext t s2) as [E2].
  { revert H2. clear Hr Hlib. context_auto. }
  remember (m_context s2) as c2 eqn:Ec2 in E2. clear Ec2 H2. subst s2.
  run_next previousError s4 H4. apply gets_Some in H4 as [-> ->].
  run_next call s5 H5. pose proof H5 as Hcall.
  apply (predicate_FunctionCall_exact _ function) in H5 as [[E5] (q & args & -> & Hq)];
    [|exact Hdef].
  remember (m_context s5) as c5 eqn:Ec5 in E5. clear Ec5. subst s5.
  run_next u6 s6 H6. apply addAssertion_exact in H6 as ->.
  run_next from s7 H7. apply gets_Some in H7 as [-> ->].
  run_next to s8 H8.
  match type of H8 with _ ?x = Some (_, _) => set (s6 := x) in * end.
  assert (s8 = s6) as ->.
  { destruct (CHC.inRegularFunction s); ro_state H8; reflexivity. }
  run_next e s9 H9. apply gets_Some in H9 as [-> ->].
  run_next u10 s10 H10.
  unfold CHC.connectBlocks, CHC.addRule in H10.
  apply bind_Some in H10 as (c10 & s11 & H11 & H10). apply gets_Some in H11 as [-> ->].
  apply modify_Some in H10 as ->.
  run_next e s12 H12. apply gets_Some in H12 as [-> ->].
  run_next u13 s13 H13. apply addAssertion_exact in H13 as ->.
  run_next u14 s14 H14. apply modify_Some in H14 as ->.
  run_next e s15 H15. apply gets_Some in H15 as [-> ->].
  apply addAssertion_exact in Hr as ->.
  assert (exists p rest,
            to = smt.apply p (smt.SSA smt.ErrorSym (S (m_error s)) :: rest) /\
            match CHC.inRegularFunction s with
            | Some f =>
                (m_summaries s !! contract_id (declaration contract))
                  ≫= (fun m => m !! fun_id f) = Some p
            | None => m_constructorSummaryPredicate s = Some p
            end) as (p & rest & -> & Hp).
  { destruct (CHC.inRegularFunction s) as [f|].
    - apply summary_shape in H8 as (c' & p & rest & Hc' & Hp & ->).
      assert (c' = contract) as -> by (cbn in Hc'; congruence).
      exists p, rest. split; [reflexivity|exact Hp].
    - apply summary_contract_shape in H8 as (p & rest & Hp & ->).
      exists p, rest. split; [reflexivity|exact Hp]. }
  assert (if isLibrary (fun_contract function)
          then (m_summaries s !! contract_id (fun_contract function))
                 ≫= (fun m => m !! fun_id function) = Some q
          else (m_summaries s !! contract_id (declaration contract))
                 ≫= (fun m => m !! fun_id function) = Some q) as Hq'.
  { destruct (isLibrary (fun_contract function)); [exact Hq|].
    destruct Hq as (cur & Hcur & Hq).
    change (m_currentContract s = Some cur) in Hcur.
    assert (cur = contract) as -> by congruence. exact Hq. }
  exists contract, p, rest. eexists _, _, _. exists q, args.
  split; [exact Hc|]. cbn zeta.
  split; [exact Hlib|]. split; [exact Hcall|]. split; [reflexivity|].
  split; [exact Hq'|]. split; [exact Hp|].
  split; [reflexivity|]. apply insertInto_calls.
Qed.

End Proofs.

(** ** The kinds of calls *)

Section Proofs.
Context `{Environment}.

(** X12.  [endVisit(FunctionCall)] by the kind of the call.  A call whose
    kind is not set is an internal error.  Only an [assert] and an internal
    call reach the backend, through [visitAssert] and
    [internalFunctionCall].  A call of one of the fourteen external and
    built-in kinds changes the encoding context and sets
    [m_unknownFunctionCallSeen]; every other call (a call of another kind of
    function, a type conversion, the construction of a struct) changes the
    encoding context only. *)
Theorem endVisit_FunctionCall_by_kind _funCall s u s' :
  CHC.endVisit_FunctionCall _funCall s = Some (u, s') ->
  match annotation_kind _funCall, funType_kind _funCall with
  | Unset, _ => False
  | FunctionCallKind_FunctionCall, Assert =>
      exists s1, CHC.visitAssert _funCall s = Some (tt, s1) /\ onlyContext s1 s'
  | FunctionCallKind_FunctionCall, Internal =>
      exists s1, CHC.internalFunctionCall _funCall s = Some (tt, s1) /\ onlyContext s1 s'
  | FunctionCallKind_FunctionCall, OtherKind => onlyContext s s'
  | FunctionCallKind_FunctionCall, _ =>
      onlyContext (set_m_unknownFunctionCallSeen true s) s'
  | _, _ => onlyContext s s'
  end.
Proof.
  unfold CHC.endVisit_FunctionCall, CHC.unknownFunctionCall. intros Hr.
  destruct (annotation_kind _funCall); [apply fail_Some in Hr; destruct Hr| | |].
  2,3: revert Hr; context_auto.
  destruct (funType_kind _funCall).
  1: run_next u0 s0 H0; run_next u1 s1 H1; destruct u1; exists s1; (split; [exact H1|]);
     clear H1; context_auto.
  1: run_next u1 s1 H1; destruct u1; exists s1; (split; [exact H1|]);
     clear H1; context_auto.
  15: revert Hr; context_auto.
  all: run_inv; context_steps; split; reflexivity.
Qed.

End Proofs.

(** ** What the body of a function leaves alone *)

Lemma kept_refl s : kept s s.
Proof. split; reflexivity. Qed.

Lemma kept_trans s1 s2 s3 : kept s1 s2 -> kept s2 s3 -> kept s1 s3.
Proof. intros [] []. split; congruence. Qed.

#[global] Hint Resolve kept_refl : frame.

Lemma forEach_kept {A} (f : A -> M unit) l s u s' :
  (forall a t v t', f a t = Some (v, t') -> kept t t') ->
  forEach l f s = Some (u, s') -> kept s s'.
Proof.
  intros Hf. apply forEach_rel; [apply kept_refl|apply kept_trans|].
  apply Forall_forall. intros a _. apply Hf.
Qed.

#[global] Hint Extern 5 (kept ?s ?s') =>
  match goal with
  | H : forEach _ _ s = Some (_, s') |- _ =>
      eapply forEach_kept; [|exact H]; clear H; frame_auto kept_trans
  end : frame.

Lemma modifyContext_kept `{Environment} x0 s u s' :
  CHC.modifyContext x0 s = Some (u, s') -> kept s s'.
Proof. unfold CHC.modifyContext. frame_auto kept_trans. Qed.
#[global] Hint Extern 1 (kept ?s ?s') =>
  match goal with
  | H : CHC.modifyContext _ s = Some (_, s') |- _ => eapply modifyContext_kept; exact H
  end : frame.

Lemma SMTEncoder_kept `{Environment} x0 s u s' :
  CHC.SMTEncoder x0 s = Some (u, s') -> kept s s'.
Proof. unfold CHC.SMTEncoder. frame_auto kept_trans. Qed.
#[global] Hint Extern 1 (kept ?s ?s') =>
  match goal with
  | H : CHC.SMTEncoder _ s = Some (_, s') |- _ => eapply SMTEncoder_kept; exact H
  end : frame.

Lemma addAssertion_kept `{Environment} x0 s u s' :
  CHC.addAssertion x0 s = Some (u, s') -> kept s s'.
Proof. unfold CHC.addAssertion. frame_auto kept_trans. Qed.
#[global] Hint Extern 1 (kept ?s ?s') =>
  match goal with
  | H : CHC.addAssertion _ s = Some (_, s') |- _ => eapply addAssertion_kept; exact H
  end : frame.

Lemma createVariable_kept `{Environment} x0 s u s' :
  CHC.createVariable x0 s = Some (u, s') -> kept s s'.
Proof. unfold CHC.createVariable. frame_auto kept_trans. Qed.
#[global] Hint Extern 1 (kept ?s ?s') =>
  match goal with
  | H : CHC.createVariable _ s = Some (_, s') |- _ => eapply createVariable_kept; exact H
  end : frame.

Lemma increaseIndex_kept `{Environment} x0 s u s' :
  CHC.increaseIndex x0 s = Some (u, s') -> kept s s'.
Proof. unfold CHC.increaseIndex. frame_auto kept_trans. Qed.
#[global] Hint Extern 1 (kept ?s ?s') =>
  match goal with
  | H : CHC.increaseIndex _ s = Some (_, s') |- _ => eapply increaseIndex_kept; exact H
  end : frame.

Lemma resetIndex_kept `{Environment} x0 s u s' :
  CHC.resetIndex x0 s = Some (u, s') -> kept s s'.
Proof. unfold CHC.resetIndex. frame_auto kept_trans. Qed.
#[global] Hint Extern 1 (kept ?s ?s') =>
  match goal with
  | H : CHC.resetIndex _ s = Some (_, s') |- _ => eapply resetIndex_kept; exact H
  end : frame.

Lemma m_error_increaseIndex_kept `{Environment}  s u s' :
  CHC.m_error_increaseIndex  s = Some (u, s') -> kept s s'.
Proof. unfold CHC.m_error_increaseIndex. frame_auto kept_trans. Qed.
#[global] Hint Extern 1 (kept ?s ?s') =>
  match goal with
  | H : CHC.m_error_increaseIndex  s = Some (_, s') |- _ => eapply m_error_increaseIndex_kept; exact H
  end : frame.

Lemma eraseKnowledge_kept `{Environment}  s u s' :
  CHC.eraseKnowledge  s = Some (u, s') -> kept s s'.
Proof. unfold CHC.eraseKnowledge, CHC.resetStateVariables. frame_auto kept_trans. Qed.
#[global] Hint Extern 1 (kept ?s ?s') =>
  match goal with
  | H : CHC.eraseKnowledge  s = Some (_, s') |- _ => eapply eraseKnowledge_kept; exact H
  end : frame.

Lemma createSymbolicBlock_kept `{Environment} x0 x1 s u s' :
  CHC.createSymbolicBlock x0 x1 s = Some (u, s') -> kept s s'.
Proof. unfold CHC.createSymbolicBlock, CHC.registerRelation. frame_auto kept_trans. Qed.
#[global] Hint Extern 1 (kept ?s ?s') =>
  match goal with
  | H : CHC.createSymbolicBlock _ _ s = Some (_, s') |- _ => eapply createSymbolicBlock_kept; exact H
  end : frame.

Lemma createBlock_kept `{Environment} x0 x1 s u s' :
  CHC.createBlock x0 x1 s = Some (u, s') -> kept s s'.
Proof. unfold CHC.createBlock, CHC.uniquePrefix. frame_auto kept_trans. Qed.
#[global] Hint Extern 1 (kept ?s ?s') =>
  match goal with
  | H : CHC.createBlock _ _ s = Some (_, s') |- _ => eapply createBlock_kept; exact H
  end : frame.

Lemma connectBlocks_kept `{Environment} x0 x1 x2 s u s' :
  CHC.connectBlocks x0 x1 x2 s = Some (u, s') -> kept s s'.
Proof. unfold CHC.connectBlocks, CHC.addRule. frame_auto kept_trans. Qed.
#[global] Hint Extern 1 (kept ?s ?s') =>
  match goal with
  | H : CHC.connectBlocks _ _ _ s = Some (_, s') |- _ => eapply connectBlocks_kept; exact H
  end : frame.

Lemma connectCurrentTo_kept `{Environment} x0 x1 s u s' :
  CHC.connectCurrentTo x0 x1 s = Some (u, s') -> kept s s'.
Proof. unfold CHC.connectCurrentTo. frame_auto kept_trans. Qed.
#[global] Hint Extern 1 (kept ?s ?s') =>
  match goal with
  | H : CHC.connectCurrentTo _ _ s = Some (_, s') |- _ => eapply connectCurrentTo_kept; exact H
  end : frame.

Lemma clearIndices_kept `{Environment} x0 x1 s u s' :
  CHC.clearIndices x0 x1 s = Some (u, s') -> kept s s'.
Proof. unfold CHC.clearIndices. frame_auto kept_trans. Qed.
#[global] Hint Extern 1 (kept ?s ?s') =>
  match goal with
  | H : CHC.clearIndices _ _ s = Some (_, s') |- _ => eapply clearIndices_kept; exact H
  end : frame.

Lemma setCurrentBlock_kept `{Environment} x0 x1 s u s' :
  CHC.setCurrentBlock x0 x1 s = Some (u, s') -> kept s s'.
Proof. unfold CHC.setCurrentBlock. frame_auto kept_trans. Qed.
#[global] Hint Extern 1 (kept ?s ?s') =>
  match goal with
  | H : CHC.setCurrentBlock _ _ s = Some (_, s') |- _ => eapply setCurrentBlock_kept; exact H
  end : frame.

Lemma predicate_FunctionCall_kept `{Environment} x0 s u s' :
  CHC.predicate_FunctionCall x0 s = Some (u, s') -> kept s s'.
Proof. unfold CHC.predicate_FunctionCall. frame_auto kept_trans. Qed.
#[global] Hint Extern 1 (kept ?s ?s') =>
  match goal with
  | H : CHC.predicate_FunctionCall _ s = Some (_, s') |- _ => eapply predicate_FunctionCall_kept; exact H
  end : frame.

Lemma visitAssert_kept `{Environment} x0 s u s' :
  CHC.visitAssert x0 s = Some (u, s') -> kept s s'.
Proof. unfold CHC.visitAssert. frame_auto kept_trans. Qed.
#[global] Hint Extern 1 (kept ?s ?s') =>
  match goal with
  | H : CHC.visitAssert _ s = Some (_, s') |- _ => eapply visitAssert_kept; exact H
  end : frame.

Lemma internalFunctionCall_kept `{Environment} x0 s u s' :
  CHC.internalFunctionCall x0 s = Some (u, s') -> kept s s'.
Proof. unfold CHC.internalFunctionCall. frame_auto kept_trans. Qed.
#[global] Hint Extern 1 (kept ?s ?s') =>
  match goal with
  | H : CHC.internalFunctionCall _ s = Some (_, s') |- _ => eapply internalFunctionCall_kept; exact H
  end : frame.

Lemma unknownFunctionCall_kept `{Environment} x0 s u s' :
  CHC.unknownFunctionCall x0 s = Some (u, s') -> kept s s'.
Proof. unfold CHC.unknownFunctionCall. frame_auto kept_trans. Qed.
#[global] Hint Extern 1 (kept ?s ?s') =>
  match goal with
  | H : CHC.unknownFunctionCall _ s = Some (_, s') |- _ => eapply unknownFunctionCall_kept; exact H
  end : frame.

Lemma endVisit_FunctionCall_kept `{Environment} x0 s u s' :
  CHC.endVisit_FunctionCall x0 s = Some (u, s') -> kept s s'.
Proof. unfold CHC.endVisit_FunctionCall. frame_auto kept_trans. Qed.
#[global] Hint Extern 1 (kept ?s ?s') =>
  match goal with
  | H : CHC.endVisit_FunctionCall _ s = Some (_, s') |- _ => eapply endVisit_FunctionCall_kept; exact H
  end : frame.

Lemma endVisit_Break_kept `{Environment} x0 s u s' :
  CHC.endVisit_Break x0 s = Some (u, s') -> kept s s'.
Proof. unfold CHC.endVisit_Break. frame_auto kept_trans. Qed.
#[global] Hint Extern 1 (kept ?s ?s') =>
  match goal with
  | H : CHC.endVisit_Break _ s = Some (_, s') |- _ => eapply endVisit_Break_kept; exact H
  end : frame.

Lemma endVisit_Continue_kept `{Environment} x0 s u s' :
  CHC.endVisit_Continue x0 s = Some (u, s') -> kept s s'.
Proof. unfold CHC.endVisit_Continue. frame_auto kept_trans. Qed.
#[global] Hint Extern 1 (kept ?s ?s') =>
  match goal with
  | H : CHC.endVisit_Continue _ s = Some (_, s') |- _ => eapply endVisit_Continue_kept; exact H
  end : frame.

Lemma acceptExpression_kept `{Environment} e : forall s u s',
  CHC.acceptExpression e s = Some (u, s') -> kept s s'.
Proof.
  induction e as [id k fk d callee args IHc IHa|id subs IHs] using Expression_ind';
    intros s u s' Hr; cbn [CHC.acceptExpression] in Hr.
  - run_next a1 s1 H1. run_next a2 s2 H2.
    apply kept_trans with s1; [eapply IHc; eassumption|].
    apply kept_trans with s2; [|eauto with frame].
    revert H2. apply forEach_rel; [apply kept_refl|apply kept_trans|exact IHa].
  - run_next a1 s1 H1. run_next a2 s2 H2.
    apply kept_trans with s1; [eauto with frame|].
    apply kept_trans with s2; [|eauto with frame].
    revert H2. apply forEach_rel; [apply kept_refl|apply kept_trans|exact IHs].
Qed.
#[global] Hint Extern 1 (kept ?s ?s') =>
  match goal with
  | H : CHC.acceptExpression _ s = Some (_, s') |- _ => eapply acceptExpression_kept; exact H
  end : frame.

Section Visit.
Context `{Environment}.
Variable acceptS : Statement -> M unit.

Lemma visit_IfStatement_kept id c t f s b s' :
  (forall s u s', acceptS t s = Some (u, s') -> kept s s') ->
  (forall f', f = Some f' -> forall s u s', acceptS f' s = Some (u, s') -> kept s s') ->
  CHC.visit_IfStatement CHC.acceptExpression acceptS id c t f s = Some (b, s') -> kept s s'.
Proof.
  intros Ht Hf. unfold CHC.visit_IfStatement. intros Hr. run_inv.
  all: try (pose proof (Hf _ eq_refl) as Hf').
  all: frame_chain kept_trans.
Qed.

Lemma visit_WhileStatement_kept id d c body s b s' :
  (forall s u s', acceptS body s = Some (u, s') -> kept s s') ->
  CHC.visit_WhileStatement CHC.acceptExpression acceptS id d c body s = Some (b, s') ->
  kept s s'.
Proof.
  intros Hb. unfold CHC.visit_WhileStatement. intros Hr. run_inv.
  all: frame_chain kept_trans.
Qed.

Lemma visit_ForStatement_kept id i c p body s b s' :
  (forall i', i = Some i' -> forall s u s', acceptS i' s = Some (u, s') -> kept s s') ->
  (forall p', p = Some p' -> forall s u s', acceptS p' s = Some (u, s') -> kept s s') ->
  (forall s u s', acceptS body s = Some (u, s') -> kept s s') ->
  CHC.visit_ForStatement CHC.acceptExpression acceptS id i c p body s = Some (b, s') ->
  kept s s'.
Proof.
  intros Hi Hp Hb. unfold CHC.visit_ForStatement. intros Hr. run_inv.
  all: try (pose proof (Hi _ eq_refl) as Hi').
  all: try (pose proof (Hp _ eq_refl) as Hp').
  all: frame_chain kept_trans.
Qed.

End Visit.

Lemma acceptStatement_kept `{Environment} st : forall s u s',
  CHC.acceptStatement st s = Some (u, s') -> kept s s'.
Proof.
  induction st as [id sts IH|id e|id es|id c t f IHt IHf|id d c b IHb|id i c p b IHi IHp IHb|id|id]
    using Statement_ind'; intros s u s' Hr; cbn [CHC.acceptStatement] in Hr.
  - run_next a1 s1 H1. run_next a2 s2 H2.
    apply kept_trans with s1; [eauto with frame|].
    apply kept_trans with s2; [|eauto with frame].
    revert H2. apply forEach_rel; [apply kept_refl|apply kept_trans|exact IH].
  - revert Hr. frame_auto kept_trans.
  - run_next a1 s1 H1. run_next a2 s2 H2.
    apply kept_trans with s1; [eauto with frame|].
    apply kept_trans with s2; [|eauto with frame].
    revert H2. apply forEach_rel; [apply kept_refl|apply kept_trans|].
    apply Forall_forall. intros e _. apply acceptExpression_kept.
  - run_next a1 s1 H1. repeat run_basic.
    eapply visit_IfStatement_kept; [| |exact H1]; eauto.
  - run_next a1 s1 H1. repeat run_basic.
    eapply visit_WhileStatement_kept; [|exact H1]; eauto.
  - run_next a1 s1 H1. repeat run_basic.
    eapply visit_ForStatement_kept; [| | |exact H1]; eauto.
  - eauto with frame.
  - eauto with frame.
Qed.
#[global] Hint Extern 1 (kept ?s ?s') =>
  match goal with
  | H : CHC.acceptStatement _ s = Some (_, s') |- _ => eapply acceptStatement_kept; exact H
  end : frame.

(** ** Expressions create no block *)

Lemma noBlock_refl s : noBlock s s.
Proof. split; reflexivity. Qed.

Lemma noBlock_trans s1 s2 s3 : noBlock s1 s2 -> noBlock s2 s3 -> noBlock s1 s3.
Proof. intros [] []. split; congruence. Qed.

#[global] Hint Resolve noBlock_refl : frame.

Lemma forEach_noBlock {A} (f : A -> M unit) l s u s' :
  (forall a t v t', f a t = Some (v, t') -> noBlock t t') ->
  forEach l f s = Some (u, s') -> noBlock s s'.
Proof.
  intros Hf. apply forEach_rel; [apply noBlock_refl|apply noBlock_trans|].
  apply Forall_forall. intros a _. apply Hf.
Qed.

#[global] Hint Extern 5 (noBlock ?s ?s') =>
  match goal with
  | H : forEach _ _ s = Some (_, s') |- _ =>
      eapply forEach_noBlock; [|exact H]; clear H; frame_auto noBlock_trans
  end : frame.

Lemma modifyContext_noBlock `{Environment} x0 s u s' :
  CHC.modifyContext x0 s = Some (u, s') -> noBlock s s'.
Proof. unfold CHC.modifyContext. frame_auto noBlock_trans. Qed.
#[global] Hint Extern 1 (noBlock ?s ?s') =>
  match goal with
  | H : CHC.modifyContext _ s = Some (_, s') |- _ => eapply modifyContext_noBlock; exact H
  end : frame.

Lemma SMTEncoder_noBlock `{Environment} x0 s u s' :
  CHC.SMTEncoder x0 s = Some (u, s') -> noBlock s s'.
Proof. unfold CHC.SMTEncoder. frame_auto noBlock_trans. Qed.
#[global] Hint Extern 1 (noBlock ?s ?s') =>
  match goal with
  | H : CHC.SMTEncoder _ s = Some (_, s') |- _ => eapply SMTEncoder_noBlock; exact H
  end : frame.

Lemma addAssertion_noBlock `{Environment} x0 s u s' :
  CHC.addAssertion x0 s = Some (u, s') -> noBlock s s'.
Proof. unfold CHC.addAssertion. frame_auto noBlock_trans. Qed.
#[global] Hint Extern 1 (noBlock ?s ?s') =>
  match goal with
  | H : CHC.addAssertion _ s = Some (_, s') |- _ => eapply addAssertion_noBlock; exact H
  end : frame.

Lemma createVariable_noBlock `{Environment} x0 s u s' :
  CHC.createVariable x0 s = Some (u, s') -> noBlock s s'.
Proof. unfold CHC.createVariable. frame_auto noBlock_trans. Qed.
#[global] Hint Extern 1 (noBlock ?s ?s') =>
  match goal with
  | H : CHC.createVariable _ s = Some (_, s') |- _ => eapply createVariable_noBlock; exact H
  end : frame.

Lemma increaseIndex_noBlock `{Environment} x0 s u s' :
  CHC.increaseIndex x0 s = Some (u, s') -> noBlock s s'.
Proof. unfold CHC.increaseIndex. frame_auto noBlock_trans. Qed.
#[global] Hint Extern 1 (noBlock ?s ?s') =>
  match goal with
  | H : CHC.increaseIndex _ s = Some (_, s') |- _ => eapply increaseIndex_noBlock; exact H
  end : frame.

Lemma resetIndex_noBlock `{Environment} x0 s u s' :
  CHC.resetIndex x0 s = Some (u, s') -> noBlock s s'.
Proof. unfold CHC.resetIndex. frame_auto noBlock_trans. Qed.
#[global] Hint Extern 1 (noBlock ?s ?s') =>
  match goal with
  | H : CHC.resetIndex _ s = Some (_, s') |- _ => eapply resetIndex_noBlock; exact H
  end : frame.

Lemma m_error_increaseIndex_noBlock `{Environment}  s u s' :
  CHC.m_error_increaseIndex  s = Some (u, s') -> noBlock s s'.
Proof. unfold CHC.m_error_increaseIndex. frame_auto noBlock_trans. Qed.
#[global] Hint Extern 1 (noBlock ?s ?s') =>
  match goal with
  | H : CHC.m_error_increaseIndex  s = Some (_, s') |- _ => eapply m_error_increaseIndex_noBlock; exact H
  end : frame.

Lemma eraseKnowledge_noBlock `{Environment}  s u s' :
  CHC.eraseKnowledge  s = Some (u, s') -> noBlock s s'.
Proof. unfold CHC.eraseKnowledge, CHC.resetStateVariables. frame_auto noBlock_trans. Qed.
#[global] Hint Extern 1 (noBlock ?s ?s') =>
  match goal with
  | H : CHC.eraseKnowledge  s = Some (_, s') |- _ => eapply eraseKnowledge_noBlock; exact H
  end : frame.

Lemma connectBlocks_noBlock `{Environment} x0 x1 x2 s u s' :
  CHC.connectBlocks x0 x1 x2 s = Some (u, s') -> noBlock s s'.
Proof. unfold CHC.connectBlocks, CHC.addRule. frame_auto noBlock_trans. Qed.
#[global] Hint Extern 1 (noBlock ?s ?s') =>
  match goal with
  | H : CHC.connectBlocks _ _ _ s = Some (_, s') |- _ => eapply connectBlocks_noBlock; exact H
  end : frame.

Lemma predicate_FunctionCall_noBlock `{Environment} x0 s u s' :
  CHC.predicate_FunctionCall x0 s = Some (u, s') -> noBlock s s'.
Proof. unfold CHC.predicate_FunctionCall. frame_auto noBlock_trans. Qed.
#[global] Hint Extern 1 (noBlock ?s ?s') =>
  match goal with
  | H : CHC.predicate_FunctionCall _ s = Some (_, s') |- _ => eapply predicate_FunctionCall_noBlock; exact H
  end : frame.

Lemma visitAssert_noBlock `{Environment} x0 s u s' :
  CHC.visitAssert x0 s = Some (u, s') -> noBlock s s'.
Proof. unfold CHC.visitAssert. frame_auto noBlock_trans. Qed.
#[global] Hint Extern 1 (noBlock ?s ?s') =>
  match goal with
  | H : CHC.visitAssert _ s = Some (_, s') |- _ => eapply visitAssert_noBlock; exact H
  end : frame.

Lemma internalFunctionCall_noBlock `{Environment} x0 s u s' :
  CHC.internalFunctionCall x0 s = Some (u, s') -> noBlock s s'.
Proof. unfold CHC.internalFunctionCall. frame_auto noBlock_trans. Qed.
#[global] Hint Extern 1 (noBlock ?s ?s') =>
  match goal with
  | H : CHC.internalFunctionCall _ s = Some (_, s') |- _ => eapply internalFunctionCall_noBlock; exact H
  end : frame.

Lemma unknownFunctionCall_noBlock `{Environment} x0 s u s' :
  CHC.unknownFunctionCall x0 s = Some (u, s') -> noBlock s s'.
Proof. unfold CHC.unknownFunctionCall. frame_auto noBlock_trans. Qed.
#[global] Hint Extern 1 (noBlock ?s ?s') =>
  match goal with
  | H : CHC.unknownFunctionCall _ s = Some (_, s') |- _ => eapply unknownFunctionCall_noBlock; exact H
  end : frame.

Lemma endVisit_FunctionCall_noBlock `{Environment} x0 s u s' :
  CHC.endVisit_FunctionCall x0 s = Some (u, s') -> noBlock s s'.
Proof. unfold CHC.endVisit_FunctionCall. frame_auto noBlock_trans. Qed.
#[global] Hint Extern 1 (noBlock ?s ?s') =>
  match goal with
  | H : CHC.endVisit_FunctionCall _ s = Some (_, s') |- _ => eapply endVisit_FunctionCall_noBlock; exact H
  end : frame.

Lemma acceptExpression_noBlock `{Environment} e : forall s u s',
  CHC.acceptExpression e s = Some (u, s') -> noBlock s s'.
Proof.
  induction e as [id k fk d callee args IHc IHa|id subs IHs] using Expression_ind';
    intros s u s' Hr; cbn [CHC.acceptExpression] in Hr.
  - run_next a1 s1 H1. run_next a2 s2 H2.
    apply noBlock_trans with s1; [eapply IHc; eassumption|].
    apply noBlock_trans with s2; [|eauto with frame].
    revert H2. apply forEach_rel; [apply noBlock_refl|apply noBlock_trans|exact IHa].
  - run_next a1 s1 H1. run_next a2 s2 H2.
    apply noBlock_trans with s1; [eauto with frame|].
    apply noBlock_trans with s2; [|eauto with frame].
    revert H2. apply forEach_rel; [apply noBlock_refl|apply noBlock_trans|exact IHs].
Qed.

Section Proofs.
Context `{Environment}.

(** X13.  The encoding of a statement, whatever it contains, leaves the
    destinations of [break] and [continue], the current function and the
    current contract as they were; it does not touch the summaries, the
    interfaces, the predicates of the contract, the state variables and
    their sorts, the verification targets, the safe assertions or the
    reports; and it only adds to the relations and rules of the backend. *)
Theorem acceptStatement_leaves_alone st s u s' :
  CHC.acceptStatement st s = Some (u, s') ->
  m_breakDest s' = m_breakDest s /\ m_continueDest s' = m_continueDest s /\
  m_currentFunction s' = m_currentFunction s /\
  kept s s' /\
  m_safeAssertions s' = m_safeAssertions s /\
  m_outerErrorReporter s' = m_outerErrorReporter s /\
  exists P R, emitted s s' P R.
Proof.
  intros Hr.
  pose proof (acceptStatement_frameS _ _ _ _ Hr) as [[Hsafe Hrep HP HR] Hf _ Hb Hc].
  pose proof (acceptStatement_kept _ _ _ _ Hr) as Hk.
  repeat (split; [assumption|]).
  destruct HP as [P HP], HR as [R HR]. exists P, R. split; assumption.
Qed.

(** X14.  The encoding of an expression, in addition, leaves the current
    block as it was: the blocks of the control-flow graph change at
    statements only. *)
Theorem acceptExpression_leaves_alone e s u s' :
  CHC.acceptExpression e s = Some (u, s') ->
  m_currentBlock s' = m_currentBlock s /\
  m_blockCounter s' = m_blockCounter s /\
  relations (m_interface s') = relations (m_interface s) /\
  m_breakDest s' = m_breakDest s /\ m_continueDest s' = m_continueDest s /\
  m_currentFunction s' = m_currentFunction s /\
  kept s s' /\
  m_safeAssertions s' = m_safeAssertions s /\
  m_outerErrorReporter s' = m_outerErrorReporter s /\
  exists R, rules (m_interface s') = rules (m_interface s) ++ R.
Proof.
  intros Hr.
  pose proof (acceptExpression_frameE _ _ _ _ Hr) as [[[Hsafe Hrep _ [R HR]] Hf _ Hb Hc] _].
  pose proof (acceptExpression_kept _ _ _ _ Hr) as Hk.
  pose proof (acceptExpression_noBlock _ _ _ _ Hr) as [Hn Hrel Hcur].
  repeat (split; [assumption|]). exists R. exact HR.
Qed.

End Proofs.

(** ** The blocks and edges of a [for] loop *)

Section Proofs.
Context `{Environment}.

(** X15.  The blocks and the edges of a [for] loop.  [visit(ForStatement)]
    creates, in this order, a header, a body and an after block and, when
    the loop has a loop expression, a block for it; their names carry the
    successive values of the block counter.  The destination of [break] is
    the after block and that of [continue] the block of the loop expression,
    or the header when there is none; the destinations of the enclosing
    loop are back afterwards.  The rules are, in this order: those of the
    initialisation; the edge [r1] from the current block to the header; the
    rules of the condition; the edge [r2] to the body guarded by the
    condition ([true] when there is none) and the edge [r3] to the after
    block guarded by its negation; the rules of the body; when there is a
    loop expression the edge to its block and its rules; and the back edge
    [r4] to the header.  Nothing else is registered or emitted, and the
    encoder ends in the after block. *)
Theorem visit_ForStatement_blocks_and_edges _for init c post body s res s' :
  CHC.visit_ForStatement CHC.acceptExpression CHC.acceptStatement _for init c post body s
    = Some (res, s') ->
  let n := m_blockCounter s in
  exists header bodyBlock afterLoop postBlock,
    let blocks := header :: bodyBlock :: afterLoop :: option_list postBlock in
    let continueTo := default header postBlock in
    let s0 :=
      set_m_continueDest (Some continueTo)
        (set_m_breakDest (Some afterLoop)
           (declareBlocks blocks (set_m_unknownFunctionCallSeen false s))) in
    let restored (t : CHC) :=
      set_m_continueDest (m_continueDest s) (set_m_breakDest (m_breakDest s) t) in
    blockNamed n "for_header_" header /\
    blockNamed (n + 1) "for_body_" bodyBlock /\
    blockNamed (n + 2) "" afterLoop /\
    match post, postBlock with
    | Some _, Some b => blockNamed (n + 3) "for_post_" b
    | None, None => True
    | _, _ => False
    end /\
    exists si Pi Ri r1 sh sc cond Pc Rc r2 r3 sb sb' Pb Rb sp Pp Rp Rq r4 sa,
      forInit init s0 si Pi Ri /\
      edgeTo si header (smt.BoolLit true) r1 /\
      CHC.setCurrentBlock header None (CHC.emitRule r1 si) = Some (tt, sh) /\
      forCondition c sh sc cond Pc Rc /\
      isPredicateOf header (m_currentBlock sc) /\
      edgeTo sc bodyBlock cond r2 /\
      edgeTo (CHC.emitRule r2 sc) afterLoop (smt.Not cond) r3 /\
      CHC.setCurrentBlock bodyBlock None (CHC.emitRule r3 (CHC.emitRule r2 sc))
        = Some (tt, sb) /\
      m_breakDest sb = Some afterLoop /\ m_continueDest sb = Some continueTo /\
      CHC.acceptStatement body sb = Some (tt, sb') /\ emitted sb sb' Pb Rb /\
      forPost post postBlock sb' sp Pp Rp Rq /\
      edgeTo (restored sp) header (smt.BoolLit true) r4 /\
      CHC.setCurrentBlock afterLoop None (CHC.emitRule r4 (restored sp)) = Some (tt, sa) /\
      m_breakDest s' = m_breakDest s /\ m_continueDest s' = m_continueDest s /\
      isPredicateOf afterLoop (m_currentBlock s') /\
      emitted s s' (blocks ++ Pi ++ Pc ++ Pb ++ Pp)
        (Ri ++ [r1] ++ Rc ++ [r2; r3] ++ Rb ++ Rq ++ Rp ++ [r4]).
Proof.
  unfold CHC.visit_ForStatement. intros Hr. run_inv.
  all: emitted_steps; dest_steps.
  all: repeat match goal with H : CHC.currentFunction _ = _ |- _ => clear H end.
  all: emitted_setters.
  all: repeat match goal with
       | E : ?t = declareBlock _ ?t0 |- _ =>
           is_var t;
           assert (m_blockCounter t = S (m_blockCounter t0)) by (rewrite E; reflexivity);
           revert E
       end; intros.
  all: repeat match goal with
       | E : m_blockCounter _ = S (m_blockCounter (set_m_unknownFunctionCallSeen _ _)) |- _ =>
           rewrite blockCounter_set_seen in E
       | E : blockNamed (m_blockCounter (set_m_unknownFunctionCallSeen _ _)) _ _ |- _ =>
           rewrite blockCounter_set_seen in E
       end.
  all: match goal with
       | Hh : blockNamed _ "for_header_" ?h, Hb : blockNamed _ "for_body_" ?b,
         Hp : blockNamed _ "for_post_" ?p, Ha : blockNamed _ "" ?a |- _ =>
           exists h, b, a, (Some p)
       | Hh : blockNamed _ "for_header_" ?h, Hb : blockNamed _ "for_body_" ?b,
         Ha : blockNamed _ "" ?a |- _ =>
           exists h, b, a, None
       end.
  all: cbn zeta; unfold option_list, from_option, default; cbn [option_rect length app id].
  all: rewrite ?declareBlocks_cons, ?declareBlocks_nil.
  all: (split; [eapply blockNamed_eq; [eassumption|reflexivity]|]).
  all: (split; [eapply blockNamed_eq; [eassumption|simpl; lia]|]).
  all: (split; [eapply blockNamed_eq; [eassumption|simpl; lia]|]).
  all: (split; [first [exact I|eapply blockNamed_eq; [eassumption|simpl; lia]]|]).
  all: subst.
  all: autorewrite with dests in *.
  all: do 21 eexists.
  all: cbn [forInit forCondition forPost].
  all: repeat apply conj.
  all: try lazymatch goal with
       | |- ex _ => do 2 eexists; repeat apply conj
       end.
  all: first
         [ exact_step
         | reflexivity
         | congruence
         | cbn [m_currentBlock set_m_unknownFunctionCallSeen]; congruence
         | emitted_solve ].
Qed.

End Proofs.

(** ** Functions *)

Section Proofs.
Context `{Environment}.

Lemma setCurrentBlock_exact b args s u s' :
  CHC.setCurrentBlock b (Some args) s = Some (u, s') ->
  is_Some (m_currentContract s) /\
  exists c, s' = set_m_currentBlock (smt.apply b args) (set_m_context c s).
Proof.
  unfold CHC.setCurrentBlock, CHC.predicate_args. intros Hr.
  run_next c0 s0 H0. apply gets_Some in H0 as [-> ->].
  run_next u1 s1 H1.
  assert (onlyContext s s1) as [E1].
  { destruct (bool_decide (0 < EncodingContext.solverStackHeigh (m_context s))).
    - eauto with frame.
    - apply ret_Some in H1 as [_ ->]. apply onlyContext_refl. }
  clear H1. explicit E1.
  run_next contract s2 H2. apply currentContract_inv in H2 as [Hc ->].
  run_next f s3 H3. apply gets_Some in H3 as [-> ->].
  run_next u4 s4 H4. apply clearIndices_onlyContext in H4 as [E4]. explicit E4.
  run_next u5 s5 H5. apply modifyContext_onlyContext in H5 as [E5]. explicit E5.
  run_next p s6 H6. apply ret_Some in H6 as [-> ->].
  apply modify_Some in Hr as ->.
  split; [eexists; exact Hc|]. eexists. reflexivity.
Qed.

Lemma addVerificationTarget_exact scope from c e s u s' :
  CHC.addVerificationTarget scope from c e s = Some (u, s') ->
  s' = set_m_verificationTargets
         (emplaceTarget scope {| value := from; constraints := c; errorId := e |}
            (m_verificationTargets s)) s.
Proof.
  unfold CHC.addVerificationTarget, emplaceTarget. intros Hr. apply modify_Some in Hr as ->.
  destruct (m_verificationTargets s !! scope); [destruct s|]; reflexivity.
Qed.

Lemma connectBlocks_exact from to c s u s' :
  CHC.connectBlocks from to c s = Some (u, s') ->
  s' = CHC.emitRule (CHC.edge from (EncodingContext.assertions (m_context s)) c to,
                     CHC.edgeName from to) s.
Proof.
  unfold CHC.connectBlocks, CHC.addRule. intros Hr.
  run_next c0 s0 H0. apply gets_Some in H0 as [-> ->].
  apply modify_Some in Hr. exact Hr.
Qed.

(** X16.  [endVisit(FunctionDefinition)] on an implemented function.  When
    the function is not the current one, this is the end of a base
    constructor that is being inlined: the current function and the visited
    one are constructors, the visited one belongs to another contract, and
    only the encoding context changes.  Otherwise no function is current
    afterwards and the block counter is not used.  For a constructor the
    predicate [constructor_exit_<name>_<id>] of the current contract is
    registered, the current block is connected to it, applied to the error
    value and the state variables, and it becomes the current block.  For
    any other function the current block is connected to the summary of the
    function and the interface of the contract, applied to the initial
    state variables, becomes the current block; only a public function
    becomes a verification target, unless its scope has one already, and
    gets the edge from the interface back to the interface. *)
Theorem endVisit_FunctionDefinition_exit (f : FunctionDefinition) s u s' :
  isImplemented f = true ->
  CHC.endVisit_FunctionDefinition f s = Some (u, s') ->
  if CHC.isNotCurrentFunction f s
  then
    (exists cur, m_currentFunction s = Some cur /\ isConstructor cur = true) /\
    isConstructor f = true /\ CHC.scopeIsNotCurrentContract f s = true /\
    onlyContext s s'
  else
    m_currentFunction s' = None /\
    m_blockCounter s' = m_blockCounter s /\
    exists contract,
      m_currentContract s = Some contract /\
      if isConstructor f
      then
        let exit :=
          {| smt.sfv_name := "constructor_exit_" +:+ CHC.contractSuffix (declaration contract);
             smt.sfv_sort := smt.FunctionSort (smt.intSort :: m_stateSorts s) smt.boolSort;
             smt.sfv_index := 0 |} in
        exists state state',
          CHC.currentStateVariables s = Some (state, s) /\
          emitted s s' [exit]
            [(CHC.edge (m_currentBlock s) (EncodingContext.assertions (m_context s))
                (smt.BoolLit true) (smt.apply exit (CHC.errorValue s :: state)),
              CHC.edgeName (m_currentBlock s)
                (smt.apply exit (CHC.errorValue s :: state)))] /\
          m_currentBlock s' = smt.apply exit (CHC.errorValue s :: state') /\
          m_verificationTargets s' = m_verificationTargets s
      else
        exists sum iface init p,
          CHC.summary f s = Some (sum, s) /\
          CHC.interface s = Some (iface, s) /\
          CHC.initialStateVariables s = Some (init, s) /\
          m_interfaces s !! contract_id (declaration contract) = Some p /\
          m_currentBlock s' = smt.apply p init /\
          let r1 :=
            (CHC.edge (m_currentBlock s) (EncodingContext.assertions (m_context s))
               (smt.BoolLit true) sum,
             CHC.edgeName (m_currentBlock s) sum) in
          if isPublic f
          then
            (exists assertions,
               emitted s s' []
                 [r1;
                  (CHC.edge (smt.apply p init) assertions
                     (smt.And sum (smt.Eq (CHC.errorValue s) (smt.IntLit 0))) iface,
                   CHC.edgeName (smt.apply p init) iface)]) /\
            m_verificationTargets s' =
              emplaceTarget (fun_id f)
                {| value := smt.apply p init; constraints := sum;
                   errorId := CHC.errorValue s |}
                (m_verificationTargets s)
          else
            emitted s s' [] [r1] /\
            m_verificationTargets s' = m_verificationTargets s.
Proof.
  unfold CHC.endVisit_FunctionDefinition, CHC.shouldVisit. intros Himpl Hr.
  rewrite Himpl in Hr. cbn [negb] in Hr.
  run_next nc s0 H0. apply gets_Some in H0 as [-> ->].
  run_next u1 s1 H1.
  apply modifyContext_onlyContext in Hr as [E]. explicit E.
  destruct (CHC.isNotCurrentFunction f s) eqn:Hnc.
  - run_next cur s2 H2. apply currentFunction_inv in H2 as [Hcur ->].
    run_next u3 s3 H3. apply solAssert_Some in H3 as [Hc1 ->].
    run_next u4 s4 H4. apply solAssert_Some in H4 as [Hc2 ->].
    run_next ok s5 H5. apply gets_Some in H5 as [-> ->].
    apply solAssert_Some in H1 as [Hok ->].
    split; [eauto|]. split; [exact Hc2|]. split; [exact Hok|]. split. reflexivity.
  - run_next u2 s2 H2. apply modify_Some in H1 as ->.
    destruct (isConstructor f) eqn:Hctor.
    + run_next contract s3 H3. apply currentContract_inv in H3 as [Hc ->].
      run_next so s4 H4. apply gets_Some in H4 as [-> ->].
      run_next exit s5 H5.
      unfold CHC.createSymbolicBlock, CHC.registerRelation in H5.
      apply bind_Some in H5 as (u6 & s6 & H6 & H5). apply modify_Some in H6 as ->.
      apply ret_Some in H5 as [-> ->].
      run_next e s7 H7. apply gets_Some in H7 as [-> ->].
      run_next state s8 H8. ro_state H8.
      run_next from s9 H9. apply gets_Some in H9 as [-> ->].
      run_next to s10 H10. apply ret_Some in H10 as [-> ->].
      run_next u11 s11 H11. apply connectBlocks_exact in H11 as ->.
      run_next cur s12 H12. apply gets_Some in H12 as [-> ->].
      run_next u13 s13 H13. apply clearIndices_onlyContext in H13 as [E13]. explicit E13.
      run_next e s14 H14. apply gets_Some in H14 as [-> ->].
      run_next state' s15 H15. ro_state H15.
      apply setCurrentBlock_exact in H2 as [_ [c' ->]].
      split; [reflexivity|]. split; [reflexivity|].
      exists contract. split; [exact Hc|]. cbn zeta.
      exists state, state'. split.
      { revert H8. apply currentStateVariables_transfer; reflexivity. }
      split; [split; reflexivity|]. split; reflexivity.
    + run_next assertionError s3 H3. apply gets_Some in H3 as [-> ->].
      run_next fsum s4 H4. pose proof (readonly_summary _ _ _ _ H4) as ->.
      run_next from s5 H5. apply gets_Some in H5 as [-> ->].
      run_next u6 s6 H6. apply connectBlocks_exact in H6 as ->.
      run_next iface s7 H7. pose proof (readonly_interface _ _ _ H7) as ->.
      run_next init s8 H8. ro_state H8.
      run_next contract s9 H9. apply currentContract_inv in H9 as [Hc ->].
      run_next ifaces s10 H10. apply gets_Some in H10 as [-> ->].
      run_next p s11 H11. apply deref_Some in H11 as [Hp ->].
      run_next u12 s12 H12. apply setCurrentBlock_exact in H12 as [_ [c' ->]].
      assert (CHC.interface s = Some (iface, s)) as Hi
        by (revert H7; apply interface_transfer; reflexivity).
      assert (CHC.initialStateVariables s = Some (init, s)) as Hinit
        by (revert H8; apply stateVariablesAtIndex_transfer; reflexivity).
      cbn in Hc, Hp.
      destruct (isPublic f).
      * run_next from s13 H13. apply gets_Some in H13 as [-> ->].
        run_next u14 s14 H14. apply addVerificationTarget_exact in H14 as ->.
        apply connectBlocks_exact in H2 as ->.
        split; [reflexivity|]. split; [reflexivity|].
        exists contract. split; [exact Hc|].
        exists fsum, iface, init, p.
        split; [exact H4|]. split; [exact Hi|]. split; [exact Hinit|]. split; [exact Hp|].
        split; [reflexivity|]. cbn zeta. split; [|reflexivity].
        eexists. split; [rewrite app_nil_r; reflexivity|].
        fields. rewrite <- app_assoc. reflexivity.
      * apply ret_Some in H2 as [_ ->].
        split; [reflexivity|]. split; [reflexivity|].
        exists contract. split; [exact Hc|].
        exists fsum, iface, init, p.
        split; [exact H4|]. split; [exact Hi|]. split; [exact Hinit|]. split; [exact Hp|].
        split; [reflexivity|]. cbn zeta.
        split; [split; [rewrite app_nil_r; reflexivity|reflexivity]|reflexivity].
Qed.

(** X17.  [visit(FunctionDefinition)] on an implemented function returns
    [false].  While another function is current, this is the inlining of a
    base constructor: both functions are constructors and the visited one
    belongs to another contract, otherwise the visit is an internal error;
    the encoder goes on in the current block.  When no function is current,
    the function becomes the current one; an entry block and a body block
    are created, named with two successive values of the block counter; the
    entry block, applied to the variables of the function, is reached from
    the genesis predicate, and for a constructor from the current block;
    the body block is reached from the entry block and becomes the current
    block, in which the body of the function is encoded. *)
Theorem visit_FunctionDefinition_entry inlineBases (f : FunctionDefinition) s res s' :
  isImplemented f = true ->
  CHC.visit_FunctionDefinition inlineBases f s = Some (res, s') ->
  res = false /\
  match m_currentFunction s with
  | Some cur =>
      isConstructor cur = true /\ isConstructor f = true /\
      CHC.scopeIsNotCurrentContract f s = true /\
      CHC.SMTEncoder_visit_FunctionDefinition inlineBases f s = Some (tt, s')
  | None =>
      exists entry bodyBlock c0 args from bodyPred sa sb,
        let n := m_blockCounter s in
        let s1 :=
          declareBlocks [entry; bodyBlock]
            (set_m_context c0 (set_m_currentFunction (Some f) s)) in
        let functionPred := smt.apply entry args in
        let r1 :=
          (CHC.edge from (EncodingContext.assertions (m_context s1))
             (smt.BoolLit true) functionPred,
           CHC.edgeName from functionPred) in
        let r2 :=
          (CHC.edge functionPred (EncodingContext.assertions (m_context sa))
             (smt.BoolLit true) bodyPred,
           CHC.edgeName functionPred bodyPred) in
        blockNamed n "" entry /\ blockNamed (n + 1) "" bodyBlock /\
        CHC.currentFunctionVariables s1 = Some (args, s1) /\
        CHC.predicate bodyBlock s1 = Some (bodyPred, s1) /\
        (if isConstructor f then from = m_currentBlock s
         else CHC.genesis s = Some (from, s)) /\
        onlyContext (CHC.emitRule r1 s1) sa /\
        CHC.setCurrentBlock bodyBlock None (CHC.emitRule r2 sa) = Some (tt, sb) /\
        m_currentFunction sb = Some f /\
        emitted s sb [entry; bodyBlock] [r1; r2] /\
        CHC.SMTEncoder_visit_FunctionDefinition inlineBases f sb = Some (tt, s')
  end.
Proof.
  unfold CHC.visit_FunctionDefinition, CHC.shouldVisit. intros Himpl Hr.
  rewrite Himpl in Hr. cbn [negb] in Hr.
  run_next cur s0 H0. apply gets_Some in H0 as [-> ->].
  destruct (m_currentFunction s) as [cur|] eqn:Hcur.
  - run_next u1 s1 H1. apply solAssert_Some in H1 as [Hc1 ->].
    run_next u2 s2 H2. apply solAssert_Some in H2 as [Hc2 ->].
    run_next ok s3 H3. apply gets_Some in H3 as [-> ->].
    run_next u4 s4 H4. apply solAssert_Some in H4 as [Hok ->].
    run_next u5 s5 H5. destruct u5. apply ret_Some in Hr as [-> ->].
    split; [reflexivity|]. repeat (split; [assumption|]). exact H5.
  - run_next u1 s1 H1. apply modify_Some in H1 as ->.
    run_next u2 s2 H2. apply modifyContext_onlyContext in H2 as [E2]. explicit E2.
    run_next entry s3 H3. apply createBlock_declares in H3 as [Hentry ->].
    run_next bodyBlock s4 H4. apply createBlock_declares in H4 as [Hbody ->].
    run_next vars s5 H5. pose proof (readonly_currentFunctionVariables _ _ _ H5) as ->.
    run_next functionPred s6 H6. apply ret_Some in H6 as [-> ->].
    run_next bodyPred s7 H7. pose proof (readonly_predicate _ _ _ _ H7) as ->.
    run_next u8 s8 H8.
    match type of H5 with _ ?x = _ => set (s1 := x) in * end.
    assert (exists from,
              (if isConstructor f then from = m_currentBlock s
               else CHC.genesis s = Some (from, s)) /\
              s8 = CHC.emitRule
                     (CHC.edge from (EncodingContext.assertions (m_context s1))
                        (smt.BoolLit true) (smt.apply entry vars),
                      CHC.edgeName from (smt.apply entry vars)) s1) as (from & Hfrom & ->).
    { destruct (isConstructor f).
      - apply bind_Some in H8 as (from & s9 & H9 & H8). apply gets_Some in H9 as [-> ->].
        apply connectBlocks_exact in H8 as ->. eexists. split; reflexivity.
      - apply bind_Some in H8 as (g & s9 & H9 & H8).
        pose proof (readonly_genesis _ _ _ H9) as ->.
        apply connectBlocks_exact in H8 as ->. exists g. split; [|reflexivity].
        apply genesis_shape in H9 as (p & Hp & ->). cbn in Hp.
        unfold CHC.genesis, bind, gets, deref. rewrite Hp. reflexivity. }
    run_next e s9 H9. apply gets_Some in H9 as [-> ->].
    run_next u10 s10 H10. run_next stateVars s11 H11. apply gets_Some in H11 as [-> ->].
    run_next u12 s12 H12. run_next u13 s13 H13.
    assert (onlyContext
              (CHC.emitRule
                 (CHC.edge from (EncodingContext.assertions (m_context s1))
                    (smt.BoolLit true) (smt.apply entry vars),
                  CHC.edgeName from (smt.apply entry vars)) s1) s13) as Hctx.
    { clear Hr. apply onlyContext_trans with s10; [eauto with frame|].
      apply onlyContext_trans with s12; eauto with frame. }
    clear H10 H12 H13.
    run_next u14 s14 H14. apply connectBlocks_exact in H14 as ->.
    run_next u15 sb H15. destruct u15.
    run_next u16 s16 H16. destruct u16. apply ret_Some in Hr as [-> ->].
    split; [reflexivity|].
    exists entry, bodyBlock, c, vars, from, bodyPred, s13, sb.
    cbn zeta. rewrite declareBlocks_cons, declareBlocks_cons, declareBlocks_nil.
    fold s1.
    split; [exact Hentry|]. split; [eapply blockNamed_eq; [exact Hbody|simpl; lia]|].
    split; [exact H5|]. split; [exact H7|]. split; [exact Hfrom|].
    split; [exact Hctx|]. split; [exact H15|].
    pose proof (setCurrentBlock_frameS _ _ _ _ _ H15) as [_ Hf _ _ _].
    pose proof (setCurrentBlock_quiet _ _ _ _ _ H15) as [Hi _ _ _ _ _ _ _ _ _].
    destruct Hctx as [E]. explicit E.
    split; [rewrite Hf; reflexivity|].
    split; [|exact H16].
    split; rewrite Hi; subst s1; unfold declareBlock; fields; rewrite <- app_assoc;
      reflexivity.
Qed.

End Proofs.

(** ** Contracts *)

Section Proofs.
Context `{Environment}.

Lemma addAssertion_at e s u s' :
  CHC.addAssertion e s = Some (u, s') ->
  s' = set_m_context (EncodingContext.addAssertion e (m_context s)) s.
Proof.
  unfold CHC.addAssertion, CHC.modifyContext. intros Hr. apply modify_Some in Hr. exact Hr.
Qed.

Lemma interface_shape s e s' :
  CHC.interface s = Some (e, s') ->
  exists c p args,
    m_currentContract s = Some c /\
    m_interfaces s !! contract_id (declaration c) = Some p /\
    e = smt.apply p args.
Proof.
  unfold CHC.interface. intros Hr.
  apply bind_Some in Hr as (vars & s2 & H2 & Hr). apply gets_Some in H2 as [-> ->].
  apply bind_Some in Hr as (l & s3 & H3 & Hr).
  pose proof (readonly_mapM _ _ readonly_currentValue _ _ _ H3) as ->.
  apply bind_Some in Hr as (c & s1 & H1 & Hr). apply currentContract_inv in H1 as [Hc ->].
  apply bind_Some in Hr as (ifaces & s4 & H4 & Hr). apply gets_Some in H4 as [-> ->].
  apply bind_Some in Hr as (p & s5 & H5 & Hr). apply deref_Some in H5 as [Hp ->].
  apply ret_Some in Hr as [-> _]. eauto 8.
Qed.

Lemma createSymbolicBlock_exact so name s p s' :
  CHC.createSymbolicBlock so name s = Some (p, s') ->
  p = {| smt.sfv_name := name; smt.sfv_sort := so; smt.sfv_index := 0 |} /\
  s' = CHC.register {| smt.sfv_name := name; smt.sfv_sort := so; smt.sfv_index := 0 |} s.
Proof.
  unfold CHC.createSymbolicBlock, CHC.registerRelation. intros Hr.
  apply bind_Some in Hr as (u & t & E & Hr). apply modify_Some in E as ->.
  apply ret_Some in Hr as [-> ->]. split; reflexivity.
Qed.

(** X18.  [visit(ContractDefinition)] returns [false] and needs the
    interface of the contract, which [defineInterfacesAndSummaries]
    defines.  It starts the analysis of the contract afresh: the contract is
    the current one, its state variables (inherited and private ones
    included) and their sorts are recorded, the error index is 0, no
    destination of [break] or [continue] is set; then it registers, without
    using the block counter, the predicates [error_<name>_<id>],
    [summary_constructor_<name>_<id>] and [implicit_constructor_<name>_<id>]
    with the sorts of no argument, of the error and the state, and of the
    state; and it makes the interface of the contract, applied to the state
    variables, the current block.  From there the functions of the contract
    are encoded. *)
Theorem visit_ContractDefinition_predicates c s res s' :
  CHC.visit_ContractDefinition c s = Some (res, s') ->
  res = false /\
  exists p state sb,
    let suffix := CHC.contractSuffix (declaration c) in
    let sorts := CHC.stateSorts (declaration c) in
    let errorPredicate :=
      {| smt.sfv_name := "error_" +:+ suffix;
         smt.sfv_sort := smt.FunctionSort [] smt.boolSort; smt.sfv_index := 0 |} in
    let summaryPredicate :=
      {| smt.sfv_name := "summary_constructor_" +:+ suffix;
         smt.sfv_sort := smt.FunctionSort (smt.intSort :: sorts) smt.boolSort;
         smt.sfv_index := 0 |} in
    let implicitPredicate :=
      {| smt.sfv_name := "implicit_constructor_" +:+ suffix;
         smt.sfv_sort := smt.FunctionSort sorts smt.boolSort; smt.sfv_index := 0 |} in
    m_interfaces s !! contract_id (declaration c) = Some p /\
    m_currentContract sb = Some c /\
    m_stateVariables sb = CHC.stateVariablesIncludingInheritedAndPrivate (declaration c) /\
    m_stateSorts sb = sorts /\
    m_errorPredicate sb = Some errorPredicate /\
    m_constructorSummaryPredicate sb = Some summaryPredicate /\
    m_implicitConstructorPredicate sb = Some implicitPredicate /\
    m_error sb = 0 /\ m_breakDest sb = None /\ m_continueDest sb = None /\
    m_unknownFunctionCallSeen sb = false /\
    m_currentBlock sb = smt.apply p state /\
    m_blockCounter sb = m_blockCounter s /\
    emitted s sb [errorPredicate; summaryPredicate; implicitPredicate] [] /\
    CHC.SMTEncoder_visit_ContractDefinition c sb = Some (tt, s').
Proof.
  unfold CHC.visit_ContractDefinition, CHC.resetContractAnalysis, CHC.initContract,
    CHC.m_error_resetIndex, CHC.constructorSort, CHC.interfaceSort.
  intros Hr.
  repeat match goal with
  | Hr : bind (modify _) _ _ = Some _ |- _ =>
      let u := fresh "u" in let t := fresh "t" in let E := fresh "E" in
      apply bind_Some in Hr as (u & t & E & Hr); apply modify_Some in E as ->
  | Hr : bind (bind _ _) _ _ = Some _ |- _ =>
      let u := fresh "u" in let t := fresh "t" in let E := fresh "E" in
      apply bind_Some in Hr as (u & t & E & Hr)
  end.
  repeat match goal with
  | E : bind (modify _) _ _ = Some _ |- _ =>
      let u := fresh "u" in let t := fresh "t" in let E' := fresh "E" in
      apply bind_Some in E as (u & t & E' & E); apply modify_Some in E' as ->
  | E : modify _ _ = Some _ |- _ => apply modify_Some in E as ->
  end.
  apply modifyContext_onlyContext in E0 as [E0]. explicit E0.
  run_next u9 t1 H1. apply clearIndices_onlyContext in H1 as [E1]. explicit E1.
  run_next p1 t2 H2. apply createSymbolicBlock_exact in H2 as [-> ->].
  run_next u10 t3 H3. apply modify_Some in H3 as ->.
  run_next so t4 H4. apply gets_Some in H4 as [-> ->].
  run_next p2 t5 H5. apply createSymbolicBlock_exact in H5 as [-> ->].
  run_next u11 t6 H6. apply modify_Some in H6 as ->.
  run_next so t7 H7. apply gets_Some in H7 as [-> ->].
  run_next p3 t8 H8. apply createSymbolicBlock_exact in H8 as [-> ->].
  run_next u12 t9 H9. apply modify_Some in H9 as ->.
  run_next state t10 H10. pose proof (readonly_currentStateVariables _ _ _ H10) as ->.
  run_next contract t11 H11. apply currentContract_inv in H11 as [Hc ->].
  cbn in Hc. injection Hc as <-.
  run_next ifaces t12 H12. apply gets_Some in H12 as [-> ->].
  run_next p t13 H13. apply deref_Some in H13 as [Hp ->]. cbn in Hp.
  run_next u14 sb H14. apply setCurrentBlock_exact in H14 as [_ [c2 ->]].
  run_next u15 t15 H15. destruct u15. apply ret_Some in Hr as [-> ->].
  split; [reflexivity|].
  match type of H15 with _ _ ?x = _ => exists p, state, x end. cbn zeta.
  split; [exact Hp|].
  repeat (split; [reflexivity|]).
  split; [split; fields; rewrite <- ?app_assoc, ?app_nil_r; reflexivity|].
  exact H15.
Qed.

(** X19.  [endVisit(ContractDefinition)] encodes the construction of the
    contract.  After the state variables got their zero values, the
    implicit constructor, applied to the initial state variables, is reached
    from the genesis predicate ([r1]) and becomes the current block, with
    the error value 0.  From there the constructor of the contract is
    encoded, or the constructors of its bases when it has none.  The block
    this ends in is connected to the summary of the constructor applied to
    the error value and the state variables ([r2]); that summary, at new
    indices of the state variables, becomes the current block and the
    verification target of the contract, without a constraint, unless the
    contract has a target already; it is connected to the interface,
    guarded by the error value being 0 ([r3]); and no contract is current
    afterwards. *)
Theorem endVisit_ContractDefinition_construction c s u s' :
  CHC.endVisit_ContractDefinition c s = Some (u, s') ->
  exists g implicitPredicate c0 init sk summaryPredicate state contract state' iface
         assertions,
    CHC.genesis s = Some (g, s) /\
    m_implicitConstructorPredicate s = Some implicitPredicate /\
    CHC.initialStateVariables (set_m_context c0 s) = Some (init, set_m_context c0 s) /\
    let implicitConstructor := smt.apply implicitPredicate init in
    let r1 :=
      (CHC.edge g (EncodingContext.assertions c0) (smt.BoolLit true) implicitConstructor,
       CHC.edgeName g implicitConstructor) in
    let sb :=
      set_m_context
        (EncodingContext.addAssertion (smt.Eq (CHC.errorValue s) (smt.IntLit 0)) c0)
        (set_m_currentBlock implicitConstructor (CHC.emitRule r1 s)) in
    match constructor c with
    | Some k =>
        CHC.acceptFunction (CHC.inlineConstructorHierarchy (bases c) c) k sb = Some (tt, sk)
    | None => CHC.inlineConstructorHierarchy (bases c) c sb = Some (tt, sk)
    end /\
    m_constructorSummaryPredicate sk = Some summaryPredicate /\
    CHC.currentStateVariables sk = Some (state, sk) /\
    m_currentContract sk = Some contract /\
    let summary := smt.apply summaryPredicate (CHC.errorValue sk :: state) in
    let r2 :=
      (CHC.edge (m_currentBlock sk) (EncodingContext.assertions (m_context sk))
         (smt.BoolLit true) summary,
       CHC.edgeName (m_currentBlock sk) summary) in
    let from := smt.apply summaryPredicate (CHC.errorValue sk :: state') in
    let r3 :=
      (CHC.edge from assertions (smt.Eq (CHC.errorValue sk) (smt.IntLit 0)) iface,
       CHC.edgeName from iface) in
    (exists p args,
       m_interfaces sk !! contract_id (declaration contract) = Some p /\
       iface = smt.apply p args) /\
    emitted sk s' [] [r2; r3] /\
    m_verificationTargets s' =
      emplaceTarget (contract_id (declaration contract))
        {| value := from; constraints := smt.BoolLit true; errorId := CHC.errorValue sk |}
        (m_verificationTargets sk) /\
    m_currentContract s' = None.
Proof.
  unfold CHC.endVisit_ContractDefinition, CHC.SMTEncoder_endVisit_ContractDefinition.
  intros Hr.
  run_next vars s0 H0. apply gets_Some in H0 as [-> ->].
  run_next u1 s1 H1.
  assert (onlyContext s s1) as [E1] by (clear Hr; eauto with frame).
  clear H1. explicit E1.
  run_next ip s2 H2. apply gets_Some in H2 as [-> ->].
  run_next implicitPredicate s3 H3. apply deref_Some in H3 as [Hip ->]. cbn in Hip.
  run_next init s4 H4. pose proof (readonly_initialStateVariables _ _ _ H4) as ->.
  run_next g s5 H5. pose proof (readonly_genesis _ _ _ H5) as ->.
  run_next u6 s6 H6. apply connectBlocks_exact in H6 as ->.
  run_next u7 s7 H7. apply modify_Some in H7 as ->.
  run_next e s8 H8. apply gets_Some in H8 as [-> ->].
  run_next u9 s9 H9. apply addAssertion_at in H9 as ->.
  run_next u10 sk H10. destruct u10.
  run_next sp s11 H11. apply gets_Some in H11 as [-> ->].
  run_next summaryPredicate s12 H12. apply deref_Some in H12 as [Hsp ->].
  run_next e s13 H13. apply gets_Some in H13 as [-> ->].
  run_next state s14 H14. pose proof (readonly_currentStateVariables _ _ _ H14) as ->.
  run_next fsummary s15 H15. apply ret_Some in H15 as [-> ->].
  run_next from s16 H16. apply gets_Some in H16 as [-> ->].
  run_next u17 s17 H17. apply connectBlocks_exact in H17 as ->.
  run_next contract s18 H18. apply currentContract_inv in H18 as [Hc ->]. cbn in Hc.
  run_next u19 s19 H19. apply clearIndices_onlyContext in H19 as [E19]. explicit E19.
  run_next e s20 H20. apply gets_Some in H20 as [-> ->].
  run_next state' s21 H21. pose proof (readonly_currentStateVariables _ _ _ H21) as ->.
  run_next u22 s22 H22. apply setCurrentBlock_exact in H22 as [_ [c2 ->]].
  run_next from s23 H23. apply gets_Some in H23 as [-> ->].
  run_next e s24 H24. apply gets_Some in H24 as [-> ->].
  run_next u25 s25 H25. apply addVerificationTarget_exact in H25 as ->.
  run_next iface s26 H26. pose proof (readonly_interface _ _ _ H26) as ->.
  run_next u27 s27 H27. apply connectBlocks_exact in H27 as ->.
  run_next u28 s28 H28. apply modifyContext_onlyContext in H28 as [E28]. explicit E28.
  apply modify_Some in Hr as ->.
  exists g, implicitPredicate, c0, init, sk, summaryPredicate, state, contract, state', iface.
  eexists.
  split. { apply genesis_shape in H5 as (p & Hp & ->). cbn in Hp.
           unfold CHC.genesis, bind, gets, deref. rewrite Hp. reflexivity. }
  split; [exact Hip|]. split; [exact H4|]. cbn zeta.
  split; [destruct (constructor c); exact H10|]. split; [exact Hsp|]. split; [exact H14|]. split; [exact Hc|].
  split.
  { apply interface_shape in H26 as (k & p & args & Hk & Hp & ->).
    cbn in Hk, Hp. rewrite Hc in Hk. injection Hk as <-.
    exists p, args. split; [exact Hp|reflexivity]. }
  split; [split; fields; rewrite <- ?app_assoc, ?app_nil_r; reflexivity|].
  split; reflexivity.
Qed.

End Proofs.

(** ** The source units, the targets and the names *)

Section Proofs.
Context `{Environment}.

(** The map that [analyze] builds from the source unit and the units it
    refers to. *)
Lemma sourceMap_spec (units : list SourceUnit) : forall (m : gmap nat SourceUnit),
  let m' := foldl (fun m u => match m !! source_id u with
                              | Some _ => m
                              | None => <[source_id u := u]> m
                              end) m units in
  (forall k u, m !! k = Some u -> m' !! k = Some u) /\
  (forall u, u ∈ units -> is_Some (m' !! source_id u)) /\
  (forall k u, m' !! k = Some u -> m !! k = Some u \/ (u ∈ units /\ source_id u = k)).
Proof.
  induction units as [|x units IH]; intros m; cbn [foldl].
  - split; [auto|]. split; [intros u Hu; inversion Hu|auto].
  - specialize (IH (match m !! source_id x with
                    | Some _ => m
                    | None => <[source_id x := x]> m
                    end)).
    cbn zeta in IH. destruct IH as (Hkeep & Hall & Hfrom).
    split; [|split].
    + intros k u Hk. apply Hkeep.
      destruct (m !! source_id x) eqn:Ex; [exact Hk|].
      rewrite lookup_insert_ne; [exact Hk|]. congruence.
    + intros u Hu. apply elem_of_cons in Hu as [->|Hu]; [|apply Hall; exact Hu].
      destruct (m !! source_id x) eqn:Ex.
      * eexists. apply Hkeep. exact Ex.
      * eexists. apply Hkeep. apply lookup_insert_eq.
    + intros k u Hk. apply Hfrom in Hk as [Hk|[Hu Ek]].
      * destruct (m !! source_id x) eqn:Ex; [left; exact Hk|].
        destruct (decide (k = source_id x)) as [->|Hne].
        -- rewrite lookup_insert_eq in Hk. injection Hk as <-.
           right. split; [left|reflexivity].
        -- rewrite lookup_insert_ne in Hk by congruence. left. exact Hk.
      * right. split; [right; exact Hu|exact Ek].
Qed.

#[local] Instance IdCompare_total {V} : Total (@IdCompare V).
Proof. intros x y. unfold IdCompare. lia. Qed.

(** X20.  The source units that [analyze] goes through: the source unit
    itself is one of them, every unit it refers to is represented by a unit
    of the same id, nothing else is gone through, no id comes twice, and the
    units come in the order of their ids. *)
Theorem sourceUnits_once _source referenced :
  let units := CHC.sourceUnits _source referenced in
  _source ∈ units /\
  (forall u, u ∈ referenced -> exists u', u' ∈ units /\ source_id u' = source_id u) /\
  (forall u, u ∈ units -> u ∈ _source :: referenced) /\
  NoDup (source_id <$> units) /\
  Sorted le (source_id <$> units).
Proof.
  cbn zeta. unfold CHC.sourceUnits.
  set (m := foldl _ ∅ (_source :: referenced)).
  destruct (sourceMap_spec (_source :: referenced) ∅) as (Hkeep & Hall & Hfrom).
  fold m in Hkeep, Hall, Hfrom.
  assert (forall k u, m !! k = Some u -> source_id u = k) as Hid.
  { intros k u Hk. apply Hfrom in Hk as [Hk|[_ Hk]]; [|exact Hk].
    rewrite lookup_empty in Hk. discriminate Hk. }
  assert (forall u, u ∈ snd <$> CHC.byId m <-> exists k, m !! k = Some u) as Hin.
  { intros u. rewrite list_elem_of_fmap. split.
    - intros ([k v] & -> & Hkv). apply byId_elem in Hkv. eauto.
    - intros (k & Hk). exists (k, u). split; [reflexivity|]. apply byId_elem. exact Hk. }
  assert (source_id <$> (snd <$> CHC.byId m) = fst <$> CHC.byId m) as Hids.
  { rewrite <- list_fmap_compose. apply list_fmap_ext.
    intros i [k u] Hi. cbn. apply Hid. apply byId_elem.
    eapply list_elem_of_lookup_2. exact Hi. }
  split; [|split; [|split; [|split]]].
  - apply Hin. exists (source_id _source).
    pose proof (sourceMap_spec referenced (<[source_id _source := _source]> ∅)) as (Hk & _ & _).
    apply Hk. apply lookup_insert_eq.
  - intros u Hu. destruct (Hall u) as [u' Hu']; [right; exact Hu|].
    exists u'. split; [apply Hin; eauto|]. apply Hid in Hu'. exact Hu'.
  - intros u Hu. apply Hin in Hu as (k & Hk).
    apply Hfrom in Hk as [Hk|[Hu _]]; [|exact Hu].
    rewrite lookup_empty in Hk. discriminate Hk.
  - rewrite Hids. unfold CHC.byId. rewrite merge_sort_Permutation.
    apply NoDup_fst_map_to_list.
  - rewrite Hids. unfold CHC.byId.
    pose proof (Sorted_merge_sort (@IdCompare SourceUnit) (map_to_list m)) as Hs.
    induction Hs as [|x l Hs IH Hhd]; [constructor|].
    cbn [fmap list_fmap]. constructor; [exact IH|].
    destruct Hhd as [|y l Hxy]; constructor. exact Hxy.
Qed.

(** X21.  [addVerificationTarget] is an [emplace]: the scope has a target
    afterwards, a target that was registered before stays as it was, also
    for the scope itself, and nothing else in the encoder changes. *)
Theorem addVerificationTarget_first_stays scope from constraint error s u s' :
  CHC.addVerificationTarget scope from constraint error s = Some (u, s') ->
  is_Some (m_verificationTargets s' !! scope) /\
  (forall k t, m_verificationTargets s !! k = Some t ->
               m_verificationTargets s' !! k = Some t) /\
  (forall k t, m_verificationTargets s' !! k = Some t ->
               m_verificationTargets s !! k = Some t \/
               (k = scope /\ m_verificationTargets s !! scope = None /\
                t = {| value := from; constraints := constraint; errorId := error |})) /\
  s' = set_m_verificationTargets (m_verificationTargets s') s.
Proof.
  intros Hr. apply addVerificationTarget_exact in Hr as ->. cbn. unfold emplaceTarget.
  destruct (m_verificationTargets s !! scope) as [old|] eqn:E.
  - split; [rewrite E; eauto|]. split; [auto|]. split; [auto|]. reflexivity.
  - split; [rewrite lookup_insert_eq; eauto|]. split; [|split; [|reflexivity]].
    + intros k t Hk. rewrite lookup_insert_ne; [exact Hk|]. congruence.
    + intros k t Hk. destruct (decide (k = scope)) as [->|Hne].
      * rewrite lookup_insert_eq in Hk. injection Hk as <-. right. auto.
      * rewrite lookup_insert_ne in Hk by congruence. left. exact Hk.
Qed.

(** X22.  The name of a block tells the value of the block counter at which
    it was created: two blocks with the same name were created at the same
    value of the counter, whatever their nodes and prefixes are, and no
    block has the name of a summary. *)
Theorem createBlock_name_tells_counter node prefix s b s1 :
  CHC.createBlock node prefix s = Some (b, s1) ->
  (forall node' prefix' t b' t1,
     CHC.createBlock node' prefix' t = Some (b', t1) ->
     smt.sfv_name b' = smt.sfv_name b -> m_blockCounter t = m_blockCounter s) /\
  (forall function contract t b' t1,
     CHC.createSummaryBlock function contract t = Some (b', t1) ->
     smt.sfv_name b' <> smt.sfv_name b).
Proof.
  intros Hb. apply createBlock_exact in Hb as [[_ (rest & Hname)] _].
  split.
  - intros node' prefix' t b' t1 Hb' E.
    apply createBlock_exact in Hb' as [[_ (rest' & Hname')] _].
    apply (counterNamed_inj _ _ (smt.sfv_name b)).
    + rewrite <- E, Hname'. apply counterNamed_block.
    + rewrite Hname. apply counterNamed_block.
  - intros function contract t b' t1 Hb' E.
    assert (exists rest', smt.sfv_name b' = "summary_" +:+ rest') as (rest' & Hname').
    { revert Hb'.
      unfold CHC.createSummaryBlock, CHC.uniquePrefix, CHC.predicateName,
        CHC.createSymbolicBlock, CHC.registerRelation.
      intros Hb'. run_inv; eexists; reflexivity. }
    rewrite Hname, Hname' in E. discriminate E.
Qed.

End Proofs.

(** ** The tables during the encoding *)

Lemma tables_refl s : tables s s.
Proof. split; reflexivity. Qed.

Lemma tables_trans s1 s2 s3 : tables s1 s2 -> tables s2 s3 -> tables s1 s3.
Proof. intros [] []. split; congruence. Qed.

Lemma kept_tables s s' : kept s s' -> tables s s'.
Proof. intros []. split; assumption. Qed.

#[global] Hint Resolve tables_refl : frame.
#[global] Hint Extern 3 (tables ?s ?s') =>
  match goal with
  | H : _ s = Some (_, s') |- _ => apply kept_tables; solve [eauto 3 with frame]
  end : frame.

Lemma forEach_tables {A} (f : A -> M unit) l s u s' :
  (forall a t v t', f a t = Some (v, t') -> tables t t') ->
  forEach l f s = Some (u, s') -> tables s s'.
Proof.
  intros Hf. apply forEach_rel; [apply tables_refl|apply tables_trans|].
  apply Forall_forall. intros a _. apply Hf.
Qed.

#[global] Hint Extern 5 (tables ?s ?s') =>
  match goal with
  | H : forEach _ _ s = Some (_, s') |- _ =>
      eapply forEach_tables; [|exact H]; clear H; frame_auto tables_trans
  end : frame.

Ltac tables_chain :=
  first
    [ frame_pure
    | match reverse goal with
      | H : _ ?s = Some (_, ?sB) |- tables ?s ?s2 =>
          apply (tables_trans s sB s2); [solve [eauto 3 with frame]|];
          clear H; tables_chain
      | H : tables ?s ?sB |- tables ?s ?s2 =>
          apply (tables_trans s sB s2); [exact H|];
          clear H; tables_chain
      end
    | match reverse goal with
      | H : _ ?sA = Some (_, ?sB) |- tables ?s ?s2 =>
          apply (tables_trans s sA s2); [frame_pure|];
          apply (tables_trans sA sB s2); [solve [eauto 3 with frame]|];
          clear H; tables_chain
      | H : tables ?sA ?sB |- tables ?s ?s2 =>
          apply (tables_trans s sA s2); [frame_pure|];
          apply (tables_trans sA sB s2); [exact H|];
          clear H; tables_chain
      end ].

Section Proofs.
Context `{Environment}.

Lemma addVerificationTarget_tables sc f c e s u s' :
  CHC.addVerificationTarget sc f c e s = Some (u, s') -> tables s s'.
Proof.
  unfold CHC.addVerificationTarget. intros Hr. run_inv.
  destruct (m_verificationTargets s !! sc); frame_pure.
Qed.
Local Hint Extern 1 (tables ?s ?s') =>
  match goal with
  | H : CHC.addVerificationTarget _ _ _ _ s = Some (_, s') |- _ => eapply addVerificationTarget_tables; exact H
  end : frame.

Lemma visit_FunctionDefinition_tables inl f s b s' :
  (forall s u s', inl s = Some (u, s') -> tables s s') ->
  CHC.visit_FunctionDefinition inl f s = Some (b, s') -> tables s s'.
Proof.
  intros Hinl. unfold CHC.visit_FunctionDefinition, CHC.SMTEncoder_visit_FunctionDefinition,
    CHC.predicate_args.
  frame_auto tables_trans.
Qed.

Lemma endVisit_FunctionDefinition_tables f s b s' :
  CHC.endVisit_FunctionDefinition f s = Some (b, s') -> tables s s'.
Proof.
  unfold CHC.endVisit_FunctionDefinition, CHC.predicate_args.
  frame_auto tables_trans.
Qed.

Lemma acceptFunction_tables inl f s b s' :
  (forall s u s', inl s = Some (u, s') -> tables s s') ->
  CHC.acceptFunction inl f s = Some (b, s') -> tables s s'.
Proof.
  intros Hinl. unfold CHC.acceptFunction. intros Hr. run_inv.
  eapply tables_trans; [eapply visit_FunctionDefinition_tables; eassumption|].
  eapply endVisit_FunctionDefinition_tables; eassumption.
Qed.

Lemma initializeStateVariables_tables c s u s' :
  CHC.initializeStateVariables c s = Some (u, s') -> tables s s'.
Proof. unfold CHC.initializeStateVariables. frame_auto tables_trans. Qed.
Local Hint Extern 1 (tables ?s ?s') =>
  match goal with
  | H : CHC.initializeStateVariables _ s = Some (_, s') |- _ => eapply initializeStateVariables_tables; exact H
  end : frame.

Lemma inlineConstructorHierarchy_tables hierarchy : forall c s u s',
  CHC.inlineConstructorHierarchy hierarchy c s = Some (u, s') -> tables s s'.
Proof.
  induction hierarchy as [|nextBase rest IH]; intros c s u s' Hr;
    cbn [CHC.inlineConstructorHierarchy] in Hr.
  - eauto with frame.
  - destruct (constructor nextBase) as [ctor|]; run_inv.
    + match goal with
      | Hq : CHC.acceptFunction _ _ _ = Some (_, ?s0) |- _ =>
          apply tables_trans with s0; [|eauto with frame];
          exact (acceptFunction_tables _ _ _ _ _ (fun t v t' => IH nextBase t v t') Hq)
      end.
    + match goal with
      | Hq : CHC.inlineConstructorHierarchy _ _ ?s0 = _ |- _ =>
          apply tables_trans with s0; [eauto with frame|eapply IH; exact Hq]
      end.
Qed.
Local Hint Extern 1 (tables ?s ?s') =>
  match goal with
  | H : CHC.inlineConstructorHierarchy _ _ s = Some (_, s') |- _ => eapply inlineConstructorHierarchy_tables; exact H
  end : frame.

Lemma SMTEncoder_visit_ContractDefinition_tables c s u s' :
  CHC.SMTEncoder_visit_ContractDefinition c s = Some (u, s') -> tables s s'.
Proof.
  unfold CHC.SMTEncoder_visit_ContractDefinition. intros Hr. run_inv.
  match goal with
  | Hq : forEach _ _ ?s0 = _ |- _ =>
      apply tables_trans with s0; [eauto with frame|];
      revert Hq; apply forEach_tables
  end.
  intros f t v t'. apply acceptFunction_tables. intros t0 v0 t0' Ht. run_inv. apply tables_refl.
Qed.
Local Hint Extern 1 (tables ?s ?s') =>
  match goal with
  | H : CHC.SMTEncoder_visit_ContractDefinition _ s = Some (_, s') |- _ => eapply SMTEncoder_visit_ContractDefinition_tables; exact H
  end : frame.

Lemma visit_ContractDefinition_tables c s b s' :
  CHC.visit_ContractDefinition c s = Some (b, s') -> tables s s'.
Proof.
  unfold CHC.visit_ContractDefinition, CHC.resetContractAnalysis, CHC.initContract,
    CHC.m_error_resetIndex.
  frame_auto tables_trans.
Qed.

Lemma endVisit_ContractDefinition_tables c s b s' :
  CHC.endVisit_ContractDefinition c s = Some (b, s') -> tables s s'.
Proof.
  unfold CHC.endVisit_ContractDefinition, CHC.SMTEncoder_endVisit_ContractDefinition,
    CHC.predicate_args.
  intros Hr. run_inv.
  all: match goal with
       | Hc : CHC.acceptFunction _ _ _ = Some _ |- _ =>
           apply acceptFunction_tables in Hc; [|apply inlineConstructorHierarchy_tables]
       | _ => idtac
       end.
  all: tables_chain.
Qed.

Lemma acceptContract_tables c s b s' :
  CHC.acceptContract c s = Some (b, s') -> tables s s'.
Proof.
  unfold CHC.acceptContract. intros Hr. run_inv.
  match goal with
  | Hq : CHC.endVisit_ContractDefinition _ ?s0 = _ |- _ =>
      apply tables_trans with s0;
      [eapply visit_ContractDefinition_tables; eassumption
      |eapply endVisit_ContractDefinition_tables; exact Hq]
  end.
Qed.

Lemma acceptSourceUnit_tables src s b s' :
  CHC.acceptSourceUnit src s = Some (b, s') -> tables s s'.
Proof.
  unfold CHC.acceptSourceUnit. apply forEach_tables. intros c t v t'. apply acceptContract_tables.
Qed.

(** The relations and the rules of the backend only grow. *)
Lemma grows_refl s : exists P R, emitted s s P R.
Proof. exists [], []. apply emitted_refl. Qed.

Lemma grows_trans s1 s2 s3 :
  (exists P R, emitted s1 s2 P R) -> (exists P R, emitted s2 s3 P R) ->
  exists P R, emitted s1 s3 P R.
Proof. intros (P & R & E) (P' & R' & E'). eexists _, _. eapply emitted_trans; eassumption. Qed.

Lemma checkAssertion_grows target assertion s r s' :
  CHC.checkAssertion target assertion s = Some (r, s') ->
  tables s s' /\ exists P R, emitted s s' P R.
Proof.
  unfold CHC.checkAssertion, CHC.createErrorBlock, CHC.registerRelation, CHC.error,
    CHC.connectBlocks, CHC.addRule.
  intros Hr. run_inv.
  all: match goal with Hq : CHC.query _ _ _ = Some _ |- _ => apply query_spec in Hq; subst end.
  all: split; [split; reflexivity|].
  all: eexists _, _; split; cbn; reflexivity.
Qed.

Lemma transactionAssertions_tables scope s A s' :
  CHC.transactionAssertions scope s = Some (A, s') ->
  tables s s' /\ exists P R, emitted s s' P R.
Proof.
  unfold CHC.transactionAssertions. intros Hr. run_inv.
  split; [split; reflexivity|]. exists [], []. split; cbn; rewrite app_nil_r; reflexivity.
Qed.

Lemma checkTargets_grows targets s outcomes s' :
  CHC.checkTargets targets s = Some (outcomes, s') ->
  tables s s' /\ exists P R, emitted s s' P R.
Proof.
  unfold CHC.checkTargets. intros Hr. run_inv.
  match goal with Hm : mapM _ _ _ = Some _ |- _ => revert Hm end.
  apply (mapM_rel (fun s s' => tables s s' /\ exists P R, emitted s s' P R)).
  - intros t. split; [apply tables_refl|apply grows_refl].
  - intros t1 t2 t3 [T1 G1] [T2 G2].
    split; [eapply tables_trans|eapply grows_trans]; eassumption.
  - apply Forall_forall. intros [scope target] _ t b t' Hr.
    run_next A t1 Ht. apply transactionAssertions_tables in Ht as [T1 G1].
    assert (tables t1 t' /\ exists P R, emitted t1 t' P R) as [T2 G2].
    { revert Hr.
      apply (mapM_rel (fun s s' => tables s s' /\ exists P R, emitted s s' P R)).
      - intros t0. split; [apply tables_refl|apply grows_refl].
      - intros ta tb tc [Ta Ga] [Tb Gb].
        split; [eapply tables_trans|eapply grows_trans]; eassumption.
      - apply Forall_forall. intros assertion _ t2 b2 t2' Hq. run_inv.
        eapply checkAssertion_grows; eassumption. }
    split; [eapply tables_trans|eapply grows_trans]; eassumption.
Qed.

Lemma defineInterfacesAndSummaries_genesis src s u s' :
  CHC.defineInterfacesAndSummaries src s = Some (u, s') ->
  m_genesisPredicate s' = m_genesisPredicate s.
Proof.
  rewrite defineInterfacesAndSummaries_unfold.
  apply (forEach_rel (fun a b => m_genesisPredicate b = m_genesisPredicate a));
    [reflexivity|congruence|].
  apply Forall_forall. intros contract _ a v b.
  apply (forEach_rel (fun a b => m_genesisPredicate b = m_genesisPredicate a));
    [reflexivity|congruence|].
  apply Forall_forall. intros base _ a0 v0 b0 Hb.
  unfold defineBase in Hb.
  run_next p t1 H1.
  unfold CHC.createSymbolicBlock, CHC.registerRelation in H1.
  apply bind_Some in H1 as (u1 & t0 & H0 & H1). apply modify_Some in H0 as ->.
  apply ret_Some in H1 as [-> ->].
  run_next u2 t2 H2. apply modify_Some in H2 as ->.
  run_next u3 t3 H3.
  assert (m_genesisPredicate t3 = m_genesisPredicate a0) as E3.
  { match type of H3 with
    | forEach _ _ ?x = _ => transitivity (m_genesisPredicate x); [|reflexivity]
    end.
    revert H3.
    apply (forEach_rel (fun a b => m_genesisPredicate b = m_genesisPredicate a));
      [reflexivity|congruence|].
    apply Forall_forall. intros var _ x w y Hv. run_inv; [reflexivity|].
    match goal with
    | Hc : CHC.createVariable _ _ = Some _ |- _ =>
        apply modifyContext_onlyContext in Hc as [Hc]; rewrite Hc; reflexivity
    end. }
  rewrite <- E3. revert Hb.
  apply (forEach_rel (fun a b => m_genesisPredicate b = m_genesisPredicate a));
    [reflexivity|congruence|].
  apply Forall_forall. intros function _ x w y Hd.
  unfold defineSummary, CHC.createSummaryBlock, CHC.uniquePrefix, CHC.predicateName,
    CHC.createSymbolicBlock, CHC.registerRelation in Hd.
  run_inv; reflexivity.
Qed.

(** X24.  The encoding of a source unit works with the interfaces and the
    summaries that [defineInterfacesAndSummaries] made: it does not change
    these tables or the genesis predicate, it leaves the safe assertions and
    the reports alone, and it only adds to the relations and rules of the
    backend. *)
Theorem acceptSourceUnit_keeps_tables _source s u s' :
  CHC.acceptSourceUnit _source s = Some (u, s') ->
  m_summaries s' = m_summaries s /\
  m_interfaces s' = m_interfaces s /\
  m_genesisPredicate s' = m_genesisPredicate s /\
  m_safeAssertions s' = m_safeAssertions s /\
  m_outerErrorReporter s' = m_outerErrorReporter s /\
  exists P R, emitted s s' P R.
Proof.
  intros Hr.
  pose proof (acceptSourceUnit_tables _ _ _ _ Hr) as [T1 T2 T3].
  pose proof (acceptSourceUnit_frame _ _ _ _ Hr) as F.
  pose proof (frame_emitted _ _ F) as G. destruct F as [F1 F2 _ _].
  repeat (split; [assumption|]). exact G.
Qed.

(** X25.  [analyze], step by step.  It needs the pragma of the SMT checker.
    It starts from the state [s0]: the encoding context is cleared, the
    tables of the last analysis (verification targets, safe assertions,
    recorded assertions, call graph and summaries) are emptied, while the
    table of the interfaces and the block counter stay as they are, the
    predicate [genesis] is registered and the fact [genesis] is added.
    From [s0] the interfaces and summaries of all the source units are
    defined, then the source units are encoded, then the targets are
    queried.  The interfaces and the summaries that the encoder has at the
    end are those that were defined, the genesis predicate is [genesis],
    and [genesis] and its fact are the first relation and the first rule
    that the analysis leaves in the backend. *)
Theorem analyze_starts_from_genesis _source referenced s outcomes s' :
  CHC.analyze _source referenced s = Some (outcomes, s') ->
  let genesis :=
    {| smt.sfv_name := "genesis"; smt.sfv_sort := smt.FunctionSort [] smt.boolSort;
       smt.sfv_index := 0 |} in
  let cleared :=
    EncodingContext.setAssertionAccumulation false
      {| m_variables := ∅; m_expressions := ∅; m_assertions := [];
         m_accumulateAssertions := m_accumulateAssertions (m_context s);
         m_pathConditions := m_pathConditions (m_context s) |} in
  let s0 :=
    CHC.emitRule (smt.apply genesis [], "genesis")
      (set_m_genesisPredicate (Some genesis)
         (CHC.register genesis
            (set_m_summaries ∅
               (set_m_callGraph ∅
                  (set_m_functionAssertions ∅
                     (set_m_safeAssertions ∅
                        (set_m_verificationTargets ∅ (set_m_context cleared s)))))))) in
  experimentalSMTChecker _source = true /\
  exists sd se,
    forEach (CHC.sourceUnits _source referenced) CHC.defineInterfacesAndSummaries s0
      = Some (tt, sd) /\
    forEach (CHC.sourceUnits _source referenced) CHC.acceptSourceUnit sd = Some (tt, se) /\
    CHC.checkTargets (CHC.byId (m_verificationTargets se)) se = Some (outcomes, s') /\
    m_genesisPredicate s' = Some genesis /\
    m_interfaces s' = m_interfaces sd /\ m_summaries s' = m_summaries sd /\
    exists P R, emitted s s' (genesis :: P) ((smt.apply genesis [], "genesis") :: R).
Proof.
  unfold CHC.analyze. intros Hr.
  run_next ua sa Ha. apply solAssert_Some in Ha as [Hpragma ->].
  run_next u0 s0 H0. unfold CHC.modifyContext in H0. apply modify_Some in H0 as ->.
  run_next u1 s1 H1.
  match type of H1 with _ ?x = _ => set (sc := x) in * end.
  assert (s1 = set_m_summaries ∅ (set_m_callGraph ∅ (set_m_functionAssertions ∅
            (set_m_safeAssertions ∅ (set_m_verificationTargets ∅ sc)))))
    as -> by (unfold CHC.resetSourceAnalysis in H1; clear Hr; run_inv; reflexivity).
  clear H1.
  run_next p s2 H2.
  unfold CHC.createSymbolicBlock, CHC.registerRelation in H2.
  apply bind_Some in H2 as (u2 & s3 & H3 & H2). apply modify_Some in H3 as ->.
  apply ret_Some in H2 as [-> ->].
  run_next u4 s4 H4. apply modify_Some in H4 as ->.
  run_next g s5 H5. unfold CHC.genesis in H5.
  apply bind_Some in H5 as (o & s6 & H6 & H5). apply gets_Some in H6 as [-> ->].
  apply bind_Some in H5 as (q & s7 & H7 & H5). apply deref_Some in H7 as [E7 ->].
  cbn in E7. injection E7 as <-. apply ret_Some in H5 as [-> ->].
  run_next u8 s8 H8. unfold CHC.addRule in H8. apply modify_Some in H8 as ->.
  run_next u9 sd H9. destruct u9.
  run_next u10 se H10. destruct u10.
  run_next targets s11 H11. apply gets_Some in H11 as [-> ->].
  match type of H9 with forEach _ _ ?x = _ => set (sg := x) in * end.
  assert (frame sg sd) as Fd.
  { revert H9. apply forEach_frame. intros src t v t'. apply defineInterfacesAndSummaries_frame. }
  assert (tables sd se /\ frame sd se) as [Te Fe].
  { split.
    - revert H10. apply forEach_tables. intros src t v t'. apply acceptSourceUnit_tables.
    - revert H10. apply forEach_frame. intros src t v t'. apply acceptSourceUnit_frame. }
  pose proof Hr as Hq. apply checkTargets_grows in Hq as [Tc Gc].
  assert (m_genesisPredicate sd =
          Some {| smt.sfv_name := "genesis"; smt.sfv_sort := smt.FunctionSort [] smt.boolSort;
                  smt.sfv_index := 0 |}) as Hg.
  { eapply (forEach_preserves
      (fun t => m_genesisPredicate t =
                Some {| smt.sfv_name := "genesis";
                        smt.sfv_sort := smt.FunctionSort [] smt.boolSort;
                        smt.sfv_index := 0 |})); [| |exact H9]; [|reflexivity].
    intros src t t' _ Ht Hd. apply defineInterfacesAndSummaries_genesis in Hd. congruence. }
  destruct Te as [Te1 Te2 Te3], Tc as [Tc1 Tc2 Tc3].
  cbn zeta. split; [exact Hpragma|].
  exists sd, se.
  split; [exact H9|]. split; [exact H10|]. split; [exact Hr|].
  split; [congruence|]. split; [congruence|]. split; [congruence|].
  apply frame_emitted in Fd as (P1 & R1 & [Ep1 Er1]).
  apply frame_emitted in Fe as (P2 & R2 & [Ep2 Er2]).
  destruct Gc as (P3 & R3 & [Ep3 Er3]).
  exists (P1 ++ P2 ++ P3), (R1 ++ R2 ++ R3). split.
  - rewrite Ep3, Ep2, Ep1. cbn. rewrite <- !app_assoc. reflexivity.
  - rewrite Er3, Er2, Er1. cbn. rewrite <- !app_assoc. reflexivity.
Qed.

End Proofs.

(** * The theorems on the sample program *)

Section Sample.
#[local] Existing Instance Example.environment.

(** C10 on the function [k] of the sample contract, which has no body. *)
Lemma unimplemented_function_is_not_encoded_witness :
  isImplemented Example.k = false /\
  CHC.visit_FunctionDefinition (ret tt) Example.k Example.inBody
    = Some (false, Example.inBody) /\
  CHC.endVisit_FunctionDefinition Example.k Example.inBody = Some (tt, Example.inBody) /\
  exists s', CHC.defineInterfacesAndSummaries Example.source Example.initial = Some (tt, s') /\
             hasSummary 1 40 s'.
Proof.
  destruct (unimplemented_function_is_not_encoded (ret tt) Example.k eq_refl)
    as (Hvisit & Hend & Hsummary).
  split; [reflexivity|]. split; [apply Hvisit|]. split; [apply Hend|].
  apply (Hsummary Example.source Example.C Example.C Example.initial);
    vm_compute; tauto.
Defined.

(** C2 on the assertion of the sample contract, encoded in the body of [w]. *)
Lemma visitAssert_encodes_assert_witness :
  exists to s',
    CHC.summary Example.w
      (set_m_error (S (m_error Example.inBody))
         (set_m_functionAssertions
            (CHC.insertInto 50 13 (m_functionAssertions Example.inBody)) Example.inBody))
      = Some (to, set_m_error (S (m_error Example.inBody))
                    (set_m_functionAssertions
                       (CHC.insertInto 50 13 (m_functionAssertions Example.inBody))
                       Example.inBody)) /\
    CHC.visitAssert Example.assertCall Example.inBody = Some (tt, s') /\
    last (rules (m_interface s')) =
      Some (CHC.edge (m_currentBlock Example.inBody)
              (EncodingContext.assertions (m_context Example.inBody))
              (smt.And
                 (smt.And (EncodingContext.currentPathConditions (m_context Example.inBody))
                    (smt.Not (smt.SSA (smt.ExprSym 16) 0)))
                 (smt.Eq (smt.SSA smt.ErrorSym 6) (smt.IntLit 13)))
              to,
            CHC.edgeName (m_currentBlock Example.inBody) to) /\
    exists p rest, to = smt.apply p (smt.SSA smt.ErrorSym 6 :: rest).
Proof.
  eexists _, _. split; [vm_compute; reflexivity|].
  destruct (visitAssert_encodes_assert Example.inBody Example.assertCall Example.w
              Example.C (OtherExpression 16 [Example.identifier 17; Example.identifier 18])
              _ ltac:(vm_compute; reflexivity) ltac:(vm_compute; reflexivity) eq_refl
              ltac:(vm_compute; reflexivity))
    as [Hrun Hshape].
  split; [exact Hrun|]. split; [vm_compute; reflexivity|].
  exact Hshape.
Defined.

(** C3 on a call of [f] from the body of [w]: [f] is no library function,
    so the pre-state is the state of [C] at the current indices ([total] and
    [balances] at index 1), the post-state the same variables at index 2,
    and the return value [r] a new instance. *)
Lemma predicate_FunctionCall_summary_application_witness :
  exists p s',
    (m_summaries Example.inBody !! 1) ≫= (fun m => m !! 10) = Some p /\
    Forall (known (m_context Example.inBody)) (m_stateVariables Example.inBody) /\
    NoDup (var_id <$> m_stateVariables Example.inBody) /\
    NoDup (var_id <$> returnParameters Example.f_signature) /\
    CHC.predicate_FunctionCall (Example.callOf 90) Example.inBody =
      Some (smt.apply p
              [smt.SSA smt.ErrorSym 6;
               smt.SSA (smt.VarSym 2) 1; smt.SSA (smt.VarSym 3) 1;
               smt.SSA (smt.ExprSym 93) 0;
               smt.SSA (smt.VarSym 2) 2; smt.SSA (smt.VarSym 3) 2;
               smt.SSA (smt.VarSym 12) 4], s').
Proof.
  eexists _, _.
  split; [vm_compute; reflexivity|].
  assert (Forall (known (m_context Example.inBody)) (m_stateVariables Example.inBody)) as Hk.
  { vm_compute. repeat constructor. }
  assert (NoDup (var_id <$> m_stateVariables Example.inBody)) as Hnd.
  { vm_compute. apply (bool_decide_unpack _). vm_compute. exact I. }
  assert (NoDup (var_id <$> returnParameters Example.f_signature)) as Hndr.
  { vm_compute. apply (bool_decide_unpack _). vm_compute. exact I. }
  split; [exact Hk|]. split; [exact Hnd|]. split; [exact Hndr|].
  rewrite (predicate_FunctionCall_summary_application Example.inBody (Example.callOf 90)
             Example.f_signature Example.C _ eq_refl
             ltac:(vm_compute; reflexivity) ltac:(vm_compute; reflexivity) Hk Hnd
             ltac:(discriminate) Hndr).
  vm_compute. reflexivity.
Defined.

(** C1: the assertion of [f] is gathered for the two public functions [g]
    and [h] that call [f].  The query for [g] is answered UNSATISFIABLE and
    the query for [h] SATISFIABLE: the assertion is in the safe set although
    a query of its error predicate was not answered UNSATISFIABLE. *)
Lemma analyze_safe_after_satisfiable_query :
  exists outcomes s',
    CHC.analyze Example.source [] Example.initial = Some (outcomes, s') /\
    outcomes = [(20, 13, smt.UNSATISFIABLE); (30, 13, smt.SATISFIABLE)] /\
    13 ∈ CHC.safeAssertions s'.
Proof.
  eexists _, _. split; [vm_compute; reflexivity|]. split; [reflexivity|].
  apply (bool_decide_unpack _). vm_compute. exact I.
Defined.

(** The amended C1 on the same run. *)
Lemma analyze_safeAssertions_witness :
  exists outcomes s',
    CHC.analyze Example.source [] Example.initial = Some (outcomes, s') /\
    (forall scope a, (exists r, (scope, a, r) ∈ outcomes) <-> gathered s' scope a) /\
    (forall a, a ∈ CHC.safeAssertions s' <->
               exists scope, (scope, a, smt.UNSATISFIABLE) ∈ outcomes) /\
    m_outerErrorReporter s' =
      m_outerErrorReporter Example.initial ++ flat_map reportOf outcomes /\
    exists p b,
      asked (m_verificationTargets s') (EncodingContext.assertions (m_context s')) p b
        outcomes (m_errorPredicate s') (m_interface s').
Proof.
  destruct (CHC.analyze Example.source [] Example.initial) as [[outcomes s']|] eqn:Hrun.
  - exists outcomes, s'. split; [reflexivity|].
    exact (analyze_safeAssertions Example.source [] Example.initial outcomes s' Hrun).
  - vm_compute in Hrun. discriminate Hrun.
Defined.



(** C5 on an [if] with an [else] branch in the body of [w]. *)
Lemma visit_IfStatement_blocks_and_edges_witness :
  exists res s',
    CHC.visit_IfStatement CHC.acceptExpression CHC.acceptStatement 60 Example.condition
      (Block 62 []) (Some (Block 63 [])) Example.inBody = Some (res, s') /\
    exists header trueBlock falseBlock afterIf,
      blockNamed (m_blockCounter Example.inBody) "if_header_" header /\
      blockNamed (m_blockCounter Example.inBody + 1) "if_true_" trueBlock /\
      blockNamed (m_blockCounter Example.inBody + 2) "if_false_" falseBlock /\
      blockNamed (m_blockCounter Example.inBody + 3) "" afterIf /\
      isPredicateOf afterIf (m_currentBlock s') /\
      exists Pc Pt Pf Rc Rt Rf r1 r2 r3 r4 r5,
        emitted Example.inBody s'
          ([header; trueBlock; falseBlock; afterIf] ++ Pc ++ Pt ++ Pf)
          ([r1] ++ Rc ++ [r2; r3] ++ Rt ++ [r4] ++ Rf ++ [r5]).
Proof.
  destruct (CHC.visit_IfStatement CHC.acceptExpression CHC.acceptStatement 60
              Example.condition (Block 62 []) (Some (Block 63 [])) Example.inBody)
    as [[res s']|] eqn:Hrun.
  - exists res, s'. split; [reflexivity|].
    destruct (visit_IfStatement_blocks_and_edges _ _ _ _ _ _ _ Hrun)
      as (header & trueBlock & [falseBlock|] & afterIf & Hh & Ht & Hf & Ha & Hrest);
      [|destruct Hf].
    exists header, trueBlock, falseBlock, afterIf.
    split; [exact Hh|]. split; [exact Ht|]. split; [exact Hf|]. split; [exact Ha|].
    destruct Hrest as (r1 & sh & sc & cond & r2 & r3 & st & st' & r4 & se & sa &
                       Pc & Rc & Pt & Rt & Pf & Rf & Re & H).
    destruct H as (_ & _ & _ & _ & _ & _ & _ & _ & _ & _ & _ & _ & Helse & _ & Hcur & Hemit).
    destruct Helse as (sf & sf' & r5 & _ & _ & _ & _ & -> & _).
    split; [exact Hcur|].
    exists Pc, Pt, Pf, Rc, Rt, Rf, r1, r2, r3, r4, r5. exact Hemit.
  - vm_compute in Hrun. discriminate Hrun.
Defined.

(** C6 on a [do]-[while] loop in the body of [w], whose body is a [break]. *)
Lemma visit_WhileStatement_blocks_and_edges_witness :
  exists res s',
    CHC.visit_WhileStatement CHC.acceptExpression CHC.acceptStatement 70 true
      Example.condition (Block 72 [Break 73]) Example.inBody = Some (res, s') /\
    exists header bodyBlock afterLoop,
      blockNamed (m_blockCounter Example.inBody) "do_while_header_" header /\
      blockNamed (m_blockCounter Example.inBody + 1) "do_while_body_" bodyBlock /\
      blockNamed (m_blockCounter Example.inBody + 2) "" afterLoop /\
      m_breakDest s' = m_breakDest Example.inBody /\
      m_continueDest s' = m_continueDest Example.inBody /\
      isPredicateOf afterLoop (m_currentBlock s') /\
      exists P0 Pc Pb R0 Rc Rb r1 r2 r3 r4,
        emitted Example.inBody s'
          ([header; bodyBlock; afterLoop] ++ P0 ++ Pc ++ Pb)
          (R0 ++ [r1] ++ Rc ++ [r2; r3] ++ Rb ++ [r4]).
Proof.
  destruct (CHC.visit_WhileStatement CHC.acceptExpression CHC.acceptStatement 70 true
              Example.condition (Block 72 [Break 73]) Example.inBody)
    as [[res s']|] eqn:Hrun.
  - exists res, s'. split; [reflexivity|].
    destruct (visit_WhileStatement_blocks_and_edges _ _ _ _ _ _ _ Hrun)
      as (header & bodyBlock & afterLoop & Hh & Hb & Ha & Hrest).
    exists header, bodyBlock, afterLoop.
    split; [exact Hh|]. split; [exact Hb|]. split; [exact Ha|].
    destruct Hrest as (sd & P0 & R0 & r1 & sh & sc & Pc & Rc & cond & r2 & r3 & sb & sb' &
                       Pb & Rb & r4 & sa & H).
    destruct H as (_ & _ & _ & _ & _ & _ & _ & _ & _ & _ & _ & _ & _ & _ & _ & _ & _ & _ &
                   Hbreak & Hcontinue & Hcur & Hemit).
    split; [exact Hbreak|]. split; [exact Hcontinue|]. split; [exact Hcur|].
    exists P0, Pc, Pb, R0, Rc, Rb, r1, r2, r3, r4. exact Hemit.
  - vm_compute in Hrun. discriminate Hrun.
Defined.

(** The sample encoder starts with no predicate. *)
Lemma namesOk_initial : namesOk Example.initial.
Proof. apply namesOk_fresh; reflexivity. Qed.

(** C4 on the analysis of the sample source. *)
Lemma interface_edges_say_error_is_zero_witness :
  namesOk Example.initial /\
  exists outcomes s',
    CHC.analyze Example.source [] Example.initial = Some (outcomes, s') /\
    (forall k p, m_interfaces s' !! k = Some p ->
                 isInterfaceName (smt.sfv_name p) = true) /\
    exists R,
      rules (m_interface s') = rules (m_interface Example.initial) ++ R /\
      forall from assertions constraints p args name,
        (CHC.edge from assertions constraints (smt.apply p args), name) ∈ R ->
        isInterfaceName (smt.sfv_name p) = true ->
        errorIsZero from constraints.
Proof.
  split; [exact namesOk_initial|].
  destruct (CHC.analyze Example.source [] Example.initial) as [[outcomes s']|] eqn:Hrun.
  - exists outcomes, s'. split; [reflexivity|].
    exact (interface_edges_say_error_is_zero Example.source [] Example.initial outcomes s'
             namesOk_initial Hrun).
  - vm_compute in Hrun. discriminate Hrun.
Defined.

(** C8: the analysis of the sample source registers the predicate
    [genesis], whose name contains no numeral at all, and the analysis of a
    contract [B] that inherits from [A] registers the predicate
    [interface_A_80], at index 0, twice: once for [A] and once for the base
    [A] of [B]. *)
Lemma analyze_names_without_counter_and_repeated :
  (exists outcomes s',
     CHC.analyze Example.source [] Example.initial = Some (outcomes, s') /\
     "genesis" ∈ smt.sfv_name <$> relations (m_interface s') /\
     forall (k : nat) before after, "genesis" <> before +:+ pretty k +:+ after) /\
  (exists outcomes s' p,
     CHC.analyze Example.inheritance [] Example.initial = Some (outcomes, s') /\
     relations (m_interface s') !! 1 = Some p /\
     relations (m_interface s') !! 3 = Some p /\
     smt.sfv_name p = "interface_A_80" /\
     ~ NoDup (smt.sfv_name <$> relations (m_interface s'))).
Proof.
  split.
  - eexists _, _. split; [vm_compute; reflexivity|]. split.
    + apply (bool_decide_unpack _). vm_compute. exact I.
    + intros k before after E.
      assert (hasDigit "genesis" = true) as Hd; [|discriminate Hd].
      rewrite E, !hasDigit_app, (hasDigit_pretty k), orb_true_r. reflexivity.
  - eexists _, _, _. split; [vm_compute; reflexivity|].
    split; [vm_compute; reflexivity|]. split; [vm_compute; reflexivity|].
    split; [reflexivity|].
    apply (bool_decide_unpack _). vm_compute. exact I.
Defined.

(** The amended C8 on the analysis of the sample source. *)
Lemma counter_names_are_distinct_witness :
  namesOk Example.initial /\
  exists outcomes s',
    CHC.analyze Example.source [] Example.initial = Some (outcomes, s') /\
    m_blockCounter Example.initial <= m_blockCounter s' /\
    exists P,
      relations (m_interface s') = relations (m_interface Example.initial) ++ P /\
      forall i j name k,
        (smt.sfv_name <$> P) !! i = Some name ->
        (smt.sfv_name <$> P) !! j = Some name ->
        counterNamed k name ->
        m_blockCounter Example.initial <= k < m_blockCounter s' /\ i = j.
Proof.
  split; [exact namesOk_initial|].
  destruct (CHC.analyze Example.source [] Example.initial) as [[outcomes s']|] eqn:Hrun.
  - exists outcomes, s'. split; [reflexivity|].
    exact (proj2 (proj2 (counter_names_are_distinct Example.source [] Example.initial
                           outcomes s' namesOk_initial Hrun))).
  - vm_compute in Hrun. discriminate Hrun.
Defined.

End Sample.

(** * The further properties on the sample program *)

Section SampleRuns.
#[local] Existing Instance Example.environment.

(** X1 on a [break] inside a loop of the body of [w]. *)
Lemma endVisit_Break_edge_and_ghost_witness :
  exists u s' dest ghost r,
    CHC.endVisit_Break (Break 73) Example.inLoop = Some (u, s') /\
    m_breakDest Example.inLoop = Some dest /\
    edgeTo Example.inLoop dest (smt.BoolLit true) r /\
    blockNamed (m_blockCounter Example.inLoop) "break_ghost_" ghost /\
    emitted Example.inLoop s' [ghost] [r] /\
    m_breakDest s' = m_breakDest Example.inLoop /\
    m_continueDest s' = m_continueDest Example.inLoop.
Proof.
  destruct (CHC.endVisit_Break (Break 73) Example.inLoop) as [[u s']|] eqn:Hrun.
  - destruct (endVisit_Break_edge_and_ghost _ _ _ _ Hrun)
      as (dest & ghost & r & p & Hd & He & Hn & _ & _ & _ & Hem & Hb & Hc).
    exists u, s', dest, ghost, r.
    split; [reflexivity|]. split; [exact Hd|]. split; [exact He|]. split; [exact Hn|].
    split; [exact Hem|]. split; [exact Hb|exact Hc].
  - vm_compute in Hrun. discriminate Hrun.
Defined.

(** X2 on a [continue] inside a loop of the body of [w]. *)
Lemma endVisit_Continue_edge_and_ghost_witness :
  exists u s' dest ghost r,
    CHC.endVisit_Continue (Continue 106) Example.inLoop = Some (u, s') /\
    m_continueDest Example.inLoop = Some dest /\
    edgeTo Example.inLoop dest (smt.BoolLit true) r /\
    blockNamed (m_blockCounter Example.inLoop) "continue_ghost_" ghost /\
    emitted Example.inLoop s' [ghost] [r] /\
    m_breakDest s' = m_breakDest Example.inLoop /\
    m_continueDest s' = m_continueDest Example.inLoop.
Proof.
  destruct (CHC.endVisit_Continue (Continue 106) Example.inLoop) as [[u s']|] eqn:Hrun.
  - destruct (endVisit_Continue_edge_and_ghost _ _ _ _ Hrun)
      as (dest & ghost & r & p & Hd & He & Hn & _ & _ & _ & Hem & Hb & Hc).
    exists u, s', dest, ghost, r.
    split; [reflexivity|]. split; [exact Hd|]. split; [exact He|]. split; [exact Hn|].
    split; [exact Hem|]. split; [exact Hb|exact Hc].
  - vm_compute in Hrun. discriminate Hrun.
Defined.

(** X3 on the entry block of [w], created in the contract [C] and applied in
    the body of [w]. *)
Lemma function_block_well_sorted_witness :
  exists b s' args t',
    CHC.createBlock (FunctionNode Example.w) "" Example.inContract = Some (b, s') /\
    m_currentFunction Example.inBody = Some Example.w /\
    m_stateSorts Example.inContract =
      map CHC.smtSortAbstractFunction (m_stateVariables Example.inBody) /\
    CHC.currentFunctionVariables Example.inBody = Some (args, t') /\
    Forall2 fills
      (ErrorSlot ::
       slotsOf ([Example.total; Example.balances] ++ [Example.n] ++
                [Example.total; Example.balances] ++ [Example.n] ++ [])) args /\
    domainOf (smt.sfv_sort b) =
      [smt.intSort; smt.abstractSort 0; smt.abstractSort 1; smt.abstractSort 0;
       smt.abstractSort 0; smt.abstractSort 1; smt.abstractSort 0].
Proof.
  destruct (CHC.createBlock (FunctionNode Example.w) "" Example.inContract)
    as [[b s']|] eqn:Hb; [|vm_compute in Hb; discriminate Hb].
  destruct (CHC.currentFunctionVariables Example.inBody)
    as [[args t']|] eqn:Hv; [|vm_compute in Hv; discriminate Hv].
  assert (m_currentFunction Example.inBody = Some Example.w) as Hf
    by (vm_compute; reflexivity).
  assert (m_stateSorts Example.inContract =
          map CHC.smtSortAbstractFunction (m_stateVariables Example.inBody)) as Hs
    by (vm_compute; reflexivity).
  exists b, s', args, t'.
  split; [reflexivity|]. split; [exact Hf|]. split; [exact Hs|]. split; [reflexivity|].
  exact (function_block_well_sorted Example.w "" Example.inContract b s' Example.inBody
           args t' Hb Hf Hs Hv).
Defined.

(** X4 on the header block of an [if] in the body of [w]. *)
Lemma block_predicate_well_sorted_witness :
  exists b s' p t',
    CHC.createBlock (OtherNode 60) "if_header_" Example.inBody = Some (b, s') /\
    m_currentFunction Example.inBody = Some Example.w /\
    m_stateSorts Example.inBody =
      map CHC.smtSortAbstractFunction (m_stateVariables Example.inBody) /\
    CHC.predicate b Example.inBody = Some (p, t') /\
    appliedTo b
      (ErrorSlot ::
       slotsOf ([Example.total; Example.balances] ++ [Example.n] ++
                [Example.total; Example.balances] ++ [Example.n] ++ [] ++ [])) p.
Proof.
  destruct (CHC.createBlock (OtherNode 60) "if_header_" Example.inBody)
    as [[b s']|] eqn:Hb; [|vm_compute in Hb; discriminate Hb].
  assert (m_currentFunction Example.inBody = Some Example.w) as Hf
    by (vm_compute; reflexivity).
  assert (m_stateSorts Example.inBody =
          map CHC.smtSortAbstractFunction (m_stateVariables Example.inBody)) as Hs
    by (vm_compute; reflexivity).
  destruct (CHC.currentBlockVariables Example.inBody)
    as [[args t']|] eqn:Hv; [|vm_compute in Hv; discriminate Hv].
  assert (CHC.predicate b Example.inBody = Some (smt.apply b args, t')) as Hp.
  { unfold CHC.predicate, bind. rewrite Hv. reflexivity. }
  exists b, s', (smt.apply b args), t'.
  split; [reflexivity|]. split; [exact Hf|]. split; [exact Hs|]. split; [exact Hp|].
  exact (block_predicate_well_sorted 60 "if_header_" Example.w Example.inBody b s'
           Example.inBody _ t' Hb Hf Hf Hs Hp).
Defined.

(** X5 on the summary of [w] in the contract [C], which
    [defineInterfacesAndSummaries] created when the block counter was 4. *)
Lemma summary_well_sorted_witness :
  exists b s0' p t',
    CHC.createSummaryBlock Example.w Example.C_declaration
      (set_m_blockCounter 4 Example.initial) = Some (b, s0') /\
    m_currentContract Example.inBody = Some Example.C /\
    (m_summaries Example.inBody !! 1) ≫= (fun m => m !! 50) = Some b /\
    m_stateVariables Example.inBody =
      CHC.stateVariablesIncludingInheritedAndPrivate Example.C_declaration /\
    CHC.summary Example.w Example.inBody = Some (p, t') /\
    appliedTo b
      (ErrorSlot ::
       slotsOf ([Example.total; Example.balances] ++ [Example.n] ++
                [Example.total; Example.balances] ++ [])) p.
Proof.
  eexists _, _, _, _.
  split; [vm_compute; reflexivity|].
  split; [vm_compute; reflexivity|].
  split; [vm_compute; reflexivity|].
  split; [vm_compute; reflexivity|].
  split; [vm_compute; reflexivity|].
  eapply (summary_well_sorted Example.w Example.C (set_m_blockCounter 4 Example.initial)
            _ _ Example.inBody).
  - vm_compute. reflexivity.
  - vm_compute. reflexivity.
  - vm_compute. reflexivity.
  - vm_compute. reflexivity.
  - vm_compute. reflexivity.
Defined.

(** X6 on the interface of [C] in the body of [w]. *)
Lemma contract_predicates_well_sorted_witness :
  exists b p t',
    m_currentContract Example.inBody = Some Example.C /\
    m_stateSorts Example.inBody =
      map CHC.smtSortAbstractFunction (m_stateVariables Example.inBody) /\
    m_stateVariables Example.inBody =
      CHC.stateVariablesIncludingInheritedAndPrivate Example.C_declaration /\
    m_interfaces Example.inBody !! 1 = Some b /\
    smt.sfv_sort b = CHC.interfaceSort_of Example.C_declaration /\
    CHC.interface Example.inBody = Some (p, t') /\
    appliedTo b (slotsOf (m_stateVariables Example.inBody)) p.
Proof.
  eexists _, _, _.
  split; [vm_compute; reflexivity|].
  split; [vm_compute; reflexivity|].
  split; [vm_compute; reflexivity|].
  split; [vm_compute; reflexivity|].
  split; [vm_compute; reflexivity|].
  split; [vm_compute; reflexivity|].
  eapply (proj2 (proj2 (contract_predicates_well_sorted Example.C _ Example.inBody _ _
                          ltac:(vm_compute; reflexivity) ltac:(vm_compute; reflexivity)
                          ltac:(vm_compute; reflexivity))));
    vm_compute; reflexivity.
Defined.

(** X7 on a target at the body of [w] and the assertion of [f]. *)
Lemma checkAssertion_queries_fresh_error_witness :
  exists r s' p,
    CHC.checkAssertion Example.target 13 Example.inBody = Some (r, s') /\
    m_errorPredicate Example.inBody = Some p /\
    m_errorPredicate s' = Some (smt.increaseIndex p) /\
    relations (m_interface s') =
      relations (m_interface Example.inBody) ++ [smt.increaseIndex p] /\
    m_safeAssertions s' =
      (if bool_decide (r = smt.UNSATISFIABLE)
       then m_safeAssertions Example.inBody ∪ {[13]}
       else m_safeAssertions Example.inBody).
Proof.
  destruct (CHC.checkAssertion Example.target 13 Example.inBody) as [[r s']|] eqn:Hrun.
  - destruct (checkAssertion_queries_fresh_error _ _ _ _ _ Hrun)
      as (p & Hp & Hp' & Hi & _ & Hs).
    exists r, s', p.
    split; [reflexivity|]. split; [exact Hp|]. split; [exact Hp'|].
    split; [rewrite Hi; reflexivity|exact Hs].
  - vm_compute in Hrun. discriminate Hrun.
Defined.

(** X8 on the transaction of [g] after the analysis of the sample source. *)
Lemma transactionAssertions_twice_witness :
  exists assertions s',
    CHC.transactionAssertions 20 Example.analyzed = Some (assertions, s') /\
    sameGraph Example.analyzed s' /\
    m_interface s' = m_interface Example.analyzed /\
    exists assertions' s'',
      CHC.transactionAssertions 20 s' = Some (assertions', s'') /\
      assertions' = assertions.
Proof.
  destruct (CHC.transactionAssertions 20 Example.analyzed)
    as [[assertions s']|] eqn:Hrun.
  - destruct (transactionAssertions_twice _ _ _ _ Hrun) as (Hg & Hi & _ & Hagain).
    exists assertions, s'.
    split; [reflexivity|]. split; [exact Hg|]. split; [exact Hi|exact Hagain].
  - vm_compute in Hrun. discriminate Hrun.
Defined.

(** X9 on the sample source. *)
Lemma defineInterfacesAndSummaries_summaries_witness :
  exists u s',
    CHC.defineInterfacesAndSummaries Example.source Example.started = Some (u, s') /\
    forall k f p,
      (m_summaries s' !! k) ≫= (fun m => m !! f) = Some p ->
      summaryFrom Example.source Example.started k f p.
Proof.
  destruct (CHC.defineInterfacesAndSummaries Example.source Example.started)
    as [[u s']|] eqn:Hrun.
  - exists u, s'. split; [reflexivity|].
    exact (proj2 (defineInterfacesAndSummaries_summaries _ _ _ _ Hrun)).
  - vm_compute in Hrun. discriminate Hrun.
Defined.

(** X10 on a source with a contract and a contract that inherits from it. *)
Lemma defineInterfacesAndSummaries_interfaces_witness :
  exists u s',
    CHC.defineInterfacesAndSummaries Example.inheritance Example.started = Some (u, s') /\
    (forall contract base,
       In contract (nodes Example.inheritance) ->
       In base (linearizedBaseContracts contract) ->
       exists p, m_interfaces s' !! contract_id (declaration base) = Some p /\
                 interfaceFrom Example.inheritance Example.started
                   (contract_id (declaration base)) p) /\
    (forall k p, m_interfaces s' !! k = Some p ->
                 interfaceFrom Example.inheritance Example.started k p).
Proof.
  destruct (CHC.defineInterfacesAndSummaries Example.inheritance Example.started)
    as [[u s']|] eqn:Hrun.
  - exists u, s'. split; [reflexivity|].
    exact (defineInterfacesAndSummaries_interfaces _ _ _ _ Hrun).
  - vm_compute in Hrun. discriminate Hrun.
Defined.

(** X11 on a call of [f] from the body of [w]. *)
Lemma internalFunctionCall_propagates_error_witness :
  exists u s' caller q,
    functionCallToDefinition (Example.callOf 90) = Some Example.f_signature /\
    CHC.internalFunctionCall (Example.callOf 90) Example.inBody = Some (u, s') /\
    (m_summaries Example.inBody !! 1) ≫= (fun m => m !! 10) = Some q /\
    (exists s1 s2 args,
       CHC.predicate_FunctionCall (Example.callOf 90) s1
         = Some (smt.apply q (smt.SSA smt.ErrorSym (S (m_error Example.inBody)) :: args),
                 s2)) /\
    calls (m_callGraph s') caller 10 /\
    (forall a b, calls (m_callGraph Example.inBody) a b -> calls (m_callGraph s') a b).
Proof.
  destruct (CHC.internalFunctionCall (Example.callOf 90) Example.inBody)
    as [[u s']|] eqn:Hrun.
  - destruct (internalFunctionCall_propagates_error (Example.callOf 90) Example.f_signature
                _ _ _ eq_refl Hrun)
      as (contract & p & rest & s1 & callPred & s2 & q & args & Hc & _ & Hpred & -> &
          Hq & _ & _ & Hcall & Hkeep).
    assert (contract = Example.C) as ->.
    { assert (m_currentContract Example.inBody = Some Example.C) as E
        by (vm_compute; reflexivity).
      congruence. }
    exists u, s'. eexists. exists q.
    split; [reflexivity|]. split; [reflexivity|]. split; [exact Hq|].
    split; [exists s1, s2, args; exact Hpred|]. split; [exact Hcall|exact Hkeep].
  - vm_compute in Hrun. discriminate Hrun.
Defined.

(** X12 on an internal call of [f] from the body of [w]. *)
Lemma endVisit_FunctionCall_by_kind_witness :
  exists u s' s1,
    CHC.endVisit_FunctionCall (Example.callOf 90) Example.inBody = Some (u, s') /\
    CHC.internalFunctionCall (Example.callOf 90) Example.inBody = Some (tt, s1) /\
    onlyContext s1 s'.
Proof.
  destruct (CHC.endVisit_FunctionCall (Example.callOf 90) Example.inBody)
    as [[u s']|] eqn:Hrun.
  - destruct (endVisit_FunctionCall_by_kind _ _ _ _ Hrun) as (s1 & Hcall & Hctx).
    exists u, s', s1. split; [reflexivity|]. split; [exact Hcall|exact Hctx].
  - vm_compute in Hrun. discriminate Hrun.
Defined.

(** X13 on a [while] loop in the body of [w], whose body is a [break]. *)
Lemma acceptStatement_leaves_alone_witness :
  exists u s',
    CHC.acceptStatement (Example.whileStatement false) Example.inBody = Some (u, s') /\
    m_breakDest s' = m_breakDest Example.inBody /\
    m_continueDest s' = m_continueDest Example.inBody /\
    m_currentFunction s' = m_currentFunction Example.inBody /\
    kept Example.inBody s' /\
    m_safeAssertions s' = m_safeAssertions Example.inBody /\
    m_outerErrorReporter s' = m_outerErrorReporter Example.inBody /\
    exists P R, emitted Example.inBody s' P R.
Proof.
  destruct (CHC.acceptStatement (Example.whileStatement false) Example.inBody)
    as [[u s']|] eqn:Hrun.
  - exists u, s'. split; [reflexivity|].
    exact (acceptStatement_leaves_alone _ _ _ _ Hrun).
  - vm_compute in Hrun. discriminate Hrun.
Defined.

(** X14 on the assertion of the sample contract, encoded in the body of
    [w]. *)
Lemma acceptExpression_leaves_alone_witness :
  exists u s',
    CHC.acceptExpression Example.assertCall Example.inBody = Some (u, s') /\
    m_currentBlock s' = m_currentBlock Example.inBody /\
    m_blockCounter s' = m_blockCounter Example.inBody /\
    relations (m_interface s') = relations (m_interface Example.inBody) /\
    kept Example.inBody s' /\
    exists R, rules (m_interface s') = rules (m_interface Example.inBody) ++ R.
Proof.
  destruct (CHC.acceptExpression Example.assertCall Example.inBody)
    as [[u s']|] eqn:Hrun.
  - destruct (acceptExpression_leaves_alone _ _ _ _ Hrun)
      as (Hb & Hc & Hr & _ & _ & _ & Hk & _ & _ & HR).
    exists u, s'. split; [reflexivity|]. split; [exact Hb|]. split; [exact Hc|].
    split; [exact Hr|]. split; [exact Hk|exact HR].
  - vm_compute in Hrun. discriminate Hrun.
Defined.

(** X15 on a [for] loop with the three parts of its header in the body of
    [w], whose body is a [continue]. *)
Lemma visit_ForStatement_blocks_and_edges_witness :
  exists res s',
    CHC.visit_ForStatement CHC.acceptExpression CHC.acceptStatement 100
      (Some (ExpressionStatement 101 (Example.identifier 102))) (Some Example.condition)
      (Some (ExpressionStatement 103 (Example.identifier 104)))
      (Block 105 [Continue 106]) Example.inBody = Some (res, s') /\
    exists header bodyBlock afterLoop postBlock,
      blockNamed (m_blockCounter Example.inBody) "for_header_" header /\
      blockNamed (m_blockCounter Example.inBody + 1) "for_body_" bodyBlock /\
      blockNamed (m_blockCounter Example.inBody + 2) "" afterLoop /\
      blockNamed (m_blockCounter Example.inBody + 3) "for_post_" postBlock /\
      m_breakDest s' = m_breakDest Example.inBody /\
      m_continueDest s' = m_continueDest Example.inBody /\
      isPredicateOf afterLoop (m_currentBlock s') /\
      exists Pi Pc Pb Pp Ri Rc Rb Rq Rp r1 r2 r3 r4,
        emitted Example.inBody s'
          ([header; bodyBlock; afterLoop; postBlock] ++ Pi ++ Pc ++ Pb ++ Pp)
          (Ri ++ [r1] ++ Rc ++ [r2; r3] ++ Rb ++ Rq ++ Rp ++ [r4]).
Proof.
  destruct (CHC.visit_ForStatement CHC.acceptExpression CHC.acceptStatement 100
              (Some (ExpressionStatement 101 (Example.identifier 102)))
              (Some Example.condition)
              (Some (ExpressionStatement 103 (Example.identifier 104)))
              (Block 105 [Continue 106]) Example.inBody)
    as [[res s']|] eqn:Hrun.
  - exists res, s'. split; [reflexivity|].
    destruct (visit_ForStatement_blocks_and_edges _ _ _ _ _ _ _ _ Hrun)
      as (header & bodyBlock & afterLoop & [postBlock|] & Hh & Hb & Ha & Hp & Hrest);
      [|destruct Hp].
    exists header, bodyBlock, afterLoop, postBlock.
    split; [exact Hh|]. split; [exact Hb|]. split; [exact Ha|]. split; [exact Hp|].
    destruct Hrest as (si & Pi & Ri & r1 & sh & sc & cond & Pc & Rc & r2 & r3 & sb & sb' &
                       Pb & Rb & sp & Pp & Rp & Rq & r4 & sa & H).
    destruct H as (_ & _ & _ & _ & _ & _ & _ & _ & _ & _ & _ & _ & _ & _ & _ &
                   Hbreak & Hcontinue & Hcur & Hemit).
    split; [exact Hbreak|]. split; [exact Hcontinue|]. split; [exact Hcur|].
    exists Pi, Pc, Pb, Pp, Ri, Rc, Rb, Rq, Rp, r1, r2, r3, r4. exact Hemit.
  - vm_compute in Hrun. discriminate Hrun.
Defined.

(** X16 on the end of the public function [w] of the sample contract. *)
Lemma endVisit_FunctionDefinition_exit_witness :
  exists u s',
    isImplemented Example.w = true /\
    CHC.endVisit_FunctionDefinition Example.w Example.inBody = Some (u, s') /\
    m_currentFunction s' = None /\
    m_blockCounter s' = m_blockCounter Example.inBody /\
    exists sum iface init p assertions,
      CHC.summary Example.w Example.inBody = Some (sum, Example.inBody) /\
      CHC.interface Example.inBody = Some (iface, Example.inBody) /\
      m_interfaces Example.inBody !! 1 = Some p /\
      m_currentBlock s' = smt.apply p init /\
      emitted Example.inBody s' []
        [(CHC.edge (m_currentBlock Example.inBody)
            (EncodingContext.assertions (m_context Example.inBody))
            (smt.BoolLit true) sum,
          CHC.edgeName (m_currentBlock Example.inBody) sum);
         (CHC.edge (smt.apply p init) assertions
            (smt.And sum (smt.Eq (CHC.errorValue Example.inBody) (smt.IntLit 0))) iface,
          CHC.edgeName (smt.apply p init) iface)] /\
      m_verificationTargets s' =
        emplaceTarget 50
          {| value := smt.apply p init; constraints := sum;
             errorId := CHC.errorValue Example.inBody |}
          (m_verificationTargets Example.inBody).
Proof.
  destruct (CHC.endVisit_FunctionDefinition Example.w Example.inBody)
    as [[u s']|] eqn:Hrun.
  - exists u, s'. split; [reflexivity|]. split; [reflexivity|].
    pose proof (endVisit_FunctionDefinition_exit Example.w Example.inBody u s'
                  eq_refl Hrun) as H.
    assert (CHC.isNotCurrentFunction Example.w Example.inBody = false) as E
      by (vm_compute; reflexivity).
    rewrite E in H.
    destruct H as (Hf & Hc & contract & Hcontract & H).
    assert (contract = Example.C) as ->.
    { assert (m_currentContract Example.inBody = Some Example.C) as E'
        by (vm_compute; reflexivity).
      congruence. }
    destruct H as (sum & iface & init & p & Hsum & Hiface & _ & Hp & Hb & H).
    destruct H as ((assertions & Hem) & Ht).
    split; [exact Hf|]. split; [exact Hc|].
    exists sum, iface, init, p, assertions.
    split; [exact Hsum|]. split; [exact Hiface|]. split; [exact Hp|]. split; [exact Hb|].
    split; [exact Hem|exact Ht].
  - vm_compute in Hrun. discriminate Hrun.
Defined.

(** X17 on the visit of [w] in the contract [C]. *)
Lemma visit_FunctionDefinition_entry_witness :
  exists res s' entry bodyBlock r1 r2 sb,
    isImplemented Example.w = true /\
    CHC.visit_FunctionDefinition (ret tt) Example.w Example.inContract = Some (res, s') /\
    res = false /\
    blockNamed (m_blockCounter Example.inContract) "" entry /\
    blockNamed (m_blockCounter Example.inContract + 1) "" bodyBlock /\
    m_currentFunction sb = Some Example.w /\
    emitted Example.inContract sb [entry; bodyBlock] [r1; r2] /\
    CHC.SMTEncoder_visit_FunctionDefinition (ret tt) Example.w sb = Some (tt, s').
Proof.
  destruct (CHC.visit_FunctionDefinition (ret tt) Example.w Example.inContract)
    as [[res s']|] eqn:Hrun.
  - pose proof (visit_FunctionDefinition_entry (ret tt) Example.w Example.inContract res s'
                  eq_refl Hrun) as [Hres H].
    assert (m_currentFunction Example.inContract = None) as E
      by (vm_compute; reflexivity).
    rewrite E in H.
    destruct H as (entry & bodyBlock & c0 & args & from & bodyPred & sa & sb & H).
    destruct H as (He & Hb & _ & _ & _ & _ & _ & Hf & Hem & Hvisit).
    exists res, s', entry, bodyBlock. eexists _, _. exists sb.
    split; [reflexivity|]. split; [reflexivity|]. split; [exact Hres|].
    split; [exact He|]. split; [exact Hb|]. split; [exact Hf|].
    split; [exact Hem|exact Hvisit].
  - vm_compute in Hrun. discriminate Hrun.
Defined.

(** X18 on the visit of the sample contract. *)
Lemma visit_ContractDefinition_predicates_witness :
  exists res s' p state sb,
    CHC.visit_ContractDefinition Example.C Example.defined = Some (res, s') /\
    res = false /\
    m_interfaces Example.defined !! 1 = Some p /\
    m_currentContract sb = Some Example.C /\
    m_stateVariables sb = [Example.total; Example.balances] /\
    m_error sb = 0 /\ m_breakDest sb = None /\ m_continueDest sb = None /\
    m_currentBlock sb = smt.apply p state /\
    m_blockCounter sb = m_blockCounter Example.defined /\
    (exists error summary implicit,
       smt.sfv_name error = "error_C_1" /\
       smt.sfv_name summary = "summary_constructor_C_1" /\
       smt.sfv_name implicit = "implicit_constructor_C_1" /\
       emitted Example.defined sb [error; summary; implicit] []) /\
    CHC.SMTEncoder_visit_ContractDefinition Example.C sb = Some (tt, s').
Proof.
  destruct (CHC.visit_ContractDefinition Example.C Example.defined)
    as [[res s']|] eqn:Hrun.
  - destruct (visit_ContractDefinition_predicates _ _ _ _ Hrun)
      as (Hres & p & state & sb & Hp & Hc & Hv & _ & _ & _ & _ & He & Hbr & Hco & _ &
          Hb & Hn & Hem & Hvisit).
    exists res, s', p, state, sb.
    split; [reflexivity|]. split; [exact Hres|]. split; [exact Hp|]. split; [exact Hc|].
    split; [exact Hv|]. split; [exact He|]. split; [exact Hbr|]. split; [exact Hco|].
    split; [exact Hb|]. split; [exact Hn|]. split; [|exact Hvisit].
    eexists _, _, _. split; [|split; [|split; [|exact Hem]]]; reflexivity.
  - vm_compute in Hrun. discriminate Hrun.
Defined.

(** X19 on the end of the visit of the sample contract, which has no
    constructor and no base. *)
Lemma endVisit_ContractDefinition_construction_witness :
  exists u s' g implicitPredicate sk summaryPredicate state state' iface assertions,
    CHC.endVisit_ContractDefinition Example.C Example.inContract = Some (u, s') /\
    CHC.genesis Example.inContract = Some (g, Example.inContract) /\
    m_implicitConstructorPredicate Example.inContract = Some implicitPredicate /\
    m_constructorSummaryPredicate sk = Some summaryPredicate /\
    CHC.currentStateVariables sk = Some (state, sk) /\
    emitted sk s' []
      [(CHC.edge (m_currentBlock sk) (EncodingContext.assertions (m_context sk))
          (smt.BoolLit true) (smt.apply summaryPredicate (CHC.errorValue sk :: state)),
        CHC.edgeName (m_currentBlock sk)
          (smt.apply summaryPredicate (CHC.errorValue sk :: state)));
       (CHC.edge (smt.apply summaryPredicate (CHC.errorValue sk :: state')) assertions
          (smt.Eq (CHC.errorValue sk) (smt.IntLit 0)) iface,
        CHC.edgeName (smt.apply summaryPredicate (CHC.errorValue sk :: state')) iface)] /\
    m_currentContract s' = None.
Proof.
  destruct (CHC.endVisit_ContractDefinition Example.C Example.inContract)
    as [[u s']|] eqn:Hrun.
  - destruct (endVisit_ContractDefinition_construction _ _ _ _ Hrun)
      as (g & implicitPredicate & c0 & init & sk & summaryPredicate & state & contract &
          state' & iface & assertions & Hg & Hi & _ & _ & Hs & Hv & _ & _ & Hem & _ & Hc).
    exists u, s', g, implicitPredicate, sk, summaryPredicate, state, state', iface,
      assertions.
    split; [reflexivity|]. split; [exact Hg|]. split; [exact Hi|]. split; [exact Hs|].
    split; [exact Hv|]. split; [exact Hem|exact Hc].
  - vm_compute in Hrun. discriminate Hrun.
Defined.

(** X21 on a target for the contract [C], registered in the body of [w]
    where [C] has no target yet. *)
Lemma addVerificationTarget_first_stays_witness :
  exists u s',
    CHC.addVerificationTarget 1 (value Example.target) (constraints Example.target)
      (errorId Example.target) Example.inBody = Some (u, s') /\
    is_Some (m_verificationTargets s' !! 1) /\
    (forall k t, m_verificationTargets Example.inBody !! k = Some t ->
                 m_verificationTargets s' !! k = Some t) /\
    s' = set_m_verificationTargets (m_verificationTargets s') Example.inBody.
Proof.
  destruct (CHC.addVerificationTarget 1 (value Example.target)
              (constraints Example.target) (errorId Example.target) Example.inBody)
    as [[u s']|] eqn:Hrun.
  - destruct (addVerificationTarget_first_stays _ _ _ _ _ _ _ Hrun)
      as (Hsome & Hstay & _ & Heq).
    exists u, s'. split; [reflexivity|]. split; [exact Hsome|].
    split; [exact Hstay|exact Heq].
  - vm_compute in Hrun. discriminate Hrun.
Defined.

(** X22 on the header block of an [if] in the body of [w]. *)
Lemma createBlock_name_tells_counter_witness :
  exists b s1,
    CHC.createBlock (OtherNode 60) "if_header_" Example.inBody = Some (b, s1) /\
    (forall node' prefix' t b' t1,
       CHC.createBlock node' prefix' t = Some (b', t1) ->
       smt.sfv_name b' = smt.sfv_name b ->
       m_blockCounter t = m_blockCounter Example.inBody) /\
    (forall function contract t b' t1,
       CHC.createSummaryBlock function contract t = Some (b', t1) ->
       smt.sfv_name b' <> smt.sfv_name b).
Proof.
  destruct (CHC.createBlock (OtherNode 60) "if_header_" Example.inBody)
    as [[b s1]|] eqn:Hrun.
  - exists b, s1. split; [reflexivity|].
    exact (createBlock_name_tells_counter _ _ _ _ _ Hrun).
  - vm_compute in Hrun. discriminate Hrun.
Defined.

(** X24 on the sample source, after its interfaces and summaries were
    defined. *)
Lemma acceptSourceUnit_keeps_tables_witness :
  exists u s',
    CHC.acceptSourceUnit Example.source Example.defined = Some (u, s') /\
    m_summaries s' = m_summaries Example.defined /\
    m_interfaces s' = m_interfaces Example.defined /\
    m_genesisPredicate s' = m_genesisPredicate Example.defined /\
    m_safeAssertions s' = m_safeAssertions Example.defined /\
    m_outerErrorReporter s' = m_outerErrorReporter Example.defined /\
    exists P R, emitted Example.defined s' P R.
Proof.
  destruct (CHC.acceptSourceUnit Example.source Example.defined) as [[u s']|] eqn:Hrun.
  - exists u, s'. split; [reflexivity|].
    exact (acceptSourceUnit_keeps_tables _ _ _ _ Hrun).
  - vm_compute in Hrun. discriminate Hrun.
Defined.

(** X25 on a second analysis of the sample source by the same encoder. *)
Lemma analyze_starts_from_genesis_witness :
  exists outcomes s' sd se genesis,
    CHC.analyze Example.source [] Example.analyzed = Some (outcomes, s') /\
    smt.sfv_name genesis = "genesis" /\
    forEach (CHC.sourceUnits Example.source []) CHC.acceptSourceUnit sd = Some (tt, se) /\
    CHC.checkTargets (CHC.byId (m_verificationTargets se)) se = Some (outcomes, s') /\
    m_genesisPredicate s' = Some genesis /\
    m_interfaces s' = m_interfaces sd /\ m_summaries s' = m_summaries sd /\
    exists P R, emitted Example.analyzed s' (genesis :: P)
                  ((smt.apply genesis [], "genesis") :: R).
Proof.
  destruct (CHC.analyze Example.source [] Example.analyzed) as [[outcomes s']|] eqn:Hrun.
  - destruct (analyze_starts_from_genesis _ _ _ _ _ Hrun)
      as (_ & sd & se & _ & Hse & Hq & Hg & Hi & Hs & Hem).
    exists outcomes, s', sd, se. eexists.
    split; [reflexivity|]. split; [|split; [exact Hse|split; [exact Hq|split; [exact Hg|
      split; [exact Hi|split; [exact Hs|exact Hem]]]]]].
    reflexivity.
  - vm_compute in Hrun. discriminate Hrun.
Defined.

End SampleRuns.

